(** * Secure middleware service: redaction, encrypted audit trail and
      circuit breaker

    A shallow embedding of the service's library modules
    ([lib/circuitBreaker.js], [lib/sanitizer.js], [lib/crypto.js],
    [lib/auditLog.js]), of the [/secure-inquiry] route and of the start-up
    check of [server.js], together with the properties the specification
    states about them.

    Conventions.  A JavaScript string is the list of its UTF-16 code units
    ([jsstring]); a [Buffer] is a list of bytes.  [Date.now()], random
    bytes, fresh identifiers and the outcome of the downstream call are
    inputs of the operations that consult them.  A JavaScript exception is
    the [Throw] case of [result]. *)

From Stdlib Require Import Bool Ascii String List ZArith NArith Lia.
From Stdlib Require Import DecimalString.
From Stdlib.Strings Require Import Byte.
Import ListNotations.

Set Warnings "-register-all".

(* ================================================================== *)
(** * The circuit breaker ([lib/circuitBreaker.js]) *)
(* ================================================================== *)

Module CircuitBreaker.

Local Open Scope Z_scope.

(** [const STATE = { CLOSED, OPEN, HALF_OPEN }] *)
Inductive STATE := CLOSED | OPEN | HALF_OPEN.

(** [const CONFIG = { FAILURE_THRESHOLD: 3, COOLDOWN_MS: 30000 }] *)
Definition FAILURE_THRESHOLD : Z := 3.
Definition COOLDOWN_MS : Z := 30000.

(** The fields of the [CircuitBreaker] instance.  Times are the
    millisecond counts that [Date.now()] returns. *)
Record t := mk {
  state : STATE;
  failCount : Z;
  nextAttempt : Z
}.

(** [constructor()], run at time [now]. *)
Definition init (now : Z) : t := mk CLOSED 0 now.

(** [canExecute()], called at time [now]: the answer and the breaker
    after the call. *)
Definition canExecute (now : Z) (b : t) : bool * t :=
  match state b with
  | CLOSED => (true, b)
  | OPEN =>
      if nextAttempt b <=? now
      then (true, mk HALF_OPEN (failCount b) (nextAttempt b))
      else (false, b)
  | HALF_OPEN => (true, b)
  end.

(** [recordSuccess()] *)
Definition recordSuccess (b : t) : t :=
  mk CLOSED 0 (nextAttempt b).

(** [recordFailure()], called at time [now]. *)
Definition recordFailure (now : Z) (b : t) : t :=
  match state b with
  | HALF_OPEN => mk OPEN (failCount b) (now + COOLDOWN_MS)
  | _ =>
      let n := failCount b + 1 in
      if FAILURE_THRESHOLD <=? n
      then mk OPEN n (now + COOLDOWN_MS)
      else mk (state b) n (nextAttempt b)
  end.

(** [getState()] *)
Definition getState (b : t) : STATE * Z := (state b, failCount b).

(** A run of [recordFailure] calls, one per time stamp. *)
Definition recordFailures (times : list Z) (b : t) : t :=
  fold_left (fun b now => recordFailure now b) times b.

(** A run of [canExecute] calls: the answers, and the breaker at the
    end. *)
Fixpoint canExecutes (times : list Z) (b : t) : list bool * t :=
  match times with
  | [] => ([], b)
  | now :: rest =>
      let (r, b1) := canExecute now b in
      let (rs, b2) := canExecutes rest b1 in
      (r :: rs, b2)
  end.

End CircuitBreaker.


(* ================================================================== *)
(** * JavaScript strings *)
(* ================================================================== *)

(** A JavaScript string: its UTF-16 code units. *)
Definition jsstring := list N.

(** The string a literal of ASCII characters denotes. *)
Definition js (s : string) : jsstring :=
  map N_of_ascii (list_ascii_of_string s).

(** [s.length] *)
Definition js_length (s : jsstring) : nat := length s.

(** [s === t] *)
Fixpoint js_eqb (s t : jsstring) : bool :=
  match s, t with
  | [], [] => true
  | c :: s', d :: t' => N.eqb c d && js_eqb s' t'
  | _, _ => false
  end.

(* ================================================================== *)
(** * Regular expressions and [String.prototype.replace]

    The fragment of ECMAScript patterns the sanitizer uses, with the
    backtracking semantics of the language definition: a matcher takes
    the current position and a continuation, and a greedy quantifier
    tries one more iteration before it tries the continuation. *)
(* ================================================================== *)

Module Regex.

Local Open Scope N_scope.

(** One member of a character class [[...]]. *)
Inductive class_item :=
| Single (c : N)          (* one character *)
| Range (lo hi : N)       (* lo-hi *)
| Digit                   (* \d *)
| Space.                  (* \s *)

Definition charset := list class_item.

(** [\s]: WhiteSpace and LineTerminator of the language definition. *)
Definition is_space (c : N) : bool :=
  ((9 <=? c) && (c <=? 13)) || (c =? 32) || (c =? 160) || (c =? 5760)
  || ((8192 <=? c) && (c <=? 8202)) || (c =? 8232) || (c =? 8233)
  || (c =? 8239) || (c =? 8287) || (c =? 12288) || (c =? 65279).

(** [\d] *)
Definition is_digit (c : N) : bool := (48 <=? c) && (c <=? 57).

(** The word characters [[A-Za-z0-9_]] that [\b] looks at. *)
Definition is_word (c : N) : bool :=
  ((65 <=? c) && (c <=? 90)) || ((97 <=? c) && (c <=? 122))
  || is_digit c || (c =? 95).

Definition in_item (i : class_item) (c : N) : bool :=
  match i with
  | Single d => c =? d
  | Range lo hi => (lo <=? c) && (c <=? hi)
  | Digit => is_digit c
  | Space => is_space c
  end.

Definition in_charset (cs : charset) (c : N) : bool :=
  existsb (fun i => in_item i c) cs.

(** Patterns.  [Repeat r min max] is the greedy quantifier [r{min,max}],
    [max = None] standing for no upper bound. *)
Inductive regex :=
| Empty
| Char (cs : charset)
| WordBoundary
| Seq (r1 r2 : regex)
| Repeat (r : regex) (min : nat) (max : option nat).

(** A position in the subject string: whether the character before it is
    a word character, and the characters from it on. *)
Record mstate := MState {
  before_word : bool;
  input : jsstring
}.

Definition continuation := mstate -> option mstate.
Definition matcher := continuation -> mstate -> option mstate.

(** [\b] holds where exactly one of the two neighbours is a word
    character. *)
Definition at_boundary (x : mstate) : bool :=
  xorb (before_word x)
       (match input x with c :: _ => is_word c | [] => false end).

(** RepeatMatcher of the language definition, greedy case.  An iteration
    that consumes nothing once [min] is reached fails, so [min] plus the
    length of the input bounds the depth: [fuel] counts it down. *)
Fixpoint RepeatMatcher (fuel : nat) (m : matcher) (min : nat)
    (max : option nat) (k : continuation) (x : mstate) : option mstate :=
  match fuel with
  | O => None
  | S fuel' =>
      match max with
      | Some O => k x
      | _ =>
          let d := fun y : mstate =>
            if Nat.eqb min 0
               && Nat.eqb (length (input y)) (length (input x))
            then None
            else RepeatMatcher fuel' m (Nat.pred min)
                               (option_map Nat.pred max) k y in
          if Nat.eqb min 0
          then match m d x with
               | Some z => Some z
               | None => k x
               end
          else m d x
      end
  end.

(** The matcher of a pattern. *)
Fixpoint rmatch (r : regex) (k : continuation) (x : mstate)
    {struct r} : option mstate :=
  match r with
  | Empty => k x
  | Char cs =>
      match input x with
      | c :: rest =>
          if in_charset cs c then k (MState (is_word c) rest) else None
      | [] => None
      end
  | WordBoundary => if at_boundary x then k x else None
  | Seq r1 r2 => rmatch r1 (rmatch r2 k) x
  | Repeat r1 min max =>
      RepeatMatcher (S (min + length (input x))) (rmatch r1) min max k x
  end.

(** One attempt at one position: the length of the match there. *)
Definition exec (r : regex) (pw : bool) (s : jsstring) : option nat :=
  match rmatch r Some (MState pw s) with
  | Some y => Some (length s - length (input y))%nat
  | None => None
  end.

(** What a global replace does with each character of the subject. *)
Inductive action :=
| Copy        (* outside every match: kept *)
| Drop        (* inside a match: removed *)
| Insert.     (* a match starts here: the replacement is written *)

(** The plan of [s.replace(/r/g, ...)]: matches are looked for from left
    to right, the search resumes where the last match ended, and after an
    empty match it resumes one character further.  [skip] counts the
    characters of the current match still to pass. *)
Fixpoint plan (r : regex) (pw : bool) (skip : nat) (s : jsstring)
    : list action :=
  match s with
  | [] =>
      match skip, exec r pw [] with
      | O, Some _ => [Insert]
      | _, _ => []
      end
  | c :: rest =>
      match skip with
      | S n => Drop :: plan r (is_word c) n rest
      | O =>
          match exec r pw s with
          | Some O => Insert :: Copy :: plan r (is_word c) 0 rest
          | Some (S n) => Insert :: Drop :: plan r (is_word c) n rest
          | None => Copy :: plan r (is_word c) 0 rest
          end
      end
  end.

(** Carrying a plan out on a subject. *)
Fixpoint render (rep : jsstring) (p : list action) (s : jsstring)
    : jsstring :=
  match p with
  | [] => []
  | Insert :: p' => rep ++ render rep p' s
  | Copy :: p' =>
      match s with
      | c :: rest => c :: render rep p' rest
      | [] => []
      end
  | Drop :: p' =>
      match s with
      | _ :: rest => render rep p' rest
      | [] => []
      end
  end.

(** [s.replace(/r/g, rep)] for a replacement without [$] patterns, and
    for a replacer function that returns [rep] at every match. *)
Definition replace (r : regex) (rep : jsstring) (s : jsstring) : jsstring :=
  render rep (plan r false 0 s) s.

End Regex.

(* ================================================================== *)
(** * The sanitizer ([src/lib/sanitizer.js]) *)
(* ================================================================== *)

Module Sanitizer.

Import Regex.
Local Open Scope N_scope.

Definition chr (a : ascii) : N := N_of_ascii a.

(** [[A-Za-z0-9._%+-]] *)
Definition email_local : charset :=
  [Range (chr "A") (chr "Z"); Range (chr "a") (chr "z");
   Range (chr "0") (chr "9"); Single (chr "."); Single (chr "_");
   Single (chr "%"); Single (chr "+"); Single (chr "-")].

(** [[A-Za-z0-9.-]] *)
Definition email_domain : charset :=
  [Range (chr "A") (chr "Z"); Range (chr "a") (chr "z");
   Range (chr "0") (chr "9"); Single (chr "."); Single (chr "-")].

(** [[A-Za-z]] *)
Definition alpha : charset :=
  [Range (chr "A") (chr "Z"); Range (chr "a") (chr "z")].

Definition lit (a : ascii) : regex := Char [Single (chr a)].
Definition digit : regex := Char [Digit].
Definition opt (r : regex) : regex := Repeat r 0 (Some 1%nat).
Definition times (n : nat) (r : regex) : regex := Repeat r n (Some n).
Definition plus (r : regex) : regex := Repeat r 1 None.

Fixpoint seq (rs : list regex) : regex :=
  match rs with
  | [] => Empty
  | [r] => r
  | r :: rs' => Seq r (seq rs')
  end.

(** [/\b[A-Za-z0-9._%+-]+@[A-Za-z0-9.-]+\.[A-Za-z]{2,}\b/g] *)
Definition emailRegex : regex :=
  seq [WordBoundary; plus (Char email_local); lit "@";
       plus (Char email_domain); lit "."; Repeat (Char alpha) 2 None;
       WordBoundary].

(** [/\b\d{3}-?\d{2}-?\d{4}\b/g] *)
Definition ssnRegex : regex :=
  seq [WordBoundary; times 3 digit; opt (lit "-"); times 2 digit;
       opt (lit "-"); times 4 digit; WordBoundary].

(** [/\b(?:\d{4}[-\s]?){3}\d{4}\b/g] *)
Definition ccRegex : regex :=
  seq [WordBoundary;
       times 3 (Seq (times 4 digit) (opt (Char [Single (chr "-"); Space])));
       times 4 digit; WordBoundary].

Definition TAG_EMAIL : jsstring := js "<REDACTED: EMAIL>".
Definition TAG_SSN : jsstring := js "<REDACTED: SSN>".
Definition TAG_CREDIT_CARD : jsstring := js "<REDACTED: CREDIT_CARD>".

(** [sanitizeMessage(message)] for a string [message]: the empty string
    is falsy and returned as it is. *)
Definition sanitizeMessage (message : jsstring) : jsstring :=
  match message with
  | [] => message
  | _ =>
      let sanitized := message in
      let sanitized := replace emailRegex TAG_EMAIL sanitized in
      let sanitized := replace ssnRegex TAG_SSN sanitized in
      let sanitized := replace ccRegex TAG_CREDIT_CARD sanitized in
      sanitized
  end.

End Sanitizer.


(* ================================================================== *)
(** * Buffers and their encodings

    [Buffer.from(s, enc)] and [buf.toString(enc)] of the Node.js runtime
    for the three encodings the service uses. *)
(* ================================================================== *)

Module Encoding.

Local Open Scope N_scope.

Definition bytes := list byte.

(** The byte with value [n] modulo 256. *)
Definition byte_of_N (n : N) : byte :=
  match Byte.of_N (n mod 256) with
  | Some b => b
  | None => x00
  end.

(** ** hex *)

Definition hex_digit (n : N) : N :=
  if n <? 10 then 48 + n else 87 + n.

(** [buf.toString('hex')]: two lower-case digits per byte. *)
Definition hex_encode (b : bytes) : jsstring :=
  flat_map (fun x => [hex_digit (Byte.to_N x / 16);
                      hex_digit (Byte.to_N x mod 16)]) b.

Definition hex_value (c : N) : option N :=
  if (48 <=? c) && (c <=? 57) then Some (c - 48)
  else if (97 <=? c) && (c <=? 102) then Some (c - 87)
  else if (65 <=? c) && (c <=? 70) then Some (c - 55)
  else None.

(** What the decoders of the runtime read of a character: the low byte
    of its code unit. *)
Definition low_byte (c : N) : N := c mod 256.

(** [Buffer.from(s, 'hex')]: each character is read by its low byte, and
    decoding stops at the first pair that is not two hexadecimal digits. *)
Fixpoint hex_decode (s : jsstring) : bytes :=
  match s with
  | a :: b :: rest =>
      match hex_value (low_byte a), hex_value (low_byte b) with
      | Some x, Some y => byte_of_N (16 * x + y) :: hex_decode rest
      | _, _ => []
      end
  | _ => []
  end.

(** ** UTF-8 *)

Definition REPLACEMENT : N := 65533.   (* U+FFFD *)

Definition is_high_surrogate (c : N) : bool := (55296 <=? c) && (c <=? 56319).
Definition is_low_surrogate (c : N) : bool := (56320 <=? c) && (c <=? 57343).

(** The UTF-8 bytes of one code point. *)
Definition utf8_of_code_point (cp : N) : bytes :=
  if cp <? 128 then [byte_of_N cp]
  else if cp <? 2048 then
    [byte_of_N (192 + cp / 64); byte_of_N (128 + cp mod 64)]
  else if cp <? 65536 then
    [byte_of_N (224 + cp / 4096); byte_of_N (128 + (cp / 64) mod 64);
     byte_of_N (128 + cp mod 64)]
  else
    [byte_of_N (240 + cp / 262144); byte_of_N (128 + (cp / 4096) mod 64);
     byte_of_N (128 + (cp / 64) mod 64); byte_of_N (128 + cp mod 64)].

(** [Buffer.from(s, 'utf8')]: a surrogate pair is one code point, and a
    surrogate without its partner is written as U+FFFD. *)
Fixpoint utf8_encode (s : jsstring) : bytes :=
  match s with
  | [] => []
  | c :: rest =>
      if is_high_surrogate c then
        match rest with
        | d :: rest' =>
            if is_low_surrogate d
            then utf8_of_code_point
                   (65536 + (c - 55296) * 1024 + (d - 56320))
                 ++ utf8_encode rest'
            else utf8_of_code_point REPLACEMENT ++ utf8_encode rest
        | [] => utf8_of_code_point REPLACEMENT
        end
      else if is_low_surrogate c
      then utf8_of_code_point REPLACEMENT ++ utf8_encode rest
      else utf8_of_code_point c ++ utf8_encode rest
  end.

(** The code units of one code point. *)
Definition utf16_of_code_point (cp : N) : jsstring :=
  if cp <? 65536 then [cp]
  else [55296 + (cp - 65536) / 1024; 56320 + (cp - 65536) mod 1024].

(** What a lead byte starts: a finished code point, a sequence with
    [need] continuation bytes whose first lies in [lo..hi], or an error. *)
Inductive lead :=
| LeadDone (cp : N)
| LeadMore (need : nat) (cp lo hi : N)
| LeadBad.

Definition utf8_lead (n : N) : lead :=
  if n <? 128 then LeadDone n
  else if (194 <=? n) && (n <=? 223) then LeadMore 1 (n - 192) 128 191
  else if (224 <=? n) && (n <=? 239) then
    LeadMore 2 (n - 224) (if n =? 224 then 160 else 128)
                         (if n =? 237 then 159 else 191)
  else if (240 <=? n) && (n <=? 244) then
    LeadMore 3 (n - 240) (if n =? 240 then 144 else 128)
                         (if n =? 244 then 143 else 191)
  else LeadBad.

(** The decoder of [buf.toString('utf8')]: [need] continuation bytes are
    still expected for the code point [cp], the next one within
    [lo..hi].  A byte that cannot continue the sequence ends it with
    U+FFFD and is read again as a lead byte. *)
Fixpoint utf8_decode_from (need : nat) (cp lo hi : N) (b : bytes)
    : list N :=
  match b with
  | [] => match need with O => [] | S _ => [REPLACEMENT] end
  | x :: rest =>
      let n := Byte.to_N x in
      let start :=
        match utf8_lead n with
        | LeadDone c => c :: utf8_decode_from 0 0 128 191 rest
        | LeadMore k c l h => utf8_decode_from k c l h rest
        | LeadBad => REPLACEMENT :: utf8_decode_from 0 0 128 191 rest
        end in
      match need with
      | O => start
      | S need' =>
          if (lo <=? n) && (n <=? hi) then
            let cp' := cp * 64 + n mod 64 in
            match need' with
            | O => cp' :: utf8_decode_from 0 0 128 191 rest
            | S _ => utf8_decode_from need' cp' 128 191 rest
            end
          else REPLACEMENT :: start
      end
  end.

(** [buf.toString('utf8')] *)
Definition utf8_decode (b : bytes) : jsstring :=
  flat_map utf16_of_code_point (utf8_decode_from 0 0 128 191 b).

(** ** base64 *)

Definition base64_digit (n : N) : N :=
  if n <? 26 then 65 + n
  else if n <? 52 then 71 + n
  else if n <? 62 then n - 4
  else if n =? 62 then 43
  else 47.

Definition PAD : N := 61.   (* = *)

(** [buf.toString('base64')] *)
Fixpoint base64_encode (b : bytes) : jsstring :=
  match b with
  | [] => []
  | [x] =>
      let x := Byte.to_N x in
      [base64_digit (x / 4); base64_digit (x mod 4 * 16); PAD; PAD]
  | [x; y] =>
      let x := Byte.to_N x in
      let y := Byte.to_N y in
      [base64_digit (x / 4); base64_digit (x mod 4 * 16 + y / 16);
       base64_digit (y mod 16 * 4); PAD]
  | x :: y :: z :: rest =>
      let x := Byte.to_N x in
      let y := Byte.to_N y in
      let z := Byte.to_N z in
      base64_digit (x / 4) :: base64_digit (x mod 4 * 16 + y / 16)
      :: base64_digit (y mod 16 * 4 + z / 64) :: base64_digit (z mod 64)
      :: base64_encode rest
  end.

(** The value of a base64 digit, of either alphabet. *)
Definition unbase64 (c : N) : option N :=
  if (65 <=? c) && (c <=? 90) then Some (c - 65)
  else if (97 <=? c) && (c <=? 122) then Some (c - 71)
  else if (48 <=? c) && (c <=? 57) then Some (c + 4)
  else if (c =? 43) || (c =? 45) then Some 62
  else if (c =? 47) || (c =? 95) then Some 63
  else None.

(** The digits of the text up to the first padding character, each
    character read by its low byte; a character that is no digit is passed
    over. *)
Fixpoint base64_digits (s : jsstring) : list N :=
  match s with
  | [] => []
  | c :: rest =>
      if low_byte c =? PAD then []
      else match unbase64 (low_byte c) with
           | Some v => v :: base64_digits rest
           | None => base64_digits rest
           end
  end.

Fixpoint base64_bytes (d : list N) : bytes :=
  match d with
  | a :: b :: c :: e :: rest =>
      byte_of_N (a * 4 + b / 16) :: byte_of_N (b mod 16 * 16 + c / 4)
      :: byte_of_N (c mod 4 * 64 + e) :: base64_bytes rest
  | [a; b; c] =>
      [byte_of_N (a * 4 + b / 16); byte_of_N (b mod 16 * 16 + c / 4)]
  | [a; b] => [byte_of_N (a * 4 + b / 16)]
  | _ => []
  end.

(** [Buffer.from(s, 'base64')] *)
Definition base64_decode (s : jsstring) : bytes :=
  base64_bytes (base64_digits s).

End Encoding.


(* ================================================================== *)
(** * JSON *)
(* ================================================================== *)

Module JSON.

Local Open Scope N_scope.

(** A JSON value.  A number is kept as the text that denotes it. *)
Inductive json :=
| JNull
| JBool (b : bool)
| JNumber (text : jsstring)
| JString (s : jsstring)
| JArray (items : list json)
| JObject (members : list (jsstring * json)).

Definition QUOTE : N := 34.
Definition BACKSLASH : N := 92.

Definition code (a : ascii) : N := N_of_ascii a.

(** ** [JSON.parse] *)

Definition is_json_space (c : N) : bool :=
  (c =? 32) || (c =? 9) || (c =? 10) || (c =? 13).

Fixpoint skip_ws (s : jsstring) : jsstring :=
  match s with
  | c :: rest => if is_json_space c then skip_ws rest else s
  | [] => []
  end.

(** [s] without the prefix [p], when it starts with it. *)
Fixpoint expect (p s : jsstring) : option jsstring :=
  match p, s with
  | [], _ => Some s
  | a :: p', b :: s' => if a =? b then expect p' s' else None
  | _ :: _, [] => None
  end.

Definition hex4 (a b c d : N) : option N :=
  match Encoding.hex_value a, Encoding.hex_value b,
        Encoding.hex_value c, Encoding.hex_value d with
  | Some x, Some y, Some z, Some w => Some (((x * 16 + y) * 16 + z) * 16 + w)
  | _, _, _, _ => None
  end.

Definition cons_fst (c : N) (r : option (jsstring * jsstring))
    : option (jsstring * jsstring) :=
  match r with
  | Some (str, rest) => Some (c :: str, rest)
  | None => None
  end.

(** The characters of a string literal after its opening quote, and the
    text after its closing quote. *)
Fixpoint parse_string (s : jsstring) : option (jsstring * jsstring) :=
  match s with
  | [] => None
  | c :: rest =>
      if c =? QUOTE then Some ([], rest)
      else if c =? BACKSLASH then
        match rest with
        | e :: rest1 =>
            if e =? QUOTE then cons_fst QUOTE (parse_string rest1)
            else if e =? BACKSLASH then cons_fst BACKSLASH (parse_string rest1)
            else if e =? code "/" then cons_fst (code "/") (parse_string rest1)
            else if e =? code "b" then cons_fst 8 (parse_string rest1)
            else if e =? code "f" then cons_fst 12 (parse_string rest1)
            else if e =? code "n" then cons_fst 10 (parse_string rest1)
            else if e =? code "r" then cons_fst 13 (parse_string rest1)
            else if e =? code "t" then cons_fst 9 (parse_string rest1)
            else if e =? code "u" then
              match rest1 with
              | h1 :: h2 :: h3 :: h4 :: rest2 =>
                  match hex4 h1 h2 h3 h4 with
                  | Some u => cons_fst u (parse_string rest2)
                  | None => None
                  end
              | _ => None
              end
            else None
        | [] => None
        end
      else if c <? 32 then None
      else cons_fst c (parse_string rest)
  end.

(** The longest prefix of digits, and the rest. *)
Fixpoint digits (s : jsstring) : jsstring * jsstring :=
  match s with
  | c :: rest =>
      if Regex.is_digit c
      then let (d, r) := digits rest in (c :: d, r)
      else ([], s)
  | [] => ([], [])
  end.

(** [0] or a digit from 1 to 9 followed by digits. *)
Definition parse_int (s : jsstring) : option (jsstring * jsstring) :=
  match s with
  | c :: rest =>
      if c =? code "0" then Some ([c], rest)
      else if Regex.is_digit c then let (d, r) := digits rest in Some (c :: d, r)
      else None
  | [] => None
  end.

Definition parse_frac (s : jsstring) : option (jsstring * jsstring) :=
  match s with
  | c :: rest =>
      if c =? code "." then
        match digits rest with
        | ([], _) => None
        | (d, r) => Some (c :: d, r)
        end
      else Some ([], s)
  | [] => Some ([], [])
  end.

Definition parse_exp (s : jsstring) : option (jsstring * jsstring) :=
  match s with
  | c :: rest =>
      if (c =? code "e") || (c =? code "E") then
        let (sign, rest1) :=
          match rest with
          | g :: rest' =>
              if (g =? code "+") || (g =? code "-") then ([g], rest')
              else ([], rest)
          | [] => ([], rest)
          end in
        match digits rest1 with
        | ([], _) => None
        | (d, r) => Some (c :: sign ++ d, r)
        end
      else Some ([], s)
  | [] => Some ([], [])
  end.

Definition parse_number (s : jsstring) : option (jsstring * jsstring) :=
  let (minus, s0) :=
    match s with
    | c :: rest => if c =? code "-" then ([c], rest) else ([], s)
    | [] => ([], s)
    end in
  match parse_int s0 with
  | Some (i, s1) =>
      match parse_frac s1 with
      | Some (f, s2) =>
          match parse_exp s2 with
          | Some (e, s3) => Some (minus ++ i ++ f ++ e, s3)
          | None => None
          end
      | None => None
      end
  | None => None
  end.

Definition literal (p : string) (v : json) (s : jsstring)
    : option (json * jsstring) :=
  match expect (js p) s with
  | Some rest => Some (v, rest)
  | None => None
  end.

(** A value at the head of [s], and the text after it.  Every call
    passes one unit of [fuel] down; a text of [n] characters needs at
    most [2 * n + 2]. *)
Fixpoint parse_value (fuel : nat) (s : jsstring) {struct fuel}
    : option (json * jsstring) :=
  match fuel with
  | O => None
  | S fuel' =>
      match s with
      | [] => None
      | c :: rest =>
          if c =? code "{" then
            match skip_ws rest with
            | c1 :: s1 =>
                if c1 =? code "}" then Some (JObject [], s1)
                else parse_members fuel' [] (c1 :: s1)
            | [] => None
            end
          else if c =? code "[" then
            match skip_ws rest with
            | c1 :: s1 =>
                if c1 =? code "]" then Some (JArray [], s1)
                else parse_items fuel' [] (c1 :: s1)
            | [] => None
            end
          else if c =? QUOTE then
            match parse_string rest with
            | Some (str, s1) => Some (JString str, s1)
            | None => None
            end
          else if c =? code "t" then literal "true" (JBool true) s
          else if c =? code "f" then literal "false" (JBool false) s
          else if c =? code "n" then literal "null" JNull s
          else
            match parse_number s with
            | Some (num, s1) => Some (JNumber num, s1)
            | None => None
            end
      end
  end

(** The items of an array from the item at the head of [s] on; [acc]
    holds the items read so far, last first. *)
with parse_items (fuel : nat) (acc : list json) (s : jsstring)
    {struct fuel} : option (json * jsstring) :=
  match fuel with
  | O => None
  | S fuel' =>
      match parse_value fuel' s with
      | Some (v, s1) =>
          match skip_ws s1 with
          | c :: s2 =>
              if c =? code "," then parse_items fuel' (v :: acc) (skip_ws s2)
              else if c =? code "]" then Some (JArray (rev (v :: acc)), s2)
              else None
          | [] => None
          end
      | None => None
      end
  end

(** The members of an object from the member at the head of [s] on. *)
with parse_members (fuel : nat) (acc : list (jsstring * json))
    (s : jsstring) {struct fuel} : option (json * jsstring) :=
  match fuel with
  | O => None
  | S fuel' =>
      match s with
      | q :: s0 =>
          if q =? QUOTE then
            match parse_string s0 with
            | Some (key, s1) =>
                match skip_ws s1 with
                | c :: s2 =>
                    if c =? code ":" then
                      match parse_value fuel' (skip_ws s2) with
                      | Some (v, s3) =>
                          match skip_ws s3 with
                          | c' :: s4 =>
                              if c' =? code ","
                              then parse_members fuel' ((key, v) :: acc)
                                                 (skip_ws s4)
                              else if c' =? code "}"
                              then Some (JObject (rev ((key, v) :: acc)), s4)
                              else None
                          | [] => None
                          end
                      | None => None
                      end
                    else None
                | [] => None
                end
            | None => None
            end
          else None
      | [] => None
      end
  end.

(** [JSON.parse(text)]: [None] stands for the SyntaxError it throws. *)
Definition parse (text : jsstring) : option json :=
  match parse_value (2 * length text + 2) (skip_ws text) with
  | Some (v, rest) =>
      match skip_ws rest with
      | [] => Some v
      | _ :: _ => None
      end
  | None => None
  end.

(** ** [JSON.stringify] of strings and of objects of strings *)

Definition hex4_of (c : N) : jsstring :=
  [Encoding.hex_digit (c / 4096); Encoding.hex_digit (c / 256 mod 16);
   Encoding.hex_digit (c / 16 mod 16); Encoding.hex_digit (c mod 16)].

Definition unicode_escape (c : N) : jsstring :=
  BACKSLASH :: code "u" :: hex4_of c.

(** The characters of [s] between the quotes of its JSON text: quote,
    backslash and control characters are escaped, and so is a surrogate
    without its partner. *)
Fixpoint quote_chars (s : jsstring) : jsstring :=
  match s with
  | [] => []
  | c :: rest =>
      if c =? QUOTE then BACKSLASH :: QUOTE :: quote_chars rest
      else if c =? BACKSLASH then BACKSLASH :: BACKSLASH :: quote_chars rest
      else if c =? 8 then BACKSLASH :: code "b" :: quote_chars rest
      else if c =? 12 then BACKSLASH :: code "f" :: quote_chars rest
      else if c =? 10 then BACKSLASH :: code "n" :: quote_chars rest
      else if c =? 13 then BACKSLASH :: code "r" :: quote_chars rest
      else if c =? 9 then BACKSLASH :: code "t" :: quote_chars rest
      else if c <? 32 then unicode_escape c ++ quote_chars rest
      else if Encoding.is_high_surrogate c then
        match rest with
        | d :: rest' =>
            if Encoding.is_low_surrogate d
            then c :: d :: quote_chars rest'
            else unicode_escape c ++ quote_chars rest
        | [] => unicode_escape c
        end
      else if Encoding.is_low_surrogate c
      then unicode_escape c ++ quote_chars rest
      else c :: quote_chars rest
  end.

Definition quote (s : jsstring) : jsstring :=
  QUOTE :: quote_chars s ++ [QUOTE].

Fixpoint stringify_members (ms : list (jsstring * jsstring)) : jsstring :=
  match ms with
  | [] => []
  | [(k, v)] => quote k ++ code ":" :: quote v
  | (k, v) :: ms' =>
      quote k ++ code ":" :: quote v ++ code "," :: stringify_members ms'
  end.

(** [JSON.stringify(o)] for an object [o] whose properties, in order, are
    the strings [ms]. *)
Definition stringify_strings (ms : list (jsstring * jsstring)) : jsstring :=
  code "{" :: stringify_members ms ++ [code "}"].

(** ** Property access *)

(** The value of the property [key] of an object with the members [ms]:
    of members with the same name the last one counts. *)
Fixpoint lookup (key : jsstring) (ms : list (jsstring * json))
    : option json :=
  match ms with
  | [] => None
  | (k, v) :: ms' =>
      match lookup key ms' with
      | Some v' => Some v'
      | None => if js_eqb k key then Some v else None
      end
  end.

End JSON.


(* ================================================================== *)
(** * Exceptions *)
(* ================================================================== *)

(** The exceptions the service meets, by constructor, each with its
    message. *)
Inductive exn :=
| Error (message : string)
| TypeError (message : string)
| RangeError (message : string)
| SyntaxError (message : string).

Definition message_of (e : exn) : string :=
  match e with
  | Error m | TypeError m | RangeError m | SyntaxError m => m
  end.

(** A number as it stands in a message. *)
Definition decimal (n : nat) : string :=
  NilZero.string_of_uint (Nat.to_uint n).

(** The outcome of a call that may throw. *)
Inductive result (A : Type) :=
| Ok (a : A)
| Throw (e : exn).

Arguments Ok {A} a.
Arguments Throw {A} e.

Definition bind {A B : Type} (r : result A) (f : A -> result B)
    : result B :=
  match r with
  | Ok a => f a
  | Throw e => Throw e
  end.

Notation "x <- r ;; k" := (bind r (fun x => k))
  (at level 61, r at next level, right associativity).

(* ================================================================== *)
(** * The cipher ([lib/crypto.js]) *)
(* ================================================================== *)

Module Crypto.

Import Encoding JSON.
Local Open Scope string_scope.

Section Cipher.

(** AES-256-GCM of the runtime's [crypto] module.  [gcm_seal key iv
    plaintext] is the ciphertext and the authentication tag that
    [update], [final] and [getAuthTag] of a cipher give;
    [gcm_open key iv ciphertext tag] is what [setAuthTag], [update] and
    [final] of a decipher give: the plaintext, or the exception with which
    a parameter or the tag is refused. *)
Variable gcm_seal : bytes -> bytes -> bytes -> bytes * bytes.
Variable gcm_open : bytes -> bytes -> bytes -> bytes -> result bytes.

(** [Buffer.from(v, 'hex')] for a [v] that is an array or an object. *)
Variable buffer_of_object : json -> result bytes.

(** [getEncryptionKey()], with [env] the value of
    [process.env.AUDIT_ENCRYPTION_KEY]. *)
Definition getEncryptionKey (env : option jsstring) : result bytes :=
  match env with
  | None | Some [] => Throw (Error "AUDIT_ENCRYPTION_KEY is not defined")
  | Some keyHex =>
      if Nat.eqb (js_length keyHex) 64
      then Ok (hex_decode keyHex)
      else Throw (Error
        "AUDIT_ENCRYPTION_KEY must be a 64-character hex string (32 bytes)")
  end.

(** [crypto.createCipheriv('aes-256-gcm', key, iv)], with the nonce that
    [crypto.randomBytes(12)] returned: the algorithm takes a key of 32
    bytes. *)
Definition createCipheriv (key iv : bytes) : result (bytes * bytes) :=
  if Nat.eqb (length key) 32 then Ok (key, iv)
  else Throw (RangeError "Invalid key length").

(** [crypto.createDecipheriv('aes-256-gcm', key, iv)]: a nonce of no
    bytes is refused, then a key that has not 32 bytes. *)
Definition createDecipheriv (key iv : bytes) : result (bytes * bytes) :=
  match iv with
  | [] => Throw (TypeError "Invalid initialization vector")
  | _ :: _ =>
      if Nat.eqb (length key) 32 then Ok (key, iv)
      else Throw (RangeError "Invalid key length")
  end.

(** The lengths of a tag that the algorithm takes: 4, 8, or 12 to 16
    bytes. *)
Definition valid_tag_length (n : nat) : bool :=
  Nat.eqb n 4 || Nat.eqb n 8 || (Nat.leb 12 n && Nat.leb n 16).

(** [decipher.setAuthTag(tag)] *)
Definition setAuthTag (tag : bytes) : result bytes :=
  if valid_tag_length (length tag) then Ok tag
  else Throw (TypeError
         ("Invalid authentication tag length: " ++ decimal (length tag))).

(** [encrypt(text)], with [iv] the bytes [crypto.randomBytes(12)]
    returns. *)
Definition encrypt (env : option jsstring) (iv : bytes) (text : jsstring)
    : result jsstring :=
  key <- getEncryptionKey env ;;
  cipher <- createCipheriv key iv ;;
  let (ciphertext, tag) := gcm_seal (fst cipher) (snd cipher)
                                    (utf8_encode text) in
  let encrypted := hex_encode ciphertext in
  let authTag := hex_encode tag in
  let blob := [(js "iv", hex_encode iv);
               (js "ciphertext", encrypted);
               (js "authTag", authTag)] in
  Ok (base64_encode (utf8_encode (stringify_strings blob))).

(** [blob.key] for what [JSON.parse] returned: [None] is [undefined]. *)
Definition property (blob : json) (key : string) : result (option json) :=
  match blob with
  | JNull => Throw (TypeError "Cannot read properties of null")
  | JObject members => Ok (lookup (js key) members)
  | _ => Ok None
  end.

(** [Buffer.from(v, 'hex')] *)
Definition Buffer_from_hex (v : option json) : result bytes :=
  match v with
  | Some (JString s) => Ok (hex_decode s)
  | Some (JArray items) => buffer_of_object (JArray items)
  | Some (JObject members) => buffer_of_object (JObject members)
  | _ => Throw (TypeError "The first argument must be of type string")
  end.

(** The bytes [decipher.update(v, 'hex', 'utf8')] reads: a string with
    an odd number of characters is refused before it is decoded. *)
Definition update_input_hex (v : option json) : result bytes :=
  match v with
  | Some (JString s) =>
      if Nat.even (length s) then Ok (hex_decode s)
      else Throw (TypeError
             ("The argument 'encoding' is invalid for data of length "
              ++ decimal (length s) ++ ". Received 'hex'"))
  | _ => Throw (TypeError "The data argument must be of type string")
  end.

(** [decrypt(encryptedBase64)] *)
Definition decrypt (env : option jsstring) (encryptedBase64 : jsstring)
    : result jsstring :=
  key <- getEncryptionKey env ;;
  let blobStr := utf8_decode (base64_decode encryptedBase64) in
  blob <- match parse blobStr with
          | Some v => Ok v
          | None => Throw (SyntaxError "Unexpected token in JSON")
          end ;;
  iv_field <- property blob "iv" ;;
  iv <- Buffer_from_hex iv_field ;;
  decipher <- createDecipheriv key iv ;;
  tag_field <- property blob "authTag" ;;
  tag <- Buffer_from_hex tag_field ;;
  authTag <- setAuthTag tag ;;
  ciphertext_field <- property blob "ciphertext" ;;
  ciphertext <- update_input_hex ciphertext_field ;;
  plaintext <- gcm_open (fst decipher) (snd decipher) ciphertext authTag ;;
  Ok (utf8_decode plaintext).

End Cipher.

End Crypto.

(* ================================================================== *)
(** * The audit log ([lib/auditLog.js]) *)
(* ================================================================== *)

Module AuditLog.

Import Encoding JSON.
Local Open Scope string_scope.

(** How [fs.writeFileSync] fails when it does.  It opens the file with
    the flag [w], which empties it, and then writes: either the file cannot
    be opened and stays as it is, or the write fails after the file was
    emptied, with the first [written] bytes of the new text in it. *)
Inductive fault :=
| Refused (e : exn)
| Cut (e : exn) (written : nat).

(** The part of the world [appendAuditRecord] touches: what
    [fs.readFileSync(AUDIT_FILE, 'utf8')] gives, the way in which
    [fs.writeFileSync] fails if it does, and the lines written with
    [console.error], latest first. *)
Record store := Store {
  audit_file : result jsstring;
  write_fault : option fault;
  console_error : list (string * exn)
}.

(** [fs.writeFileSync(AUDIT_FILE, text)]: the store after the call, and
    the exception if it throws. *)
Definition writeFileSync (text : jsstring) (s : store)
    : store * option exn :=
  match write_fault s with
  | None => (Store (Ok text) None (console_error s), None)
  | Some (Refused e) => (s, Some e)
  | Some (Cut e written) =>
      (Store (Ok (utf8_decode (firstn written (utf8_encode text))))
             (write_fault s) (console_error s),
       Some e)
  end.

Section Append.

(** [JSON.stringify(data, null, 2)] *)
Variable stringify_indented : json -> jsstring.

(** The body of the [try] block: the store after it, and the exception
    that leaves it, if one does. *)
Definition try_append (record : json) (s : store) : store * option exn :=
  match audit_file s with
  | Throw e => (s, Some e)
  | Ok fileContent =>
      let data :=
        match parse fileContent with
        | Some v => v
        | None => JArray []
        end in
      match data with
      | JArray items =>
          writeFileSync (stringify_indented (JArray (items ++ [record]))) s
      | _ => (s, Some (TypeError "data.push is not a function"))
      end
  end.

(** [appendAuditRecord(record)], run when its turn in the write queue
    comes: the returned promise is fulfilled in every case. *)
Definition appendAuditRecord (record : json) (s : store) : store :=
  let (s', thrown) := try_append record s in
  match thrown with
  | None => s'
  | Some err =>
      Store (audit_file s') (write_fault s')
            (("Failed to write audit log:", err) :: console_error s')
  end.

End Append.

End AuditLog.

(* ================================================================== *)
(** * The route ([routes/secureInquiry.js]) and the start-up check
      ([server.js]) *)
(* ================================================================== *)

Module Route.

Import Regex Encoding JSON.
Local Open Scope string_scope.

(** [s.trim()] *)
Fixpoint trim_start (s : jsstring) : jsstring :=
  match s with
  | c :: rest => if is_space c then trim_start rest else s
  | [] => []
  end.

Definition trim (s : jsstring) : jsstring :=
  rev (trim_start (rev (trim_start s))).

(** A field of the request body that passes the validation: a string
    that is not empty after trimming. *)
Definition valid_field (v : option json) : option jsstring :=
  match v with
  | Some (JString s) =>
      match s, trim s with
      | [], _ | _, [] => None
      | _, _ => Some s
      end
  | _ => None
  end.

(** [const { userId, message } = req.body] *)
Definition body_field (body : json) (key : string) : option json :=
  match body with
  | JObject members => lookup (js key) members
  | _ => None
  end.

Record request := Request {
  body : json;
  x_mock_ai_fail : option jsstring      (* req.headers['x-mock-ai-fail'] *)
}.

(** What the handler takes from its surroundings while it runs. *)
Record context := Context {
  now : Z;                 (* Date.now() inside canExecute() *)
  later : Z;               (* Date.now() inside recordFailure() *)
  random_iv : Encoding.bytes;       (* crypto.randomBytes(12) *)
  uuid : jsstring;         (* uuidv4() *)
  created_at : jsstring    (* new Date().toISOString() *)
}.

Record world := World {
  breaker : CircuitBreaker.t;
  audit : AuditLog.store
}.

(** The JSON body of an answer with the four fields. *)
Record payload := Payload {
  userId : jsstring;
  redactedMessage : jsstring;
  answer : jsstring;
  circuitBreaker : CircuitBreaker.STATE * Z
}.

Inductive response :=
| BadRequest (error : string)            (* res.status(400).json({ error }) *)
| Reply (status : nat) (p : payload)     (* res.status(status).json(p) *)
| Next (e : exn).                        (* next(error) *)

(** [mockAiCall(redactedMessage, forceFail)], two seconds later. *)
Definition mockAiCall (redactedMessage : jsstring) (forceFail : bool)
    : result jsstring :=
  if forceFail then Throw (Error "AI Service Failed")
  else Ok (js "Generated Answer.").

Definition state_name (s : CircuitBreaker.STATE) : jsstring :=
  match s with
  | CircuitBreaker.CLOSED => js "CLOSED"
  | CircuitBreaker.OPEN => js "OPEN"
  | CircuitBreaker.HALF_OPEN => js "HALF_OPEN"
  end.

(** The audit record of a request. *)
Definition auditRecord (id userId createdAt originalMessageEncrypted
    redactedMessage aiResult : jsstring) (circuitState : CircuitBreaker.STATE)
    : json :=
  JObject [(js "id", JString id);
           (js "userId", JString userId);
           (js "createdAt", JString createdAt);
           (js "originalMessageEncrypted", JString originalMessageEncrypted);
           (js "redactedMessage", JString redactedMessage);
           (js "aiResult", JString aiResult);
           (js "circuitState", JString (state_name circuitState))].

Section Handler.

Variable gcm_seal : bytes -> bytes -> bytes -> bytes * bytes.
Variable stringify_indented : json -> jsstring.

(** [process.env.AUDIT_ENCRYPTION_KEY] *)
Variable env : option jsstring.

(** [router.post('/secure-inquiry', ...)] *)
Definition secureInquiry (req : request) (ctx : context) (w : world)
    : response * world :=
  match valid_field (body_field (body req) "userId") with
  | None =>
      (BadRequest "userId is required and must be a non-empty string", w)
  | Some userId =>
  match valid_field (body_field (body req) "message") with
  | None =>
      (BadRequest "message is required and must be a non-empty string", w)
  | Some message =>
      let (can, b1) := CircuitBreaker.canExecute (now ctx) (breaker w) in
      if negb can then
        let state := CircuitBreaker.getState b1 in
        let redactedMessage := Sanitizer.sanitizeMessage message in
        match Crypto.encrypt gcm_seal env (random_iv ctx) message with
        | Throw e => (Next e, World b1 (audit w))
        | Ok encryptedMessage =>
            let record :=
              auditRecord (uuid ctx) userId (created_at ctx) encryptedMessage
                          redactedMessage (js "Service Busy") (fst state) in
            let audit' :=
              AuditLog.appendAuditRecord stringify_indented record
                                         (audit w) in
            (Reply 200 (Payload userId redactedMessage (js "Service Busy")
                                state),
             World b1 audit')
        end
      else
        let redactedMessage := Sanitizer.sanitizeMessage message in
        match Crypto.encrypt gcm_seal env (random_iv ctx) message with
        | Throw e => (Next e, World b1 (audit w))
        | Ok encryptedMessage =>
            let forceFail :=
              match x_mock_ai_fail req with
              | Some v => js_eqb v (js "true")
              | None => false
              end in
            let '(aiAnswer, errorOccurred, b2) :=
              match mockAiCall redactedMessage forceFail with
              | Ok a => (a, false, CircuitBreaker.recordSuccess b1)
              | Throw _ =>
                  (js "AI Service Error", true,
                   CircuitBreaker.recordFailure (later ctx) b1)
              end in
            let cbState := CircuitBreaker.getState b2 in
            let record :=
              auditRecord (uuid ctx) userId (created_at ctx) encryptedMessage
                          redactedMessage
                          (if errorOccurred : bool
                           then js "Error: AI call failed" else aiAnswer)
                          (fst cbState) in
            let audit' :=
              AuditLog.appendAuditRecord stringify_indented record
                                         (audit w) in
            if errorOccurred : bool then
              (Reply 503 (Payload userId redactedMessage
                                  (js "AI Service Unavailable") cbState),
               World b2 audit')
            else
              (Reply 200 (Payload userId redactedMessage aiAnswer cbState),
               World b2 audit')
        end
  end
  end.

End Handler.

(** The start of [server.js]: the process ends with the given exit code
    after the given [console.error] line, or goes on to listen. *)
Inductive startup :=
| Exit (code : Z) (line : string * string)
| Listening.

Definition start (env : option jsstring) : startup :=
  match Crypto.getEncryptionKey env with
  | Throw err =>
      Exit 1 ("CRITICAL: Failed to start server.", message_of err)
  | Ok _ => Listening
  end.

End Route.

(* ================================================================== *)
(** * The error handler of the server *)
(* ================================================================== *)

Module Server.

Import JSON Route.

(** What [res.status(...).json(...)] sends. *)
Inductive sent :=
| ErrorBody (error : string)       (* { error } *)
| PayloadBody (p : payload).       (* the four fields *)

Record http := Http {
  http_status : nat;
  http_body : sent
}.

(** The error handler, [app.use((err, req, res, next) => ...)]: the line
    for [console.error] and the answer. *)
Definition errorHandler (err : exn) : (string * exn) * http :=
  (("Unhandled Error:"%string, err),
   Http 500 (ErrorBody "Internal Server Error")).

(** What the client receives for what the route did, with the line the
    error handler writes when the route ended in [next(error)]. *)
Definition respond (r : response) : option (string * exn) * http :=
  match r with
  | BadRequest error => (None, Http 400 (ErrorBody error))
  | Reply status p => (None, Http status (PayloadBody p))
  | Next error =>
      let (line, answer) := errorHandler error in (Some line, answer)
  end.

End Server.

(* ================================================================== *)
(** * The text of the audit file

    What [JSON.stringify(data, null, 2)] writes for an array of objects
    whose properties are strings, as the audit log holds them. *)
(* ================================================================== *)

Module AuditFile.

Import JSON.
Local Open Scope N_scope.

Definition LINE_FEED : N := 10.
Definition SPACE : N := 32.

(** The indentation of [JSON.stringify(data, null, 2)] at a depth. *)
Definition indent (depth : nat) : jsstring := repeat SPACE (2 * depth).

(** Lines joined by a comma and a line break. *)
Fixpoint lines (ls : list jsstring) : jsstring :=
  match ls with
  | [] => []
  | [l] => l
  | l :: ls' => l ++ code "," :: LINE_FEED :: lines ls'
  end.

(** One property of an object of the array, on its line. *)
Definition member_line (m : jsstring * jsstring) : jsstring :=
  indent 2 ++ quote (fst m) ++ code ":" :: SPACE :: quote (snd m).

(** An object of the array whose properties, in order, are the strings
    [ms]. *)
Definition stringify_record (ms : list (jsstring * jsstring)) : jsstring :=
  match ms with
  | [] => js "{}"
  | _ =>
      code "{" :: LINE_FEED :: lines (map member_line ms)
      ++ LINE_FEED :: indent 1 ++ [code "}"]
  end.

(** [JSON.stringify(data, null, 2)] for an array [data] of objects whose
    properties are strings. *)
Definition stringify_records (rs : list (list (jsstring * jsstring)))
    : jsstring :=
  match rs with
  | [] => js "[]"
  | _ =>
      code "[" :: LINE_FEED
      :: lines (map (fun ms => indent 1 ++ stringify_record ms) rs)
      ++ [LINE_FEED; code "]"]
  end.

(** The array that such a text denotes. *)
Definition record_json (ms : list (jsstring * jsstring)) : json :=
  JObject (map (fun m => (fst m, JString (snd m))) ms).

Definition records_json (rs : list (list (jsstring * jsstring))) : json :=
  JArray (map record_json rs).

End AuditFile.

(* ================================================================== *)
(** * Properties of the circuit breaker *)
(* ================================================================== *)

Module CircuitBreakerFacts.

Import CircuitBreaker.
Local Open Scope Z_scope.

Lemma canExecutes_open_early (times : list Z) (b : t) :
  state b = OPEN ->
  Forall (fun now => now < nextAttempt b) times ->
  canExecutes times b = (map (fun _ => false) times, b).
Proof.
  intros Hopen Hearly.
  induction Hearly as [|now rest Hnow _ IH]; [reflexivity|].
  cbn [canExecutes map]. unfold canExecute. rewrite Hopen.
  destruct (Z.leb_spec (nextAttempt b) now) as [Hle|_]; [lia|].
  now rewrite IH.
Qed.

Lemma canExecutes_half_open (times : list Z) (b : t) :
  state b = HALF_OPEN ->
  canExecutes times b = (map (fun _ => true) times, b).
Proof.
  intros Hhalf. induction times as [|now rest IH]; [reflexivity|].
  cbn [canExecutes map]. unfold canExecute. rewrite Hhalf.
  now rewrite IH.
Qed.

Lemma recordFailure_enters_open (now : Z) (b : t) :
  state b <> OPEN ->
  state (recordFailure now b) = OPEN ->
  nextAttempt (recordFailure now b) = now + COOLDOWN_MS.
Proof.
  unfold recordFailure. destruct (state b) eqn:Hs; intros Hne Hopen;
    try congruence; cbn in *.
  - destruct (FAILURE_THRESHOLD <=? failCount b + 1); cbn in *;
      [reflexivity|congruence].
  - reflexivity.
Qed.

(** C3.  From CLOSED with the counter at 0, three [recordFailure] calls
    in a row leave the breaker OPEN, the counter at 3 and the next attempt
    30 seconds after the third failure.  When a [recordSuccess] comes
    between the failures (after the first or after the second), it leaves
    the counter at 0, and the breaker is still CLOSED after the third
    failure, the counter telling the failures since the success. *)
Theorem three_failures_trip_unless_success :
  forall reopen t1 t2 t3 : Z,
    let fresh := mk CLOSED 0 reopen in
    recordFailures [t1; t2; t3] fresh = mk OPEN 3 (t3 + 30000)
    /\ (let s := recordSuccess (recordFailures [t1] fresh) in
        failCount s = 0
        /\ recordFailures [t2; t3] s = mk CLOSED 2 reopen)
    /\ (let s := recordSuccess (recordFailures [t1; t2] fresh) in
        failCount s = 0
        /\ recordFailures [t3] s = mk CLOSED 1 reopen).
Proof.
  intros reopen t1 t2 t3 fresh. repeat split.
Qed.

(** C10.  In every state of the breaker [recordSuccess] sets the phase to
    CLOSED and the counter to 0 and keeps the time of the next attempt;
    the next [canExecute], whatever the time, answers true.  So a success
    recorded while the breaker is OPEN closes it at once. *)
Theorem recordSuccess_closes_from_any_state :
  forall b : t,
    state (recordSuccess b) = CLOSED
    /\ failCount (recordSuccess b) = 0
    /\ nextAttempt (recordSuccess b) = nextAttempt b
    /\ forall now : Z,
         canExecute now (recordSuccess b) = (true, recordSuccess b).
Proof.
  intros b. repeat split.
Qed.

(** C2, as the code has it.  When a [recordFailure] at time [t] takes the
    breaker into OPEN, every [canExecute] before [t + 30000] answers false
    and changes nothing; a [canExecute] at or after [t + 30000] answers
    true and sets the phase to HALF_OPEN; and from then on, until a result
    is recorded, every further [canExecute] answers true as well. *)
Theorem cooldown_then_half_open_admits_all :
  forall (b : t) (t0 : Z),
    state b <> OPEN ->
    state (recordFailure t0 b) = OPEN ->
    let o := recordFailure t0 b in
    let h := mk HALF_OPEN (failCount o) (t0 + 30000) in
    (forall times : list Z,
        Forall (fun now => now < t0 + 30000) times ->
        canExecutes times o = (map (fun _ => false) times, o))
    /\ (forall now : Z, t0 + 30000 <= now -> canExecute now o = (true, h))
    /\ (forall times : list Z,
          canExecutes times h = (map (fun _ => true) times, h)).
Proof.
  intros b t0 Hne Hopen o h.
  pose proof (recordFailure_enters_open t0 b Hne Hopen) as Hnext.
  fold o in Hopen, Hnext. unfold COOLDOWN_MS in Hnext.
  repeat split.
  - intros times Hearly. apply canExecutes_open_early; [assumption|].
    now rewrite Hnext.
  - intros now Hnow. unfold canExecute. rewrite Hopen, Hnext.
    destruct (Z.leb_spec (t0 + 30000) now); [reflexivity|lia].
  - intros times. now apply canExecutes_half_open.
Qed.

Lemma cooldown_then_half_open_admits_all_witness :
  let b := mk CLOSED 2 0 in
  let o := recordFailure 0 b in
  let h := mk HALF_OPEN 3 30000 in
  state b <> OPEN
  /\ state o = OPEN
  /\ (forall times : list Z,
        Forall (fun now => now < 0 + 30000) times ->
        canExecutes times o = (map (fun _ => false) times, o))
  /\ (forall now : Z, 0 + 30000 <= now -> canExecute now o = (true, h))
  /\ (forall times : list Z,
        canExecutes times h = (map (fun _ => true) times, h)).
Proof.
  split; [discriminate|]. split; [reflexivity|].
  apply (@cooldown_then_half_open_admits_all (mk CLOSED 2 0) 0);
    [discriminate|reflexivity].
Defined.

(** C2, as the specification has it, fails: after the cool-down the
    breaker answers true twice in a row, no result having been recorded
    in between. *)
Lemma half_open_probe_not_single :
  canExecutes [30000; 30001] (recordFailures [0; 0; 0] (init 0))
  = ([true; true], mk HALF_OPEN 3 30000).
Proof. reflexivity. Qed.

End CircuitBreakerFacts.

(* ================================================================== *)
(** * Properties of the matcher *)
(* ================================================================== *)

Module RegexFacts.

Import Regex.

(** ** Characters a pattern cannot tell apart

    When a relation [R] on characters is respected by every class of a
    pattern and by [\b], the pattern matches two strings related by [R]
    character by character at the same places. *)
Section Similar.

Variable R : N -> N -> Prop.
Hypothesis R_word : forall c d, R c d -> is_word c = is_word d.
Hypothesis R_refl : forall c, R c c.

Fixpoint respected (r : regex) : Prop :=
  match r with
  | Empty | WordBoundary => True
  | Char cs => forall c d, R c d -> in_charset cs c = in_charset cs d
  | Seq r1 r2 => respected r1 /\ respected r2
  | Repeat r1 _ _ => respected r1
  end.

Definition sim_state (x y : mstate) : Prop :=
  before_word x = before_word y /\ Forall2 R (input x) (input y).

Definition sim_result (a b : option mstate) : Prop :=
  match a, b with
  | Some x, Some y => sim_state x y
  | None, None => True
  | _, _ => False
  end.

Definition sim_cont (k k' : continuation) : Prop :=
  forall x y, sim_state x y -> sim_result (k x) (k' y).

Definition sim_matcher (m m' : matcher) : Prop :=
  forall k k', sim_cont k k' -> sim_cont (m k) (m' k').

Lemma sim_state_length (x y : mstate) :
  sim_state x y -> length (input x) = length (input y).
Proof. intros [_ H]. eapply Forall2_length, H. Qed.

Lemma at_boundary_sim (x y : mstate) :
  sim_state x y -> at_boundary x = at_boundary y.
Proof.
  intros [Hb Hin]. unfold at_boundary. rewrite Hb.
  destruct Hin as [|c d s s' Hcd _]; [reflexivity|].
  now rewrite (R_word _ _ Hcd).
Qed.

Lemma RepeatMatcher_sim (fuel : nat) (m m' : matcher) :
  sim_matcher m m' ->
  forall min max,
    sim_matcher (RepeatMatcher fuel m min max)
                (RepeatMatcher fuel m' min max).
Proof.
  intros Hm. induction fuel as [|fuel IH]; intros min max k k' Hk x y Hxy.
  - exact I.
  - cbn [RepeatMatcher].
    assert (Hd : sim_cont
      (fun y0 : mstate =>
         if Nat.eqb min 0
            && Nat.eqb (length (input y0)) (length (input x))
         then None
         else RepeatMatcher fuel m (Nat.pred min)
                            (option_map Nat.pred max) k y0)
      (fun y0 : mstate =>
         if Nat.eqb min 0
            && Nat.eqb (length (input y0)) (length (input y))
         then None
         else RepeatMatcher fuel m' (Nat.pred min)
                            (option_map Nat.pred max) k' y0)).
    { intros x1 y1 H1.
      rewrite (sim_state_length _ _ H1), (sim_state_length _ _ Hxy).
      destruct (Nat.eqb min 0
                && Nat.eqb (length (input y1)) (length (input y)));
        [exact I|].
      now apply IH. }
    pose proof (Hm _ _ Hd x y Hxy) as Hstep.
    pose proof (Hk x y Hxy) as Hstop.
    destruct max as [[|max]|]; [exact Hstop| |].
    + destruct (Nat.eqb min 0); [|exact Hstep].
      unfold sim_result in Hstep |- *.
      destruct (m _ x), (m' _ y); try contradiction; assumption.
    + destruct (Nat.eqb min 0); [|exact Hstep].
      unfold sim_result in Hstep |- *.
      destruct (m _ x), (m' _ y); try contradiction; assumption.
Qed.

Lemma rmatch_sim (r : regex) :
  respected r -> sim_matcher (rmatch r) (rmatch r).
Proof.
  induction r as [|cs| |r1 IH1 r2 IH2|r1 IH1 min max];
    intros Hr k k' Hk x y Hxy; cbn [rmatch].
  - now apply Hk.
  - destruct Hxy as [Hb Hin].
    destruct Hin as [|c d s s' Hcd Hrest]; [exact I|].
    cbn in Hr. rewrite (Hr c d Hcd).
    destruct (in_charset cs d); [|exact I].
    apply Hk. split; [exact (R_word _ _ Hcd)|exact Hrest].
  - rewrite (at_boundary_sim _ _ Hxy).
    destruct (at_boundary y); [now apply Hk|exact I].
  - destruct Hr as [Hr1 Hr2].
    apply (IH1 Hr1 (rmatch r2 k) (rmatch r2 k')); [|exact Hxy].
    now apply IH2.
  - rewrite (sim_state_length _ _ Hxy).
    apply RepeatMatcher_sim; [|exact Hk|exact Hxy].
    now apply IH1.
Qed.

Lemma exec_sim (r : regex) (pw : bool) (s s' : jsstring) :
  respected r -> Forall2 R s s' -> exec r pw s = exec r pw s'.
Proof.
  intros Hr Hs. unfold exec.
  assert (Hk : sim_cont Some Some) by (intros x y H; exact H).
  pose proof (rmatch_sim r Hr Some Some Hk (MState pw s) (MState pw s')
                (conj eq_refl Hs)) as H.
  unfold sim_result in H.
  destruct (rmatch r Some (MState pw s)), (rmatch r Some (MState pw s'));
    try contradiction; [|reflexivity].
  now rewrite (Forall2_length Hs), (sim_state_length _ _ H).
Qed.

Lemma plan_sim (r : regex) (s s' : jsstring) :
  respected r -> Forall2 R s s' ->
  forall pw skip, plan r pw skip s = plan r pw skip s'.
Proof.
  intros Hr Hs. induction Hs as [|c d s s' Hcd Hrest IH]; intros pw skip.
  - reflexivity.
  - cbn [plan]. rewrite (R_word _ _ Hcd).
    rewrite (exec_sim r pw _ _ Hr (Forall2_cons c d Hcd Hrest)).
    destruct skip; [|now rewrite IH].
    destruct (exec r pw (d :: s')) as [[|n]|]; now rewrite IH.
Qed.

Lemma Forall2_R_refl (s : jsstring) : Forall2 R s s.
Proof. induction s; constructor; auto. Qed.

Lemma render_sim (rep : jsstring) (p : list action) :
  forall s s', Forall2 R s s' ->
               Forall2 R (render rep p s) (render rep p s').
Proof.
  induction p as [|a p IH]; intros s s' Hs; [constructor|].
  destruct a; cbn [render].
  - destruct Hs; [constructor|]. constructor; [assumption|now apply IH].
  - destruct Hs; [constructor|]. now apply IH.
  - apply Forall2_app; [apply Forall2_R_refl|now apply IH].
Qed.

Lemma replace_sim (r : regex) (rep s s' : jsstring) :
  respected r -> Forall2 R s s' ->
  replace r rep s' = render rep (plan r false 0 s) s'
  /\ Forall2 R (replace r rep s) (replace r rep s').
Proof.
  intros Hr Hs. unfold replace.
  rewrite <- (plan_sim r s s' Hr Hs false 0). split; [reflexivity|].
  now apply render_sim.
Qed.

End Similar.

(** ** The matches of a pattern *)

(** [matches r x y]: the pattern [r] matches from position [x] to
    position [y].  As in the language definition, an iteration of a
    quantifier beyond its minimum has to consume something. *)
Inductive matches : regex -> mstate -> mstate -> Prop :=
| M_Empty x : matches Empty x x
| M_Char cs pw c rest :
    in_charset cs c = true ->
    matches (Char cs) (MState pw (c :: rest)) (MState (is_word c) rest)
| M_Boundary x : at_boundary x = true -> matches WordBoundary x x
| M_Seq r1 r2 x y z :
    matches r1 x y -> matches r2 y z -> matches (Seq r1 r2) x z
| M_Stop r min max x :
    min = 0%nat \/ max = Some 0%nat -> matches (Repeat r min max) x x
| M_Step r min max x y z :
    max <> Some 0%nat ->
    (min = 0%nat -> (length (input y) < length (input x))%nat) ->
    matches r x y ->
    matches (Repeat r (Nat.pred min) (option_map Nat.pred max)) y z ->
    matches (Repeat r min max) x z.

Lemma matches_suffix (r : regex) (x y : mstate) :
  matches r x y -> exists p, input x = p ++ input y.
Proof.
  induction 1 as [x|cs pw c rest _|x _|r1 r2 x y z _ [p Hp] _ [q Hq]
                 |r min max x _|r min max x y z _ _ _ [p Hp] _ [q Hq]].
  - now exists [].
  - now exists [c].
  - now exists [].
  - exists (p ++ q). now rewrite Hp, Hq, app_assoc.
  - now exists [].
  - exists (p ++ q). now rewrite Hp, Hq, app_assoc.
Qed.

Lemma matches_length (r : regex) (x y : mstate) :
  matches r x y -> (length (input y) <= length (input x))%nat.
Proof.
  intros H. apply matches_suffix in H as [p ->]. rewrite length_app. lia.
Qed.

(** *** Whatever the matcher finds is a match *)

Definition sound (r : regex) (m : matcher) : Prop :=
  forall k x z, m k x = Some z -> exists y, matches r x y /\ k y = Some z.

Lemma RepeatMatcher_sound (r : regex) :
  sound r (rmatch r) ->
  forall fuel min max,
    sound (Repeat r min max) (RepeatMatcher fuel (rmatch r) min max).
Proof.
  intros Hr. induction fuel as [|fuel IH]; intros min max k x z H.
  - discriminate.
  - cbn [RepeatMatcher] in H.
    assert (Hstep : forall z',
      rmatch r
        (fun y0 : mstate =>
           if Nat.eqb min 0
              && Nat.eqb (length (input y0)) (length (input x))
           then None
           else RepeatMatcher fuel (rmatch r) (Nat.pred min)
                              (option_map Nat.pred max) k y0) x = Some z' ->
      max <> Some 0%nat ->
      exists y, matches (Repeat r min max) x y /\ k y = Some z').
    { intros z' Hm Hmax. apply Hr in Hm as (y1 & Hxy & Hd).
      pose proof (matches_length _ _ _ Hxy) as Hle.
      destruct (Nat.eqb_spec min 0) as [Hmin|Hmin];
        [destruct (Nat.eqb_spec (length (input y1)) (length (input x)))
           as [Heq|Hne]; [discriminate|]|];
        cbn [andb] in Hd;
        apply IH in Hd as (y & Hyz & Hk);
        exists y; (split; [|exact Hk]);
        apply M_Step with y1; try assumption; intros; lia. }
    assert (Hstop : min = 0%nat -> k x = Some z ->
      exists y, matches (Repeat r min max) x y /\ k y = Some z).
    { intros Hmin Hk. exists x. split; [|exact Hk]. apply M_Stop. now left. }
    destruct max as [[|max]|].
    + exists x. split; [|exact H]. apply M_Stop. now right.
    + destruct (Nat.eqb_spec min 0) as [Hmin|Hmin].
      * destruct (rmatch r _ x) as [z'|] eqn:Hm.
        -- injection H as <-. now apply Hstep.
        -- now apply Hstop.
      * now apply Hstep.
    + destruct (Nat.eqb_spec min 0) as [Hmin|Hmin].
      * destruct (rmatch r _ x) as [z'|] eqn:Hm.
        -- injection H as <-. now apply Hstep.
        -- now apply Hstop.
      * now apply Hstep.
Qed.

Lemma rmatch_sound (r : regex) : sound r (rmatch r).
Proof.
  induction r as [|cs| |r1 IH1 r2 IH2|r1 IH1 min max];
    intros k x z H; cbn [rmatch] in H.
  - exists x. split; [constructor|exact H].
  - destruct x as [pw [|c rest]]; cbn in H; [discriminate|].
    destruct (in_charset cs c) eqn:Hc; [|discriminate].
    eexists. split; [now constructor|exact H].
  - destruct (at_boundary x) eqn:Hb; [|discriminate].
    exists x. split; [now constructor|exact H].
  - apply IH1 in H as (y1 & H1 & H). apply IH2 in H as (y & H2 & H).
    exists y. split; [now apply M_Seq with y1|exact H].
  - now apply (RepeatMatcher_sound r1 IH1) in H.
Qed.

(** *** Where there is a match the matcher finds one

    So the matcher fails only where the pattern has no match: the fuel of
    the quantifier never runs out before the search is over. *)

Lemma matches_found (r : regex) (x y : mstate) :
  matches r x y ->
  forall k z,
    k y = Some z ->
    (exists z', rmatch r k x = Some z')
    /\ forall r1 min max,
         r = Repeat r1 min max ->
         forall fuel,
           (min + length (input x) < fuel)%nat ->
           exists z', RepeatMatcher fuel (rmatch r1) min max k x = Some z'.
Proof.
  induction 1 as [x|cs pw c rest Hc|x Hb|r1 r2 x y z _ IH1 _ IH2
                 |r min max x Hstop
                 |r min max x y z Hmax Hprogress Hxy IHr Hyz IHrest];
    intros k z0 Hk.
  - split; [now exists z0|discriminate].
  - split; [|discriminate]. exists z0. cbn. now rewrite Hc.
  - split; [|discriminate]. exists z0. cbn [rmatch]. now rewrite Hb.
  - split; [|discriminate]. cbn [rmatch].
    destruct (IH2 k z0 Hk) as [[z1 H2] _].
    exact (proj1 (IH1 (rmatch r2 k) z1 H2)).
  - assert (Hfuel : forall fuel, (min + length (input x) < fuel)%nat ->
              exists z', RepeatMatcher fuel (rmatch r) min max k x = Some z').
    { intros [|fuel] Hf; [lia|]. cbn [RepeatMatcher].
      destruct max as [[|max]|]; [now exists z0| |];
        (destruct Hstop as [->|Hstop]; [|discriminate]);
        cbn [Nat.eqb andb];
        (destruct (rmatch r _ x) as [z'|]; [now exists z'|now exists z0]). }
    split; [apply Hfuel; lia|].
    intros r1 min' max' [= <- <- <-]. exact Hfuel.
  - pose proof (matches_length _ _ _ Hxy) as Hle.
    assert (Hfuel : forall fuel, (min + length (input x) < fuel)%nat ->
              exists z', RepeatMatcher fuel (rmatch r) min max k x = Some z').
    { intros [|fuel] Hf; [lia|]. cbn [RepeatMatcher].
      destruct (proj2 (IHrest k z0 Hk) r (Nat.pred min)
                      (option_map Nat.pred max) eq_refl fuel) as [z1 H1].
      { destruct min; [specialize (Hprogress eq_refl)|]; cbn; lia. }
      set (d := fun y0 : mstate =>
                  if Nat.eqb min 0
                     && Nat.eqb (length (input y0)) (length (input x))
                  then None
                  else RepeatMatcher fuel (rmatch r) (Nat.pred min)
                                     (option_map Nat.pred max) k y0).
      assert (Hd : d y = Some z1).
      { unfold d. destruct (Nat.eqb_spec min 0) as [Hmin|Hmin]; [|exact H1].
        specialize (Hprogress Hmin).
        destruct (Nat.eqb_spec (length (input y)) (length (input x)));
          [lia|exact H1]. }
      destruct (proj1 (IHr d z1 Hd)) as [z2 H2].
      destruct max as [[|max]|]; [congruence| |];
        rewrite H2; destruct (Nat.eqb min 0); now exists z2. }
    split; [apply Hfuel; lia|].
    intros r1 min' max' [= <- <- <-]. exact Hfuel.
Qed.

(** A match attempt fails exactly where the pattern has no match. *)
Lemma exec_None_iff (r : regex) (pw : bool) (s : jsstring) :
  exec r pw s = None <-> forall y, ~ matches r (MState pw s) y.
Proof.
  unfold exec. split.
  - intros H y Hy.
    destruct (proj1 (matches_found r _ y Hy Some y eq_refl)) as [z Hz].
    now rewrite Hz in H.
  - intros H. destruct (rmatch r Some (MState pw s)) as [z|] eqn:Hm;
      [|reflexivity].
    apply rmatch_sound in Hm as (y & Hy & _). now apply H in Hy.
Qed.

Lemma exec_sound (r : regex) (pw : bool) (s : jsstring) (n : nat) :
  exec r pw s = Some n ->
  exists p rest pw',
    s = p ++ rest /\ length p = n
    /\ matches r (MState pw s) (MState pw' rest).
Proof.
  unfold exec. destruct (rmatch r Some (MState pw s)) as [y|] eqn:H;
    [|discriminate].
  intros [= <-]. apply rmatch_sound in H as (y' & Hm & [= ->]).
  destruct (matches_suffix _ _ _ Hm) as [p Hp]. cbn in Hp.
  exists p, (input y), (before_word y). repeat split.
  - exact Hp.
  - rewrite Hp, length_app. lia.
  - now destruct y.
Qed.

(** ** Inversion of matches *)

Lemma matches_Char_inv cs x z :
  matches (Char cs) x z ->
  exists c rest, input x = c :: rest /\ in_charset cs c = true
                 /\ z = MState (is_word c) rest.
Proof. inversion 1; subst. now exists c, rest. Qed.

Lemma matches_Seq_inv r1 r2 x z :
  matches (Seq r1 r2) x z -> exists y, matches r1 x y /\ matches r2 y z.
Proof. inversion 1; subst. now exists y. Qed.

Lemma matches_Boundary_inv x z :
  matches WordBoundary x z -> z = x /\ at_boundary x = true.
Proof. inversion 1; subst. now split. Qed.

Lemma matches_Repeat_done r x z :
  matches (Repeat r 0 (Some 0%nat)) x z -> z = x.
Proof. inversion 1; subst; [reflexivity|congruence]. Qed.

Lemma matches_Repeat_must r min max x z :
  matches (Repeat r (S min) (Some (S max))) x z ->
  exists y, matches r x y /\ matches (Repeat r min (Some max)) y z.
Proof.
  inversion 1; subst.
  - match goal with H : _ \/ _ |- _ => destruct H; discriminate end.
  - now exists y.
Qed.

Lemma matches_Repeat_may r max x z :
  matches (Repeat r 0 (Some (S max))) x z ->
  z = x \/ exists y, matches r x y /\ matches (Repeat r 0 (Some max)) y z.
Proof.
  inversion 1; subst; [now left|right]. now exists y.
Qed.

Lemma exec_matches (r : regex) (pw : bool) (s : jsstring) (n : nat) :
  exec r pw s = Some n ->
  exists y, matches r (MState pw s) y
            /\ n = (length s - length (input y))%nat.
Proof.
  unfold exec. destruct (rmatch r Some (MState pw s)) as [y|] eqn:H;
    [|discriminate].
  intros [= <-]. apply rmatch_sound in H as (y' & Hm & [= ->]).
  now exists y.
Qed.

Lemma boundary_before_word (pw : bool) (c : N) (rest : jsstring) :
  at_boundary (MState pw (c :: rest)) = true -> is_word c = true ->
  pw = false.
Proof.
  unfold at_boundary. cbn [before_word input]. intros H Hc.
  rewrite Hc in H. now destruct pw.
Qed.

Lemma boundary_after_word (rest : jsstring) :
  at_boundary (MState true rest) = true ->
  match rest with c :: _ => is_word c = false | [] => True end.
Proof.
  unfold at_boundary. cbn [before_word input].
  destruct rest as [|c ?]; [trivial|]. now destruct (is_word c).
Qed.


(** ** Where nothing matches *)

Lemma render_copy (rep s : jsstring) :
  render rep (repeat Copy (length s)) s = s.
Proof. induction s as [|c s IH]; [reflexivity|]. cbn. now rewrite IH. Qed.

Lemma replace_no_match (r : regex) (rep : jsstring) (Q : N -> Prop) :
  (forall pw s, Forall Q s -> exec r pw s = None) ->
  forall s, Forall Q s -> replace r rep s = s.
Proof.
  intros Hnone s Hs. unfold replace.
  enough (H : forall pw, plan r pw 0 s = repeat Copy (length s))
    by (rewrite H; apply render_copy).
  induction Hs as [|c s Hc Hs IH]; intros pw.
  - cbn. now rewrite (Hnone pw [] (Forall_nil Q)).
  - cbn [plan]. rewrite (Hnone pw (c :: s) (Forall_cons c Hc Hs)).
    cbn. now rewrite IH.
Qed.

(** ** A greedy run over one class *)

(** Whether the last character passed is a word character, after the
    characters [p] from a position whose flag was [pw]. *)
Definition consume (pw : bool) (p : jsstring) : bool :=
  fold_left (fun _ c => is_word c) p pw.

Definition stops (cs : charset) (rest : jsstring) : Prop :=
  match rest with
  | c :: _ => in_charset cs c = false
  | [] => True
  end.

Lemma rmatch_Char_stops cs k pw rest :
  stops cs rest -> rmatch (Char cs) k (MState pw rest) = None.
Proof.
  destruct rest as [|c rest]; [reflexivity|]. cbn. now intros ->.
Qed.

Lemma rmatch_Char_cons cs k pw c rest :
  in_charset cs c = true ->
  rmatch (Char cs) k (MState pw (c :: rest)) = k (MState (is_word c) rest).
Proof. cbn. now intros ->. Qed.

Lemma length_neqb (A : Type) (c : A) (l : list A) :
  Nat.eqb (length l) (length (c :: l)) = false.
Proof. apply Nat.eqb_neq. cbn. lia. Qed.

(** When the continuation fails after every prefix of the run, the
    quantifier fails. *)
Lemma repeat_class_fails (cs : charset) (k : continuation)
    (rest : jsstring) :
  stops cs rest ->
  forall run fuel pw min,
    Forall (fun c => in_charset cs c = true) run ->
    (forall p q, run = p ++ q ->
                 k (MState (consume pw p) (q ++ rest)) = None) ->
    RepeatMatcher fuel (rmatch (Char cs)) min None k
                  (MState pw (run ++ rest)) = None.
Proof.
  intros Hstop run.
  induction run as [|c run IH]; intros fuel pw min Hrun Hk;
    (destruct fuel as [|fuel]; [reflexivity|]); cbn [RepeatMatcher].
  - cbn [app]. rewrite (rmatch_Char_stops _ _ _ _ Hstop).
    destruct (Nat.eqb min 0); [|reflexivity].
    exact (Hk [] [] eq_refl).
  - inversion Hrun as [|? ? Hc Hrun']; subst.
    cbn [app]. rewrite (rmatch_Char_cons _ _ _ _ _ Hc). cbn [input].
    rewrite length_neqb, andb_false_r.
    rewrite IH; [| assumption |].
    + destruct (Nat.eqb min 0); [|reflexivity].
      exact (Hk [] (c :: run) eq_refl).
    + intros p q ->. exact (Hk (c :: p) q eq_refl).
Qed.

(** The quantifier takes the longest prefix of the run after which the
    continuation succeeds: here [run1], the continuation failing after
    every longer prefix. *)
Lemma repeat_class_backtrack (cs : charset) (k : continuation)
    (run2 rest : jsstring) (z : mstate) :
  stops cs rest ->
  Forall (fun c => in_charset cs c = true) run2 ->
  forall run1 fuel pw min,
    Forall (fun c => in_charset cs c = true) run1 ->
    (min <= length run1)%nat -> (length run1 < fuel)%nat ->
    k (MState (consume pw run1) (run2 ++ rest)) = Some z ->
    (forall p q, run2 = p ++ q -> p <> [] ->
                 k (MState (consume pw (run1 ++ p)) (q ++ rest)) = None) ->
    RepeatMatcher fuel (rmatch (Char cs)) min None k
                  (MState pw (run1 ++ run2 ++ rest)) = Some z.
Proof.
  intros Hstop Hrun2 run1.
  induction run1 as [|c run1 IH]; intros fuel pw min Hrun1 Hmin Hfuel Hz Hk;
    (destruct fuel as [|fuel]; [cbn in Hfuel; lia|]); cbn [RepeatMatcher].
  - cbn in Hmin. assert (min = 0)%nat as -> by lia. cbn [Nat.eqb andb app].
    destruct run2 as [|c run2].
    + cbn [app]. rewrite (rmatch_Char_stops _ _ _ _ Hstop). exact Hz.
    + inversion Hrun2 as [|? ? Hc Hrun2']; subst.
      cbn [app]. rewrite (rmatch_Char_cons _ _ _ _ _ Hc). cbn [input].
      rewrite length_neqb.
      rewrite (repeat_class_fails cs k rest Hstop); [exact Hz|assumption|].
      intros p q ->. apply (Hk (c :: p) q eq_refl). discriminate.
  - inversion Hrun1 as [|? ? Hc Hrun1']; subst.
    cbn [app]. rewrite (rmatch_Char_cons _ _ _ _ _ Hc). cbn [input].
    rewrite length_neqb, andb_false_r. cbn [option_map].
    cbn in Hmin, Hfuel.
    rewrite (IH fuel (is_word c) (Nat.pred min)); try assumption; try lia.
    now destruct (Nat.eqb min 0).
Qed.

(** With nothing to give back: the whole run is taken. *)
Lemma repeat_class_greedy (cs : charset) (k : continuation)
    (rest : jsstring) (z : mstate) :
  stops cs rest ->
  forall run fuel pw min,
    Forall (fun c => in_charset cs c = true) run ->
    (min <= length run)%nat -> (length run < fuel)%nat ->
    k (MState (consume pw run) rest) = Some z ->
    RepeatMatcher fuel (rmatch (Char cs)) min None k
                  (MState pw (run ++ rest)) = Some z.
Proof.
  intros Hstop run fuel pw min Hrun Hmin Hfuel Hz.
  apply (repeat_class_backtrack cs k [] rest z Hstop (Forall_nil _)
           run fuel pw min Hrun Hmin Hfuel Hz).
  intros p q Hpq Hp. destruct p; [congruence|discriminate].
Qed.

Lemma repeat_class_greedy_end (cs : charset) (k : continuation)
    (z : mstate) (run : jsstring) (fuel : nat) (pw : bool) (min : nat) :
  Forall (fun c => in_charset cs c = true) run ->
  (min <= length run)%nat -> (length run < fuel)%nat ->
  k (MState (consume pw run) []) = Some z ->
  RepeatMatcher fuel (rmatch (Char cs)) min None k (MState pw run) = Some z.
Proof.
  intros Hrun Hmin Hfuel Hz.
  pose proof (repeat_class_greedy cs k [] z I run fuel pw min
                Hrun Hmin Hfuel Hz) as H.
  now rewrite app_nil_r in H.
Qed.

Lemma repeat_class_backtrack_end (cs : charset) (k : continuation)
    (z : mstate) (run1 run2 : jsstring) (fuel : nat) (pw : bool)
    (min : nat) :
  Forall (fun c => in_charset cs c = true) run1 ->
  Forall (fun c => in_charset cs c = true) run2 ->
  (min <= length run1)%nat -> (length run1 < fuel)%nat ->
  k (MState (consume pw run1) run2) = Some z ->
  (forall p q, run2 = p ++ q -> p <> [] ->
               k (MState (consume pw (run1 ++ p)) q) = None) ->
  RepeatMatcher fuel (rmatch (Char cs)) min None k
                (MState pw (run1 ++ run2)) = Some z.
Proof.
  intros Hrun1 Hrun2 Hmin Hfuel Hz Hk.
  pose proof (repeat_class_backtrack cs k run2 [] z I Hrun2 run1 fuel pw
                min Hrun1 Hmin Hfuel) as H.
  rewrite !app_nil_r in H. apply H; [exact Hz|].
  intros p q Hpq Hp. rewrite app_nil_r. now apply Hk.
Qed.


(** ** A match of the whole subject *)

Lemma plan_skip (r : regex) (s : jsstring) :
  (forall pw, exec r pw [] = None) ->
  forall pw, plan r pw (length s) s = repeat Drop (length s).
Proof.
  intros Hend. induction s as [|c s IH]; intros pw.
  - cbn. now rewrite Hend.
  - cbn. now rewrite IH.
Qed.

Lemma render_drop (rep s : jsstring) :
  render rep (repeat Drop (length s)) s = [].
Proof. induction s as [|c s IH]; [reflexivity|]. cbn. exact IH. Qed.

Lemma replace_whole (r : regex) (rep s : jsstring) :
  s <> [] ->
  exec r false s = Some (length s) ->
  (forall pw, exec r pw [] = None) ->
  replace r rep s = rep.
Proof.
  intros Hs Hexec Hend. unfold replace.
  destruct s as [|c s]; [congruence|].
  cbn [plan]. rewrite Hexec. cbn [length render].
  rewrite (plan_skip r s Hend), render_drop. apply app_nil_r.
Qed.

Lemma consume_word (pw : bool) (p : jsstring) :
  p <> [] -> Forall (fun c => is_word c = true) p -> consume pw p = true.
Proof.
  unfold consume. intros Hp Hw. revert pw.
  induction Hw as [|c p Hc Hw IH]; [congruence|]. intros pw. cbn.
  destruct p as [|d p]; [exact Hc|]. apply IH. discriminate.
Qed.


End RegexFacts.

(* ================================================================== *)
(** * Properties of the sanitizer *)
(* ================================================================== *)

Module SanitizerFacts.

Import Regex RegexFacts Sanitizer.
Local Open Scope N_scope.

(** ** Characters the three patterns cannot tell apart *)

(** Every class that occurs in one of the three patterns. *)
Definition classes : list charset :=
  [email_local; [Single (chr "@")]; email_domain; [Single (chr ".")];
   alpha; [Digit]; [Single (chr "-")]; [Single (chr "-"); Space]].

Definition signature (c : N) : list bool :=
  is_word c :: map (fun cs => in_charset cs c) classes.

Definition same_class (c d : N) : Prop := signature c = signature d.

(** [sanitizeMessage] on [s], carried out with the plans that the
    patterns give on [model]. *)
Definition sanitize_like (model s : jsstring) : jsstring :=
  match s with
  | [] => s
  | _ =>
      let p1 := plan emailRegex false 0 model in
      let m1 := render TAG_EMAIL p1 model in
      let p2 := plan ssnRegex false 0 m1 in
      let m2 := render TAG_SSN p2 m1 in
      let p3 := plan ccRegex false 0 m2 in
      render TAG_CREDIT_CARD p3
        (render TAG_SSN p2 (render TAG_EMAIL p1 s))
  end.

(** The shape the credit-card pattern accepts, read from left to right:
    four digits, then three times an optional dash or white-space
    character and four digits. *)
Definition is_separator (c : N) : bool := (c =? chr "-") || is_space c.

Definition take_digits4 (s : jsstring) : option jsstring :=
  match s with
  | a :: b :: c :: d :: rest =>
      if is_digit a && is_digit b && is_digit c && is_digit d
      then Some rest else None
  | _ => None
  end.

Definition take_separator (s : jsstring) : jsstring :=
  match s with
  | c :: rest => if is_separator c then rest else s
  | [] => []
  end.

Definition card_shape (s : jsstring) : bool :=
  match take_digits4 s with
  | Some s1 =>
      match take_digits4 (take_separator s1) with
      | Some s2 =>
          match take_digits4 (take_separator s2) with
          | Some s3 =>
              match take_digits4 (take_separator s3) with
              | Some [] => true
              | _ => false
              end
          | None => false
          end
      | None => false
      end
  | None => false
  end.

Lemma same_class_word (c d : N) : same_class c d -> is_word c = is_word d.
Proof. unfold same_class, signature. intros H. now injection H. Qed.

Lemma same_class_refl (c : N) : same_class c c.
Proof. reflexivity. Qed.

Ltac respected_by_signature :=
  cbn; repeat split; intros c d H;
  unfold same_class, signature, classes in H; cbn [map] in H;
  injection H; intros; assumption.

Lemma emailRegex_respected : respected same_class emailRegex.
Proof. respected_by_signature. Qed.

Lemma ssnRegex_respected : respected same_class ssnRegex.
Proof. respected_by_signature. Qed.

Lemma ccRegex_respected : respected same_class ccRegex.
Proof. respected_by_signature. Qed.

Lemma sanitize_transfer (model s : jsstring) :
  Forall2 same_class model s ->
  sanitizeMessage s = sanitize_like model s.
Proof.
  intros H0. unfold sanitizeMessage, sanitize_like.
  destruct s as [|c s]; [reflexivity|]. cbv zeta.
  set (s0 := c :: s) in *.
  destruct (replace_sim same_class same_class_word same_class_refl
              emailRegex TAG_EMAIL model s0 emailRegex_respected H0)
    as [E1 H1].
  destruct (replace_sim same_class same_class_word same_class_refl
              ssnRegex TAG_SSN _ _ ssnRegex_respected H1)
    as [E2 H2].
  destruct (replace_sim same_class same_class_word same_class_refl
              ccRegex TAG_CREDIT_CARD _ _ ccRegex_respected H2)
    as [E3 _].
  rewrite E3, E2, E1. reflexivity.
Qed.

Lemma sanitize_by_model (model s out : jsstring) :
  Forall2 same_class model s ->
  sanitize_like model s = out ->
  sanitizeMessage s = out.
Proof. intros H <-. now apply sanitize_transfer. Qed.

(** Representatives of the classes of characters. *)

Lemma digit_class (c : N) : is_digit c = true -> same_class 48 c.
Proof.
  unfold is_digit. intros H. apply andb_prop in H as [Hlo Hhi].
  apply N.leb_le in Hlo, Hhi.
  assert (Hc : c = 48 \/ c = 49 \/ c = 50 \/ c = 51 \/ c = 52 \/ c = 53
               \/ c = 54 \/ c = 55 \/ c = 56 \/ c = 57) by lia.
  repeat (destruct Hc as [->|Hc]; [reflexivity|]). now subst.
Qed.

Lemma space_class (c : N) : is_space c = true -> same_class 32 c.
Proof.
  unfold is_space. intros H.
  repeat (apply orb_prop in H as [H|H]);
    try (apply N.eqb_eq in H; subst c; reflexivity);
    apply andb_prop in H as [Hlo Hhi]; apply N.leb_le in Hlo, Hhi.
  - assert (Hc : c = 9 \/ c = 10 \/ c = 11 \/ c = 12 \/ c = 13) by lia.
    repeat (destruct Hc as [->|Hc]; [reflexivity|]). now subst.
  - assert (Hc : c = 8192 \/ c = 8193 \/ c = 8194 \/ c = 8195 \/ c = 8196
                 \/ c = 8197 \/ c = 8198 \/ c = 8199 \/ c = 8200
                 \/ c = 8201 \/ c = 8202) by lia.
    repeat (destruct Hc as [->|Hc]; [reflexivity|]). now subst.
Qed.

Lemma separator_class (c : N) :
  is_separator c = true -> same_class 45 c \/ same_class 32 c.
Proof.
  unfold is_separator. intros H. apply orb_prop in H as [H|H].
  - apply N.eqb_eq in H. subst c. now left.
  - right. now apply space_class.
Qed.

(** ** Runs of digits *)

Ltac explode_digits s Hlen Hdig :=
  repeat (destruct s as [|?c s]; [discriminate Hlen|]);
  destruct s; [|discriminate Hlen];
  cbn [forallb] in Hdig;
  repeat (apply andb_prop in Hdig as [?Hd Hdig]).

Ltac by_digit_model model :=
  apply (sanitize_by_model model);
  [repeat constructor; apply digit_class; assumption
  |vm_compute; reflexivity].

Lemma digits8_unchanged (s : jsstring) :
  length s = 8%nat -> forallb is_digit s = true -> sanitizeMessage s = s.
Proof.
  intros Hlen Hdig. explode_digits s Hlen Hdig.
  by_digit_model (js "00000000").
Qed.

Lemma digits12_unchanged (s : jsstring) :
  length s = 12%nat -> forallb is_digit s = true -> sanitizeMessage s = s.
Proof.
  intros Hlen Hdig. explode_digits s Hlen Hdig.
  by_digit_model (js "000000000000").
Qed.

Lemma digits13_unchanged (s : jsstring) :
  length s = 13%nat -> forallb is_digit s = true -> sanitizeMessage s = s.
Proof.
  intros Hlen Hdig. explode_digits s Hlen Hdig.
  by_digit_model (js "0000000000000").
Qed.

Lemma digits14_unchanged (s : jsstring) :
  length s = 14%nat -> forallb is_digit s = true -> sanitizeMessage s = s.
Proof.
  intros Hlen Hdig. explode_digits s Hlen Hdig.
  by_digit_model (js "00000000000000").
Qed.

Lemma digits15_unchanged (s : jsstring) :
  length s = 15%nat -> forallb is_digit s = true -> sanitizeMessage s = s.
Proof.
  intros Hlen Hdig. explode_digits s Hlen Hdig.
  by_digit_model (js "000000000000000").
Qed.

(** ** The shape of a card number *)

Lemma take_digits4_inv (s r : jsstring) :
  take_digits4 s = Some r ->
  exists a b c d,
    s = a :: b :: c :: d :: r
    /\ is_digit a = true /\ is_digit b = true
    /\ is_digit c = true /\ is_digit d = true.
Proof.
  unfold take_digits4.
  destruct s as [|a [|b [|c [|d rest]]]]; try discriminate.
  destruct (is_digit a) eqn:Ha, (is_digit b) eqn:Hb, (is_digit c) eqn:Hc,
    (is_digit d) eqn:Hd; try discriminate.
  intros [= <-]. now exists a, b, c, d.
Qed.

Lemma take_separator_inv (s : jsstring) :
  take_separator s = s
  \/ exists c, s = c :: take_separator s
               /\ (same_class 45 c \/ same_class 32 c).
Proof.
  destruct s as [|c rest]; [now left|]. cbn.
  destruct (is_separator c) eqn:Hc; [right|now left].
  exists c. split; [reflexivity|]. now apply separator_class.
Qed.

Ltac solve_similar :=
  repeat (apply Forall2_cons;
          [first [apply digit_class; assumption | eassumption]|]);
  apply Forall2_nil.

Lemma card_shape_redacted (s : jsstring) :
  card_shape s = true -> sanitizeMessage s = TAG_CREDIT_CARD.
Proof.
  unfold card_shape. intros H.
  destruct (take_digits4 s) as [s1|] eqn:E1; [|discriminate].
  destruct (take_digits4 (take_separator s1)) as [s2|] eqn:E2;
    [|discriminate].
  destruct (take_digits4 (take_separator s2)) as [s3|] eqn:E3;
    [|discriminate].
  destruct (take_digits4 (take_separator s3)) as [[|? ?]|] eqn:E4;
    try discriminate.
  clear H.
  apply take_digits4_inv in E1 as (a1 & b1 & c1 & d1 & -> & ? & ? & ? & ?).
  apply take_digits4_inv in E2 as (a2 & b2 & c2 & d2 & E2 & ? & ? & ? & ?).
  apply take_digits4_inv in E3 as (a3 & b3 & c3 & d3 & E3 & ? & ? & ? & ?).
  apply take_digits4_inv in E4 as (a4 & b4 & c4 & d4 & E4 & ? & ? & ? & ?).
  destruct (take_separator_inv s3) as [K3|(x3 & K3 & [W3|W3])];
    rewrite E4 in K3; subst s3;
    (destruct (take_separator_inv s2) as [K2|(x2 & K2 & [W2|W2])];
     rewrite E3 in K2; subst s2);
    (destruct (take_separator_inv s1) as [K1|(x1 & K1 & [W1|W1])];
     rewrite E2 in K1; subst s1);
    (eapply sanitize_by_model; [solve_similar|vm_compute; reflexivity]).
Qed.

Lemma matches_digit_inv x z :
  matches digit x z ->
  exists c rest, input x = c :: rest /\ is_digit c = true
                 /\ z = MState (is_word c) rest.
Proof.
  intros H. apply matches_Char_inv in H as (c & rest & Hx & Hc & ->).
  exists c, rest. repeat split; [exact Hx|].
  cbn in Hc. now rewrite orb_false_r in Hc.
Qed.

Lemma matches_digits4_inv x z :
  matches (times 4 digit) x z ->
  exists a b c d rest,
    input x = a :: b :: c :: d :: rest
    /\ is_digit a = true /\ is_digit b = true
    /\ is_digit c = true /\ is_digit d = true
    /\ z = MState (is_word d) rest.
Proof.
  unfold times. intros H.
  apply matches_Repeat_must in H as (y1 & H1 & H).
  apply matches_Repeat_must in H as (y2 & H2 & H).
  apply matches_Repeat_must in H as (y3 & H3 & H).
  apply matches_Repeat_must in H as (y4 & H4 & H).
  apply matches_Repeat_done in H. subst z.
  apply matches_digit_inv in H1 as (a & r1 & Hx & Ha & ->).
  apply matches_digit_inv in H2 as (b & r2 & E2 & Hb & ->).
  apply matches_digit_inv in H3 as (c & r3 & E3 & Hc & ->).
  apply matches_digit_inv in H4 as (d & r4 & E4 & Hd & ->).
  cbn in E2, E3, E4. subst r1 r2 r3.
  now exists a, b, c, d, r4.
Qed.

Lemma matches_separator_inv x z :
  matches (opt (Char [Single (chr "-"); Space])) x z ->
  z = x
  \/ exists c rest, input x = c :: rest /\ is_separator c = true
                    /\ z = MState (is_word c) rest.
Proof.
  unfold opt. intros H.
  apply matches_Repeat_may in H as [->|(y & H1 & H)]; [now left|right].
  apply matches_Repeat_done in H. subst z.
  apply matches_Char_inv in H1 as (c & rest & Hx & Hc & ->).
  exists c, rest. repeat split; [exact Hx|].
  cbn in Hc. unfold is_separator. now rewrite orb_false_r in Hc.
Qed.

Ltac N_bool :=
  repeat match goal with
  | H : _ && _ = true |- _ => apply andb_prop in H as [? ?]
  | H : _ || _ = true |- _ => apply orb_prop in H as [H|H]
  | H : (_ <=? _) = true |- _ => apply N.leb_le in H
  | H : (_ =? _) = true |- _ => apply N.eqb_eq in H
  | H : (_ <? _) = true |- _ => apply N.ltb_lt in H
  end.

Lemma digit_not_separator c : is_digit c = true -> is_separator c = false.
Proof.
  intros H. destruct (is_separator c) eqn:E; [exfalso|reflexivity].
  unfold is_digit, is_separator, is_space, chr in *. cbn in E.
  N_bool; lia.
Qed.

Lemma digit_is_word c : is_digit c = true -> is_word c = true.
Proof. unfold is_word. intros ->. now rewrite orb_true_r. Qed.

Ltac use_char_facts :=
  repeat match goal with
  | H : is_digit ?c = true |- _ =>
      lazymatch goal with
      | _ : is_separator c = false |- _ => fail
      | _ => pose proof (digit_not_separator c H)
      end
  end;
  repeat match goal with
  | H : ?f ?c = _ |- context [?f ?c] => rewrite H
  end.

(** Where the card pattern matches, the matched text has the shape
    [card_shape], no word character stands before it, and none after
    it. *)
Lemma ccRegex_match_shape (pw : bool) (s : jsstring) (n : nat) :
  exec ccRegex pw s = Some n ->
  card_shape (firstn n s) = true
  /\ pw = false
  /\ match skipn n s with c :: _ => is_word c = false | [] => True end.
Proof.
  intros H. apply exec_matches in H as (y & H & ->).
  unfold ccRegex in H. cbn [seq] in H.
  apply matches_Seq_inv in H as (y0 & H0 & H).
  apply matches_Boundary_inv in H0 as [-> Hstart].
  apply matches_Seq_inv in H as (y3 & Hgroups & H).
  apply matches_Seq_inv in H as (y4 & Hlast & Hend).
  apply matches_Boundary_inv in Hend as [<- Hend].
  unfold times in Hgroups.
  apply matches_Repeat_must in Hgroups as (y1 & G1 & Hgroups).
  apply matches_Repeat_must in Hgroups as (y2 & G2 & Hgroups).
  apply matches_Repeat_must in Hgroups as (y3' & G3 & Hgroups).
  apply matches_Repeat_done in Hgroups. subst y3'.
  apply matches_Seq_inv in G1 as (z1 & D1 & S1).
  apply matches_Seq_inv in G2 as (z2 & D2 & S2).
  apply matches_Seq_inv in G3 as (z3 & D3 & S3).
  apply matches_digits4_inv in D1
    as (a1 & b1 & c1 & d1 & r1 & E1 & ? & ? & ? & ? & ->).
  cbn [input] in E1.
  apply matches_separator_inv in S1
    as [->|(x1 & r1' & X1 & ? & ->)];
  apply matches_digits4_inv in D2
    as (a2 & b2 & c2 & d2 & r2 & E2 & ? & ? & ? & ? & ->);
  cbn [input] in *;
  (apply matches_separator_inv in S2
    as [->|(x2 & r2' & X2 & ? & ->)]);
  apply matches_digits4_inv in D3
    as (a3 & b3 & c3 & d3 & r3 & E3 & ? & ? & ? & ? & ->);
  cbn [input] in *;
  (apply matches_separator_inv in S3
    as [->|(x3 & r3' & X3 & ? & ->)]);
  apply matches_digits4_inv in Hlast
    as (a4 & b4 & c4 & d4 & r4 & E4 & ? & ? & ? & ? & ->);
  cbn [input] in *; subst;
  (split; [|split;
     [apply (boundary_before_word _ _ _ Hstart); now apply digit_is_word|]]).
  all: match goal with
       | |- context [(length ?l - length ?r)%nat] =>
           let k := fresh "k" in
           let Hk := fresh "Hk" in
           remember (length l - length r)%nat as k eqn:Hk;
           cbn [length] in Hk;
           repeat rewrite Nat.sub_succ_l in Hk by lia;
           rewrite Nat.sub_diag in Hk; subst k
       end.
  all: cbn [firstn skipn].
  all: try (unfold card_shape;
            repeat (progress (cbn [take_digits4 take_separator andb];
                              use_char_facts));
            reflexivity).
  all: match goal with
       | Hd : is_digit ?d = true,
         He : at_boundary (MState (is_word ?d) _) = true |- _ =>
           rewrite (digit_is_word d Hd) in He;
           exact (boundary_after_word _ He)
       end.
Qed.

(** ** Addresses *)

(** An address [local@domain.tld] of the shape the comment of the
    pattern names: the local part starts with a letter, a digit or an
    underscore and goes on with the characters of its class, the domain is
    of its class, and the top-level domain has two letters or more. *)
Definition address_shape (local domain tld : jsstring) : bool :=
  match local with
  | c :: _ => is_word c
  | [] => false
  end
  && forallb (in_charset email_local) local
  && negb (Nat.eqb (length domain) 0)
  && forallb (in_charset email_domain) domain
  && Nat.leb 2 (length tld)
  && forallb (in_charset alpha) tld.

Definition address (local domain tld : jsstring) : jsstring :=
  local ++ chr "@" :: domain ++ chr "." :: tld.

Lemma alpha_facts (c : N) :
  in_charset alpha c = true ->
  in_charset email_domain c = true
  /\ is_word c = true
  /\ in_charset [Single (chr ".")] c = false.
Proof.
  unfold alpha, email_domain, in_charset, is_word, is_digit, chr.
  cbn. intros H.
  destruct ((65 <=? c) && (c <=? 90)) eqn:E1;
    [|destruct ((97 <=? c) && (c <=? 122)) eqn:E2; [|discriminate]];
    rewrite ?orb_true_r; cbn; repeat split;
    rewrite orb_false_r; apply N.eqb_neq; N_bool; lia.
Qed.

Lemma emailRegex_end (pw : bool) : exec emailRegex pw [] = None.
Proof. now destruct pw. Qed.


Lemma address_exec (local domain tld : jsstring) :
  address_shape local domain tld = true ->
  exec emailRegex false (address local domain tld)
  = Some (length (address local domain tld)).
Proof.
  unfold address_shape. intros H.
  apply andb_prop in H as [H Htld]. apply andb_prop in H as [H Hlen].
  apply andb_prop in H as [H Hdom]. apply andb_prop in H as [H Hne].
  apply andb_prop in H as [Hhead Hloc].
  rewrite forallb_forall, <- Forall_forall in Htld, Hdom, Hloc.
  apply Nat.leb_le in Hlen. apply negb_true_iff, Nat.eqb_neq in Hne.
  set (K5 := rmatch WordBoundary Some).
  set (K4 := rmatch (Repeat (Char alpha) 2 None) K5).
  set (K3 := rmatch (lit ".") K4).
  set (K2 := rmatch (plus (Char email_domain)) K3).
  set (K1 := rmatch (lit "@") K2).
  set (K0 := rmatch (plus (Char email_local)) K1).
  set (z := MState true []).
  assert (Htld_dom : Forall (fun c => in_charset email_domain c = true) tld).
  { eapply Forall_impl; [|exact Htld]. intros c Hc. now apply alpha_facts. }
  assert (Htld_word : Forall (fun c => is_word c = true) tld).
  { eapply Forall_impl; [|exact Htld]. intros c Hc. now apply alpha_facts. }
  assert (H4 : forall pw, K4 (MState pw tld) = Some z).
  { intros pw. unfold K4. cbn [rmatch input].
    apply repeat_class_greedy_end; [exact Htld|exact Hlen|lia|].
    unfold K5. cbn [rmatch]. unfold at_boundary. cbn [before_word input].
    rewrite consume_word; [reflexivity| |exact Htld_word].
    destruct tld; [cbn in Hlen; lia|discriminate]. }
  assert (H3 : forall pw, K3 (MState pw (chr "." :: tld)) = Some z).
  { intros pw. unfold K3, lit.
    rewrite rmatch_Char_cons by reflexivity. apply H4. }
  assert (H3' : forall pw q,
             (exists p, tld = p ++ q) -> K3 (MState pw q) = None).
  { intros pw q [p ->]. unfold K3, lit. apply rmatch_Char_stops.
    destruct q as [|c q]; [exact I|]. cbn [stops].
    apply Forall_app in Htld as [_ Hq]. inversion Hq; subst.
    now apply alpha_facts. }
  assert (H2 : forall pw, K2 (MState pw (domain ++ chr "." :: tld))
                          = Some z).
  { intros pw. unfold K2, plus. cbn [rmatch input].
    apply repeat_class_backtrack_end.
    - exact Hdom.
    - constructor; [reflexivity|exact Htld_dom].
    - destruct domain; [now cbn in Hne|cbn; lia].
    - rewrite length_app. lia.
    - apply H3.
    - intros p q Hpq Hp. apply H3'.
      destruct p as [|c p]; [congruence|]. injection Hpq as _ ->.
      now exists p. }
  assert (H1 : forall pw, K1 (MState pw (chr "@" :: domain ++ chr "." :: tld))
                          = Some z).
  { intros pw. unfold K1, lit.
    rewrite rmatch_Char_cons by reflexivity. apply H2. }
  assert (H0 : K0 (MState false (address local domain tld)) = Some z).
  { unfold K0, plus, address. cbn [rmatch input].
    apply repeat_class_greedy.
    - reflexivity.
    - exact Hloc.
    - destruct local; [discriminate|cbn; lia].
    - rewrite length_app. lia.
    - apply H1. }
  unfold exec.
  change (rmatch emailRegex Some) with (rmatch WordBoundary K0).
  cbn [rmatch].
  assert (Hb : at_boundary (MState false (address local domain tld)) = true).
  { unfold at_boundary, address. destruct local; [discriminate|].
    cbn [app before_word input]. now rewrite Hhead. }
  rewrite Hb, H0. unfold z. cbn [input length]. now rewrite Nat.sub_0_r.
Qed.

Lemma sanitizeMessage_nonempty (s : jsstring) :
  s <> [] ->
  sanitizeMessage s
  = replace ccRegex TAG_CREDIT_CARD
      (replace ssnRegex TAG_SSN (replace emailRegex TAG_EMAIL s)).
Proof. destruct s; [congruence|reflexivity]. Qed.

(** An address of that shape, standing alone, is replaced as a whole. *)
Lemma address_redacted (local domain tld : jsstring) :
  address_shape local domain tld = true ->
  sanitizeMessage (address local domain tld) = TAG_EMAIL.
Proof.
  intros H.
  assert (Hne : address local domain tld <> []).
  { unfold address. destruct local; discriminate. }
  rewrite (sanitizeMessage_nonempty _ Hne).
  rewrite (replace_whole emailRegex TAG_EMAIL _ Hne (address_exec _ _ _ H)
             emailRegex_end).
  vm_compute. reflexivity.
Qed.

(** ** Text without digits and without an at sign *)

Definition is_plain (c : N) : bool :=
  negb (is_digit c) && negb (c =? chr "@").

Definition plain (c : N) : Prop := is_plain c = true.

Lemma plain_no_digit (pw : bool) (s : jsstring) (r : regex) (y : mstate) :
  Forall plain s -> matches (Seq WordBoundary (Seq digit r)) (MState pw s) y
  -> False.
Proof.
  intros Hs H.
  apply matches_Seq_inv in H as (y0 & H0 & H).
  apply matches_Boundary_inv in H0 as [-> _].
  apply matches_Seq_inv in H as (y1 & H1 & _).
  apply matches_digit_inv in H1 as (c & rest & E & Hc & _).
  cbn in E. subst s. inversion Hs as [|? ? Hp _]; subst.
  unfold plain, is_plain in Hp. now rewrite Hc in Hp.
Qed.

Lemma ssnRegex_plain (pw : bool) (s : jsstring) :
  Forall plain s -> exec ssnRegex pw s = None.
Proof.
  intros Hs. destruct (exec ssnRegex pw s) as [n|] eqn:H; [|reflexivity].
  exfalso. apply exec_matches in H as (y & H & _).
  unfold ssnRegex in H. cbn [seq] in H.
  apply matches_Seq_inv in H as (y0 & H0 & H).
  apply matches_Seq_inv in H as (y1 & H1 & _).
  unfold times in H1. apply matches_Repeat_must in H1 as (y2 & H2 & _).
  apply (plain_no_digit pw s Empty y2 Hs).
  apply M_Seq with y0; [exact H0|].
  apply M_Seq with y2; [exact H2|constructor].
Qed.

Lemma ccRegex_plain (pw : bool) (s : jsstring) :
  Forall plain s -> exec ccRegex pw s = None.
Proof.
  intros Hs. destruct (exec ccRegex pw s) as [n|] eqn:H; [|reflexivity].
  exfalso. apply exec_matches in H as (y & H & _).
  unfold ccRegex in H. cbn [seq] in H.
  apply matches_Seq_inv in H as (y0 & H0 & H).
  apply matches_Seq_inv in H as (y1 & H1 & _).
  unfold times in H1. apply matches_Repeat_must in H1 as (y2 & H2 & _).
  apply matches_Seq_inv in H2 as (y3 & H3 & _).
  apply matches_Repeat_must in H3 as (y4 & H4 & _).
  apply (plain_no_digit pw s Empty y4 Hs).
  apply M_Seq with y0; [exact H0|].
  apply M_Seq with y4; [exact H4|constructor].
Qed.

Lemma emailRegex_plain (pw : bool) (s : jsstring) :
  Forall plain s -> exec emailRegex pw s = None.
Proof.
  intros Hs. destruct (exec emailRegex pw s) as [n|] eqn:H; [|reflexivity].
  exfalso. apply exec_matches in H as (y & H & _).
  unfold emailRegex in H. cbn [seq] in H.
  apply matches_Seq_inv in H as (y0 & H0 & H).
  apply matches_Boundary_inv in H0 as [-> _].
  apply matches_Seq_inv in H as (y1 & H1 & H).
  apply matches_Seq_inv in H as (y2 & H2 & _).
  apply matches_suffix in H1 as [p Hp]. cbn [input] in Hp.
  apply matches_Char_inv in H2 as (c & rest & E & Hc & _).
  rewrite E in Hp. subst s.
  apply Forall_app in Hs as [_ Hs]. inversion Hs as [|? ? Hplain _]; subst.
  unfold plain, is_plain in Hplain.
  cbn in Hc. rewrite orb_false_r in Hc. unfold chr in Hplain.
  cbn in Hplain. rewrite Hc in Hplain. now rewrite andb_false_r in Hplain.
Qed.

(** Text in which no digit and no at sign occurs is returned as it
    is. *)
Lemma plain_unchanged (s : jsstring) :
  forallb is_plain s = true -> sanitizeMessage s = s.
Proof.
  intros H. rewrite forallb_forall, <- Forall_forall in H.
  change (Forall plain s) in H.
  destruct s as [|c s]; [reflexivity|].
  rewrite sanitizeMessage_nonempty by discriminate.
  rewrite (replace_no_match emailRegex TAG_EMAIL plain emailRegex_plain _ H).
  rewrite (replace_no_match ssnRegex TAG_SSN plain ssnRegex_plain _ H).
  now rewrite (replace_no_match ccRegex TAG_CREDIT_CARD plain
                 ccRegex_plain _ H).
Qed.

(** ** The shape of a social security number *)

Definition take_dash (s : jsstring) : jsstring :=
  match s with
  | c :: rest => if c =? chr "-" then rest else s
  | [] => []
  end.

(** Three digits, two digits and four digits, with or without a dash
    between the groups. *)
Definition ssn_shape (s : jsstring) : bool :=
  match s with
  | a :: b :: c :: s1 =>
      is_digit a && is_digit b && is_digit c
      && match take_dash s1 with
         | d :: e :: s2 =>
             is_digit d && is_digit e
             && match take_dash s2 with
                | [f; g; h; i] =>
                    is_digit f && is_digit g && is_digit h && is_digit i
                | _ => false
                end
         | _ => false
         end
  | _ => false
  end.

Lemma take_dash_inv (s : jsstring) :
  take_dash s = s \/ s = chr "-" :: take_dash s.
Proof.
  destruct s as [|c rest]; [now left|]. cbn [take_dash].
  destruct (N.eqb_spec c (chr "-")) as [->|_]; [now right|now left].
Qed.

Lemma ssn_shape_redacted (s : jsstring) :
  ssn_shape s = true -> sanitizeMessage s = TAG_SSN.
Proof.
  unfold ssn_shape. intros H.
  destruct s as [|a [|b [|c s1]]]; try discriminate.
  apply andb_prop in H as [H H1]. apply andb_prop in H as [H Hc].
  apply andb_prop in H as [Ha Hb].
  destruct (take_dash s1) as [|d [|e s2]] eqn:E1; try discriminate.
  apply andb_prop in H1 as [H1 H2]. apply andb_prop in H1 as [Hd He].
  destruct (take_dash s2) as [|f [|g [|h [|i [|? ?]]]]] eqn:E2;
    try discriminate.
  apply andb_prop in H2 as [H2 Hi]. apply andb_prop in H2 as [H2 Hh].
  apply andb_prop in H2 as [Hf Hg].
  destruct (take_dash_inv s2) as [K2|K2]; rewrite E2 in K2; subst s2;
    (destruct (take_dash_inv s1) as [K1|K1]; rewrite E1 in K1; subst s1);
    (eapply sanitize_by_model;
     [repeat (apply Forall2_cons;
              [first [apply digit_class; assumption | apply same_class_refl]|]);
      apply Forall2_nil
     |vm_compute; reflexivity]).
Qed.

(** ** The claim about the credit-card pattern *)




End SanitizerFacts.

(* ================================================================== *)
(** * Properties of the encodings *)
(* ================================================================== *)

Module EncodingFacts.

Import Encoding JSON.
Local Open Scope N_scope.

(** Linear arithmetic with division and remainder by constants. *)
Ltac div_lia := zify; Z.to_euclidean_division_equations; lia.

(** Boolean comparisons of the goal, decided by arithmetic. *)
Ltac decide_tests :=
  repeat match goal with
  | |- context [?a <=? ?b] =>
      first [ replace (a <=? b) with true by (symmetry; apply N.leb_le; div_lia)
            | replace (a <=? b) with false
                by (symmetry; apply N.leb_gt; div_lia) ]
  | |- context [?a <? ?b] =>
      first [ replace (a <? b) with true by (symmetry; apply N.ltb_lt; div_lia)
            | replace (a <? b) with false
                by (symmetry; apply N.ltb_ge; div_lia) ]
  | |- context [?a =? ?b] =>
      first [ replace (a =? b) with true by (symmetry; apply N.eqb_eq; div_lia)
            | replace (a =? b) with false
                by (symmetry; apply N.eqb_neq; div_lia) ]
  end.

Lemma to_N_byte_of_N (n : N) : n < 256 -> Byte.to_N (byte_of_N n) = n.
Proof.
  intros H. unfold byte_of_N. rewrite N.mod_small by exact H.
  destruct (Byte.of_N n) as [b|] eqn:E.
  - now apply Byte.to_of_N.
  - apply Byte.of_N_None_iff in E. lia.
Qed.

Lemma byte_of_to_N (x : byte) : byte_of_N (Byte.to_N x) = x.
Proof.
  unfold byte_of_N. pose proof (Byte.to_N_bounded x).
  rewrite N.mod_small by lia. now rewrite Byte.of_to_N.
Qed.

(** ** UTF-8 *)

(** A code point that is no surrogate. *)
Definition scalar (cp : N) : Prop :=
  cp < 55296 \/ (57344 <= cp /\ cp < 1114112).

Definition utf8_start := utf8_decode_from 0 0 128 191.

Lemma decode_lead (n : N) (rest : bytes) :
  n < 256 ->
  utf8_decode_from 0 0 128 191 (byte_of_N n :: rest)
  = match utf8_lead n with
    | LeadDone c => c :: utf8_start rest
    | LeadMore k c l h => utf8_decode_from k c l h rest
    | LeadBad => REPLACEMENT :: utf8_start rest
    end.
Proof. intros H. cbn [utf8_decode_from]. now rewrite to_N_byte_of_N. Qed.

Lemma decode_last (cp lo hi n : N) (rest : bytes) :
  n < 256 -> lo <= n -> n <= hi ->
  utf8_decode_from 1 cp lo hi (byte_of_N n :: rest)
  = (cp * 64 + n mod 64) :: utf8_start rest.
Proof.
  intros H Hlo Hhi. cbn [utf8_decode_from]. rewrite to_N_byte_of_N by exact H.
  now decide_tests.
Qed.

Lemma decode_more (k : nat) (cp lo hi n : N) (rest : bytes) :
  n < 256 -> lo <= n -> n <= hi ->
  utf8_decode_from (S (S k)) cp lo hi (byte_of_N n :: rest)
  = utf8_decode_from (S k) (cp * 64 + n mod 64) 128 191 rest.
Proof.
  intros H Hlo Hhi. cbn [utf8_decode_from]. rewrite to_N_byte_of_N by exact H.
  now decide_tests.
Qed.

Lemma decode_code_point (cp : N) (rest : bytes) :
  scalar cp ->
  utf8_start (utf8_of_code_point cp ++ rest) = cp :: utf8_start rest.
Proof.
  intros Hcp. unfold scalar in Hcp. unfold utf8_of_code_point, utf8_start.
  destruct (N.ltb_spec cp 128) as [H1|H1];
    [|destruct (N.ltb_spec cp 2048) as [H2|H2];
      [|destruct (N.ltb_spec cp 65536) as [H3|H3]]];
    cbn [app]; rewrite decode_lead by div_lia; unfold utf8_lead;
    decide_tests; cbn [andb].
  - reflexivity.
  - rewrite decode_last by div_lia. f_equal. div_lia.
  - assert (Hlo : (if 224 + cp / 4096 =? 224 then 160 else 128)
                  <= 128 + (cp / 64) mod 64).
    { destruct (N.eqb_spec (224 + cp / 4096) 224); div_lia. }
    assert (Hhi : 128 + (cp / 64) mod 64
                  <= (if 224 + cp / 4096 =? 237 then 159 else 191)).
    { destruct (N.eqb_spec (224 + cp / 4096) 237);
        unfold scalar in Hcp; div_lia. }
    rewrite decode_more by (try exact Hlo; try exact Hhi; div_lia).
    rewrite decode_last by div_lia. f_equal. div_lia.
  - assert (Hcp' : cp < 1114112) by (unfold scalar in Hcp; lia).
    assert (Hlo : (if 240 + cp / 262144 =? 240 then 144 else 128)
                  <= 128 + (cp / 4096) mod 64).
    { destruct (N.eqb_spec (240 + cp / 262144) 240); div_lia. }
    assert (Hhi : 128 + (cp / 4096) mod 64
                  <= (if 240 + cp / 262144 =? 244 then 143 else 191)).
    { destruct (N.eqb_spec (240 + cp / 262144) 244); div_lia. }
    rewrite decode_more by (try exact Hlo; try exact Hhi; div_lia).
    rewrite decode_more by div_lia.
    rewrite decode_last by div_lia. f_equal. div_lia.
Qed.

(** A string in which every surrogate has its partner. *)
Fixpoint well_formed (s : jsstring) : bool :=
  match s with
  | [] => true
  | c :: rest =>
      if is_high_surrogate c then
        match rest with
        | d :: rest' => is_low_surrogate d && well_formed rest'
        | [] => false
        end
      else if is_low_surrogate c then false
      else (c <? 65536) && well_formed rest
  end.

Lemma utf8_decode_app_code_point (cp : N) (rest : bytes) :
  scalar cp ->
  utf8_decode (utf8_of_code_point cp ++ rest)
  = utf16_of_code_point cp ++ utf8_decode rest.
Proof.
  intros H. unfold utf8_decode. fold utf8_start.
  now rewrite (decode_code_point cp rest H).
Qed.

Lemma utf8_roundtrip_bounded (n : nat) :
  forall s : jsstring,
    (length s <= n)%nat -> well_formed s = true ->
    utf8_decode (utf8_encode s) = s.
Proof.
  induction n as [|n IH]; intros s Hlen Hwf.
  - destruct s; [reflexivity|cbn in Hlen; lia].
  - destruct s as [|c rest]; [reflexivity|].
    cbn [utf8_encode well_formed] in *.
    destruct (is_high_surrogate c) eqn:Hhigh.
    + destruct rest as [|d rest']; [discriminate|].
      apply andb_prop in Hwf as [Hlow Hwf]. rewrite Hlow.
      unfold is_high_surrogate, is_low_surrogate in Hhigh, Hlow.
      apply andb_prop in Hhigh as [Hc1 Hc2].
      apply andb_prop in Hlow as [Hd1 Hd2].
      apply N.leb_le in Hc1, Hc2, Hd1, Hd2.
      rewrite utf8_decode_app_code_point by (unfold scalar; lia).
      rewrite IH; [|cbn in Hlen; lia|exact Hwf].
      unfold utf16_of_code_point. decide_tests. cbn [app].
      f_equal; [div_lia|]. f_equal. div_lia.
    + destruct (is_low_surrogate c) eqn:Hlow; [discriminate|].
      apply andb_prop in Hwf as [Hc Hwf]. apply N.ltb_lt in Hc.
      unfold is_high_surrogate, is_low_surrogate in Hhigh, Hlow.
      assert (Hs : scalar c).
      { unfold scalar.
        destruct (N.leb_spec 55296 c), (N.leb_spec c 56319),
          (N.leb_spec 56320 c), (N.leb_spec c 57343);
          cbn in Hhigh, Hlow; try discriminate; lia. }
      rewrite utf8_decode_app_code_point by exact Hs.
      rewrite IH; [|cbn in Hlen; lia|exact Hwf].
      unfold utf16_of_code_point. now decide_tests.
Qed.

Lemma utf8_roundtrip (s : jsstring) :
  well_formed s = true -> utf8_decode (utf8_encode s) = s.
Proof. apply (utf8_roundtrip_bounded (length s)). lia. Qed.

Lemma ascii_well_formed (s : jsstring) :
  Forall (fun c => c < 128) s -> well_formed s = true.
Proof.
  induction 1 as [|c s Hc _ IH]; [reflexivity|].
  cbn [well_formed]. unfold is_high_surrogate, is_low_surrogate.
  decide_tests. cbn [andb]. exact IH.
Qed.

(** ** hex *)

Lemma hex_decode_pair (x : byte) (rest : jsstring) :
  hex_decode (hex_digit (Byte.to_N x / 16) :: hex_digit (Byte.to_N x mod 16)
              :: rest)
  = x :: hex_decode rest.
Proof. destruct x; reflexivity. Qed.

Lemma hex_roundtrip (b : bytes) : hex_decode (hex_encode b) = b.
Proof.
  induction b as [|x b IH]; [reflexivity|].
  cbn [hex_encode flat_map app]. rewrite hex_decode_pair.
  fold (hex_encode b). now rewrite IH.
Qed.

Lemma hex_encode_length (b : bytes) :
  length (hex_encode b) = (2 * length b)%nat.
Proof.
  induction b as [|x b IH]; [reflexivity|].
  cbn [hex_encode flat_map app length]. fold (hex_encode b). lia.
Qed.

(** The characters of [hex_encode]: the digits and the letters a to f. *)
Definition is_hex_lower (c : N) : bool :=
  ((48 <=? c) && (c <=? 57)) || ((97 <=? c) && (c <=? 102)).

Lemma hex_encode_chars (b : bytes) :
  forallb is_hex_lower (hex_encode b) = true.
Proof.
  induction b as [|x b IH]; [reflexivity|].
  cbn [hex_encode flat_map app forallb]. fold (hex_encode b). rewrite IH.
  now destruct x.
Qed.

(** ** base64 *)

Lemma unbase64_digit (n : N) :
  n < 64 ->
  unbase64 (base64_digit n) = Some n /\ (base64_digit n =? PAD) = false.
Proof.
  intros H. unfold unbase64, base64_digit, PAD.
  destruct (N.ltb_spec n 26);
    [|destruct (N.ltb_spec n 52);
      [|destruct (N.ltb_spec n 62);
        [|destruct (N.eqb_spec n 62)]]];
    decide_tests; cbn [andb orb]; (split; [f_equal; lia|reflexivity]).
Qed.

Lemma low_byte_small (c : N) : c < 256 -> low_byte c = c.
Proof. apply N.mod_small. Qed.

Lemma base64_digit_small (n : N) : n < 64 -> base64_digit n < 256.
Proof.
  intros H. unfold base64_digit.
  destruct (N.ltb_spec n 26);
    [|destruct (N.ltb_spec n 52);
      [|destruct (N.ltb_spec n 62);
        [|destruct (N.eqb_spec n 62)]]]; lia.
Qed.

Lemma base64_digits_cons (n : N) (s : jsstring) :
  n < 64 ->
  base64_digits (base64_digit n :: s) = n :: base64_digits s.
Proof.
  intros H. destruct (unbase64_digit n H) as [Hv Hp].
  cbn [base64_digits].
  rewrite (low_byte_small _ (base64_digit_small n H)). now rewrite Hp, Hv.
Qed.

Lemma base64_digits_pad (s : jsstring) : base64_digits (PAD :: s) = [].
Proof. reflexivity. Qed.

Lemma base64_bytes_one (x : byte) :
  let a := Byte.to_N x in
  base64_bytes [a / 4; a mod 4 * 16] = [x].
Proof.
  intros a. pose proof (Byte.to_N_bounded x) as H. fold a in H.
  cbn [base64_bytes]. rewrite <- (byte_of_to_N x). fold a.
  clearbody a. do 2 f_equal. div_lia.
Qed.

Lemma base64_bytes_two (x y : byte) :
  let a := Byte.to_N x in
  let b := Byte.to_N y in
  base64_bytes [a / 4; a mod 4 * 16 + b / 16; b mod 16 * 4] = [x; y].
Proof.
  intros a b. pose proof (Byte.to_N_bounded x) as Ha. fold a in Ha.
  pose proof (Byte.to_N_bounded y) as Hb. fold b in Hb.
  cbn [base64_bytes].
  rewrite <- (byte_of_to_N x), <- (byte_of_to_N y). fold a b.
  clearbody a b. repeat f_equal; div_lia.
Qed.

Lemma base64_bytes_three (x y z : byte) (ds : list N) :
  let a := Byte.to_N x in
  let b := Byte.to_N y in
  let c := Byte.to_N z in
  base64_bytes (a / 4 :: a mod 4 * 16 + b / 16 :: b mod 16 * 4 + c / 64
                :: c mod 64 :: ds)
  = x :: y :: z :: base64_bytes ds.
Proof.
  intros a b c. pose proof (Byte.to_N_bounded x) as Ha. fold a in Ha.
  pose proof (Byte.to_N_bounded y) as Hb. fold b in Hb.
  pose proof (Byte.to_N_bounded z) as Hc. fold c in Hc.
  cbn [base64_bytes].
  rewrite <- (byte_of_to_N x), <- (byte_of_to_N y), <- (byte_of_to_N z).
  fold a b c. clearbody a b c.
  f_equal; [f_equal; div_lia|]. f_equal; [f_equal; div_lia|].
  f_equal. f_equal. div_lia.
Qed.

Lemma base64_roundtrip_bounded (n : nat) :
  forall b : bytes,
    (length b <= n)%nat -> base64_decode (base64_encode b) = b.
Proof.
  unfold base64_decode.
  induction n as [|n IH]; intros b Hlen.
  - destruct b; [reflexivity|cbn in Hlen; lia].
  - destruct b as [|x [|y [|z rest]]]; [reflexivity| | |];
      cbn [base64_encode];
      pose proof (Byte.to_N_bounded x) as Hx.
    + rewrite !base64_digits_cons by (clear IH Hlen; div_lia).
      rewrite base64_digits_pad. apply base64_bytes_one.
    + pose proof (Byte.to_N_bounded y) as Hy.
      rewrite !base64_digits_cons by (clear IH Hlen; div_lia).
      rewrite base64_digits_pad. apply base64_bytes_two.
    + pose proof (Byte.to_N_bounded y) as Hy.
      pose proof (Byte.to_N_bounded z) as Hz.
      rewrite !base64_digits_cons by (clear IH Hlen; div_lia).
      rewrite base64_bytes_three. rewrite IH by (cbn in Hlen; lia).
      reflexivity.
Qed.

Lemma base64_roundtrip (b : bytes) :
  base64_decode (base64_encode b) = b.
Proof. apply (base64_roundtrip_bounded (length b)). lia. Qed.

(** ** JSON texts of objects of plain strings *)

(** A character that [JSON.stringify] writes as it is, whatever stands
    next to it. *)
Definition json_plain (c : N) : bool :=
  (32 <=? c) && negb (c =? QUOTE) && negb (c =? BACKSLASH) && (c <? 55296).

Definition plain_member (m : jsstring * jsstring) : bool :=
  forallb json_plain (fst m) && forallb json_plain (snd m).

Definition as_json (ms : list (jsstring * jsstring))
    : list (jsstring * json) :=
  map (fun m => (fst m, JString (snd m))) ms.

(** Tests on constants of the goal, evaluated. *)
Ltac eval_tests_once :=
  repeat match goal with
  | |- context [N.eqb ?a ?b] =>
      let v := eval vm_compute in (N.eqb a b) in
      lazymatch v with
      | true => change (N.eqb a b) with true
      | false => change (N.eqb a b) with false
      end
  | |- context [is_json_space ?a] =>
      let v := eval vm_compute in (is_json_space a) in
      lazymatch v with
      | true => change (is_json_space a) with true
      | false => change (is_json_space a) with false
      end
  end;
  cbv beta iota.

Ltac eval_tests := repeat (progress eval_tests_once).

Lemma json_plain_inv (c : N) :
  json_plain c = true ->
  32 <= c /\ c <> 34 /\ c <> 92 /\ c < 55296.
Proof.
  unfold json_plain, QUOTE, BACKSLASH. intros H.
  apply andb_prop in H as [H H4]. apply andb_prop in H as [H H3].
  apply andb_prop in H as [H1 H2].
  apply N.leb_le in H1. apply N.ltb_lt in H4.
  apply negb_true_iff, N.eqb_neq in H2, H3. auto.
Qed.

Lemma quote_chars_plain (s : jsstring) :
  forallb json_plain s = true -> quote_chars s = s.
Proof.
  induction s as [|c s IH]; [reflexivity|]. cbn [forallb].
  intros H. apply andb_prop in H as [Hc Hs].
  apply json_plain_inv in Hc as (H1 & H2 & H3 & H4).
  cbn [quote_chars]. unfold QUOTE, BACKSLASH, is_high_surrogate,
    is_low_surrogate.
  decide_tests. cbn [andb]. now rewrite IH.
Qed.

Lemma parse_string_plain (s rest : jsstring) :
  forallb json_plain s = true ->
  parse_string (s ++ QUOTE :: rest) = Some (s, rest).
Proof.
  induction s as [|c s IH]; [reflexivity|]. cbn [forallb].
  intros H. apply andb_prop in H as [Hc Hs].
  apply json_plain_inv in Hc as (H1 & H2 & H3 & H4).
  cbn [parse_string app]. unfold QUOTE, BACKSLASH in *.
  decide_tests. now rewrite IH.
Qed.

Lemma parse_value_string (fuel : nat) (v rest : jsstring) :
  forallb json_plain v = true ->
  parse_value (S fuel) (QUOTE :: v ++ QUOTE :: rest)
  = Some (JString v, rest).
Proof.
  intros H. cbn [parse_value]. eval_tests.
  now rewrite parse_string_plain.
Qed.

Lemma member_text (k v tail : jsstring) :
  forallb json_plain k = true -> forallb json_plain v = true ->
  (quote k ++ code ":" :: quote v) ++ tail
  = QUOTE :: k ++ QUOTE :: code ":" :: QUOTE :: v ++ QUOTE :: tail.
Proof.
  intros Hk Hv. unfold quote. rewrite !quote_chars_plain by assumption.
  cbn [app]. rewrite <- !app_assoc. cbn [app]. rewrite <- !app_assoc.
  reflexivity.
Qed.

Lemma parse_members_unfold (fuel : nat) (acc : list (jsstring * json))
    (s : jsstring) :
  parse_members (S fuel) acc s
  = match s with
    | q :: s0 =>
        if q =? QUOTE then
          match parse_string s0 with
          | Some (key, s1) =>
              match skip_ws s1 with
              | c :: s2 =>
                  if c =? code ":" then
                    match parse_value fuel (skip_ws s2) with
                    | Some (v, s3) =>
                        match skip_ws s3 with
                        | c' :: s4 =>
                            if c' =? code ","
                            then parse_members fuel ((key, v) :: acc)
                                               (skip_ws s4)
                            else if c' =? code "}"
                            then Some (JObject (rev ((key, v) :: acc)), s4)
                            else None
                        | [] => None
                        end
                    | None => None
                    end
                  else None
              | [] => None
              end
          | None => None
          end
        else None
    | [] => None
    end.
Proof. reflexivity. Qed.

Ltac json_step := repeat (progress (cbn [skip_ws app]; eval_tests)).

Lemma parse_members_stringify (ms : list (jsstring * jsstring)) :
  forall (fuel : nat) (acc : list (jsstring * json)) (rest : jsstring),
    ms <> [] -> forallb plain_member ms = true ->
    (length ms < fuel)%nat ->
    parse_members fuel acc (stringify_members ms ++ code "}" :: rest)
    = Some (JObject (rev acc ++ as_json ms), rest).
Proof.
  induction ms as [|[k v] ms IH]; intros fuel acc rest Hne Hplain Hfuel;
    [congruence|].
  cbn [forallb] in Hplain. apply andb_prop in Hplain as [Hm Hplain].
  unfold plain_member in Hm. cbn [fst snd] in Hm.
  apply andb_prop in Hm as [Hk Hv].
  destruct fuel as [|[|fuel]]; [cbn in Hfuel; lia|cbn in Hfuel; lia|].
  destruct ms as [|m ms].
  - cbn [stringify_members]. rewrite member_text by assumption.
    rewrite (parse_members_unfold (S fuel)). json_step.
    rewrite parse_string_plain by assumption. json_step.
    rewrite parse_value_string by assumption. json_step.
    cbn [rev as_json map fst snd]. rewrite <- ?app_assoc. reflexivity.
  - assert (Htext : stringify_members ((k, v) :: m :: ms)
                    = (quote k ++ code ":" :: quote v)
                      ++ code "," :: stringify_members (m :: ms)).
    { cbn [stringify_members]. now rewrite <- app_assoc. }
    rewrite Htext, <- app_assoc, member_text by assumption.
    assert (Hskip : skip_ws (stringify_members (m :: ms) ++ code "}" :: rest)
                    = stringify_members (m :: ms) ++ code "}" :: rest).
    { destruct m as [k' v']. destruct ms; cbn [stringify_members];
        unfold quote; now json_step. }
    remember (stringify_members (m :: ms)) as text eqn:Etext.
    rewrite (parse_members_unfold (S fuel)). json_step.
    rewrite parse_string_plain by assumption. json_step.
    rewrite parse_value_string by assumption. json_step.
    rewrite Hskip. subst text.
    rewrite IH; [|discriminate|exact Hplain|cbn in Hfuel |- *; lia].
    cbn [rev as_json map fst snd]. rewrite <- ?app_assoc. reflexivity.
Qed.

Lemma parse_stringify_strings (ms : list (jsstring * jsstring)) :
  ms <> [] -> forallb plain_member ms = true ->
  (length ms <= 2 * length (stringify_strings ms))%nat ->
  parse (stringify_strings ms) = Some (JObject (as_json ms)).
Proof.
  intros Hne Hplain Hlen. unfold parse.
  remember (2 * length (stringify_strings ms) + 2)%nat as fuel eqn:Hfuel.
  destruct fuel as [|fuel]; [lia|].
  unfold stringify_strings. cbn [skip_ws]. eval_tests.
  cbn [parse_value]. eval_tests.
  assert (Hhead : exists c s, stringify_members ms ++ [code "}"]
                              = c :: s /\ c = QUOTE).
  { destruct ms as [|[k v] ms]; [congruence|].
    destruct ms; cbn [stringify_members]; unfold quote; cbn [app];
      eauto. }
  destruct Hhead as (c & s & Hs & ->).
  assert (Hskip : skip_ws (stringify_members ms ++ [code "}"])
                  = stringify_members ms ++ [code "}"]).
  { rewrite Hs. cbn [skip_ws]. now eval_tests. }
  rewrite Hskip. rewrite Hs. eval_tests. rewrite <- Hs.
  rewrite (parse_members_stringify ms fuel [] [] Hne Hplain) by lia.
  reflexivity.
Qed.

End EncodingFacts.

(* ================================================================== *)
(** * Properties of the cipher *)
(* ================================================================== *)

Module CryptoFacts.

Import Encoding JSON EncodingFacts Crypto.
Local Open Scope N_scope.

(** ** Keys *)

(** A character that [Buffer.from(s, 'hex')] reads as a hexadecimal
    digit: its low byte is the code of one. *)
Definition is_hex (c : N) : bool :=
  match hex_value (low_byte c) with Some _ => true | None => false end.

(** A configured key of 64 characters that are read as hexadecimal
    digits. *)
Definition valid_key (env : option jsstring) : bool :=
  match env with
  | Some keyHex => Nat.eqb (length keyHex) 64 && forallb is_hex keyHex
  | None => false
  end.

Lemma hex_decode_length (n : nat) :
  forall s : jsstring,
    length s = (2 * n)%nat -> forallb is_hex s = true ->
    length (hex_decode s) = n.
Proof.
  induction n as [|n IH]; intros s Hlen Hhex.
  - now destruct s.
  - destruct s as [|a [|b s]]; try (cbn in Hlen; lia).
    cbn [forallb] in Hhex. apply andb_prop in Hhex as [Ha Hhex].
    apply andb_prop in Hhex as [Hb Hhex].
    unfold is_hex in Ha, Hb. cbn [hex_decode].
    destruct (hex_value (low_byte a)); [|discriminate].
    destruct (hex_value (low_byte b)); [|discriminate].
    cbn [length]. f_equal. apply IH; [cbn in Hlen; lia|exact Hhex].
Qed.

Lemma valid_key_accepted (env : option jsstring) :
  valid_key env = true ->
  exists key, getEncryptionKey env = Ok key /\ length key = 32%nat.
Proof.
  destruct env as [keyHex|]; [|discriminate]. cbn [valid_key].
  intros H. apply andb_prop in H as [Hlen Hhex].
  exists (hex_decode keyHex). unfold getEncryptionKey, js_length.
  rewrite Hlen. apply Nat.eqb_eq in Hlen.
  split; [destruct keyHex; [discriminate|reflexivity]|].
  now apply hex_decode_length.
Qed.

(** ** The envelope *)

Lemma hex_lower_plain (c : N) : is_hex_lower c = true -> json_plain c = true.
Proof.
  unfold is_hex_lower, json_plain, QUOTE, BACKSLASH. intros H.
  apply orb_prop in H as [H|H]; apply andb_prop in H as [H1 H2];
    apply N.leb_le in H1, H2; decide_tests; reflexivity.
Qed.

Lemma hex_encode_plain (b : bytes) :
  forallb json_plain (hex_encode b) = true.
Proof.
  pose proof (hex_encode_chars b) as H.
  rewrite forallb_forall in H |- *. intros c Hc.
  now apply hex_lower_plain, H.
Qed.

Definition low (c : N) : Prop := c < 55296.

Lemma low_well_formed (s : jsstring) : Forall low s -> well_formed s = true.
Proof.
  unfold low. induction 1 as [|c s Hc _ IH]; [reflexivity|].
  cbn [well_formed]. unfold is_high_surrogate, is_low_surrogate.
  decide_tests. cbn [andb]. exact IH.
Qed.

Lemma plain_low (s : jsstring) : forallb json_plain s = true -> Forall low s.
Proof.
  rewrite forallb_forall, Forall_forall. intros H c Hc.
  apply H, json_plain_inv in Hc. unfold low. lia.
Qed.

Lemma stringify_members_low (ms : list (jsstring * jsstring)) :
  forallb plain_member ms = true -> Forall low (stringify_members ms).
Proof.
  induction ms as [|[k v] ms IH]; [constructor|].
  cbn [forallb]. intros H. apply andb_prop in H as [Hm Hms].
  unfold plain_member in Hm. cbn [fst snd] in Hm.
  apply andb_prop in Hm as [Hk Hv].
  assert (Hq : forall s, forallb json_plain s = true -> Forall low (quote s)).
  { intros s Hs. unfold quote. rewrite quote_chars_plain by exact Hs.
    constructor; [unfold low, QUOTE; lia|].
    apply Forall_app. split; [now apply plain_low|].
    constructor; [unfold low, QUOTE; lia|constructor]. }
  assert (Hkv : Forall low (quote k ++ code ":" :: quote v)).
  { apply Forall_app. split; [now apply Hq|].
    constructor; [unfold low; cbn; lia|now apply Hq]. }
  destruct ms as [|m ms]; [exact Hkv|].
  change (stringify_members ((k, v) :: m :: ms))
    with (quote k ++ code ":" :: quote v ++ code "," :: stringify_members (m :: ms)).
  apply Forall_app. split; [now apply Hq|].
  constructor; [unfold low; cbn; lia|].
  apply Forall_app. split; [now apply Hq|].
  constructor; [unfold low; cbn; lia|now apply IH].
Qed.

Lemma stringify_strings_well_formed (ms : list (jsstring * jsstring)) :
  forallb plain_member ms = true ->
  well_formed (stringify_strings ms) = true.
Proof.
  intros H. apply low_well_formed. unfold stringify_strings.
  constructor; [unfold low; cbn; lia|].
  apply Forall_app. split; [now apply stringify_members_low|].
  constructor; [unfold low; cbn; lia|constructor].
Qed.

(** What [decrypt] reads back from the text [encrypt] wrote. *)
Lemma envelope_read_back (ms : list (jsstring * jsstring)) :
  ms <> [] -> forallb plain_member ms = true ->
  parse (utf8_decode (base64_decode
           (base64_encode (utf8_encode (stringify_strings ms)))))
  = Some (JObject (as_json ms)).
Proof.
  intros Hne Hplain.
  rewrite base64_roundtrip, utf8_roundtrip
    by now apply stringify_strings_well_formed.
  apply parse_stringify_strings; [exact Hne|exact Hplain|].
  unfold stringify_strings. cbn [length]. rewrite length_app. cbn [length].
  destruct ms as [|[k v] ms]; [congruence|].
  assert (Hm : (length ((k, v) :: ms) <= length (stringify_members ((k, v) :: ms)))%nat).
  { clear. revert k v. induction ms as [|[k' v'] ms IH]; intros k v.
    - cbn [stringify_members length]. unfold quote. cbn [length app].
      lia.
    - change (stringify_members ((k, v) :: (k', v') :: ms))
        with (quote k ++ code ":" :: quote v ++ code ","
              :: stringify_members ((k', v') :: ms)).
      specialize (IH k' v'). unfold quote in *. cbn [length app] in *.
      rewrite !length_app. cbn [length]. rewrite !length_app.
      cbn [length] in *. lia. }
  lia.
Qed.

Lemma blob_fields (a b c : jsstring) :
  let members := as_json [(js "iv", a); (js "ciphertext", b);
                          (js "authTag", c)] in
  lookup (js "iv") members = Some (JString a)
  /\ lookup (js "ciphertext") members = Some (JString b)
  /\ lookup (js "authTag") members = Some (JString c).
Proof. repeat split. Qed.

(** The exception with which the runtime refuses a tag. *)
Definition AUTHENTICATION_FAILURE : exn :=
  Error "Unsupported state or unable to authenticate data".

(** The envelope that holds the nonce [iv], the ciphertext and the tag,
    written as [encrypt] writes it. *)
Definition envelope_of (iv ciphertext authTag : bytes) : jsstring :=
  base64_encode (utf8_encode (stringify_strings
    [(js "iv", hex_encode iv);
     (js "ciphertext", hex_encode ciphertext);
     (js "authTag", hex_encode authTag)])).

Section CipherFacts.

Variable gcm_seal : bytes -> bytes -> bytes -> bytes * bytes.
Variable gcm_open : bytes -> bytes -> bytes -> bytes -> result bytes.
Variable buffer_of_object : json -> result bytes.

(** What the runtime's cipher promises: under a key of 32 bytes and a
    nonce of 12 bytes, the tag has 16 bytes and what was sealed opens to
    the plaintext. *)
Definition gcm_correct : Prop :=
  forall key iv plaintext : bytes,
    length key = 32%nat -> length iv = 12%nat ->
    length (snd (gcm_seal key iv plaintext)) = 16%nat
    /\ gcm_open key iv (fst (gcm_seal key iv plaintext))
                (snd (gcm_seal key iv plaintext))
       = Ok plaintext.

(** What authenticated encryption is for.  Under a key of 32 bytes and
    with a tag of 16 bytes the cipher opens only what this key and nonce
    sealed, and to the plaintext that was sealed; when it refuses, it does
    so with the authentication failure; and the ciphertext tells the
    plaintext.  So much holds of AES-GCM as it is defined.  That what one
    key sealed no other key sealed is how the symbolic model of
    cryptography reads the secrecy of the key. *)
Record gcm_authentic : Prop := {
  opens_only_sealed :
    forall (key iv ciphertext tag plaintext : bytes),
      length key = 32%nat -> iv <> [] -> length tag = 16%nat ->
      gcm_open key iv ciphertext tag = Ok plaintext ->
      gcm_seal key iv plaintext = (ciphertext, tag);
  refuses_as_failure :
    forall (key iv ciphertext tag : bytes) (e : exn),
      length key = 32%nat -> iv <> [] -> length tag = 16%nat ->
      gcm_open key iv ciphertext tag = Throw e ->
      e = AUTHENTICATION_FAILURE;
  ciphertext_tells_plaintext :
    forall key iv plaintext plaintext' : bytes,
      fst (gcm_seal key iv plaintext) = fst (gcm_seal key iv plaintext') ->
      plaintext = plaintext';
  keys_seal_apart :
    forall key key' iv iv' plaintext plaintext' : bytes,
      length key = 32%nat -> length key' = 32%nat -> key <> key' ->
      gcm_seal key iv plaintext <> gcm_seal key' iv' plaintext'
}.

Lemma encrypt_envelope (env : option jsstring) (key iv : bytes)
    (text : jsstring) :
  getEncryptionKey env = Ok key -> length key = 32%nat ->
  encrypt gcm_seal env iv text
  = Ok (envelope_of iv (fst (gcm_seal key iv (utf8_encode text)))
                    (snd (gcm_seal key iv (utf8_encode text)))).
Proof.
  intros Hkey Hlen. unfold encrypt. rewrite Hkey. cbn [bind].
  unfold createCipheriv. rewrite Hlen. cbn [Nat.eqb bind fst snd].
  now destruct (gcm_seal key iv (utf8_encode text)).
Qed.

(** On an envelope that is written as [encrypt] writes it, with a nonce
    that is not empty and a tag of a length the algorithm takes, whatever
    the nonce, the ciphertext and the tag are, [decrypt] returns what the
    cipher makes of them. *)
Lemma decrypt_envelope (env : option jsstring)
    (key iv ciphertext authTag : bytes) :
  getEncryptionKey env = Ok key -> length key = 32%nat ->
  iv <> [] -> valid_tag_length (length authTag) = true ->
  decrypt gcm_open buffer_of_object env (envelope_of iv ciphertext authTag)
  = (plaintext <- gcm_open key iv ciphertext authTag ;;
     Ok (utf8_decode plaintext)).
Proof.
  intros Hkey Hlen Hiv Htag. unfold decrypt, envelope_of.
  rewrite Hkey. cbn [bind].
  rewrite envelope_read_back;
    [|discriminate
     |cbn [forallb]; unfold plain_member; cbn [fst snd];
      rewrite !hex_encode_plain; reflexivity].
  cbn [bind property].
  destruct (blob_fields (hex_encode iv) (hex_encode ciphertext)
                        (hex_encode authTag)) as (Fiv & Fct & Ftag).
  rewrite Fiv, Fct, Ftag. cbn [bind Buffer_from_hex update_input_hex].
  rewrite !hex_roundtrip. unfold createDecipheriv.
  destruct iv as [|x iv]; [congruence|]. rewrite Hlen.
  cbn [Nat.eqb bind fst snd]. unfold setAuthTag. rewrite Htag. cbn [bind].
  rewrite hex_encode_length, Nat.even_mul. reflexivity.
Qed.

Lemma valid_tag_16 (tag : bytes) :
  length tag = 16%nat -> valid_tag_length (length tag) = true.
Proof. now intros ->. Qed.

Lemma nonce_12 (iv : bytes) : length iv = 12%nat -> iv <> [].
Proof. now destruct iv. Qed.

(** What [decrypt] returns for the envelope of [encrypt]: the text that
    the UTF-8 bytes of the message decode to. *)
Lemma decrypt_encrypt_bytes (env : option jsstring) (iv : bytes)
    (text : jsstring) :
  gcm_correct -> valid_key env = true -> length iv = 12%nat ->
  exists envelope,
    encrypt gcm_seal env iv text = Ok envelope
    /\ decrypt gcm_open buffer_of_object env envelope
       = Ok (utf8_decode (utf8_encode text)).
Proof.
  intros Hgcm Henv Hiv.
  destruct (valid_key_accepted env Henv) as (key & Hkey & Hlen).
  destruct (Hgcm key iv (utf8_encode text) Hlen Hiv) as [Htag Hopen].
  eexists. split; [exact (encrypt_envelope env key iv text Hkey Hlen)|].
  rewrite (decrypt_envelope env key _ _ _ Hkey Hlen (nonce_12 iv Hiv)
             (valid_tag_16 _ Htag)).
  now rewrite Hopen.
Qed.

(** With every surrogate paired the text comes back as it was. *)
Lemma decrypt_encrypt_text (env : option jsstring) (iv : bytes)
    (text : jsstring) :
  gcm_correct -> valid_key env = true -> length iv = 12%nat ->
  well_formed text = true ->
  exists envelope,
    encrypt gcm_seal env iv text = Ok envelope
    /\ decrypt gcm_open buffer_of_object env envelope = Ok text.
Proof.
  intros Hgcm Henv Hiv Htext.
  destruct (decrypt_encrypt_bytes env iv text Hgcm Henv Hiv)
    as (envelope & Henc & Hdec).
  exists envelope. split; [exact Henc|].
  now rewrite Hdec, utf8_roundtrip.
Qed.


(** A surrogate without its partner comes back as U+FFFD. *)
Lemma decrypt_encrypt_lone_surrogate (env : option jsstring) (iv : bytes) :
  gcm_correct -> valid_key env = true -> length iv = 12%nat ->
  exists envelope,
    encrypt gcm_seal env iv [55296] = Ok envelope
    /\ decrypt gcm_open buffer_of_object env envelope = Ok [65533].
Proof. apply decrypt_encrypt_bytes. Qed.

(** ** What an envelope holds *)

(** The nonce, the tag and the ciphertext as [decrypt] reads them from
    what [JSON.parse] returned: each field in its turn, an exception
    ending the reading. *)
Definition read_iv (blob : json) : result bytes :=
  iv_field <- property blob "iv" ;;
  Buffer_from_hex buffer_of_object iv_field.

Definition read_tag (blob : json) : result bytes :=
  tag_field <- property blob "authTag" ;;
  tag <- Buffer_from_hex buffer_of_object tag_field ;;
  setAuthTag tag.

Definition read_ciphertext (blob : json) : result bytes :=
  ciphertext_field <- property blob "ciphertext" ;;
  update_input_hex ciphertext_field.

(** The nonce, the ciphertext and the tag that the envelope holds. *)
Definition holds (envelope : jsstring) (iv ciphertext tag : bytes) : Prop :=
  exists blob,
    parse (utf8_decode (base64_decode envelope)) = Some blob
    /\ read_iv blob = Ok iv /\ iv <> []
    /\ read_tag blob = Ok tag
    /\ read_ciphertext blob = Ok ciphertext.

Lemma setAuthTag_Ok (tag tag' : bytes) :
  setAuthTag tag = Ok tag' ->
  tag' = tag /\ valid_tag_length (length tag) = true.
Proof.
  unfold setAuthTag. destruct (valid_tag_length (length tag));
    [|discriminate]. now intros [= <-].
Qed.

(** [decrypt] under a key of 32 bytes, in one step: the envelope is read
    and the cipher is given what it holds. *)
Lemma decrypt_steps (env : option jsstring) (key : bytes)
    (envelope : jsstring) (blob : json) :
  getEncryptionKey env = Ok key -> length key = 32%nat ->
  parse (utf8_decode (base64_decode envelope)) = Some blob ->
  decrypt gcm_open buffer_of_object env envelope
  = (iv <- read_iv blob ;;
     _ <- createDecipheriv key iv ;;
     tag <- read_tag blob ;;
     ciphertext <- read_ciphertext blob ;;
     plaintext <- gcm_open key iv ciphertext tag ;;
     Ok (utf8_decode plaintext)).
Proof.
  intros Hkey Hlen Hp. unfold decrypt, read_iv, read_tag, read_ciphertext.
  rewrite Hkey, Hp. cbn [bind].
  destruct (property blob "iv") as [iv_field|e]; [|reflexivity].
  cbn [bind].
  destruct (Buffer_from_hex buffer_of_object iv_field) as [iv|e];
    [|reflexivity].
  cbn [bind]. unfold createDecipheriv.
  destruct iv as [|x iv]; [reflexivity|]. rewrite Hlen.
  cbn [Nat.eqb bind fst snd].
  destruct (property blob "authTag") as [tag_field|e]; [|reflexivity].
  cbn [bind].
  destruct (Buffer_from_hex buffer_of_object tag_field) as [tag|e];
    [|reflexivity].
  cbn [bind]. destruct (setAuthTag tag) as [tag'|e]; [|reflexivity].
  cbn [bind].
  destruct (property blob "ciphertext") as [ct_field|e]; [|reflexivity].
  cbn [bind].
  destruct (update_input_hex ct_field) as [ct|e]; reflexivity.
Qed.

(** [decrypt] returns a text exactly when the cipher opens, under the
    configured key, what the envelope holds. *)
Lemma decrypt_Ok_iff (env : option jsstring) (key : bytes)
    (envelope text : jsstring) :
  getEncryptionKey env = Ok key -> length key = 32%nat ->
  (decrypt gcm_open buffer_of_object env envelope = Ok text
   <-> exists iv ciphertext tag plaintext,
         holds envelope iv ciphertext tag
         /\ gcm_open key iv ciphertext tag = Ok plaintext
         /\ text = utf8_decode plaintext).
Proof.
  intros Hkey Hlen. split.
  - intros H.
    destruct (parse (utf8_decode (base64_decode envelope))) as [blob|] eqn:Hp.
    + rewrite (decrypt_steps env key envelope blob Hkey Hlen Hp) in H.
      destruct (read_iv blob) as [iv|e] eqn:H1; [|discriminate].
      cbn [bind] in H. unfold createDecipheriv in H.
      destruct iv as [|x iv]; [discriminate|]. rewrite Hlen in H.
      cbn [Nat.eqb bind] in H.
      destruct (read_tag blob) as [tag|e] eqn:H2; [|discriminate].
      cbn [bind] in H.
      destruct (read_ciphertext blob) as [ct|e] eqn:H3; [|discriminate].
      cbn [bind] in H.
      destruct (gcm_open key (x :: iv) ct tag) as [pt|e] eqn:H4;
        [|discriminate].
      cbn [bind] in H. injection H as <-.
      exists (x :: iv), ct, tag, pt. split; [|now split].
      exists blob. repeat split; try assumption. discriminate.
    + unfold decrypt in H. rewrite Hkey, Hp in H. discriminate H.
  - intros (iv & ct & tag & pt & (blob & Hp & H1 & Hiv & H2 & H3) & H4 & ->).
    rewrite (decrypt_steps env key envelope blob Hkey Hlen Hp).
    rewrite H1. cbn [bind]. unfold createDecipheriv.
    destruct iv as [|x iv]; [congruence|]. rewrite Hlen.
    cbn [Nat.eqb bind]. rewrite H2, H3. cbn [bind]. now rewrite H4.
Qed.

(** The envelope written as [encrypt] writes it holds what was put in
    it. *)
Lemma envelope_holds (iv ciphertext tag : bytes) :
  iv <> [] -> valid_tag_length (length tag) = true ->
  holds (envelope_of iv ciphertext tag) iv ciphertext tag.
Proof.
  intros Hiv Htag. unfold holds, envelope_of.
  eexists. split.
  - apply envelope_read_back; [discriminate|].
    cbn [forallb]. unfold plain_member. cbn [fst snd].
    now rewrite !hex_encode_plain.
  - destruct (blob_fields (hex_encode iv) (hex_encode ciphertext)
                          (hex_encode tag)) as (Fiv & Fct & Ftag).
    unfold read_iv, read_tag, read_ciphertext. cbn [property bind].
    rewrite Fiv, Fct, Ftag. cbn [bind Buffer_from_hex update_input_hex].
    rewrite !hex_roundtrip. unfold setAuthTag. rewrite Htag.
    rewrite hex_encode_length, Nat.even_mul. cbn [Nat.even orb bind].
    now repeat split.
Qed.

(** A missing field: the first of the three that [decrypt] does not
    find, the ones before it being strings. *)
Definition field_missing (members : list (jsstring * json)) : Prop :=
  lookup (js "iv") members = None
  \/ (exists i, lookup (js "iv") members = Some (JString i)
                /\ lookup (js "authTag") members = None)
  \/ (exists i t, lookup (js "iv") members = Some (JString i)
                  /\ lookup (js "authTag") members = Some (JString t)
                  /\ lookup (js "ciphertext") members = None).

Lemma missing_field_TypeError (env : option jsstring) (key : bytes)
    (envelope : jsstring) (members : list (jsstring * json)) :
  getEncryptionKey env = Ok key -> length key = 32%nat ->
  parse (utf8_decode (base64_decode envelope)) = Some (JObject members) ->
  field_missing members ->
  exists message,
    decrypt gcm_open buffer_of_object env envelope
    = Throw (TypeError message).
Proof.
  intros Hkey Hlen Hp Hmissing.
  rewrite (decrypt_steps env key envelope _ Hkey Hlen Hp).
  unfold read_iv, read_tag, read_ciphertext. cbn [property bind].
  destruct Hmissing as [H1|[(i & H1 & H2)|(i & t & H1 & H2 & H3)]];
    rewrite H1; cbn [bind Buffer_from_hex]; [eexists; reflexivity| |];
    unfold createDecipheriv;
    (destruct (hex_decode i) as [|x iv]; [eexists; reflexivity|]);
    rewrite Hlen; cbn [Nat.eqb bind]; rewrite H2;
    cbn [bind Buffer_from_hex]; [eexists; reflexivity|].
  unfold setAuthTag. destruct (valid_tag_length (length (hex_decode t)));
    cbn [bind]; [|eexists; reflexivity].
  rewrite H3. cbn [bind update_input_hex]. eexists. reflexivity.
Qed.

Lemma no_object_TypeError (env : option jsstring) (key : bytes)
    (envelope : jsstring) (blob : json) :
  getEncryptionKey env = Ok key -> length key = 32%nat ->
  parse (utf8_decode (base64_decode envelope)) = Some blob ->
  (forall members, blob <> JObject members) ->
  exists message,
    decrypt gcm_open buffer_of_object env envelope
    = Throw (TypeError message).
Proof.
  intros Hkey Hlen Hp Hblob.
  rewrite (decrypt_steps env key envelope _ Hkey Hlen Hp).
  unfold read_iv.
  destruct blob; try (eexists; reflexivity). now destruct (Hblob members).
Qed.


End CipherFacts.

End CryptoFacts.

(* ================================================================== *)
(** * A sample runtime

    Stand-ins for the parts of the runtime that the service takes as
    given, to run it on concrete requests: a cipher that opens what it
    sealed and refuses any other tag, and the serializer of
    [JSON.stringify(data, null, 2)] that writes a number with the text it
    was read from. *)
(* ================================================================== *)

Module Sample.

Import Encoding JSON Crypto CryptoFacts.
Local Open Scope N_scope.

Fixpoint bytes_eqb (a b : bytes) : bool :=
  match a, b with
  | [], [] => true
  | x :: a', y :: b' => Byte.eqb x y && bytes_eqb a' b'
  | _, _ => false
  end.

Definition sample_tag (key iv : bytes) : bytes := firstn 4 key ++ iv.

Definition sample_seal (key iv plaintext : bytes) : bytes * bytes :=
  (rev plaintext, sample_tag key iv).

Definition sample_open (key iv ciphertext authTag : bytes) : result bytes :=
  if bytes_eqb authTag (sample_tag key iv)
  then Ok (rev ciphertext)
  else Throw AUTHENTICATION_FAILURE.

Definition sample_buffer (v : json) : result bytes :=
  Throw (TypeError "The first argument must be of type string").

Definition NEWLINE : N := 10.

Definition spaces (n : nat) : jsstring := repeat 32 n.

Fixpoint sample_stringify_at (indent : nat) (v : json) {struct v}
    : jsstring :=
  match v with
  | JNull => js "null"
  | JBool true => js "true"
  | JBool false => js "false"
  | JNumber text => text
  | JString s => quote s
  | JArray [] => js "[]"
  | JArray items =>
      code "[" :: NEWLINE
      :: (fix go (l : list json) : jsstring :=
            match l with
            | [] => []
            | x :: l' =>
                spaces (indent + 2) ++ sample_stringify_at (indent + 2) x
                ++ match l' with
                   | [] => []
                   | _ :: _ => code "," :: NEWLINE :: go l'
                   end
            end) items
      ++ NEWLINE :: spaces indent ++ [code "]"]
  | JObject [] => js "{}"
  | JObject members =>
      code "{" :: NEWLINE
      :: (fix go (l : list (jsstring * json)) : jsstring :=
            match l with
            | [] => []
            | (k, x) :: l' =>
                spaces (indent + 2) ++ quote k ++ code ":" :: 32
                :: sample_stringify_at (indent + 2) x
                ++ match l' with
                   | [] => []
                   | _ :: _ => code "," :: NEWLINE :: go l'
                   end
            end) members
      ++ NEWLINE :: spaces indent ++ [code "}"]
  end.

Definition sample_stringify (v : json) : jsstring :=
  sample_stringify_at 0 v.

(** A key of 64 hexadecimal digits and a nonce of 12 bytes. *)
Definition sample_key : option jsstring :=
  Some (js "000102030405060708090a0b0c0d0e0f101112131415161718191a1b1c1d1e1f").

Definition sample_iv : bytes :=
  [x00; x01; x02; x03; x04; x05; x06; x07; x08; x09; x0a; x0b].

Lemma bytes_eqb_refl (a : bytes) : bytes_eqb a a = true.
Proof.
  induction a as [|x a IH]; [reflexivity|]. cbn [bytes_eqb].
  now rewrite (Byte.byte_dec_lb eq_refl), IH.
Qed.

Lemma sample_gcm_correct : gcm_correct sample_seal sample_open.
Proof.
  intros key iv plaintext Hkey Hiv. unfold sample_open, sample_seal.
  cbn [fst snd]. rewrite bytes_eqb_refl, rev_involutive.
  split; [|reflexivity].
  unfold sample_tag. rewrite length_app, length_firstn, Hkey, Hiv.
  reflexivity.
Qed.

End Sample.


(* ================================================================== *)
(** * The cipher and the start-up check on the sample runtime *)
(* ================================================================== *)

Module CryptoChecks.

Import Encoding JSON EncodingFacts Crypto CryptoFacts Sample.
Local Open Scope N_scope.



(** ** A cipher that tells the keys apart

    A stand-in that keeps the contract of authenticated encryption, to run
    [decrypt] on envelopes written under another key: the ciphertext is
    the plaintext behind the key, and the tag is the nonce filled up to 16
    bytes. *)

Definition binding_tag (iv : bytes) : bytes :=
  firstn 16 (iv ++ repeat x00 16).

Definition binding_seal (key iv plaintext : bytes) : bytes * bytes :=
  (key ++ plaintext, binding_tag iv).

Definition binding_open (key iv ciphertext authTag : bytes) : result bytes :=
  if bytes_eqb (firstn (length key) ciphertext) key
     && bytes_eqb authTag (binding_tag iv)
  then Ok (skipn (length key) ciphertext)
  else Throw AUTHENTICATION_FAILURE.

Lemma bytes_eqb_eq (a b : bytes) : bytes_eqb a b = true -> a = b.
Proof.
  revert b. induction a as [|x a IH]; intros [|y b] H; try discriminate.
  - reflexivity.
  - cbn [bytes_eqb] in H. apply andb_prop in H as [Hx Hab].
    apply Byte.byte_dec_bl in Hx. subst y. f_equal. now apply IH.
Qed.

Lemma binding_tag_length (iv : bytes) : length (binding_tag iv) = 16%nat.
Proof.
  unfold binding_tag. rewrite length_firstn, length_app, repeat_length. lia.
Qed.

Lemma binding_correct : gcm_correct binding_seal binding_open.
Proof.
  intros key iv plaintext _ _. unfold binding_open, binding_seal.
  cbn [fst snd]. split; [apply binding_tag_length|].
  rewrite firstn_app, firstn_all, Nat.sub_diag, firstn_O, app_nil_r.
  rewrite !bytes_eqb_refl. cbn [andb].
  now rewrite skipn_app, skipn_all, Nat.sub_diag, skipn_O.
Qed.

Lemma binding_authentic : gcm_authentic binding_seal binding_open.
Proof.
  split.
  - intros key iv ct tag pt _ _ _. unfold binding_open, binding_seal.
    destruct (bytes_eqb (firstn (length key) ct) key) eqn:Hk;
      [|discriminate].
    destruct (bytes_eqb tag (binding_tag iv)) eqn:Ht; [|discriminate].
    cbn [andb]. intros [= <-].
    apply bytes_eqb_eq in Hk, Ht. subst tag. f_equal.
    rewrite <- Hk at 1. apply firstn_skipn.
  - intros key iv ct tag e _ _ _. unfold binding_open.
    destruct (_ && _); [discriminate|]. now intros [= <-].
  - intros key iv p p'. unfold binding_seal. cbn [fst].
    apply app_inv_head.
  - intros key key' iv iv' p p' Hk Hk' Hne. unfold binding_seal.
    intros [= H _]. apply Hne.
    assert (E : firstn (length key) (key ++ p)
                = firstn (length key) (key' ++ p')) by now rewrite H.
    rewrite firstn_app, firstn_all, Nat.sub_diag, firstn_O, app_nil_r in E.
    rewrite Hk, <- Hk' in E.
    now rewrite firstn_app, firstn_all, Nat.sub_diag, firstn_O, app_nil_r
      in E.
Qed.

(** A second key of 64 hexadecimal digits. *)
Definition other_key : option jsstring :=
  Some (js "f0e1d2c3b4a5968778695a4b3c2d1e0ff0e1d2c3b4a5968778695a4b3c2d1e0f").



(** What the start-up check looks at: that the configured key is there
    and that it is 64 characters long. *)
Lemma start_listens_iff_64_characters (env : option jsstring) :
  Route.start env = Route.Listening
  <-> exists keyHex, env = Some keyHex /\ length keyHex = 64%nat.
Proof.
  unfold Route.start, getEncryptionKey, js_length. split.
  - destruct env as [[|c keyHex]|]; try discriminate.
    destruct (Nat.eqb_spec (length (c :: keyHex)) 64) as [Hlen|_];
      [|discriminate].
    intros _. now exists (c :: keyHex).
  - intros (keyHex & -> & Hlen).
    destruct keyHex as [|c keyHex]; [discriminate|].
    now rewrite Hlen.
Qed.

Lemma start_refuses_missing_key :
  Route.start None
  = Route.Exit 1 ("CRITICAL: Failed to start server.",
                  "AUDIT_ENCRYPTION_KEY is not defined")%string
  /\ Route.start (Some [])
     = Route.Exit 1 ("CRITICAL: Failed to start server.",
                     "AUDIT_ENCRYPTION_KEY is not defined")%string.
Proof. split; reflexivity. Qed.

(** C8 on the key of 64 letters z: it is no hexadecimal text, the check
    accepts it and yields a key of no bytes, the server goes on to
    listen, and every [encrypt] then throws. *)
Theorem non_hex_key_passes_the_startup_check :
  let env := Some (repeat (Sanitizer.chr "z") 64) in
  valid_key env = false
  /\ getEncryptionKey env = Ok []
  /\ Route.start env = Route.Listening
  /\ forall (gcm_seal : bytes -> bytes -> bytes -> bytes * bytes)
            (iv : bytes) (text : jsstring),
       encrypt gcm_seal env iv text
       = Throw (RangeError "Invalid key length").
Proof. repeat split. Qed.

End CryptoChecks.

(* ================================================================== *)
(** * Properties of the audit log *)
(* ================================================================== *)

Module AuditLogFacts.

Import JSON AuditLog.
Local Open Scope string_scope.

(** The records that [appendAuditRecord] finds in the store: those of
    the array in the file, none when the file does not parse. *)
Definition records_before (s : store) : list json :=
  match audit_file s with
  | Ok text =>
      match parse text with
      | Some (JArray items) => items
      | _ => []
      end
  | Throw _ => []
  end.

(** A store that can be read and written and whose file holds an array
    or does not parse. *)
Definition usable (s : store) : Prop :=
  write_fault s = None
  /\ exists text,
       audit_file s = Ok text
       /\ (parse text = None \/ exists items, parse text = Some (JArray items)).

Section AppendFacts.

Variable stringify_indented : json -> jsstring.

Lemma append_usable (record : json) (s : store) :
  usable s ->
  appendAuditRecord stringify_indented record s
  = Store (Ok (stringify_indented (JArray (records_before s ++ [record]))))
          None (console_error s).
Proof.
  intros (Hw & text & Hfile & Hparse).
  unfold appendAuditRecord, try_append, writeFileSync, records_before.
  rewrite Hfile, Hw.
  destruct Hparse as [->|[items ->]]; reflexivity.
Qed.

(** C7, as the code has it.  When the file does not parse and can be
    written, the record is persisted as the only one and nothing is
    reported.  When the file cannot be read, nothing is persisted and the
    failure is written with [console.error]. *)
Theorem append_on_damaged_store (record : json) (s : store) :
  (forall text : jsstring,
      audit_file s = Ok text -> parse text = None -> write_fault s = None ->
      appendAuditRecord stringify_indented record s
      = Store (Ok (stringify_indented (JArray [record]))) None
              (console_error s))
  /\ (forall e : exn,
        audit_file s = Throw e ->
        appendAuditRecord stringify_indented record s
        = Store (Throw e) (write_fault s)
                (("Failed to write audit log:", e) :: console_error s)).
Proof.
  split.
  - intros text Hfile Hparse Hw.
    unfold appendAuditRecord, try_append, writeFileSync.
    now rewrite Hfile, Hw, Hparse.
  - intros e Hfile. unfold appendAuditRecord, try_append.
    rewrite Hfile. cbn beta iota. now rewrite Hfile.
Qed.

End AppendFacts.

Definition sample_record : json :=
  JObject [(js "id", JString (js "7")); (js "userId", JString (js "u1"))].

Lemma append_on_damaged_store_witness :
  let damaged := Store (Ok (js "[1, 2")) None [] in
  let unreadable :=
    Store (Throw (Error "EACCES: permission denied")) None [] in
  audit_file damaged = Ok (js "[1, 2")
  /\ parse (js "[1, 2") = None
  /\ write_fault damaged = None
  /\ appendAuditRecord Sample.sample_stringify sample_record damaged
     = Store (Ok (Sample.sample_stringify (JArray [sample_record]))) None []
  /\ audit_file unreadable = Throw (Error "EACCES: permission denied")
  /\ appendAuditRecord Sample.sample_stringify sample_record unreadable
     = Store (Throw (Error "EACCES: permission denied")) None
             [("Failed to write audit log:",
               Error "EACCES: permission denied")].
Proof.
  intros damaged unreadable.
  destruct (append_on_damaged_store Sample.sample_stringify sample_record
              damaged) as [Hdamaged _].
  destruct (append_on_damaged_store Sample.sample_stringify sample_record
              unreadable) as [_ Hunreadable].
  split; [reflexivity|]. split; [reflexivity|]. split; [reflexivity|].
  split; [exact (Hdamaged _ eq_refl eq_refl eq_refl)|].
  split; [reflexivity|]. exact (Hunreadable _ eq_refl).
Defined.

(** C7, as the specification has it, fails: with a file that does not
    parse nothing is reported, and with a file that cannot be read the
    record is not persisted. *)
Lemma damaged_store_is_silent_and_unreadable_store_refuses :
  console_error
    (appendAuditRecord Sample.sample_stringify sample_record
       (Store (Ok (js "{oops")) None []))
  = []
  /\ audit_file
       (appendAuditRecord Sample.sample_stringify sample_record
          (Store (Throw (Error "EACCES: permission denied")) None []))
     = Throw (Error "EACCES: permission denied").
Proof. split; reflexivity. Qed.

End AuditLogFacts.

(* ================================================================== *)
(** * Properties of the route *)
(* ================================================================== *)

Module RouteFacts.

Import Regex Encoding JSON EncodingFacts Crypto CryptoFacts AuditLog
       AuditLogFacts Route.
Local Open Scope string_scope.

Lemma valid_field_string (s : jsstring) :
  trim s <> [] -> valid_field (Some (JString s)) = Some s.
Proof.
  intros H. cbn [valid_field]. destruct s as [|c s]; [now cbn in H|].
  now destruct (trim (c :: s)).
Qed.

Section HandlerFacts.

Variable gcm_seal : bytes -> bytes -> bytes -> bytes * bytes.
Variable gcm_open : bytes -> bytes -> bytes -> bytes -> result bytes.
Variable buffer_of_object : json -> result bytes.
Variable stringify_indented : json -> jsstring.
Variable env : option jsstring.

(** C1, as the code has it.  A request whose [userId] and [message] are
    strings that are not empty after trimming, the message with every
    surrogate paired, is answered with the four-field payload, whatever
    the state of the breaker and whatever the header that forces the
    downstream failure, provided the configured key is 64 hexadecimal
    digits and the store is usable.  The file then holds the records it
    held (none if it did not parse) and one more; that record carries
    [sanitizeMessage message], and its encrypted field decrypts to the
    message. *)
Theorem one_audit_record_per_valid_request (req : request) (ctx : context)
    (w : world) (user message : jsstring) :
  gcm_correct gcm_seal gcm_open ->
  valid_key env = true ->
  length (random_iv ctx) = 12%nat ->
  body_field (body req) "userId" = Some (JString user) ->
  trim user <> [] ->
  body_field (body req) "message" = Some (JString message) ->
  trim message <> [] ->
  well_formed message = true ->
  usable (audit w) ->
  exists (status : nat) (p : payload) (b : CircuitBreaker.t)
         (encrypted aiResult : jsstring) (phase : CircuitBreaker.STATE),
    secureInquiry gcm_seal stringify_indented env req ctx w
    = (Reply status p,
       World b
         (Store
            (Ok (stringify_indented
                   (JArray
                      (records_before (audit w)
                       ++ [auditRecord (uuid ctx) user (created_at ctx)
                             encrypted (Sanitizer.sanitizeMessage message)
                             aiResult phase]))))
            None (console_error (audit w))))
    /\ decrypt gcm_open buffer_of_object env encrypted = Ok message
    /\ redactedMessage p = Sanitizer.sanitizeMessage message.
Proof.
  intros Hgcm Hkey Hiv Huser Hu Hmessage Hm Hwf Hstore.
  destruct (decrypt_encrypt_text gcm_seal gcm_open buffer_of_object
              env (random_iv ctx) message Hgcm Hkey Hiv Hwf)
    as (envelope & Henc & Hdec).
  unfold secureInquiry.
  rewrite Huser, (valid_field_string user Hu).
  rewrite Hmessage, (valid_field_string message Hm).
  destruct (CircuitBreaker.canExecute (now ctx) (breaker w)) as [can b1].
  rewrite Henc.
  destruct can; cbn [negb].
  - destruct (match x_mock_ai_fail req with
              | Some v => js_eqb v (js "true")
              | None => false
              end); cbn [mockAiCall];
      rewrite (append_usable stringify_indented _ (audit w) Hstore);
      do 6 eexists; (split; [reflexivity|]); split;
        [exact Hdec|reflexivity|exact Hdec|reflexivity].
  - rewrite (append_usable stringify_indented _ (audit w) Hstore).
    do 6 eexists. split; [reflexivity|]. split; [exact Hdec|reflexivity].
Qed.

End HandlerFacts.

End RouteFacts.

(* ================================================================== *)
(** * The route on the sample runtime *)
(* ================================================================== *)

Module RouteChecks.

Import Encoding JSON EncodingFacts Crypto CryptoFacts AuditLog AuditLogFacts
       Route RouteFacts Sample.
Local Open Scope string_scope.

Definition sample_request (message : jsstring) (fail : option jsstring)
    : request :=
  Request (JObject [(js "userId", JString (js "u-17"));
                    (js "message", JString message)])
          fail.

Definition sample_context : context :=
  Context 1000 3000 sample_iv (js "3f0c9a52-6d1e-4b7a-9c55-0e2f4a8b1d90")
          (js "2024-01-31T10:00:00.000Z").

(** A breaker that is OPEN until time 5000, and a store with no record. *)
Definition sample_world : world :=
  World (CircuitBreaker.mk CircuitBreaker.OPEN 3 5000)
        (Store (Ok (js "[]")) None []).

Lemma one_audit_record_per_valid_request_witness :
  let message := js "Mail me at test@example.com" in
  let req := sample_request message (Some (js "true")) in
  gcm_correct sample_seal sample_open
  /\ valid_key sample_key = true
  /\ length (random_iv sample_context) = 12%nat
  /\ body_field (body req) "userId" = Some (JString (js "u-17"))
  /\ trim (js "u-17") <> []
  /\ body_field (body req) "message" = Some (JString message)
  /\ trim message <> []
  /\ well_formed message = true
  /\ usable (audit sample_world)
  /\ exists (status : nat) (p : payload) (b : CircuitBreaker.t)
            (encrypted aiResult : jsstring) (phase : CircuitBreaker.STATE),
       secureInquiry sample_seal sample_stringify sample_key req
                     sample_context sample_world
       = (Reply status p,
          World b
            (Store
               (Ok (sample_stringify
                      (JArray
                         (records_before (audit sample_world)
                          ++ [auditRecord (uuid sample_context) (js "u-17")
                                (created_at sample_context) encrypted
                                (Sanitizer.sanitizeMessage message)
                                aiResult phase]))))
               None (console_error (audit sample_world))))
       /\ decrypt sample_open sample_buffer sample_key encrypted = Ok message
       /\ redactedMessage p = Sanitizer.sanitizeMessage message.
Proof.
  intros message req.
  assert (Hu : trim (js "u-17") <> []) by discriminate.
  assert (Hm : trim message <> []) by discriminate.
  assert (Hstore : usable (audit sample_world)).
  { split; [reflexivity|]. exists (js "[]"). split; [reflexivity|].
    right. now exists []. }
  split; [exact sample_gcm_correct|]. split; [reflexivity|].
  split; [reflexivity|]. split; [reflexivity|]. split; [exact Hu|].
  split; [reflexivity|]. split; [exact Hm|]. split; [reflexivity|].
  split; [exact Hstore|].
  exact (one_audit_record_per_valid_request sample_seal sample_open
           sample_buffer sample_stringify sample_key req sample_context
           sample_world (js "u-17") message sample_gcm_correct eq_refl
           eq_refl eq_refl Hu eq_refl Hm eq_refl Hstore).
Defined.

(** What is left of the store after the sample request with the message
    [hello], the breaker CLOSED. *)
Definition store_after_hello (s : store) : store :=
  audit (snd (secureInquiry sample_seal sample_stringify sample_key
                            (sample_request (js "hello") None)
                            sample_context
                            (World (CircuitBreaker.init 0) s))).

(** C1, as the specification has it, fails.  A message of one space is a
    string that is not empty, and the request is refused with nothing
    written.  With a file that cannot be read and with one that holds an
    object, the request leaves the file as it was and a line on
    [console.error]; with a disk that is full, the write fails after the
    file was emptied, and the request leaves the file empty and a line on
    [console.error].  And the encrypted original of the message made of
    the one code unit U+D800 decrypts to U+FFFD. *)
Lemma requests_that_leave_no_faithful_record :
  secureInquiry sample_seal sample_stringify sample_key
                (sample_request (js " ") None) sample_context sample_world
  = (BadRequest "message is required and must be a non-empty string",
     sample_world)
  /\ store_after_hello
       (Store (Throw (Error "EACCES: permission denied")) None [])
     = Store (Throw (Error "EACCES: permission denied")) None
             [("Failed to write audit log:",
               Error "EACCES: permission denied")]
  /\ store_after_hello
       (Store (Ok (js "[]"))
              (Some (Cut (Error "ENOSPC: no space left on device, write") 0))
              [])
     = Store (Ok [])
             (Some (Cut (Error "ENOSPC: no space left on device, write") 0))
             [("Failed to write audit log:",
               Error "ENOSPC: no space left on device, write")]
  /\ store_after_hello (Store (Ok (js "{}")) None [])
     = Store (Ok (js "{}")) None
             [("Failed to write audit log:",
               TypeError "data.push is not a function")]
  /\ (exists envelope,
        encrypt sample_seal sample_key sample_iv [55296%N] = Ok envelope
        /\ decrypt sample_open sample_buffer sample_key envelope
           = Ok [65533%N]).
Proof.
  split; [vm_compute; reflexivity|]. split; [vm_compute; reflexivity|].
  split; [vm_compute; reflexivity|]. split; [vm_compute; reflexivity|].
  exact (decrypt_encrypt_lone_surrogate sample_seal sample_open
           sample_buffer sample_key sample_iv sample_gcm_correct
           eq_refl eq_refl).
Qed.

End RouteChecks.

(* ================================================================== *)
(** * Runs of calls on the circuit breaker *)
(* ================================================================== *)

Module CircuitBreakerRuns.

Import CircuitBreaker.
Local Open Scope Z_scope.

(** A call of one of the methods of the breaker, with the time that
    [Date.now()] gives inside it. *)
Inductive call :=
| CanExecute (now : Z)
| RecordSuccess
| RecordFailure (now : Z)
| GetState.

Definition step (b : t) (c : call) : t :=
  match c with
  | CanExecute now => snd (canExecute now b)
  | RecordSuccess => recordSuccess b
  | RecordFailure now => recordFailure now b
  | GetState => b
  end.

(** The breaker after the calls, first to last. *)
Definition run (calls : list call) (b : t) : t := fold_left step calls b.

(** What the fields of a breaker satisfy between calls. *)
Definition consistent (b : t) : Prop :=
  match state b with
  | CLOSED => 0 <= failCount b < FAILURE_THRESHOLD
  | OPEN | HALF_OPEN => FAILURE_THRESHOLD <= failCount b
  end.

Lemma step_consistent (b : t) (c : call) :
  consistent b -> consistent (step b c).
Proof.
  unfold consistent, FAILURE_THRESHOLD.
  destruct b as [s n next], c as [now| |now|]; cbn [step].
  - unfold canExecute. cbn [state failCount nextAttempt].
    destruct s; cbn; try easy. destruct (next <=? now); cbn; easy.
  - cbn. lia.
  - unfold recordFailure, FAILURE_THRESHOLD. cbn [state failCount nextAttempt].
    destruct s; cbn [state failCount]; intros H; try lia;
      destruct (Z.leb_spec 3 (n + 1)); cbn [state failCount]; lia.
  - easy.
Qed.

Lemma run_consistent (calls : list call) (b : t) :
  consistent b -> consistent (run calls b).
Proof.
  unfold run. revert b.
  induction calls as [|c calls IH]; intros b Hb; [exact Hb|].
  cbn [fold_left]. apply IH. now apply step_consistent.
Qed.

(** X1.  Whatever methods are called on the breaker, in whatever order and
    at whatever times, from its construction on: the breaker is CLOSED
    exactly while the counter is below the threshold of 3, the counter is
    never negative, and OPEN and HALF_OPEN are only met with a counter of 3
    or more. *)
Theorem breaker_counter_tells_the_phase (t0 : Z) (calls : list call) :
  let b := run calls (init t0) in
  0 <= failCount b
  /\ (state b = CLOSED <-> failCount b < 3).
Proof.
  cbv zeta.
  assert (H : consistent (run calls (init t0))).
  { apply run_consistent. unfold consistent, FAILURE_THRESHOLD. cbn. lia. }
  unfold consistent, FAILURE_THRESHOLD in H.
  destruct (state (run calls (init t0))); (split; [lia|]);
    (split; [intros E; first [lia|discriminate E]|intros E; first [reflexivity|lia]]).
Qed.

(** ** Results recorded one after the other *)

(** The result of a call downstream, a failure with the time at which it
    is recorded. *)
Inductive outcome :=
| Succeeded
| Failed (now : Z).

Definition call_of (o : outcome) : call :=
  match o with
  | Succeeded => RecordSuccess
  | Failed now => RecordFailure now
  end.

(** The number of failures since the last success, the results read from
    the latest back. *)
Fixpoint failures_since_success (latest_first : list outcome) : nat :=
  match latest_first with
  | Failed _ :: earlier => S (failures_since_success earlier)
  | _ => O
  end.

Definition recorded (outcomes : list outcome) (b : t) : t :=
  run (map call_of outcomes) b.

Lemma recorded_snoc (outcomes : list outcome) (o : outcome) (b : t) :
  recorded (outcomes ++ [o]) b = step (recorded outcomes b) (call_of o).
Proof. unfold recorded, run. now rewrite map_app, fold_left_app. Qed.

Lemma recorded_tracks (t0 : Z) (outcomes : list outcome) :
  let b := recorded outcomes (init t0) in
  let n := failures_since_success (rev outcomes) in
  failCount b = Z.of_nat n
  /\ state b = (if (n <? 3)%nat then CLOSED else OPEN)
  /\ match rev outcomes with
     | Failed now :: _ =>
         (3 <= n)%nat -> nextAttempt b = now + COOLDOWN_MS
     | _ => True
     end.
Proof.
  induction outcomes as [|o outcomes IH] using rev_ind.
  - cbn. repeat split.
  - cbv zeta in *. rewrite recorded_snoc, rev_app_distr. cbn [rev app].
    destruct IH as (Hn & Hs & _).
    remember (recorded outcomes (init t0)) as b eqn:Eb.
    remember (failures_since_success (rev outcomes)) as n eqn:En.
    clear Eb.
    destruct o as [|now]; cbn [call_of step failures_since_success].
    + repeat split.
    + rewrite <- En. unfold recordFailure, FAILURE_THRESHOLD. rewrite Hs, Hn.
      destruct (Nat.ltb_spec n 3) as [Hlt|Hge];
        destruct (Z.leb_spec 3 (Z.of_nat n + 1)) as [H3|H3];
        destruct (Nat.ltb_spec (S n) 3) as [H4|H4]; try lia;
        cbn [state failCount nextAttempt];
        (split; [lia|]); (split; [reflexivity|]); intros; try reflexivity;
        lia.
Qed.

(** X2.  When results are recorded one after the other on a new breaker,
    the counter is the number of failures since the last success, the
    breaker is OPEN exactly when that number is 3 or more and CLOSED
    otherwise, and while it is OPEN the next attempt is due 30 seconds
    after the latest failure: a failure recorded on an OPEN breaker
    starts the cool-down again. *)
Theorem open_iff_three_failures_since_success (t0 : Z)
    (outcomes : list outcome) :
  let b := recorded outcomes (init t0) in
  let n := failures_since_success (rev outcomes) in
  failCount b = Z.of_nat n
  /\ (state b = OPEN <-> (3 <= n)%nat)
  /\ (state b = CLOSED <-> (n < 3)%nat)
  /\ forall (earlier : list outcome) (now : Z),
       outcomes = earlier ++ [Failed now] -> (3 <= n)%nat ->
       nextAttempt b = now + 30000.
Proof.
  cbv zeta. destruct (recorded_tracks t0 outcomes) as (Hn & Hs & Hnext).
  split; [exact Hn|]. rewrite Hs.
  destruct (Nat.ltb_spec (failures_since_success (rev outcomes)) 3);
    (split; [split; intros; first [discriminate|lia|reflexivity]|]);
    (split; [split; intros; first [discriminate|lia|reflexivity]|]);
    intros earlier now E Hge; try lia.
  subst outcomes. rewrite rev_app_distr in Hnext, Hge.
  cbn [rev app] in Hnext, Hge. exact (Hnext Hge).
Qed.

(** ** The probe *)

(** X3.  The attempt after the cool-down.  On an OPEN breaker whose
    next attempt is due, [canExecute] admits the caller; when that one
    attempt fails the breaker is OPEN again with the counter as it was,
    and refuses every caller until 30 seconds after the failure of the
    attempt; when it succeeds the breaker is CLOSED with the counter at 0,
    and two further failures do not open it. *)
Theorem one_failed_probe_reopens (b : t) (now later : Z) :
  state b = OPEN -> nextAttempt b <= now ->
  fst (canExecute now b) = true
  /\ (let o := run [CanExecute now; RecordFailure later] b in
      o = mk OPEN (failCount b) (later + 30000)
      /\ forall again : Z,
           canExecute again o
           = if later + 30000 <=? again
             then (true, mk HALF_OPEN (failCount b) (later + 30000))
             else (false, o))
  /\ (let c := run [CanExecute now; RecordSuccess] b in
      c = mk CLOSED 0 (nextAttempt b)
      /\ forall t1 t2 : Z,
           state (run [RecordFailure t1; RecordFailure t2] c) = CLOSED).
Proof.
  intros Hopen Hdue. unfold run. cbn [fold_left step].
  unfold canExecute. rewrite Hopen.
  destruct (Z.leb_spec (nextAttempt b) now) as [_|?]; [|lia].
  cbn [fst snd]. split; [reflexivity|]. split.
  - split; [reflexivity|]. intros again. reflexivity.
  - split; [reflexivity|]. intros t1 t2. reflexivity.
Qed.

Lemma one_failed_probe_reopens_witness :
  let b := mk OPEN 3 30000 in
  state b = OPEN
  /\ nextAttempt b <= 30000
  /\ fst (canExecute 30000 b) = true
  /\ (let o := run [CanExecute 30000; RecordFailure 32000] b in
      o = mk OPEN (failCount b) (32000 + 30000)
      /\ forall again : Z,
           canExecute again o
           = if 32000 + 30000 <=? again
             then (true, mk HALF_OPEN (failCount b) (32000 + 30000))
             else (false, o))
  /\ (let c := run [CanExecute 30000; RecordSuccess] b in
      c = mk CLOSED 0 (nextAttempt b)
      /\ forall t1 t2 : Z,
           state (run [RecordFailure t1; RecordFailure t2] c) = CLOSED).
Proof.
  split; [reflexivity|]. split; [cbn; lia|].
  apply (one_failed_probe_reopens (mk OPEN 3 30000) 30000 32000);
    [reflexivity|cbn; lia].
Defined.

End CircuitBreakerRuns.

(* ================================================================== *)
(** * The key and the envelope *)
(* ================================================================== *)

Module KeyFacts.

Import Encoding JSON EncodingFacts Crypto CryptoFacts.
Local Open Scope N_scope.

Lemma hex_decode_full (n : nat) :
  forall s : jsstring,
    length s = (2 * n)%nat -> length (hex_decode s) = n ->
    forallb is_hex s = true.
Proof.
  induction n as [|n IH]; intros s Hlen Hdec.
  - now destruct s.
  - destruct s as [|a [|b s]]; try (cbn in Hlen; lia).
    cbn [hex_decode] in Hdec. cbn [forallb]. unfold is_hex at 1 2.
    destruct (hex_value (low_byte a)); [|discriminate].
    destruct (hex_value (low_byte b)); [|discriminate].
    cbn [length] in Hdec. cbn [andb]. apply IH; [cbn in Hlen|]; lia.
Qed.

Lemma key_bytes (keyHex : jsstring) :
  length keyHex = 64%nat ->
  (length (hex_decode keyHex) = 32%nat <-> forallb is_hex keyHex = true).
Proof.
  intros Hlen. split.
  - now apply hex_decode_full.
  - now apply hex_decode_length.
Qed.

Section Keys.

Variable gcm_seal : bytes -> bytes -> bytes -> bytes * bytes.

(** A key of 64 characters that are not all read as hexadecimal digits
    passes [getEncryptionKey], and the cipher refuses the bytes it decodes
    to. *)
Lemma encrypt_not_hex (keyHex : jsstring) (iv : bytes) (text : jsstring) :
  length keyHex = 64%nat -> forallb is_hex keyHex = false ->
  encrypt gcm_seal (Some keyHex) iv text
  = Throw (RangeError "Invalid key length").
Proof.
  intros Hlen Hhex. unfold encrypt, getEncryptionKey, js_length.
  destruct keyHex as [|c keyHex]; [discriminate Hlen|].
  rewrite Hlen. cbn [Nat.eqb bind]. unfold createCipheriv.
  destruct (Nat.eqb_spec (length (hex_decode (c :: keyHex))) 32)
    as [H32|_]; [|reflexivity].
  apply (key_bytes _ Hlen) in H32. congruence.
Qed.

(** X4.  What [encrypt] makes of the configured key, whatever the nonce
    and the text.  Without a key, or with the empty one, it throws that the
    key is not defined; with a key that is not 64 characters long it throws
    that the key must be a 64-character hex string; with 64 characters of
    which one is not read as a hexadecimal digit the key check lets it
    pass and the cipher refuses the key with a RangeError; and with 64
    characters that are all read as hexadecimal digits, and only then, it
    returns an envelope.  A character is read by its low byte: the digits
    and the letters a to f and A to F are read as hexadecimal digits, and
    so is every character above U+00FF whose low byte is the code of
    one. *)
Theorem encrypt_needs_64_hex_digits (env : option jsstring) (iv : bytes)
    (text : jsstring) :
  match env with
  | None | Some [] =>
      encrypt gcm_seal env iv text
      = Throw (Error "AUDIT_ENCRYPTION_KEY is not defined")
  | Some keyHex =>
      if negb (Nat.eqb (length keyHex) 64) then
        encrypt gcm_seal env iv text
        = Throw (Error
            "AUDIT_ENCRYPTION_KEY must be a 64-character hex string (32 bytes)")
      else if forallb is_hex keyHex then
        exists envelope, encrypt gcm_seal env iv text = Ok envelope
      else
        encrypt gcm_seal env iv text = Throw (RangeError "Invalid key length")
  end
  /\ ((exists envelope, encrypt gcm_seal env iv text = Ok envelope)
      <-> valid_key env = true).
Proof.
  assert (Hvalid : valid_key env = true ->
                   exists envelope, encrypt gcm_seal env iv text = Ok envelope).
  { intros H. destruct (valid_key_accepted env H) as (key & Hkey & Hlen).
    eexists. exact (encrypt_envelope gcm_seal env key iv text Hkey Hlen). }
  destruct env as [[|c keyHex]|].
  - split; [reflexivity|]. split; [intros [e He]; discriminate He|discriminate].
  - set (k := c :: keyHex) in *.
    destruct (Nat.eqb (length k) 64) eqn:Hlen; cbn [negb].
    + destruct (forallb is_hex k) eqn:Hhex.
      * assert (Hv : valid_key (@Some jsstring k) = true)
          by (cbn [valid_key]; now rewrite Hlen, Hhex).
        split; [now apply Hvalid|]. now split.
      * assert (Hthrow : encrypt gcm_seal (@Some jsstring k) iv text
                         = Throw (RangeError "Invalid key length")).
        { apply encrypt_not_hex; [now apply Nat.eqb_eq|exact Hhex]. }
        split; [exact Hthrow|].
        split; [intros [e He]; rewrite Hthrow in He; discriminate He|].
        cbn [valid_key]. rewrite Hlen, Hhex. discriminate.
    + assert (Hthrow : encrypt gcm_seal (@Some jsstring k) iv text
                = Throw (Error
            "AUDIT_ENCRYPTION_KEY must be a 64-character hex string (32 bytes)")).
      { unfold encrypt, getEncryptionKey, js_length. subst k.
        now rewrite Hlen. }
      split; [exact Hthrow|].
      split; [intros [e He]; rewrite Hthrow in He; discriminate He|].
      cbn [valid_key]. rewrite Hlen. discriminate.
  - split; [reflexivity|]. split; [intros [e He]; discriminate He|discriminate].
Qed.

(** X5.  The envelope is what the comment of [encrypt] says: the base64
    text of the JSON text of an object with the three properties [iv],
    [ciphertext] and [authTag], in this order, each the lower-case
    hexadecimal text of its bytes, the nonce among them as it was drawn. *)
Theorem envelope_is_base64_of_json (env : option jsstring) (iv : bytes)
    (text : jsstring) :
  valid_key env = true ->
  exists (keyHex envelope : jsstring),
    env = Some keyHex
    /\ encrypt gcm_seal env iv text = Ok envelope
    /\ let sealed := gcm_seal (hex_decode keyHex) iv (utf8_encode text) in
       parse (utf8_decode (base64_decode envelope))
       = Some (JObject [(js "iv", JString (hex_encode iv));
                        (js "ciphertext", JString (hex_encode (fst sealed)));
                        (js "authTag", JString (hex_encode (snd sealed)))])
       /\ hex_decode (hex_encode iv) = iv
       /\ length (hex_encode iv) = (2 * length iv)%nat.
Proof.
  intros Hv. destruct (valid_key_accepted env Hv) as (key & Hkey & Hlen).
  destruct env as [keyHex|]; [|discriminate].
  assert (Ek : key = hex_decode keyHex).
  { unfold getEncryptionKey in Hkey. destruct keyHex; [discriminate|].
    destruct (Nat.eqb _ 64); [|discriminate]. now injection Hkey. }
  subst key. exists keyHex. eexists. split; [reflexivity|].
  split; [exact (encrypt_envelope gcm_seal _ _ iv text Hkey Hlen)|].
  cbv zeta. split; [|split; [apply hex_roundtrip|apply hex_encode_length]].
  unfold envelope_of. rewrite envelope_read_back; [reflexivity|discriminate|].
  cbn [forallb]. unfold plain_member. cbn [fst snd].
  now rewrite !hex_encode_plain.
Qed.

End Keys.

(** The key of 64 letters U+0131, the dotless i: its low byte is the code
    of the digit 1, the key is read as 32 bytes of value 17, and [encrypt]
    returns an envelope. *)
Lemma key_read_by_its_low_bytes :
  let env := Some (repeat 305 64) in
  valid_key env = true
  /\ getEncryptionKey env = Ok (repeat x11 32)
  /\ forall (gcm_seal : bytes -> bytes -> bytes -> bytes * bytes)
            (iv : bytes) (text : jsstring),
       exists envelope, encrypt gcm_seal env iv text = Ok envelope.
Proof.
  split; [reflexivity|]. split; [reflexivity|].
  intros gcm_seal iv text. eexists.
  apply (encrypt_envelope gcm_seal (Some (repeat 305 64)) (repeat x11 32));
    reflexivity.
Qed.

Lemma envelope_is_base64_of_json_witness :
  valid_key Sample.sample_key = true
  /\ exists (keyHex envelope : jsstring),
       Sample.sample_key = Some keyHex
       /\ encrypt Sample.sample_seal Sample.sample_key Sample.sample_iv
            (js "hello") = Ok envelope
       /\ let sealed := Sample.sample_seal (hex_decode keyHex)
                          Sample.sample_iv (utf8_encode (js "hello")) in
          parse (utf8_decode (base64_decode envelope))
          = Some (JObject
                    [(js "iv", JString (hex_encode Sample.sample_iv));
                     (js "ciphertext", JString (hex_encode (fst sealed)));
                     (js "authTag", JString (hex_encode (snd sealed)))])
          /\ hex_decode (hex_encode Sample.sample_iv) = Sample.sample_iv
          /\ length (hex_encode Sample.sample_iv)
             = (2 * length Sample.sample_iv)%nat.
Proof.
  split; [reflexivity|].
  exact (envelope_is_base64_of_json Sample.sample_seal Sample.sample_key
           Sample.sample_iv (js "hello") eq_refl).
Defined.

End KeyFacts.

(* ================================================================== *)
(** * What comes back from the envelope *)
(* ================================================================== *)

Module CryptoRoundTrip.

Import Encoding JSON EncodingFacts Crypto CryptoFacts.
Local Open Scope N_scope.

(** [s.toWellFormed()]: every surrogate without its partner replaced by
    U+FFFD. *)
Fixpoint toWellFormed (s : jsstring) : jsstring :=
  match s with
  | [] => []
  | c :: rest =>
      if is_high_surrogate c then
        match rest with
        | d :: rest' =>
            if is_low_surrogate d then c :: d :: toWellFormed rest'
            else REPLACEMENT :: toWellFormed rest
        | [] => [REPLACEMENT]
        end
      else if is_low_surrogate c then REPLACEMENT :: toWellFormed rest
      else c :: toWellFormed rest
  end.

(** The strings of the language: lists of 16-bit code units. *)
Definition code_units (s : jsstring) : Prop := Forall (fun c => c < 65536) s.

Lemma replacement_decoded (rest : bytes) :
  utf8_decode (utf8_of_code_point REPLACEMENT ++ rest)
  = REPLACEMENT :: utf8_decode rest.
Proof.
  rewrite utf8_decode_app_code_point by (unfold scalar, REPLACEMENT; lia).
  reflexivity.
Qed.

Lemma utf8_decode_encode_bounded (n : nat) :
  forall s : jsstring,
    (length s <= n)%nat -> code_units s ->
    utf8_decode (utf8_encode s) = toWellFormed s.
Proof.
  induction n as [|n IH]; intros s Hlen Hs.
  - destruct s; [reflexivity|cbn in Hlen; lia].
  - destruct s as [|c rest]; [reflexivity|].
    inversion Hs as [|? ? Hc Hrest]; subst.
    cbn [utf8_encode toWellFormed].
    destruct (is_high_surrogate c) eqn:Hhigh.
    + destruct rest as [|d rest'].
      * rewrite <- (app_nil_r (utf8_of_code_point REPLACEMENT)).
        now rewrite replacement_decoded.
      * destruct (is_low_surrogate d) eqn:Hlow.
        -- inversion Hrest as [|? ? Hd Hrest']; subst.
           unfold is_high_surrogate, is_low_surrogate in Hhigh, Hlow.
           apply andb_prop in Hhigh as [Hc1 Hc2].
           apply andb_prop in Hlow as [Hd1 Hd2].
           apply N.leb_le in Hc1, Hc2, Hd1, Hd2.
           rewrite utf8_decode_app_code_point by (unfold scalar; lia).
           rewrite IH; [|cbn in Hlen; lia|exact Hrest'].
           unfold utf16_of_code_point. decide_tests. cbn [app].
           f_equal; [div_lia|]. f_equal. div_lia.
        -- rewrite replacement_decoded.
           rewrite IH; [reflexivity|cbn in Hlen |- *; lia|exact Hrest].
    + destruct (is_low_surrogate c) eqn:Hlow.
      * rewrite replacement_decoded.
        rewrite IH; [reflexivity|cbn in Hlen; lia|exact Hrest].
      * unfold is_high_surrogate, is_low_surrogate in Hhigh, Hlow.
        assert (Hsc : scalar c).
        { unfold scalar.
          destruct (N.leb_spec 55296 c), (N.leb_spec c 56319),
            (N.leb_spec 56320 c), (N.leb_spec c 57343);
            cbn in Hhigh, Hlow; try discriminate; lia. }
        rewrite utf8_decode_app_code_point by exact Hsc.
        rewrite IH; [|cbn in Hlen; lia|exact Hrest].
        unfold utf16_of_code_point. now decide_tests.
Qed.

Lemma utf8_decode_encode (s : jsstring) :
  code_units s -> utf8_decode (utf8_encode s) = toWellFormed s.
Proof. apply (utf8_decode_encode_bounded (length s)). lia. Qed.

Lemma toWellFormed_fixed_bounded (n : nat) :
  forall s : jsstring,
    (length s <= n)%nat -> code_units s ->
    (toWellFormed s = s <-> well_formed s = true).
Proof.
  induction n as [|n IH]; intros s Hlen Hs.
  - destruct s; [now split|cbn in Hlen; lia].
  - destruct s as [|c rest]; [now split|].
    inversion Hs as [|? ? Hc Hrest]; subst.
    cbn [toWellFormed well_formed].
    destruct (is_high_surrogate c) eqn:Hhigh.
    + destruct rest as [|d rest'].
      * split; [|discriminate]. intros [= E]. subst c. discriminate Hhigh.
      * inversion Hrest as [|? ? Hd Hrest']; subst.
        destruct (is_low_surrogate d) eqn:Hlow; cbn [andb].
        -- rewrite <- (IH rest'); [|cbn in Hlen; lia|exact Hrest'].
           split; [now intros [= E]|now intros ->].
        -- split; [|discriminate]. intros [= E _]. subst c.
           discriminate Hhigh.
    + destruct (is_low_surrogate c) eqn:Hlow.
      * split; [|discriminate]. intros [= E _]. subst c. discriminate Hlow.
      * apply N.ltb_lt in Hc. rewrite Hc. cbn [andb].
        rewrite <- (IH rest); [|cbn in Hlen; lia|exact Hrest].
        split; [now intros [= E]|now intros ->].
Qed.

Lemma toWellFormed_fixed (s : jsstring) :
  code_units s -> (toWellFormed s = s <-> well_formed s = true).
Proof. apply (toWellFormed_fixed_bounded (length s)). lia. Qed.

Section RoundTrip.

Variable gcm_seal : bytes -> bytes -> bytes -> bytes * bytes.
Variable gcm_open : bytes -> bytes -> bytes -> bytes -> result bytes.
Variable buffer_of_object : json -> result bytes.

(** X6.  What comes back from the envelope, for every string: with a
    configured key of 64 hexadecimal digits and a cipher that opens what it
    sealed, [decrypt (encrypt text)] is [text.toWellFormed()], the text with
    U+FFFD in the place of every surrogate that has no partner.  So the
    text comes back as it was exactly when each of its surrogates is
    paired. *)
Theorem decrypt_encrypt_is_toWellFormed (env : option jsstring) (iv : bytes)
    (text : jsstring) :
  gcm_correct gcm_seal gcm_open -> valid_key env = true ->
  length iv = 12%nat -> code_units text ->
  exists envelope,
    encrypt gcm_seal env iv text = Ok envelope
    /\ decrypt gcm_open buffer_of_object env envelope
       = Ok (toWellFormed text)
    /\ (decrypt gcm_open buffer_of_object env envelope = Ok text
        <-> well_formed text = true).
Proof.
  intros Hgcm Henv Hiv Htext.
  destruct (decrypt_encrypt_bytes gcm_seal gcm_open buffer_of_object
              env iv text Hgcm Henv Hiv) as (envelope & Henc & Hdec).
  rewrite (utf8_decode_encode text Htext) in Hdec.
  exists envelope. split; [exact Henc|]. split; [exact Hdec|].
  rewrite Hdec, <- (toWellFormed_fixed text Htext).
  split; [now intros [= E]|now intros ->].
Qed.

End RoundTrip.

(** The letter h and a high surrogate that has no partner. *)
Lemma decrypt_encrypt_is_toWellFormed_witness :
  let text := [104; 55357] in
  gcm_correct Sample.sample_seal Sample.sample_open
  /\ valid_key Sample.sample_key = true
  /\ length Sample.sample_iv = 12%nat
  /\ code_units text
  /\ exists envelope,
       encrypt Sample.sample_seal Sample.sample_key Sample.sample_iv text
       = Ok envelope
       /\ decrypt Sample.sample_open Sample.sample_buffer Sample.sample_key
            envelope
          = Ok (toWellFormed text)
       /\ (decrypt Sample.sample_open Sample.sample_buffer
             Sample.sample_key envelope = Ok text
           <-> well_formed text = true).
Proof.
  intros text.
  assert (Htext : code_units text) by (repeat constructor).
  split; [exact Sample.sample_gcm_correct|]. split; [reflexivity|].
  split; [reflexivity|]. split; [exact Htext|].
  exact (decrypt_encrypt_is_toWellFormed Sample.sample_seal
           Sample.sample_open Sample.sample_buffer Sample.sample_key
           Sample.sample_iv text Sample.sample_gcm_correct eq_refl eq_refl
           Htext).
Defined.

End CryptoRoundTrip.

(* ================================================================== *)
(** * The outcomes of an append *)
(* ================================================================== *)

Module AuditLogOutcomes.

Import Encoding JSON AuditLog AuditLogFacts.
Local Open Scope string_scope.

(** A store in which [appendAuditRecord] comes to write: the file can be
    read and holds an array or a text that does not parse. *)
Definition reaches_write (s : store) : Prop :=
  exists text,
    audit_file s = Ok text
    /\ (parse text = None \/ exists items, parse text = Some (JArray items)).

Lemma usable_reaches (s : store) :
  usable s <-> write_fault s = None /\ reaches_write s.
Proof. reflexivity. Qed.

Section Outcomes.

Variable stringify_indented : json -> jsstring.

(** The outcome of [try_append] on a store in which it does not come to
    write. *)
Lemma try_append_stops (record : json) (s : store) :
  ~ reaches_write s ->
  exists e, try_append stringify_indented record s = (s, Some e).
Proof.
  intros H. unfold try_append.
  destruct (audit_file s) as [text|e] eqn:Hfile; [|now exists e].
  destruct (parse text) as [v|] eqn:Hparse.
  - destruct v as [| | | |items|]; try (eexists; reflexivity).
    destruct H. exists text. split; [exact Hfile|]. right. now exists items.
  - destruct H. exists text. split; [exact Hfile|]. now left.
Qed.

Lemma try_append_writes (record : json) (s : store) :
  reaches_write s ->
  try_append stringify_indented record s
  = writeFileSync
      (stringify_indented (JArray (records_before s ++ [record]))) s.
Proof.
  intros (text & Hfile & Hparse). unfold try_append, records_before.
  rewrite Hfile. now destruct Hparse as [->|[items ->]].
Qed.

(** X7.  The outcomes of [appendAuditRecord].  When the file cannot be
    read or holds JSON that is no array, the file is left as it was and one
    line is written to [console.error].  Otherwise the text of the records
    found (none when the file did not parse) and the new one is written:
    when the write succeeds the file holds that text and nothing is
    reported; when the file cannot be opened for writing it is left as it
    was and the failure is reported; and when the write fails after the
    file was opened, which empties it, the file holds what was written of
    the text until then, and the failure is reported.  So a line is written
    to [console.error] exactly when the store is not usable. *)
Theorem append_persists_or_reports (record : json) (s : store) :
  let s' := appendAuditRecord stringify_indented record s in
  let text := stringify_indented (JArray (records_before s ++ [record])) in
  let reported e :=
    console_error s' = ("Failed to write audit log:", e) :: console_error s in
  (~ reaches_write s ->
   audit_file s' = audit_file s /\ write_fault s' = write_fault s
   /\ exists e, reported e)
  /\ (reaches_write s ->
      match write_fault s with
      | None =>
          audit_file s' = Ok text /\ write_fault s' = None
          /\ console_error s' = console_error s
      | Some (Refused e) =>
          audit_file s' = audit_file s /\ write_fault s' = write_fault s
          /\ reported e
      | Some (Cut e written) =>
          audit_file s'
          = Ok (utf8_decode (firstn written (utf8_encode text)))
          /\ write_fault s' = write_fault s
          /\ reported e
      end)
  /\ (console_error s' = console_error s <-> usable s).
Proof.
  cbv zeta.
  assert (Hgrow : forall (l : list (string * exn)) x, x :: l <> l).
  { intros l x E. apply (f_equal (@length _)) in E. cbn in E. lia. }
  assert (Hstop : ~ reaches_write s ->
    audit_file (appendAuditRecord stringify_indented record s) = audit_file s
    /\ write_fault (appendAuditRecord stringify_indented record s)
       = write_fault s
    /\ exists e,
         console_error (appendAuditRecord stringify_indented record s)
         = ("Failed to write audit log:", e) :: console_error s).
  { intros H. destruct (try_append_stops record s H) as [e He].
    unfold appendAuditRecord. rewrite He. cbn. repeat split. now exists e. }
  assert (Hwrite : reaches_write s ->
    match write_fault s with
    | None =>
        audit_file (appendAuditRecord stringify_indented record s)
        = Ok (stringify_indented (JArray (records_before s ++ [record])))
        /\ write_fault (appendAuditRecord stringify_indented record s) = None
        /\ console_error (appendAuditRecord stringify_indented record s)
           = console_error s
    | Some (Refused e) =>
        audit_file (appendAuditRecord stringify_indented record s)
        = audit_file s
        /\ write_fault (appendAuditRecord stringify_indented record s)
           = write_fault s
        /\ console_error (appendAuditRecord stringify_indented record s)
           = ("Failed to write audit log:", e) :: console_error s
    | Some (Cut e written) =>
        audit_file (appendAuditRecord stringify_indented record s)
        = Ok (utf8_decode
                (firstn written
                   (utf8_encode
                      (stringify_indented
                         (JArray (records_before s ++ [record]))))))
        /\ write_fault (appendAuditRecord stringify_indented record s)
           = write_fault s
        /\ console_error (appendAuditRecord stringify_indented record s)
           = ("Failed to write audit log:", e) :: console_error s
    end).
  { intros H. unfold appendAuditRecord.
    rewrite (try_append_writes record s H). unfold writeFileSync.
    destruct (write_fault s) as [[e|e written]|] eqn:Hw; cbn;
      repeat split; now rewrite ?Hw. }
  split; [exact Hstop|]. split; [exact Hwrite|].
  rewrite usable_reaches. split.
  - intros Hsame.
    assert (Hreach : reaches_write s).
    { destruct (audit_file s) as [text|e] eqn:Hfile.
      - destruct (parse text) as [v|] eqn:Hparse.
        + destruct v as [| | | |items|];
            try (exfalso;
                 assert (Hno : ~ reaches_write s)
                   by (intros (t & Ht & [Hp|[i Hp]]);
                       rewrite Hfile in Ht; injection Ht as <-;
                       rewrite Hparse in Hp; discriminate);
                 destruct (Hstop Hno) as (_ & _ & e & He);
                 rewrite He in Hsame; exact (Hgrow _ _ Hsame)).
          exists text. split; [exact Hfile|]. right. now exists items.
        + exists text. split; [exact Hfile|]. now left.
      - exfalso.
        assert (Hno : ~ reaches_write s)
          by (intros (t & Ht & _); rewrite Hfile in Ht; discriminate).
        destruct (Hstop Hno) as (_ & _ & e' & He).
        rewrite He in Hsame. exact (Hgrow _ _ Hsame). }
    split; [|exact Hreach]. specialize (Hwrite Hreach).
    destruct (write_fault s) as [[e|e written]|]; [| |reflexivity];
      destruct Hwrite as (_ & _ & He); rewrite He in Hsame;
      now destruct (Hgrow _ _ Hsame).
  - intros [Hw Hreach]. specialize (Hwrite Hreach). rewrite Hw in Hwrite.
    now destruct Hwrite as (_ & _ & He).
Qed.

End Outcomes.

(** A disk that is full after 10 bytes of the new text were written. *)
Lemma file_after_a_cut_write :
  audit_file
    (appendAuditRecord Sample.sample_stringify sample_record
       (Store (Ok (js "[]"))
              (Some (Cut (Error "ENOSPC: no space left on device, write") 10))
              []))
  = Ok (firstn 10 (Sample.sample_stringify (JArray [sample_record]))).
Proof. vm_compute. reflexivity. Qed.

End AuditLogOutcomes.
(* ================================================================== *)
(** * Reading the audit file back *)
(* ================================================================== *)

Module JSONFacts.

Import Encoding JSON EncodingFacts AuditFile.
Local Open Scope N_scope.

(** ** Strings *)

Lemma hex_value_digit (n : N) :
  n < 16 -> hex_value (hex_digit n) = Some n.
Proof.
  intros H. unfold hex_value, hex_digit.
  destruct (N.ltb_spec n 10); decide_tests; cbn [andb]; f_equal; lia.
Qed.

Lemma hex4_of_read (c : N) (rest : jsstring) :
  c < 65536 ->
  match hex4_of c ++ rest with
  | h1 :: h2 :: h3 :: h4 :: rest' =>
      hex4 h1 h2 h3 h4 = Some c /\ rest' = rest
  | _ => False
  end.
Proof.
  intros H. unfold hex4_of. cbn [app]. unfold hex4.
  rewrite !hex_value_digit by div_lia.
  split; [f_equal; div_lia|reflexivity].
Qed.

Lemma parse_string_escape (c : N) (s : jsstring) :
  c < 65536 ->
  parse_string (unicode_escape c ++ s)
  = cons_fst c (parse_string s).
Proof.
  intros H. unfold unicode_escape. cbn [app parse_string].
  unfold QUOTE, BACKSLASH. eval_tests.
  pose proof (hex4_of_read c s H) as Hr.
  destruct (hex4_of c ++ s) as [|h1 [|h2 [|h3 [|h4 r]]]]; try contradiction.
  destruct Hr as [-> ->]. reflexivity.
Qed.

Lemma parse_string_raw (c : N) (s : jsstring) :
  c <> QUOTE -> c <> BACKSLASH -> 32 <= c ->
  parse_string (c :: s) = cons_fst c (parse_string s).
Proof.
  intros H1 H2 H3. cbn [parse_string].
  destruct (N.eqb_spec c QUOTE); [contradiction|].
  destruct (N.eqb_spec c BACKSLASH); [contradiction|].
  destruct (N.ltb_spec c 32); [lia|reflexivity].
Qed.

(** What [JSON.stringify] writes between the quotes, [JSON.parse] reads
    back. *)
Lemma parse_string_quote_bounded (n : nat) :
  forall s rest : jsstring,
    (length s <= n)%nat ->
    parse_string (quote_chars s ++ QUOTE :: rest) = Some (s, rest).
Proof.
  induction n as [|n IH]; intros s rest Hlen.
  - destruct s; [reflexivity|cbn in Hlen; lia].
  - destruct s as [|c s]; [reflexivity|].
    assert (IHs : parse_string (quote_chars s ++ QUOTE :: rest)
                  = Some (s, rest)) by (apply IH; cbn in Hlen; lia).
    cbn [quote_chars].
    destruct (N.eqb_spec c QUOTE) as [->|Hq].
    { cbn [app parse_string]. unfold QUOTE, BACKSLASH. eval_tests.
      fold QUOTE. now rewrite IHs. }
    destruct (N.eqb_spec c BACKSLASH) as [->|Hb].
    { cbn [app parse_string]. unfold QUOTE, BACKSLASH. eval_tests.
      fold QUOTE. now rewrite IHs. }
    destruct (N.eqb_spec c 8) as [->|H8].
    { cbn [app parse_string]. unfold QUOTE, BACKSLASH. eval_tests.
      fold QUOTE. now rewrite IHs. }
    destruct (N.eqb_spec c 12) as [->|H12].
    { cbn [app parse_string]. unfold QUOTE, BACKSLASH. eval_tests.
      fold QUOTE. now rewrite IHs. }
    destruct (N.eqb_spec c 10) as [->|H10].
    { cbn [app parse_string]. unfold QUOTE, BACKSLASH. eval_tests.
      fold QUOTE. now rewrite IHs. }
    destruct (N.eqb_spec c 13) as [->|H13].
    { cbn [app parse_string]. unfold QUOTE, BACKSLASH. eval_tests.
      fold QUOTE. now rewrite IHs. }
    destruct (N.eqb_spec c 9) as [->|H9].
    { cbn [app parse_string]. unfold QUOTE, BACKSLASH. eval_tests.
      fold QUOTE. now rewrite IHs. }
    destruct (N.ltb_spec c 32) as [Hlow|Hge].
    { rewrite <- app_assoc, parse_string_escape by lia.
      now rewrite IHs. }
    destruct (is_high_surrogate c) eqn:Hhigh.
    { assert (Hc : c < 65536).
      { unfold is_high_surrogate in Hhigh. apply andb_prop in Hhigh as [_ H].
        apply N.leb_le in H. lia. }
      destruct s as [|d s'].
      - rewrite parse_string_escape by exact Hc. reflexivity.
      - destruct (is_low_surrogate d) eqn:Hlow.
        + cbn [app]. rewrite parse_string_raw by assumption.
          assert (Hd : 56320 <= d).
          { unfold is_low_surrogate in Hlow.
            apply andb_prop in Hlow as [H _]. now apply N.leb_le in H. }
          rewrite parse_string_raw
            by (unfold QUOTE, BACKSLASH; lia).
          rewrite IH by (cbn in Hlen; lia). reflexivity.
        + rewrite <- app_assoc, parse_string_escape by exact Hc.
          now rewrite IHs. }
    destruct (is_low_surrogate c) eqn:Hlow.
    { assert (Hc : c < 65536).
      { unfold is_low_surrogate in Hlow. apply andb_prop in Hlow as [_ H].
        apply N.leb_le in H. lia. }
      rewrite <- app_assoc, parse_string_escape by exact Hc.
      now rewrite IHs. }
    cbn [app]. rewrite parse_string_raw by assumption. now rewrite IHs.
Qed.

Lemma parse_string_quote (s rest : jsstring) :
  parse_string (quote_chars s ++ QUOTE :: rest) = Some (s, rest).
Proof. apply (parse_string_quote_bounded (length s)). lia. Qed.

(** ** The text of the audit file *)

Lemma skip_ws_indent (depth : nat) (s : jsstring) :
  skip_ws (indent depth ++ s) = skip_ws s.
Proof.
  unfold indent. induction (2 * depth)%nat as [|n IH]; [reflexivity|].
  cbn [repeat app skip_ws]. unfold SPACE. now eval_tests.
Qed.

Lemma skip_ws_newline (s : jsstring) : skip_ws (LINE_FEED :: s) = skip_ws s.
Proof. cbn [skip_ws]. unfold LINE_FEED. now eval_tests. Qed.

Lemma skip_ws_space (s : jsstring) : skip_ws (SPACE :: s) = skip_ws s.
Proof. cbn [skip_ws]. unfold SPACE. now eval_tests. Qed.

Lemma skip_ws_quote (s : jsstring) : skip_ws (quote s) = quote s.
Proof. unfold quote. cbn [skip_ws]. unfold QUOTE. now eval_tests. Qed.

Lemma parse_value_quote (fuel : nat) (v rest : jsstring) :
  parse_value (S fuel) (quote v ++ rest) = Some (JString v, rest).
Proof.
  unfold quote. cbn [app parse_value]. unfold QUOTE. eval_tests. fold QUOTE.
  rewrite <- app_assoc. cbn [app]. now rewrite parse_string_quote.
Qed.

(** One property, from its opening quote on, and what follows it. *)
Definition member_chars (m : jsstring * jsstring) : jsstring :=
  quote (fst m) ++ code ":" :: SPACE :: quote (snd m).

Lemma member_line_text (m : jsstring * jsstring) (s : jsstring) :
  skip_ws (member_line m ++ s) = member_chars m ++ s.
Proof.
  unfold member_line. rewrite <- app_assoc, skip_ws_indent.
  unfold member_chars, quote. cbn [app skip_ws]. unfold QUOTE. now eval_tests.
Qed.

Lemma parse_member (fuel : nat) (acc : list (jsstring * json))
    (m : jsstring * jsstring) (tail : jsstring) :
  parse_members (S (S fuel)) acc (member_chars m ++ tail)
  = match skip_ws tail with
    | c :: s =>
        if c =? code ","
        then parse_members (S fuel) ((fst m, JString (snd m)) :: acc)
                           (skip_ws s)
        else if c =? code "}"
        then Some (JObject (rev ((fst m, JString (snd m)) :: acc)), s)
        else None
    | [] => None
    end.
Proof.
  rewrite parse_members_unfold. unfold member_chars at 1, quote at 1.
  cbn [app]. unfold QUOTE at 1. eval_tests. fold QUOTE.
  rewrite <- !app_assoc. cbn [app]. rewrite parse_string_quote.
  cbn [skip_ws]. eval_tests. rewrite skip_ws_space.
  assert (Hq : skip_ws (quote (snd m) ++ tail) = quote (snd m) ++ tail).
  { unfold quote. cbn [app skip_ws]. unfold QUOTE. now eval_tests. }
  rewrite Hq, parse_value_quote. reflexivity.
Qed.

Lemma lines_cons (l l' : jsstring) (ls : list jsstring) :
  lines (l :: l' :: ls) = l ++ code "," :: LINE_FEED :: lines (l' :: ls).
Proof. reflexivity. Qed.

Lemma parse_record_members (ms : list (jsstring * jsstring)) :
  forall (fuel : nat) (acc : list (jsstring * json)) (rest : jsstring),
    ms <> [] -> (length ms < fuel)%nat ->
    parse_members fuel acc
      (skip_ws (lines (map member_line ms)
                ++ LINE_FEED :: indent 1 ++ code "}" :: rest))
    = Some (JObject (rev acc ++ map (fun m => (fst m, JString (snd m))) ms),
            rest).
Proof.
  induction ms as [|m ms IH]; intros fuel acc rest Hne Hfuel; [congruence|].
  destruct fuel as [|[|fuel]]; [cbn in Hfuel; lia|cbn in Hfuel; lia|].
  destruct ms as [|m' ms].
  - cbn [map lines]. rewrite member_line_text, parse_member.
    rewrite skip_ws_newline, skip_ws_indent. cbn [skip_ws]. eval_tests.
    reflexivity.
  - cbn [map]. rewrite lines_cons, <- app_assoc. cbn [app].
    rewrite member_line_text, parse_member. cbn [skip_ws]. eval_tests.
    rewrite skip_ws_newline.
    change (member_line m' :: map member_line ms)
      with (map member_line (m' :: ms)).
    rewrite IH; [|discriminate|cbn in Hfuel |- *; lia].
    cbn [rev map]. now rewrite <- app_assoc.
Qed.

Lemma parse_record (ms : list (jsstring * jsstring)) (fuel : nat)
    (rest : jsstring) :
  (length ms + 1 < fuel)%nat ->
  parse_value fuel (stringify_record ms ++ rest)
  = Some (record_json ms, rest).
Proof.
  intros Hfuel. destruct fuel as [|fuel]; [lia|].
  destruct ms as [|m ms]; [reflexivity|].
  unfold stringify_record. remember (m :: ms) as l eqn:El.
  cbn [app parse_value]. eval_tests.
  rewrite skip_ws_newline.
  assert (Htext : skip_ws ((lines (map member_line l)
                            ++ LINE_FEED :: indent 1 ++ [code "}"]) ++ rest)
                  = member_chars m
                    ++ match ms with
                       | [] => []
                       | _ => code "," :: LINE_FEED :: lines (map member_line ms)
                       end ++ LINE_FEED :: indent 1 ++ code "}" :: rest).
  { subst l. destruct ms as [|m' ms].
    - cbn [map lines]. rewrite <- !app_assoc. rewrite member_line_text.
      cbn [app]. now rewrite <- app_assoc.
    - cbn [map]. rewrite lines_cons. rewrite <- !app_assoc.
      rewrite member_line_text. cbn [app]. rewrite <- !app_assoc.
      reflexivity. }
  pose proof (parse_record_members l fuel [] rest) as Hm.
  replace (lines (map member_line l) ++ LINE_FEED :: indent 1 ++ code "}" :: rest)
    with ((lines (map member_line l) ++ LINE_FEED :: indent 1 ++ [code "}"])
          ++ rest) in Hm
    by (rewrite <- !app_assoc; cbn [app]; now rewrite <- app_assoc).
  rewrite Htext in Hm |- *.
  assert (Hhead : exists s, member_chars m
                    ++ match ms with
                       | [] => []
                       | _ => code "," :: LINE_FEED :: lines (map member_line ms)
                       end ++ LINE_FEED :: indent 1 ++ code "}" :: rest
                    = QUOTE :: s).
  { unfold member_chars, quote. cbn [app]. eauto. }
  destruct Hhead as [s Hs]. rewrite Hs in Hm |- *.
  unfold QUOTE at 1. eval_tests. fold QUOTE.
  rewrite Hm; [reflexivity|subst l; discriminate|subst l; cbn in Hfuel |- *; lia].
Qed.



Lemma parse_items_unfold (fuel : nat) (acc : list json) (s : jsstring) :
  parse_items (S fuel) acc s
  = match parse_value fuel s with
    | Some (v, s1) =>
        match skip_ws s1 with
        | c :: s2 =>
            if c =? code "," then parse_items fuel (v :: acc) (skip_ws s2)
            else if c =? code "]" then Some (JArray (rev (v :: acc)), s2)
            else None
        | [] => None
        end
    | None => None
    end.
Proof. reflexivity. Qed.

Definition record_line (ms : list (jsstring * jsstring)) : jsstring :=
  indent 1 ++ stringify_record ms.

Lemma record_line_text (ms : list (jsstring * jsstring)) (s : jsstring) :
  skip_ws (record_line ms ++ s) = stringify_record ms ++ s.
Proof.
  unfold record_line. rewrite <- app_assoc, skip_ws_indent.
  destruct ms; unfold stringify_record; cbn [app js map list_ascii_of_string
    skip_ws]; now eval_tests.
Qed.

Lemma parse_record_items (rs : list (list (jsstring * jsstring))) :
  forall (fuel : nat) (acc : list json) (rest : jsstring),
    rs <> [] -> (length rs + length (concat rs) + 1 < fuel)%nat ->
    parse_items fuel acc
      (skip_ws (lines (map record_line rs) ++ LINE_FEED :: code "]" :: rest))
    = Some (JArray (rev acc ++ map record_json rs), rest).
Proof.
  induction rs as [|r rs IH]; intros fuel acc rest Hne Hfuel; [congruence|].
  destruct fuel as [|fuel]; [lia|].
  cbn [length concat] in Hfuel. rewrite length_app in Hfuel.
  rewrite parse_items_unfold.
  destruct rs as [|r' rs].
  - cbn [map lines]. rewrite record_line_text.
    rewrite parse_record by lia.
    rewrite skip_ws_newline. cbn [skip_ws]. eval_tests. reflexivity.
  - cbn [map]. rewrite lines_cons, <- app_assoc. cbn [app].
    rewrite record_line_text. rewrite parse_record by lia.
    cbn [skip_ws]. eval_tests. rewrite skip_ws_newline.
    change (record_line r' :: map record_line rs)
      with (map record_line (r' :: rs)).
    rewrite IH; [|discriminate|cbn [length concat] in Hfuel |- *; lia].
    cbn [rev map]. now rewrite <- app_assoc.
Qed.

Lemma lines_length (A : Type) (f : A -> jsstring) (size : A -> nat)
    (l : list A) :
  (forall a, size a <= length (f a))%nat ->
  (list_sum (map size l) <= length (lines (map f l)))%nat.
Proof.
  intros Hf. induction l as [|a l IH]; [cbn; lia|].
  destruct l as [|b l].
  - cbn [map lines list_sum fold_right]. specialize (Hf a). lia.
  - cbn [map]. rewrite lines_cons, length_app.
    cbn [length list_sum fold_right].
    cbn [map list_sum fold_right] in IH. specialize (Hf a). lia.
Qed.

Lemma stringify_record_length (ms : list (jsstring * jsstring)) :
  (1 + length ms <= length (stringify_record ms))%nat.
Proof.
  destruct ms as [|m ms]; [cbn; lia|].
  unfold stringify_record. remember (m :: ms) as l.
  cbn [length]. rewrite length_app.
  pose proof (lines_length _ member_line (fun _ => 1%nat) l) as H.
  assert (Hsum : list_sum (map (fun _ : jsstring * jsstring => 1%nat) l)
                 = length l).
  { clear. induction l as [|a l IH]; [reflexivity|].
    cbn [map list_sum fold_right length]. unfold list_sum in IH. lia. }
  rewrite Hsum in H.
  assert (Hf : forall a, (1 <= length (member_line a))%nat).
  { intros a. unfold member_line, indent. rewrite length_app, repeat_length.
    lia. }
  specialize (H Hf). lia.
Qed.

Lemma stringify_records_length (rs : list (list (jsstring * jsstring))) :
  (length rs + length (concat rs) <= length (stringify_records rs))%nat.
Proof.
  destruct rs as [|r rs]; [cbn; lia|].
  unfold stringify_records. remember (r :: rs) as l.
  cbn [length]. rewrite length_app.
  pose proof (lines_length _ record_line (fun ms => (1 + length ms)%nat) l)
    as H.
  assert (Hsum : list_sum (map (fun ms : list (jsstring * jsstring) =>
                                  (1 + length ms)%nat) l)
                 = (length l + length (concat l))%nat).
  { clear. induction l as [|a l IH]; [reflexivity|].
    cbn [map list_sum fold_right length concat]. rewrite length_app.
    unfold list_sum in IH. lia. }
  rewrite Hsum in H.
  assert (Hf : forall a, (1 + length a <= length (record_line a))%nat).
  { intros a. unfold record_line, indent. rewrite length_app, repeat_length.
    pose proof (stringify_record_length a). lia. }
  specialize (H Hf).
  change (map (fun ms => indent 1 ++ stringify_record ms) l)
    with (map record_line l). lia.
Qed.

(** What [JSON.stringify(data, null, 2)] writes for an array of objects
    of strings, [JSON.parse] reads back as that array. *)
Lemma parse_stringify_records (rs : list (list (jsstring * jsstring))) :
  parse (stringify_records rs) = Some (records_json rs).
Proof.
  destruct rs as [|r rs]; [reflexivity|].
  pose proof (stringify_records_length (r :: rs)) as Hlen.
  unfold parse.
  remember (2 * length (stringify_records (r :: rs)) + 2)%nat as fuel
    eqn:Hfuel.
  destruct fuel as [|fuel]; [lia|].
  unfold stringify_records in *. remember (r :: rs) as l eqn:El.
  change (map (fun ms => indent 1 ++ stringify_record ms) l)
    with (map record_line l) in *.
  cbn [skip_ws]. eval_tests. cbn [parse_value]. eval_tests.
  rewrite skip_ws_newline.
  pose proof (parse_record_items l fuel [] []) as Hitems.
  cbn [app] in Hitems.
  assert (Hhead : exists s, skip_ws (lines (map record_line l)
                                     ++ [LINE_FEED; code "]"])
                            = code "{" :: s).
  { subst l. destruct rs as [|r' rs].
    - cbn [map lines]. rewrite record_line_text.
      destruct r; unfold stringify_record; cbn [app js map
        list_ascii_of_string]; eauto.
    - cbn [map]. rewrite lines_cons, <- app_assoc. rewrite record_line_text.
      destruct r; unfold stringify_record; cbn [app js map
        list_ascii_of_string]; eauto. }
  destruct Hhead as [s Hs]. rewrite Hs in Hitems |- *. eval_tests.
  rewrite Hitems; [|subst l; discriminate|].
  - cbn [skip_ws]. reflexivity.
  - cbn [length] in Hlen, Hfuel. rewrite length_app in Hlen, Hfuel.
    cbn [length] in Hlen, Hfuel. lia.
Qed.

End JSONFacts.

(* ================================================================== *)
(** * The sample serializer on audit records *)
(* ================================================================== *)

Module SampleFile.

Import Encoding JSON EncodingFacts AuditFile JSONFacts Sample.
Local Open Scope N_scope.

Lemma sample_members (ms : list (jsstring * jsstring)) :
  ms <> [] ->
  (fix go (l : list (jsstring * json)) : jsstring :=
     match l with
     | [] => []
     | (k, x) :: l' =>
         spaces (2 + 2) ++ quote k ++ code ":" :: 32
         :: sample_stringify_at (2 + 2) x
         ++ match l' with
            | [] => []
            | _ :: _ => code "," :: Sample.NEWLINE :: go l'
            end
     end) (map (fun m => (fst m, JString (snd m))) ms)
  = lines (map member_line ms).
Proof.
  induction ms as [|[k v] ms IH]; [congruence|]. intros _.
  destruct ms as [|m ms].
  - cbn [map lines fst snd sample_stringify_at]. unfold member_line.
    cbn [fst snd]. rewrite app_nil_r. reflexivity.
  - cbn [map]. rewrite lines_cons.
    cbn [map] in IH. rewrite <- IH by discriminate.
    cbn [fst snd sample_stringify_at]. unfold member_line. cbn [fst snd].
    rewrite <- ?app_assoc. cbn [app]. rewrite <- ?app_assoc. reflexivity.
Qed.

Lemma sample_record_text (ms : list (jsstring * jsstring)) :
  sample_stringify_at 2 (record_json ms) = stringify_record ms.
Proof.
  destruct ms as [|m ms]; [reflexivity|].
  unfold record_json, stringify_record.
  rewrite <- (sample_members (m :: ms)) by discriminate.
  destruct m as [k v]. reflexivity.
Qed.

Lemma sample_items (rs : list (list (jsstring * jsstring))) :
  rs <> [] ->
  (fix go (l : list json) : jsstring :=
     match l with
     | [] => []
     | x :: l' =>
         spaces (0 + 2) ++ sample_stringify_at (0 + 2) x
         ++ match l' with
            | [] => []
            | _ :: _ => code "," :: Sample.NEWLINE :: go l'
            end
     end) (map record_json rs)
  = lines (map record_line rs).
Proof.
  induction rs as [|r rs IH]; [congruence|]. intros _.
  destruct rs as [|r' rs].
  - cbn [map lines]. cbn [Nat.add]. rewrite sample_record_text, app_nil_r.
    reflexivity.
  - cbn [map]. rewrite lines_cons.
    cbn [map] in IH. rewrite <- IH by discriminate.
    cbn [Nat.add]. rewrite sample_record_text. unfold record_line.
    rewrite <- ?app_assoc. reflexivity.
Qed.

(** The sample serializer writes an array of objects of strings as
    [JSON.stringify(data, null, 2)] does. *)
Lemma sample_stringify_records (rs : list (list (jsstring * jsstring))) :
  sample_stringify (records_json rs) = stringify_records rs.
Proof.
  destruct rs as [|r rs]; [reflexivity|].
  unfold records_json, stringify_records.
  change (map (fun ms => indent 1 ++ stringify_record ms) (r :: rs))
    with (map record_line (r :: rs)).
  rewrite <- (sample_items (r :: rs)) by discriminate.
  reflexivity.
Qed.

End SampleFile.

(* ================================================================== *)
(** * Requests through the route *)
(* ================================================================== *)

Module RouteRuns.

Import Regex Encoding JSON EncodingFacts Crypto CryptoFacts AuditLog
       AuditLogFacts Route RouteFacts Server.
Local Open Scope string_scope.

(** ** The validation *)

Lemma trim_start_nil (s : jsstring) :
  trim_start s = [] <-> forallb is_space s = true.
Proof.
  induction s as [|c s IH]; [now split|]. cbn [trim_start forallb].
  destruct (is_space c); cbn [andb]; [exact IH|]. now split.
Qed.

Lemma trim_start_spaces (s : jsstring) :
  forallb is_space (trim_start s) = forallb is_space s.
Proof.
  induction s as [|c s IH]; [reflexivity|]. cbn [trim_start].
  destruct (is_space c) eqn:Hc; cbn [forallb]; rewrite ?Hc; [exact IH|].
  reflexivity.
Qed.

Lemma forallb_rev (A : Type) (f : A -> bool) (l : list A) :
  forallb f (rev l) = forallb f l.
Proof.
  induction l as [|a l IH]; [reflexivity|]. cbn [rev forallb].
  rewrite forallb_app, IH. cbn [forallb]. rewrite andb_true_r.
  apply andb_comm.
Qed.

(** [s.trim()] is empty exactly when [s] is made of white space. *)
Lemma trim_nil (s : jsstring) :
  trim s = [] <-> forallb is_space s = true.
Proof.
  unfold trim. split.
  - intros H. apply (f_equal (@rev N)) in H. rewrite rev_involutive in H.
    cbn [rev] in H. apply trim_start_nil in H.
    now rewrite forallb_rev, trim_start_spaces in H.
  - intros H. rewrite <- trim_start_spaces, <- forallb_rev in H.
    apply trim_start_nil in H. now rewrite H.
Qed.

(** A string with a character that is no white space. *)
Definition has_text (v : option json) : Prop :=
  exists s, v = Some (JString s) /\ forallb is_space s = false.

Lemma valid_field_iff (v : option json) (s : jsstring) :
  valid_field v = Some s
  <-> v = Some (JString s) /\ forallb is_space s = false.
Proof.
  split.
  - destruct v as [[| | |s0| |]|]; try discriminate. cbn [valid_field].
    destruct s0 as [|c s0]; [discriminate|].
    destruct (trim (c :: s0)) as [|d r] eqn:Ht; [discriminate|].
    intros [= <-]. split; [reflexivity|].
    destruct (forallb is_space (c :: s0)) eqn:Hs; [|reflexivity].
    apply trim_nil in Hs. congruence.
  - intros [-> Hs]. apply valid_field_string. intros Ht.
    apply trim_nil in Ht. congruence.
Qed.

Lemma valid_field_None (v : option json) :
  valid_field v = None <-> ~ has_text v.
Proof.
  split.
  - intros H (s & -> & Hs).
    assert (valid_field (Some (JString s)) = Some s)
      by (apply valid_field_iff; now split).
    congruence.
  - intros H. destruct (valid_field v) as [s|] eqn:E; [|reflexivity].
    apply valid_field_iff in E as [-> Hs]. exfalso. apply H. now exists s.
Qed.

Section Runs.

Variable gcm_seal : bytes -> bytes -> bytes -> bytes * bytes.
Variable stringify_indented : json -> jsstring.
Variable env : option jsstring.

(** X8.  The validation of the route.  A request is answered with
    status 400 exactly when its [userId] or its [message] is missing, is no
    string, or is a string of white space only (the empty one included); the
    [userId] is looked at first, and the error names the field.  Such a
    request changes nothing: the breaker is not asked and nothing is written
    to the audit log. *)
Theorem invalid_requests_get_400_and_change_nothing (req : request)
    (ctx : context) (w : world) :
  let user := body_field (body req) "userId" in
  let message := body_field (body req) "message" in
  ((exists error, fst (secureInquiry gcm_seal stringify_indented env req ctx w) = BadRequest error)
   <-> ~ (has_text user /\ has_text message))
  /\ (~ has_text user ->
      secureInquiry gcm_seal stringify_indented env req ctx w
      = (BadRequest "userId is required and must be a non-empty string", w))
  /\ (has_text user -> ~ has_text message ->
      secureInquiry gcm_seal stringify_indented env req ctx w
      = (BadRequest "message is required and must be a non-empty string", w))
  /\ (forall error,
        fst (secureInquiry gcm_seal stringify_indented env req ctx w) = BadRequest error ->
        snd (secureInquiry gcm_seal stringify_indented env req ctx w) = w
        /\ snd (respond (BadRequest error)) = Http 400 (ErrorBody error)).
Proof.
  cbv zeta.
  assert (Huser : ~ has_text (body_field (body req) "userId") ->
    secureInquiry gcm_seal stringify_indented env req ctx w
    = (BadRequest "userId is required and must be a non-empty string", w)).
  { intros H. apply valid_field_None in H. unfold secureInquiry.
    now rewrite H. }
  assert (Hmessage : has_text (body_field (body req) "userId") ->
    ~ has_text (body_field (body req) "message") ->
    secureInquiry gcm_seal stringify_indented env req ctx w
    = (BadRequest "message is required and must be a non-empty string", w)).
  { intros (u & Hu & Hs) H. apply valid_field_None in H.
    unfold secureInquiry. rewrite Hu at 1.
    rewrite (proj2 (valid_field_iff _ u) (conj eq_refl Hs)). now rewrite H. }
  assert (Hok : has_text (body_field (body req) "userId") ->
    has_text (body_field (body req) "message") ->
    forall error, fst (secureInquiry gcm_seal stringify_indented env req ctx w) <> BadRequest error).
  { intros (u & Hu & Hus) (m & Hm & Hms) error. unfold secureInquiry.
    rewrite Hu at 1.
    rewrite (proj2 (valid_field_iff _ u) (conj eq_refl Hus)).
    rewrite Hm at 1.
    rewrite (proj2 (valid_field_iff _ m) (conj eq_refl Hms)).
    destruct (CircuitBreaker.canExecute (now ctx) (breaker w)) as [can b1].
    destruct (negb can);
      destruct (encrypt gcm_seal env (random_iv ctx) m); cbn [fst];
      try discriminate;
      destruct (x_mock_ai_fail req) as [v|];
      try destruct (js_eqb v (js "true")); cbn; discriminate. }
  assert (Hdec : forall v, has_text v \/ ~ has_text v).
  { intros v. destruct (valid_field v) as [s|] eqn:E.
    - left. apply valid_field_iff in E as [-> Hs]. now exists s.
    - right. now apply valid_field_None. }
  split; [|split; [exact Huser|split; [exact Hmessage|]]].
  - split.
    + intros [error He] [Hu Hm]. exact (Hok Hu Hm error He).
    + intros H.
      destruct (Hdec (body_field (body req) "userId")) as [Hu|Hu].
      * destruct (Hdec (body_field (body req) "message")) as [Hm|Hm];
          [tauto|].
        eexists. now rewrite (Hmessage Hu Hm).
      * eexists. now rewrite (Huser Hu).
  - intros error He. split; [|reflexivity].
    destruct (Hdec (body_field (body req) "userId")) as [Hu|Hu].
    + destruct (Hdec (body_field (body req) "message")) as [Hm|Hm].
      * now apply Hok in He.
      * now rewrite (Hmessage Hu Hm).
    + now rewrite (Huser Hu).
Qed.

(** ** Requests that pass the validation *)

(** The [userId] and the [message] of a request that passes the
    validation. *)
Definition accepted (req : request) : option (jsstring * jsstring) :=
  match valid_field (body_field (body req) "userId"),
        valid_field (body_field (body req) "message") with
  | Some user, Some message => Some (user, message)
  | _, _ => None
  end.

(** Whether the header asks for the downstream call to fail:
    [req.headers['x-mock-ai-fail'] === 'true']. *)
Definition forced (req : request) : bool :=
  match x_mock_ai_fail req with
  | Some v => js_eqb v (js "true")
  | None => false
  end.

(** Whether [canExecute] admits a caller at time [now]. *)
Definition admitted (now : Z) (b : CircuitBreaker.t) : bool :=
  fst (CircuitBreaker.canExecute now b).

Lemma js_eqb_eq (s t : jsstring) : js_eqb s t = true <-> s = t.
Proof.
  revert t. induction s as [|c s IH]; intros [|d t]; cbn [js_eqb];
    try (split; [discriminate|discriminate]); [now split|].
  rewrite andb_true_iff, N.eqb_eq, IH. split.
  - now intros [-> ->].
  - now intros [= -> ->].
Qed.

(** What the handler does with a request that passes the validation,
    once the message is encrypted. *)
Lemma secureInquiry_accepted (req : request) (ctx : context) (w : world)
    (user message encrypted : jsstring) :
  accepted req = Some (user, message) ->
  encrypt gcm_seal env (random_iv ctx) message = Ok encrypted ->
  let b1 := snd (CircuitBreaker.canExecute (now ctx) (breaker w)) in
  let redacted := Sanitizer.sanitizeMessage message in
  let record aiResult phase :=
    auditRecord (uuid ctx) user (created_at ctx) encrypted redacted
                aiResult phase in
  let append r := appendAuditRecord stringify_indented r (audit w) in
  secureInquiry gcm_seal stringify_indented env req ctx w
  = if admitted (now ctx) (breaker w) then
      if forced req then
        let b2 := CircuitBreaker.recordFailure (later ctx) b1 in
        (Reply 503 (Payload user redacted (js "AI Service Unavailable")
                            (CircuitBreaker.getState b2)),
         World b2 (append (record (js "Error: AI call failed")
                                  (CircuitBreaker.state b2))))
      else
        let b2 := CircuitBreaker.recordSuccess b1 in
        (Reply 200 (Payload user redacted (js "Generated Answer.")
                            (CircuitBreaker.getState b2)),
         World b2 (append (record (js "Generated Answer.")
                                  (CircuitBreaker.state b2))))
    else
      (Reply 200 (Payload user redacted (js "Service Busy")
                          (CircuitBreaker.getState b1)),
       World b1 (append (record (js "Service Busy")
                                (CircuitBreaker.state b1)))).
Proof.
  unfold accepted, admitted, forced. intros Hacc Henc.
  destruct (valid_field (body_field (body req) "userId")) as [u|] eqn:Hu;
    [|discriminate].
  destruct (valid_field (body_field (body req) "message")) as [m|] eqn:Hm;
    [|discriminate].
  injection Hacc as -> ->. cbv zeta. unfold secureInquiry.
  rewrite Hu, Hm.
  destruct (CircuitBreaker.canExecute (now ctx) (breaker w)) as [can b1].
  rewrite Henc. cbn [fst snd]. destruct can; cbn [negb]; [|reflexivity].
  destruct (match x_mock_ai_fail req with
            | Some v => js_eqb v (js "true")
            | None => false
            end); reflexivity.
Qed.

Lemma admitted_iff (now : Z) (b : CircuitBreaker.t) :
  admitted now b = false
  <-> CircuitBreaker.state b = CircuitBreaker.OPEN
      /\ (now < CircuitBreaker.nextAttempt b)%Z.
Proof.
  unfold admitted, CircuitBreaker.canExecute.
  destruct (CircuitBreaker.state b); cbn [fst];
    try (split; [discriminate|intros [? _]; discriminate]).
  destruct (Z.leb_spec (CircuitBreaker.nextAttempt b) now); cbn [fst];
    (split; [intros; first [discriminate|split; [reflexivity|lia]]
            |intros [_ ?]; first [reflexivity|lia]]).
Qed.

Lemma admitted_state (now : Z) (b : CircuitBreaker.t) :
  admitted now b = true ->
  CircuitBreaker.state (snd (CircuitBreaker.canExecute now b))
  <> CircuitBreaker.OPEN.
Proof.
  unfold admitted, CircuitBreaker.canExecute.
  destruct (CircuitBreaker.state b) eqn:Hs; cbn [fst snd];
    try (rewrite Hs; discriminate).
  destruct (CircuitBreaker.nextAttempt b <=? now)%Z; cbn [fst snd];
    discriminate.
Qed.

Lemma valid_key_encrypts (iv : bytes) (text : jsstring) :
  valid_key env = true ->
  exists encrypted, encrypt gcm_seal env iv text = Ok encrypted.
Proof.
  intros H. destruct (valid_key_accepted env H) as (key & Hkey & Hlen).
  eexists. exact (encrypt_envelope gcm_seal env key iv text Hkey Hlen).
Qed.

(** X9.  The status and the answer of a request that passes the
    validation, the configured key being 64 hexadecimal digits.  The
    status is 503 exactly when the breaker admits the request and the header
    [x-mock-ai-fail] is the text [true], and 200 otherwise; the answer is
    [Service Busy] exactly when the breaker is OPEN and its next attempt is
    not yet due, [Generated Answer.] exactly when the request is admitted and
    not forced to fail, and [AI Service Unavailable] with status 503.  The
    [userId] is returned as it was sent, the message as [sanitizeMessage]
    returns it, and the breaker as it is after the request. *)
Theorem status_and_answer_of_a_valid_request (req : request) (ctx : context)
    (w : world) (user message : jsstring) :
  accepted req = Some (user, message) ->
  valid_key env = true ->
  exists (status : nat) (p : payload) (w' : world),
    secureInquiry gcm_seal stringify_indented env req ctx w
    = (Reply status p, w')
    /\ userId p = user
    /\ redactedMessage p = Sanitizer.sanitizeMessage message
    /\ circuitBreaker p = CircuitBreaker.getState (breaker w')
    /\ (status = 503%nat
        <-> admitted (now ctx) (breaker w) = true /\ forced req = true)
    /\ (status = 200%nat
        <-> ~ (admitted (now ctx) (breaker w) = true /\ forced req = true))
    /\ (answer p = js "Service Busy"
        <-> CircuitBreaker.state (breaker w) = CircuitBreaker.OPEN
            /\ (now ctx < CircuitBreaker.nextAttempt (breaker w))%Z)
    /\ (answer p = js "Generated Answer."
        <-> admitted (now ctx) (breaker w) = true /\ forced req = false)
    /\ (answer p = js "AI Service Unavailable" <-> status = 503%nat).
Proof.
  intros Hacc Hkey.
  destruct (valid_key_encrypts (random_iv ctx) message Hkey)
    as [encrypted Henc].
  rewrite (secureInquiry_accepted req ctx w user message encrypted
             Hacc Henc).
  cbv zeta.
  pose proof (admitted_iff (now ctx) (breaker w)) as Hden.
  destruct (admitted (now ctx) (breaker w)) eqn:Ha;
    [destruct (forced req) eqn:Hf|];
    do 3 eexists; (split; [reflexivity|]); cbn [userId redactedMessage
      circuitBreaker answer breaker];
    (split; [reflexivity|]); (split; [reflexivity|]);
    (split; [reflexivity|]);
    repeat split; unfold not; intros;
    try reflexivity; try easy;
    try (match goal with H : _ /\ _ |- _ => destruct H; easy end);
    try (exfalso;
         match goal with H : _ -> False |- _ => apply H; now split end);
    try (match goal with
         | H : CircuitBreaker.state _ = _ /\ _ |- _ =>
             apply Hden in H; discriminate H
         end);
    try (now apply Hden).
Qed.

(** X10.  The response and the audit record of a request agree, and
    neither ever tells HALF_OPEN.  For a request that passes the validation,
    with a key of 64 hexadecimal digits and a usable store: the record that
    is appended carries the phase of the breaker that the response carries,
    which is the phase the breaker is left in and is CLOSED or OPEN; its
    [aiResult] is [Service Busy] and [Generated Answer.] with these answers,
    and [Error: AI call failed] with status 503. *)
Theorem response_and_record_agree (req : request) (ctx : context)
    (w : world) (user message : jsstring) :
  accepted req = Some (user, message) ->
  valid_key env = true ->
  usable (audit w) ->
  exists (status : nat) (p : payload) (b : CircuitBreaker.t)
         (encrypted aiResult : jsstring) (phase : CircuitBreaker.STATE),
    secureInquiry gcm_seal stringify_indented env req ctx w
    = (Reply status p,
       World b
         (Store
            (Ok (stringify_indented
                   (JArray
                      (records_before (audit w)
                       ++ [auditRecord (uuid ctx) user (created_at ctx)
                             encrypted (Sanitizer.sanitizeMessage message)
                             aiResult phase]))))
            None (console_error (audit w))))
    /\ encrypt gcm_seal env (random_iv ctx) message = Ok encrypted
    /\ userId p = user
    /\ redactedMessage p = Sanitizer.sanitizeMessage message
    /\ circuitBreaker p = (phase, CircuitBreaker.failCount b)
    /\ CircuitBreaker.state b = phase
    /\ phase <> CircuitBreaker.HALF_OPEN
    /\ (if Nat.eqb status 503
        then aiResult = js "Error: AI call failed"
        else aiResult = answer p).
Proof.
  intros Hacc Hkey Hstore.
  destruct (valid_key_encrypts (random_iv ctx) message Hkey)
    as [encrypted Henc].
  rewrite (secureInquiry_accepted req ctx w user message encrypted
             Hacc Henc).
  cbv zeta.
  destruct (admitted (now ctx) (breaker w)) eqn:Ha.
  - pose proof (admitted_state _ _ Ha) as Hb1.
    destruct (CircuitBreaker.canExecute (now ctx) (breaker w)) as [can b1].
    cbn [snd] in *. destruct (forced req).
    + rewrite (append_usable stringify_indented _ (audit w) Hstore).
      do 6 eexists. split; [reflexivity|]. split; [exact Henc|].
      cbn [userId circuitBreaker redactedMessage]. unfold CircuitBreaker.getState.
      repeat split.
      unfold CircuitBreaker.recordFailure.
      destruct (CircuitBreaker.state b1) eqn:Hs; try congruence;
        cbn [CircuitBreaker.state]; try discriminate.
      destruct (_ <=? _)%Z; cbn [CircuitBreaker.state]; discriminate.
    + rewrite (append_usable stringify_indented _ (audit w) Hstore).
      do 6 eexists. split; [reflexivity|]. split; [exact Henc|].
      cbn [userId circuitBreaker redactedMessage]. repeat split. discriminate.
  - apply admitted_iff in Ha as [Hopen Hearly].
    assert (Hb1 : snd (CircuitBreaker.canExecute (now ctx) (breaker w))
                  = breaker w).
    { unfold CircuitBreaker.canExecute. rewrite Hopen.
      destruct (Z.leb_spec (CircuitBreaker.nextAttempt (breaker w))
                           (now ctx)); [lia|reflexivity]. }
    rewrite Hb1.
    rewrite (append_usable stringify_indented _ (audit w) Hstore).
    do 6 eexists. split; [reflexivity|]. split; [exact Henc|].
    cbn [userId circuitBreaker redactedMessage]. unfold CircuitBreaker.getState.
    repeat split. rewrite Hopen. discriminate.
Qed.

Lemma forced_request (req : request) (ctx : context) (b : CircuitBreaker.t)
    (store : AuditLog.store) (user message : jsstring) :
  valid_key env = true ->
  accepted req = Some (user, message) ->
  forced req = true ->
  admitted (now ctx) b = true ->
  let b2 := CircuitBreaker.recordFailure (later ctx)
              (snd (CircuitBreaker.canExecute (now ctx) b)) in
  exists store' : AuditLog.store,
    secureInquiry gcm_seal stringify_indented env req ctx (World b store)
    = (Reply 503 (Payload user (Sanitizer.sanitizeMessage message)
                          (js "AI Service Unavailable")
                          (CircuitBreaker.getState b2)),
       World b2 store').
Proof.
  intros Hkey Hacc Hf Ha. cbv zeta.
  destruct (valid_key_encrypts (random_iv ctx) message Hkey)
    as [encrypted Henc].
  rewrite (secureInquiry_accepted req ctx _ user message encrypted
             Hacc Henc).
  cbv zeta. cbn [breaker]. rewrite Ha, Hf. eexists. reflexivity.
Qed.

Lemma refused_request (req : request) (ctx : context) (b : CircuitBreaker.t)
    (store : AuditLog.store) (user message : jsstring) :
  valid_key env = true ->
  accepted req = Some (user, message) ->
  CircuitBreaker.state b = CircuitBreaker.OPEN ->
  (now ctx < CircuitBreaker.nextAttempt b)%Z ->
  exists store' : AuditLog.store,
    secureInquiry gcm_seal stringify_indented env req ctx (World b store)
    = (Reply 200 (Payload user (Sanitizer.sanitizeMessage message)
                          (js "Service Busy")
                          (CircuitBreaker.OPEN, CircuitBreaker.failCount b)),
       World b store').
Proof.
  intros Hkey Hacc Hopen Hearly.
  destruct (valid_key_encrypts (random_iv ctx) message Hkey)
    as [encrypted Henc].
  rewrite (secureInquiry_accepted req ctx _ user message encrypted
             Hacc Henc).
  cbv zeta. cbn [breaker].
  rewrite (proj2 (admitted_iff (now ctx) b) (conj Hopen Hearly)).
  unfold CircuitBreaker.canExecute. rewrite Hopen.
  destruct (Z.leb_spec (CircuitBreaker.nextAttempt b) (now ctx)); [lia|].
  cbn [snd]. unfold CircuitBreaker.getState. rewrite Hopen.
  eexists. reflexivity.
Qed.

(** ** Requests served one after the other *)

Fixpoint serve (requests : list (request * context)) (w : world)
    : list response * world :=
  match requests with
  | [] => ([], w)
  | (req, ctx) :: rest =>
      let (r, w1) := secureInquiry gcm_seal stringify_indented env req ctx w in
      let (rs, w2) := serve rest w1 in
      (r :: rs, w2)
  end.

(** X11.  Three failures in a row open the breaker for the clients.  With
    the breaker CLOSED and its counter at 0, three requests that pass the
    validation and carry the header that forces the failure are answered
    503, the third response telling OPEN with the counter at 3; a fourth
    request that comes before 30 seconds have passed since the third failure
    is answered 200 with [Service Busy], whatever its header, and leaves the
    breaker as it was. *)
Theorem three_forced_failures_then_service_busy
    (r1 r2 r3 r4 : request) (c1 c2 c3 c4 : context) (w : world)
    (u1 m1 u2 m2 u3 m3 u4 m4 : jsstring) (reopen : Z) :
  valid_key env = true ->
  accepted r1 = Some (u1, m1) -> accepted r2 = Some (u2, m2) ->
  accepted r3 = Some (u3, m3) -> accepted r4 = Some (u4, m4) ->
  forced r1 = true -> forced r2 = true -> forced r3 = true ->
  breaker w = CircuitBreaker.mk CircuitBreaker.CLOSED 0 reopen ->
  (now c4 < later c3 + 30000)%Z ->
  let unavailable := js "AI Service Unavailable" in
  let redacted := Sanitizer.sanitizeMessage in
  exists w' : world,
    serve [(r1, c1); (r2, c2); (r3, c3); (r4, c4)] w
    = ([Reply 503 (Payload u1 (redacted m1) unavailable
                           (CircuitBreaker.CLOSED, 1%Z));
        Reply 503 (Payload u2 (redacted m2) unavailable
                           (CircuitBreaker.CLOSED, 2%Z));
        Reply 503 (Payload u3 (redacted m3) unavailable
                           (CircuitBreaker.OPEN, 3%Z));
        Reply 200 (Payload u4 (redacted m4) (js "Service Busy")
                           (CircuitBreaker.OPEN, 3%Z))],
       w')
    /\ breaker w'
       = CircuitBreaker.mk CircuitBreaker.OPEN 3 (later c3 + 30000).
Proof.
  intros Hkey A1 A2 A3 A4 F1 F2 F3 Hb Hearly. cbv zeta.
  destruct (valid_key_encrypts (random_iv c1) m1 Hkey) as [e1 E1].
  destruct (valid_key_encrypts (random_iv c2) m2 Hkey) as [e2 E2].
  destruct (valid_key_encrypts (random_iv c3) m3 Hkey) as [e3 E3].
  destruct (valid_key_encrypts (random_iv c4) m4 Hkey) as [e4 E4].
  destruct w as [b store]. cbn [breaker] in Hb. subst b.
  set (b0 := CircuitBreaker.mk CircuitBreaker.CLOSED 0 reopen).
  set (b1 := CircuitBreaker.mk CircuitBreaker.CLOSED 1 reopen).
  set (b2 := CircuitBreaker.mk CircuitBreaker.CLOSED 2 reopen).
  set (b3 := CircuitBreaker.mk CircuitBreaker.OPEN 3 (later c3 + 30000)).
  destruct (forced_request r1 c1 b0 store u1 m1 Hkey A1 F1 eq_refl)
    as [s1 H1].
  destruct (forced_request r2 c2 b1 s1 u2 m2 Hkey A2 F2 eq_refl)
    as [s2 H2].
  destruct (forced_request r3 c3 b2 s2 u3 m3 Hkey A3 F3 eq_refl)
    as [s3 H3].
  destruct (refused_request r4 c4 b3 s3 u4 m4 Hkey A4 eq_refl Hearly)
    as [s4 H4].
  cbv zeta in H1, H2, H3.
  change (CircuitBreaker.recordFailure (later c1)
            (snd (CircuitBreaker.canExecute (now c1) b0))) with b1 in H1.
  change (CircuitBreaker.recordFailure (later c2)
            (snd (CircuitBreaker.canExecute (now c2) b1))) with b2 in H2.
  change (CircuitBreaker.recordFailure (later c3)
            (snd (CircuitBreaker.canExecute (now c3) b2))) with b3 in H3.
  exists (World b3 s4). cbn [serve]. rewrite H1, H2, H3, H4.
  split; reflexivity.
Qed.

(** X12.  The request that comes after the cool-down decides.  With the
    breaker OPEN and its next attempt due, a request that passes the
    validation is let through to the downstream call.  When the call
    succeeds the answer has status 200 and tells CLOSED with the counter at
    0.  When it is forced to fail the answer has status 503 and tells OPEN
    with the counter as it was, and the breaker refuses again until 30
    seconds after this failure. *)
Theorem request_after_the_cooldown_decides (req : request) (ctx : context)
    (w : world) (user message : jsstring) :
  valid_key env = true ->
  accepted req = Some (user, message) ->
  CircuitBreaker.state (breaker w) = CircuitBreaker.OPEN ->
  (CircuitBreaker.nextAttempt (breaker w) <= now ctx)%Z ->
  let b := breaker w in
  let redacted := Sanitizer.sanitizeMessage message in
  exists w' : world,
    secureInquiry gcm_seal stringify_indented env req ctx w
    = (if forced req
       then Reply 503 (Payload user redacted (js "AI Service Unavailable")
                         (CircuitBreaker.OPEN, CircuitBreaker.failCount b))
       else Reply 200 (Payload user redacted (js "Generated Answer.")
                         (CircuitBreaker.CLOSED, 0%Z)),
       w')
    /\ breaker w'
       = (if forced req
          then CircuitBreaker.mk CircuitBreaker.OPEN
                 (CircuitBreaker.failCount b) (later ctx + 30000)
          else CircuitBreaker.mk CircuitBreaker.CLOSED 0
                 (CircuitBreaker.nextAttempt b)).
Proof.
  intros Hkey Hacc Hopen Hdue. cbv zeta.
  destruct (valid_key_encrypts (random_iv ctx) message Hkey)
    as [encrypted Henc].
  rewrite (secureInquiry_accepted req ctx w user message encrypted
             Hacc Henc).
  cbv zeta. unfold admitted, CircuitBreaker.canExecute. rewrite Hopen.
  destruct (Z.leb_spec (CircuitBreaker.nextAttempt (breaker w)) (now ctx))
    as [_|?]; [|lia].
  cbn [fst snd]. destruct (forced req); eexists; split; reflexivity.
Qed.

(** X13.  A key that the start-up check lets pass, of whose 64 characters
    one is not read as a hexadecimal digit ([Buffer.from] reads a character
    by its low byte).  Every request that passes the validation then ends
    in the error handler: the client gets status 500 with the fixed text,
    whatever the error, and the error goes to [console.error]; nothing is
    written to the audit log and no result is recorded on the breaker, which
    is left as [canExecute] left it. *)
Theorem unusable_key_fails_every_valid_request (req : request)
    (ctx : context) (w : world) (user message : jsstring) :
  valid_key env = false ->
  start env = Listening ->
  accepted req = Some (user, message) ->
  let e := RangeError "Invalid key length" in
  secureInquiry gcm_seal stringify_indented env req ctx w
  = (Next e,
     World (snd (CircuitBreaker.canExecute (now ctx) (breaker w))) (audit w))
  /\ respond (Next e)
     = (Some ("Unhandled Error:", e),
        Http 500 (ErrorBody "Internal Server Error")).
Proof.
  intros Hkey Hstart Hacc. cbv zeta. split; [|reflexivity].
  assert (Henc : encrypt gcm_seal env (random_iv ctx) message
                 = Throw (RangeError "Invalid key length")).
  { unfold start, getEncryptionKey, js_length in Hstart.
    destruct env as [[|c keyHex]|]; try discriminate.
    destruct (Nat.eqb (length (c :: keyHex)) 64) eqn:Hlen;
      [|discriminate].
    cbn [valid_key] in Hkey. rewrite Hlen in Hkey. cbn [andb] in Hkey.
    apply KeyFacts.encrypt_not_hex; [now apply Nat.eqb_eq|exact Hkey]. }
  unfold accepted in Hacc. unfold secureInquiry.
  destruct (valid_field (body_field (body req) "userId")) as [u|];
    [|discriminate].
  destruct (valid_field (body_field (body req) "message")) as [m|];
    [|discriminate].
  injection Hacc as -> ->.
  destruct (CircuitBreaker.canExecute (now ctx) (breaker w)) as [can b1].
  rewrite Henc. now destruct can.
Qed.

End Runs.

(** ** On the sample runtime *)

Import Sample RouteChecks.

Lemma sample_store_usable : usable (audit sample_world).
Proof.
  split; [reflexivity|]. exists (js "[]"). split; [reflexivity|].
  right. now exists [].
Qed.

(** The sample breaker is OPEN until time 5000 and the request comes at
    time 1000. *)
Lemma status_and_answer_of_a_valid_request_witness :
  let req := sample_request (js "hello") (Some (js "true")) in
  accepted req = Some (js "u-17", js "hello")
  /\ valid_key sample_key = true
  /\ exists (status : nat) (p : payload) (w' : world),
       secureInquiry sample_seal sample_stringify sample_key req
                     sample_context sample_world
       = (Reply status p, w')
       /\ userId p = js "u-17"
       /\ redactedMessage p = Sanitizer.sanitizeMessage (js "hello")
       /\ circuitBreaker p = CircuitBreaker.getState (breaker w')
       /\ (status = 503%nat
           <-> admitted (now sample_context) (breaker sample_world) = true
               /\ forced req = true)
       /\ (status = 200%nat
           <-> ~ (admitted (now sample_context) (breaker sample_world) = true
                  /\ forced req = true))
       /\ (answer p = js "Service Busy"
           <-> CircuitBreaker.state (breaker sample_world)
               = CircuitBreaker.OPEN
               /\ (now sample_context
                   < CircuitBreaker.nextAttempt (breaker sample_world))%Z)
       /\ (answer p = js "Generated Answer."
           <-> admitted (now sample_context) (breaker sample_world) = true
               /\ forced req = false)
       /\ (answer p = js "AI Service Unavailable" <-> status = 503%nat).
Proof.
  intros req. split; [reflexivity|]. split; [reflexivity|].
  exact (status_and_answer_of_a_valid_request sample_seal sample_stringify
           sample_key req sample_context sample_world (js "u-17")
           (js "hello") eq_refl eq_refl).
Defined.

Lemma response_and_record_agree_witness :
  let req := sample_request (js "hello") (Some (js "true")) in
  accepted req = Some (js "u-17", js "hello")
  /\ valid_key sample_key = true
  /\ usable (audit sample_world)
  /\ exists (status : nat) (p : payload) (b : CircuitBreaker.t)
            (encrypted aiResult : jsstring) (phase : CircuitBreaker.STATE),
       secureInquiry sample_seal sample_stringify sample_key req
                     sample_context sample_world
       = (Reply status p,
          World b
            (Store
               (Ok (sample_stringify
                      (JArray
                         (records_before (audit sample_world)
                          ++ [auditRecord (uuid sample_context) (js "u-17")
                                (created_at sample_context) encrypted
                                (Sanitizer.sanitizeMessage (js "hello"))
                                aiResult phase]))))
               None (console_error (audit sample_world))))
       /\ encrypt sample_seal sample_key (random_iv sample_context)
            (js "hello") = Ok encrypted
       /\ userId p = js "u-17"
       /\ redactedMessage p = Sanitizer.sanitizeMessage (js "hello")
       /\ circuitBreaker p = (phase, CircuitBreaker.failCount b)
       /\ CircuitBreaker.state b = phase
       /\ phase <> CircuitBreaker.HALF_OPEN
       /\ (if Nat.eqb status 503
           then aiResult = js "Error: AI call failed"
           else aiResult = answer p).
Proof.
  intros req. split; [reflexivity|]. split; [reflexivity|].
  split; [exact sample_store_usable|].
  exact (response_and_record_agree sample_seal sample_stringify sample_key
           req sample_context sample_world (js "u-17") (js "hello")
           eq_refl eq_refl sample_store_usable).
Defined.

(** Four requests that ask for the failure, each at time 1000 with its
    failure recorded at time 3000, on a new breaker. *)
Lemma three_forced_failures_then_service_busy_witness :
  let req := sample_request (js "hello") (Some (js "true")) in
  let ctx := sample_context in
  let w := World (CircuitBreaker.init 0) (Store (Ok (js "[]")) None []) in
  let unavailable := js "AI Service Unavailable" in
  let redacted := Sanitizer.sanitizeMessage (js "hello") in
  valid_key sample_key = true
  /\ accepted req = Some (js "u-17", js "hello")
  /\ forced req = true
  /\ breaker w = CircuitBreaker.mk CircuitBreaker.CLOSED 0 0
  /\ (now ctx < later ctx + 30000)%Z
  /\ exists w' : world,
       serve sample_seal sample_stringify sample_key
             [(req, ctx); (req, ctx); (req, ctx); (req, ctx)] w
       = ([Reply 503 (Payload (js "u-17") redacted unavailable
                              (CircuitBreaker.CLOSED, 1%Z));
           Reply 503 (Payload (js "u-17") redacted unavailable
                              (CircuitBreaker.CLOSED, 2%Z));
           Reply 503 (Payload (js "u-17") redacted unavailable
                              (CircuitBreaker.OPEN, 3%Z));
           Reply 200 (Payload (js "u-17") redacted (js "Service Busy")
                              (CircuitBreaker.OPEN, 3%Z))],
          w')
       /\ breaker w'
          = CircuitBreaker.mk CircuitBreaker.OPEN 3 (later ctx + 30000).
Proof.
  intros req ctx w unavailable redacted.
  split; [reflexivity|]. split; [reflexivity|]. split; [reflexivity|].
  split; [reflexivity|]. split; [reflexivity|].
  exact (three_forced_failures_then_service_busy sample_seal
           sample_stringify sample_key req req req req ctx ctx ctx ctx w
           (js "u-17") (js "hello") (js "u-17") (js "hello")
           (js "u-17") (js "hello") (js "u-17") (js "hello") 0%Z
           eq_refl eq_refl eq_refl eq_refl eq_refl eq_refl eq_refl eq_refl
           eq_refl eq_refl).
Defined.

(** A breaker that is OPEN until time 500, a request at time 1000 whose
    failure is recorded at time 3000. *)
Lemma request_after_the_cooldown_decides_witness :
  let req := sample_request (js "hello") (Some (js "true")) in
  let w := World (CircuitBreaker.mk CircuitBreaker.OPEN 3 500)
                 (Store (Ok (js "[]")) None []) in
  valid_key sample_key = true
  /\ accepted req = Some (js "u-17", js "hello")
  /\ CircuitBreaker.state (breaker w) = CircuitBreaker.OPEN
  /\ (CircuitBreaker.nextAttempt (breaker w) <= now sample_context)%Z
  /\ exists w' : world,
       secureInquiry sample_seal sample_stringify sample_key req
                     sample_context w
       = (Reply 503 (Payload (js "u-17")
                       (Sanitizer.sanitizeMessage (js "hello"))
                       (js "AI Service Unavailable")
                       (CircuitBreaker.OPEN, 3%Z)),
          w')
       /\ breaker w' = CircuitBreaker.mk CircuitBreaker.OPEN 3 33000.
Proof.
  intros req w.
  assert (Hdue : (CircuitBreaker.nextAttempt (breaker w)
                  <= now sample_context)%Z) by (cbn; lia).
  split; [reflexivity|]. split; [reflexivity|]. split; [reflexivity|].
  split; [exact Hdue|].
  exact (request_after_the_cooldown_decides sample_seal sample_stringify
           sample_key req sample_context w (js "u-17") (js "hello")
           eq_refl eq_refl eq_refl Hdue).
Defined.

(** The key of 64 letters z. *)
Lemma unusable_key_fails_every_valid_request_witness :
  let env := Some (repeat (code "z") 64) in
  let req := sample_request (js "hello") None in
  let e := RangeError "Invalid key length" in
  valid_key env = false
  /\ start env = Listening
  /\ accepted req = Some (js "u-17", js "hello")
  /\ secureInquiry sample_seal sample_stringify env req sample_context
                   sample_world
     = (Next e,
        World (snd (CircuitBreaker.canExecute (now sample_context)
                      (breaker sample_world)))
              (audit sample_world))
  /\ respond (Next e)
     = (Some ("Unhandled Error:", e),
        Http 500 (ErrorBody "Internal Server Error")).
Proof.
  intros env req e.
  split; [reflexivity|]. split; [reflexivity|]. split; [reflexivity|].
  exact (unusable_key_fails_every_valid_request sample_seal
           sample_stringify env req sample_context sample_world
           (js "u-17") (js "hello") eq_refl eq_refl eq_refl).
Defined.

End RouteRuns.

(* ================================================================== *)
(** * The audit file after the requests *)
(* ================================================================== *)

Module AuditTrail.

Import Regex Encoding JSON EncodingFacts Crypto CryptoFacts AuditLog
       AuditLogFacts Route RouteFacts Server AuditFile JSONFacts RouteRuns.
Local Open Scope string_scope.

(** The properties of an audit record, in the order in which the route
    writes them. *)
Definition record_fields (id userId createdAt originalMessageEncrypted
    redactedMessage aiResult : jsstring) (circuitState : CircuitBreaker.STATE)
    : list (jsstring * jsstring) :=
  [(js "id", id);
   (js "userId", userId);
   (js "createdAt", createdAt);
   (js "originalMessageEncrypted", originalMessageEncrypted);
   (js "redactedMessage", redactedMessage);
   (js "aiResult", aiResult);
   (js "circuitState", state_name circuitState)].

(** The audit file after the module [auditLog.js] is loaded: the file it
    found, or the text of [JSON.stringify([])] that it writes when it finds
    none. *)
Definition loaded (found : option jsstring) : jsstring :=
  match found with
  | Some text => text
  | None => js "[]"
  end.

(** The records of the shape that the route writes. *)
Definition audit_fields (fields : list (jsstring * jsstring)) : Prop :=
  exists (id userId createdAt originalMessageEncrypted redactedMessage
          aiResult : jsstring) (circuitState : CircuitBreaker.STATE),
    fields = record_fields id userId createdAt originalMessageEncrypted
               redactedMessage aiResult circuitState.

(** The record that a request leaves. *)
Definition left_by (gcm_seal : bytes -> bytes -> bytes -> bytes * bytes)
    (env : option jsstring) (rc : request * context)
    (fields : list (jsstring * jsstring)) : Prop :=
  exists (user message encrypted aiResult : jsstring)
         (phase : CircuitBreaker.STATE),
    accepted (fst rc) = Some (user, message)
    /\ encrypt gcm_seal env (random_iv (snd rc)) message = Ok encrypted
    /\ fields
       = record_fields (uuid (snd rc)) user (created_at (snd rc)) encrypted
           (Sanitizer.sanitizeMessage message) aiResult phase.

Section Trail.

Variable gcm_seal : bytes -> bytes -> bytes -> bytes * bytes.
Variable stringify_indented : json -> jsstring.
Variable env : option jsstring.

(** The serializer on the arrays that the audit log holds. *)
Hypothesis writes_records :
  forall rs,
    Forall audit_fields rs ->
    stringify_indented (records_json rs) = stringify_records rs.

Lemma append_record (rs : list (list (jsstring * jsstring)))
    (fields : list (jsstring * jsstring)) :
  Forall audit_fields rs -> audit_fields fields ->
  appendAuditRecord stringify_indented (record_json fields)
    (Store (Ok (stringify_records rs)) None [])
  = Store (Ok (stringify_records (rs ++ [fields]))) None [].
Proof.
  intros Hrs Hfields.
  unfold appendAuditRecord, try_append. cbn [audit_file bind write_fault].
  rewrite parse_stringify_records. unfold records_json.
  change (JArray (map record_json rs ++ [record_json fields]))
    with (JArray (map record_json rs ++ map record_json [fields])).
  rewrite <- map_app. fold (records_json (rs ++ [fields])).
  rewrite writes_records; [reflexivity|].
  apply Forall_app. split; [exact Hrs|now constructor].
Qed.

Lemma serve_trail (requests : list (request * context)) :
  valid_key env = true ->
  forall (b : CircuitBreaker.t) (earlier : list (list (jsstring * jsstring))),
    Forall audit_fields earlier ->
    Forall (fun rc => accepted (fst rc) <> None) requests ->
    exists (added : list (list (jsstring * jsstring))),
      audit (snd (serve gcm_seal stringify_indented env requests
                        (World b (Store (Ok (stringify_records earlier))
                                        None []))))
      = Store (Ok (stringify_records (earlier ++ added))) None []
      /\ Forall2 (left_by gcm_seal env) requests added.
Proof.
  intros Hkey. induction requests as [|[req ctx] requests IH];
    intros b earlier Hearlier Hacc.
  - exists []. cbn [serve snd audit]. rewrite app_nil_r. now split.
  - inversion Hacc as [|? ? Ha Hrest]; subst. cbn [fst] in Ha.
    destruct (accepted req) as [[user message]|] eqn:Hreq; [|congruence].
    destruct (valid_key_encrypts gcm_seal env (random_iv ctx) message Hkey)
      as [encrypted Henc].
    cbn [serve].
    rewrite (secureInquiry_accepted gcm_seal stringify_indented env req ctx
               _ user message encrypted Hreq Henc).
    cbv zeta. cbn [breaker audit].
    assert (Hstep : forall aiResult phase,
      appendAuditRecord stringify_indented
        (auditRecord (uuid ctx) user (created_at ctx) encrypted
           (Sanitizer.sanitizeMessage message) aiResult phase)
        (Store (Ok (stringify_records earlier)) None [])
      = Store (Ok (stringify_records
                     (earlier ++ [record_fields (uuid ctx) user
                        (created_at ctx) encrypted
                        (Sanitizer.sanitizeMessage message) aiResult
                        phase]))) None []).
    { intros aiResult phase.
      apply (append_record earlier
               (record_fields (uuid ctx) user (created_at ctx) encrypted
                  (Sanitizer.sanitizeMessage message) aiResult phase));
        [exact Hearlier|].
      now exists (uuid ctx), user, (created_at ctx), encrypted,
        (Sanitizer.sanitizeMessage message), aiResult, phase. }
    assert (Hnext : forall aiResult phase,
      Forall audit_fields
        (earlier ++ [record_fields (uuid ctx) user (created_at ctx)
                       encrypted (Sanitizer.sanitizeMessage message)
                       aiResult phase])).
    { intros aiResult phase. apply Forall_app. split; [exact Hearlier|].
      constructor; [|constructor].
      now exists (uuid ctx), user, (created_at ctx), encrypted,
        (Sanitizer.sanitizeMessage message), aiResult, phase. }
    assert (Hleft : forall aiResult phase,
      left_by gcm_seal env (req, ctx)
        (record_fields (uuid ctx) user (created_at ctx) encrypted
           (Sanitizer.sanitizeMessage message) aiResult phase)).
    { intros aiResult phase. exists user, message, encrypted, aiResult, phase.
      now repeat split. }
    destruct (admitted (now ctx) b); [destruct (forced req)|];
      rewrite Hstep;
      match goal with
      | |- context [serve _ _ _ requests (World ?b' (Store (Ok (stringify_records ?rs)) None []))] =>
          destruct (IH b' rs (Hnext _ _) Hrest) as (added & Hfile & Hall);
          destruct (serve gcm_seal stringify_indented env requests
                      (World b' (Store (Ok (stringify_records rs)) None [])))
            as [responses w'] eqn:Hserve
      end;
      cbn [snd] in Hfile |- *; rewrite Hfile, <- app_assoc; cbn [app];
      eexists; (split; [reflexivity|]);
      (constructor; [apply Hleft|exact Hall]).
Qed.

(** X14.  The audit file holds one record for each request, in the order
    of the requests.  Let the file be the one the module wrote when it was
    loaded and found none, or one that holds audit records of earlier
    requests; let the requests pass the validation, the key be 64
    hexadecimal digits, and the serializer write arrays of audit records as
    [JSON.stringify(data, null, 2)] does.  After the requests are served
    one after the other the file is the text of the array of the earlier
    records followed by one record for each request, [JSON.parse] reads
    that array back from it, and the record of a request carries its
    [userId], the message as [sanitizeMessage] returns it and the envelope
    of the message.  Nothing is written to [console.error]. *)
Theorem audit_file_holds_one_record_per_request
    (requests : list (request * context)) (b : CircuitBreaker.t)
    (found : option jsstring)
    (earlier : list (list (jsstring * jsstring))) :
  valid_key env = true ->
  Forall (fun rc => accepted (fst rc) <> None) requests ->
  Forall audit_fields earlier ->
  (found = None /\ earlier = []) \/ found = Some (stringify_records earlier)
  ->
  exists (added : list (list (jsstring * jsstring))),
    audit (snd (serve gcm_seal stringify_indented env requests
                      (World b (Store (Ok (loaded found)) None []))))
    = Store (Ok (stringify_records (earlier ++ added))) None []
    /\ parse (stringify_records (earlier ++ added))
       = Some (JArray (map record_json (earlier ++ added)))
    /\ Forall2 (left_by gcm_seal env) requests added.
Proof.
  intros Hkey Hacc Hearlier Hfound.
  assert (Hfile : loaded found = stringify_records earlier).
  { destruct Hfound as [[-> ->]| ->]; reflexivity. }
  rewrite Hfile.
  destruct (serve_trail requests Hkey b earlier Hearlier Hacc)
    as (added & H1 & H2).
  exists added. split; [exact H1|]. split; [|exact H2].
  apply parse_stringify_records.
Qed.

End Trail.

(** Two requests on the sample runtime, the audit file not yet there. *)
Lemma audit_file_holds_one_record_per_request_witness :
  let requests :=
    [(RouteChecks.sample_request (js "hello") None,
      RouteChecks.sample_context);
     (RouteChecks.sample_request (js "Mail me at test@example.com")
        (Some (js "true")),
      RouteChecks.sample_context)] in
  (forall rs,
      Forall audit_fields rs ->
      Sample.sample_stringify (records_json rs) = stringify_records rs)
  /\ valid_key Sample.sample_key = true
  /\ Forall (fun rc => accepted (fst rc) <> None) requests
  /\ exists (added : list (list (jsstring * jsstring))),
       audit (snd (serve Sample.sample_seal Sample.sample_stringify
                         Sample.sample_key requests
                         (World (CircuitBreaker.init 0)
                                (Store (Ok (loaded None)) None []))))
       = Store (Ok (stringify_records ([] ++ added))) None []
       /\ parse (stringify_records ([] ++ added))
          = Some (JArray (map record_json ([] ++ added)))
       /\ Forall2 (left_by Sample.sample_seal Sample.sample_key)
            requests added.
Proof.
  intros requests.
  assert (Hwrites : forall rs,
             Forall audit_fields rs ->
             Sample.sample_stringify (records_json rs) = stringify_records rs).
  { intros rs _. apply SampleFile.sample_stringify_records. }
  assert (Hacc : Forall (fun rc => accepted (fst rc) <> None) requests).
  { repeat constructor; discriminate. }
  split; [exact Hwrites|]. split; [reflexivity|]. split; [exact Hacc|].
  exact (audit_file_holds_one_record_per_request Sample.sample_seal
           Sample.sample_stringify Sample.sample_key Hwrites requests
           (CircuitBreaker.init 0) None [] eq_refl Hacc (Forall_nil _)
           (or_introl (conj eq_refl eq_refl))).
Defined.

End AuditTrail.

(* ================================================================== *)
(** * The global replacement *)
(* ================================================================== *)

Module ReplaceFacts.

Import Regex RegexFacts.
Local Open Scope N_scope.

(** ** The replacement, from a position on *)

(** Whether the first character of a text is a word character. *)
Definition head_word (s : jsstring) : bool :=
  match s with
  | c :: _ => is_word c
  | [] => false
  end.

(** The global replacement on the text [s] that follows a character whose
    flag is [pw]. *)
Definition replace_from (r : regex) (rep : jsstring) (pw : bool)
    (s : jsstring) : jsstring :=
  render rep (plan r pw 0 s) s.

Lemma replace_from_start (r : regex) (rep s : jsstring) :
  replace r rep s = replace_from r rep false s.
Proof. reflexivity. Qed.

Lemma consume_app (pw : bool) (p q : jsstring) :
  consume pw (p ++ q) = consume (consume pw p) q.
Proof. unfold consume. apply fold_left_app. Qed.

Lemma consume_cons (pw : bool) (c : N) (p : jsstring) :
  consume pw (c :: p) = consume (is_word c) p.
Proof. reflexivity. Qed.

Lemma consume_nonempty (pw pw' : bool) (p : jsstring) :
  p <> [] -> consume pw p = consume pw' p.
Proof. destruct p; [congruence|reflexivity]. Qed.

Lemma render_skip (r : regex) (rep : jsstring) :
  forall (n : nat) (s : jsstring) (pw : bool),
    (n <= length s)%nat ->
    render rep (plan r pw n s) s
    = render rep (plan r (consume pw (firstn n s)) 0 (skipn n s)) (skipn n s).
Proof.
  induction n as [|n IH]; intros s pw Hn; [reflexivity|].
  destruct s as [|c s]; [cbn in Hn; lia|].
  cbn [plan render firstn skipn]. rewrite consume_cons.
  apply IH. cbn in Hn. lia.
Qed.

Lemma exec_length (r : regex) (pw : bool) (s : jsstring) (n : nat) :
  exec r pw s = Some n -> (n <= length s)%nat.
Proof.
  unfold exec. destruct (rmatch r Some (MState pw s)); [|discriminate].
  intros [= <-]. lia.
Qed.

Section Equations.

Variable r : regex.
Variable rep : jsstring.

Hypothesis never_empty : forall pw s, exec r pw s <> Some 0%nat.

Lemma replace_from_nil (pw : bool) : replace_from r rep pw [] = [].
Proof.
  unfold replace_from. cbn [plan].
  destruct (exec r pw []) as [n|] eqn:E; [|reflexivity].
  pose proof (exec_length _ _ _ _ E) as Hn. cbn in Hn.
  assert (n = 0%nat) as -> by lia. now apply never_empty in E.
Qed.

Lemma replace_from_copy (pw : bool) (c : N) (s : jsstring) :
  exec r pw (c :: s) = None ->
  replace_from r rep pw (c :: s) = c :: replace_from r rep (is_word c) s.
Proof. unfold replace_from. cbn [plan]. now intros ->. Qed.

Lemma replace_from_match (pw : bool) (s : jsstring) (n : nat) :
  exec r pw s = Some n ->
  replace_from r rep pw s
  = rep ++ replace_from r rep (consume pw (firstn n s)) (skipn n s).
Proof.
  intros E. pose proof (exec_length _ _ _ _ E) as Hn.
  destruct n as [|n]; [now apply never_empty in E|].
  destruct s as [|c s]; [cbn in Hn; lia|].
  unfold replace_from. cbn [plan]. rewrite E. cbn [render firstn skipn].
  rewrite consume_cons. f_equal. apply render_skip. cbn in Hn. lia.
Qed.

End Equations.

(** ** Where a pattern has no match *)

(** The pattern matches at no position of the text [s] that follows a
    character whose flag is [pw]. *)
Definition no_match (r : regex) (pw : bool) (s : jsstring) : Prop :=
  forall p q, s = p ++ q -> exec r (consume pw p) q = None.

Fixpoint quiet (r : regex) (pw : bool) (s : jsstring) : bool :=
  match exec r pw s with
  | Some _ => false
  | None =>
      match s with
      | [] => true
      | c :: rest => quiet r (is_word c) rest
      end
  end.

Lemma quiet_no_match (r : regex) (s : jsstring) :
  forall pw, quiet r pw s = true -> no_match r pw s.
Proof.
  induction s as [|c s IH]; intros pw H p q E.
  - destruct p; [|discriminate]. cbn in E. subst q. cbn in H |- *.
    now destruct (exec r pw []).
  - cbn [quiet] in H. destruct (exec r pw (c :: s)) eqn:Ec; [discriminate|].
    destruct p as [|d p].
    + cbn in E. subst q. exact Ec.
    + injection E as <- ->. rewrite consume_cons. now apply IH.
Qed.

Lemma no_match_tail (r : regex) (pw : bool) (p q : jsstring) :
  no_match r pw (p ++ q) -> no_match r (consume pw p) q.
Proof.
  intros H p' q' ->. rewrite <- consume_app. apply H. apply app_assoc.
Qed.

Lemma no_match_unchanged (r : regex) (rep s : jsstring) :
  forall pw, no_match r pw s -> replace_from r rep pw s = s.
Proof.
  unfold replace_from. induction s as [|c s IH]; intros pw H.
  - pose proof (H [] [] eq_refl) as E. change (consume pw []) with pw in E.
    cbn [plan]. now rewrite E.
  - pose proof (H [] (c :: s) eq_refl) as E.
    change (consume pw []) with pw in E.
    cbn [plan]. rewrite E. cbn [render]. f_equal.
    apply IH. exact (no_match_tail r pw [c] s H).
Qed.

(** ** A match looks at the text it passes and at one flag on each side *)

Lemma at_boundary_flags (pw : bool) (s : jsstring) :
  at_boundary (MState pw s) = xorb pw (head_word s).
Proof. reflexivity. Qed.

Lemma head_word_app (w v v' : jsstring) :
  (w = [] -> head_word v = head_word v') ->
  head_word (w ++ v) = head_word (w ++ v').
Proof. destruct w; [intros H; now apply H|reflexivity]. Qed.

Lemma matches_local (r : regex) (x y : mstate) :
  matches r x y ->
  forall w v v' : jsstring,
    input y = w ++ v ->
    (w = [] -> head_word v = head_word v') ->
    exists p,
      input x = p ++ w ++ v
      /\ matches r (MState (before_word x) (p ++ w ++ v'))
                   (MState (before_word y) (w ++ v')).
Proof.
  induction 1 as [x|cs pw c rest Hc|x Hb|r1 r2 x y z _ IH1 _ IH2
                 |r min max x Hstop
                 |r min max x y z Hmax Hprogress _ IHr _ IHrest];
    intros w v v' Hy Hv.
  - exists []. split; [exact Hy|]. constructor.
  - cbn [input] in Hy. subst rest. exists [c]. split; [reflexivity|].
    cbn [before_word app]. now constructor.
  - exists []. split; [exact Hy|]. cbn [app]. constructor.
    destruct x as [pw s]. cbn [input before_word] in *. subst s.
    rewrite at_boundary_flags in Hb |- *.
    now rewrite <- (head_word_app w v v' Hv).
  - destruct (IH2 w v v' Hy Hv) as (p2 & E2 & M2).
    destruct (IH1 (p2 ++ w) v v') as (p1 & E1 & M1).
    + now rewrite <- app_assoc.
    + intros E. apply app_eq_nil in E as [_ ->]. now apply Hv.
    + exists (p1 ++ p2). rewrite <- !app_assoc in *.
      split; [exact E1|]. now apply M_Seq with (MState (before_word y) (p2 ++ w ++ v')).
  - exists []. split; [exact Hy|]. now apply M_Stop.
  - destruct (IHrest w v v' Hy Hv) as (p2 & E2 & M2).
    destruct (IHr (p2 ++ w) v v') as (p1 & E1 & M1).
    + now rewrite <- app_assoc.
    + intros E. apply app_eq_nil in E as [_ ->]. now apply Hv.
    + exists (p1 ++ p2). rewrite <- !app_assoc in *.
      split; [exact E1|].
      apply M_Step with (MState (before_word y) (p2 ++ w ++ v'));
        try assumption.
      intros Hmin. specialize (Hprogress Hmin). rewrite E1, E2 in Hprogress.
      cbn [input]. rewrite !length_app in *. lia.
Qed.

(** ** The characters a pattern can pass *)

Fixpoint consumable (r : regex) (c : N) : bool :=
  match r with
  | Char cs => in_charset cs c
  | Seq r1 r2 => consumable r1 c || consumable r2 c
  | Repeat r1 _ _ => consumable r1 c
  | Empty | WordBoundary => false
  end.

Lemma matches_consumed (r : regex) (x y : mstate) :
  matches r x y ->
  exists p,
    input x = p ++ input y
    /\ Forall (fun c => consumable r c = true) p
    /\ before_word y = consume (before_word x) p.
Proof.
  induction 1 as [x|cs pw c rest Hc|x Hb|r1 r2 x y z _ IH1 _ IH2
                 |r min max x Hstop
                 |r min max x y z Hmax Hprogress _ IHr _ IHrest].
  - exists []. repeat split. constructor.
  - exists [c]. repeat split. now constructor.
  - exists []. repeat split. constructor.
  - destruct IH1 as (p1 & E1 & F1 & B1), IH2 as (p2 & E2 & F2 & B2).
    exists (p1 ++ p2). rewrite E1, E2, B2, B1, consume_app, app_assoc.
    repeat split. apply Forall_app. split.
    + eapply Forall_impl; [|exact F1]. cbn. now intros c ->.
    + eapply Forall_impl; [|exact F2]. cbn. intros c ->. apply orb_true_r.
  - exists []. repeat split. constructor.
  - destruct IHr as (p1 & E1 & F1 & B1), IHrest as (p2 & E2 & F2 & B2).
    exists (p1 ++ p2). rewrite E1, E2, B2, B1, consume_app, app_assoc.
    repeat split. apply Forall_app. now split.
Qed.

(** ** Patterns between word boundaries *)

Definition LESS : N := 60.      (* < *)
Definition GREATER : N := 62.   (* > *)

(** A pattern that starts and ends with [\b], passes at least one
    character, ends behind a word character, and passes neither [<] nor
    [>]. *)
Record delimited (r : regex) : Prop := Delimited {
  starts_at_boundary :
    forall x y, matches r x y -> at_boundary x = true;
  ends_at_boundary :
    forall x y, matches r x y ->
                before_word y = true /\ at_boundary y = true;
  passes_something :
    forall x y, matches r x y -> input x <> input y;
  stops_at_less : consumable r LESS = false;
  stops_at_greater : consumable r GREATER = false
}.

Lemma exec_split (r : regex) (pw : bool) (s : jsstring) (n : nat) :
  exec r pw s = Some n ->
  exists y,
    matches r (MState pw s) y
    /\ s = firstn n s ++ input y
    /\ skipn n s = input y
    /\ length (firstn n s) = n.
Proof.
  intros E. destruct (exec_matches r pw s n E) as (y & Hy & Hn).
  destruct (matches_suffix _ _ _ Hy) as [p Hp]. cbn [input] in Hp.
  assert (Hlen : n = length p).
  { rewrite Hn, Hp, length_app. lia. }
  exists y. rewrite Hlen. clear Hlen Hn E. rewrite Hp.
  rewrite firstn_app, firstn_all, Nat.sub_diag, firstn_O, app_nil_r.
  rewrite skipn_app, skipn_all, Nat.sub_diag, skipn_O.
  cbn [app]. rewrite <- Hp. repeat split. exact Hy.
Qed.

Lemma delimited_never_empty (r : regex) :
  delimited r -> forall pw s, exec r pw s <> Some 0%nat.
Proof.
  intros Hr pw s E. destruct (exec_split r pw s 0 E) as (y & Hy & Hs & _).
  apply (passes_something r Hr) in Hy. cbn [firstn app input] in *.
  congruence.
Qed.

Lemma delimited_end (r : regex) (pw : bool) :
  delimited r -> exec r pw [] = None.
Proof.
  intros Hr. destruct (exec r pw []) as [n|] eqn:E; [|reflexivity].
  pose proof (exec_length _ _ _ _ E) as Hn. cbn in Hn.
  assert (n = 0%nat) as -> by lia. now apply delimited_never_empty in E.
Qed.

Section Residue.

Variable r r' : regex.
Variable mid : jsstring.

(** The tag: [<], some text, [>]. *)
Let tag : jsstring := LESS :: mid ++ [GREATER].

Hypothesis Hr : delimited r.
Hypothesis Hr' : delimited r'.
Hypothesis tag_quiet : forall pw, quiet r' pw tag = true.

Let never_empty := delimited_never_empty r Hr.

(** Wherever [r] has no match in [s], [r'] has none. *)
Definition spares (pw : bool) (s : jsstring) : Prop :=
  forall p q, s = p ++ q ->
              exec r (consume pw p) q = None ->
              exec r' (consume pw p) q = None.

Lemma spares_tail (pw : bool) (p q : jsstring) :
  spares pw (p ++ q) -> spares (consume pw p) q.
Proof.
  intros H p' q' -> E. rewrite <- consume_app in *.
  apply H; [apply app_assoc|exact E].
Qed.

Lemma head_word_kept (pw : bool) (s : jsstring) :
  head_word s = false -> head_word (replace_from r tag pw s) = false.
Proof.
  intros H. destruct s as [|c s]; [now rewrite (replace_from_nil r tag never_empty)|].
  destruct (exec r pw (c :: s)) as [n|] eqn:E.
  - now rewrite (replace_from_match r tag never_empty _ _ _ E).
  - now rewrite (replace_from_copy r tag _ _ _ E).
Qed.

Lemma prefix_kept (u : jsstring) :
  forall (s : jsstring) (pw : bool) (Y : jsstring),
    replace_from r tag pw s = u ++ Y ->
    Forall (fun c => c <> LESS) u ->
    exists v, s = u ++ v
              /\ (consume pw u = true -> head_word v = head_word Y).
Proof.
  induction u as [|c u IH]; intros s pw Y E Hu.
  - exists s. split; [reflexivity|]. cbn [app] in E.
    change (consume pw []) with pw. intros ->. rewrite <- E.
    destruct s as [|d s]; [now rewrite (replace_from_nil r tag never_empty)|].
    destruct (exec r true (d :: s)) as [n|] eqn:Ex.
    + rewrite (replace_from_match r tag never_empty _ _ _ Ex).
      destruct (exec_split r _ _ _ Ex) as (y & Hy & _).
      apply (starts_at_boundary r Hr) in Hy.
      rewrite at_boundary_flags in Hy. cbn [head_word] in *.
      destruct (is_word d); [discriminate|reflexivity].
    + now rewrite (replace_from_copy r tag _ _ _ Ex).
  - inversion Hu as [|? ? Hc Hu']; subst.
    destruct s as [|d s]; [now rewrite (replace_from_nil r tag never_empty) in E|].
    destruct (exec r pw (d :: s)) as [n|] eqn:Ex.
    + rewrite (replace_from_match r tag never_empty _ _ _ Ex) in E.
      injection E as E _. congruence.
    + rewrite (replace_from_copy r tag _ _ _ Ex) in E.
      injection E as <- E.
      destruct (IH s (is_word d) Y E Hu') as (v & -> & Hv).
      exists v. split; [reflexivity|]. now rewrite consume_cons.
Qed.

Lemma consumable_not_less (u : jsstring) :
  Forall (fun c => consumable r' c = true) u ->
  Forall (fun c => c <> LESS) u.
Proof.
  intros H. eapply Forall_impl; [|exact H]. cbn. intros c Hc ->.
  rewrite (stops_at_less r' Hr') in Hc. discriminate.
Qed.

(** No match of [r'] starts where [r] found none. *)
Lemma copied_position (pw : bool) (s : jsstring) :
  exec r' pw s = None ->
  exec r' pw (replace_from r tag pw s) = None.
Proof.
  intros Hs. apply exec_None_iff. intros y Hy.
  destruct (matches_consumed _ _ _ Hy) as (u & Eu & Fu & Bu).
  cbn [input before_word] in Eu, Bu.
  destruct (prefix_kept u s pw (input y) Eu (consumable_not_less u Fu))
    as (v & -> & Hv).
  destruct (ends_at_boundary r' Hr' _ _ Hy) as [Hword _].
  rewrite Bu in Hword. specialize (Hv Hword).
  destruct (matches_local _ _ _ Hy [] (input y) v eq_refl
              (fun _ => eq_sym Hv)) as (p & Ep & Hm).
  cbn [input before_word app] in Ep, Hm.
  assert (p = u) as ->.
  { rewrite Eu in Ep. now apply app_inv_tail in Ep. }
  exact (proj1 (exec_None_iff _ _ _) Hs _ Hm).
Qed.

(** No match of [r'] starts inside the tag. *)
Lemma inside_the_tag (pw : bool) (P Q X : jsstring) :
  tag = P ++ Q -> Q <> [] ->
  exec r' (consume pw P) (Q ++ X) = None.
Proof.
  intros ET HQ. apply exec_None_iff. intros y Hy.
  destruct (matches_consumed _ _ _ Hy) as (u & Eu & Fu & _).
  cbn [input] in Eu.
  (* the tag ends with [>], which the match cannot pass *)
  assert (HQ' : exists Q0, Q = Q0 ++ [GREATER]).
  { destruct (exists_last HQ) as (Q0 & c & ->). exists Q0.
    unfold tag in ET. rewrite app_comm_cons, app_assoc in ET.
    apply app_inj_tail in ET as [_ <-]. reflexivity. }
  destruct HQ' as [Q0 ->].
  assert (Hsplit : exists w, Q0 ++ [GREATER] = u ++ w /\ w <> []).
  { clear - Eu Fu Hr'. revert Q0 Eu.
    induction Fu as [|c u Hc Fu IH]; intros Q0 Eu.
    - exists (Q0 ++ [GREATER]). split; [reflexivity|]. now destruct Q0.
    - destruct Q0 as [|d Q0].
      + cbn in Eu. injection Eu as <- _.
        rewrite (stops_at_greater r' Hr') in Hc. discriminate.
      + cbn [app] in Eu. injection Eu as <- Eu.
        destruct (IH Q0 Eu) as (w & E & Hw). exists w.
        cbn [app]. now rewrite E. }
  destruct Hsplit as (w & Ew & Hw).
  assert (Ey : input y = w ++ X).
  { rewrite Ew, <- app_assoc in Eu. now apply app_inv_head in Eu. }
  destruct (matches_local _ _ _ Hy w X [] Ey) as (p & Ep & Hm).
  { intros ->. congruence. }
  cbn [input before_word] in Ep, Hm. rewrite app_nil_r in Hm.
  assert (p = u) as ->.
  { rewrite Ew, <- app_assoc in Ep. now apply app_inv_tail in Ep. }
  rewrite <- Ew in Hm.
  pose proof (quiet_no_match r' tag pw (tag_quiet pw) P _ ET) as Hq.
  exact (proj1 (exec_None_iff _ _ _) Hq _ Hm).
Qed.

(** What is left by the replacement of the matches of [r] has no match
    of [r']. *)
Lemma residue_bounded (n : nat) :
  forall (s : jsstring) (pw : bool),
    (length s <= n)%nat -> spares pw s ->
    no_match r' pw (replace_from r tag pw s).
Proof.
  induction n as [|n IH]; intros s pw Hlen Hs P Q E.
  - destruct s; [|cbn in Hlen; lia]. rewrite (replace_from_nil r tag never_empty) in E.
    symmetry in E. apply app_eq_nil in E as [-> ->].
    apply (Hs [] [] eq_refl). apply (delimited_end r _ Hr).
  - destruct s as [|c s].
    { rewrite (replace_from_nil r tag never_empty) in E.
      symmetry in E. apply app_eq_nil in E as [-> ->].
      apply (Hs [] [] eq_refl). apply (delimited_end r _ Hr). }
    destruct (exec r pw (c :: s)) as [k|] eqn:Ex.
    + (* a match of [r]: the tag, and then the rest *)
      rewrite (replace_from_match r tag never_empty _ _ _ Ex) in E.
      destruct (exec_split r _ _ _ Ex) as (y & Hy & Es & Eskip & Ek).
      destruct (ends_at_boundary r Hr _ _ Hy) as [Hword Hend].
      destruct (matches_consumed _ _ _ Hy) as (m & Em & _ & Bm).
      cbn [input before_word] in Em, Bm.
      assert (firstn k (c :: s) = m) as Hm.
      { apply (app_inv_tail (input y)). now rewrite <- Es, <- Em. }
      rewrite Hm, <- Bm, Hword, Eskip in E.
      assert (Hshort : (length (input y) <= n)%nat).
      { assert (m <> []).
        { intros ->. apply (passes_something r Hr) in Hy.
          cbn [input app] in *. congruence. }
        apply (f_equal (@length N)) in Em. rewrite length_app in Em.
        cbn [length] in Hlen, Em. destruct m; [congruence|].
        cbn [length] in Em. lia. }
      assert (Hrest : no_match r' true (replace_from r tag true (input y))).
      { apply IH; [exact Hshort|]. rewrite <- Hword, Bm.
        apply spares_tail. now rewrite <- Em. }
      set (X := replace_from r tag true (input y)) in *.
      (* where does the split fall? *)
      destruct (Nat.lt_ge_cases (length P) (length tag)) as [Hin|Hout].
      * (* inside the tag *)
        assert (Hsplit : exists Q1, tag = P ++ Q1 /\ Q = Q1 ++ X
                                    /\ Q1 <> []).
        { exists (skipn (length P) tag).
          assert (HP : P = firstn (length P) tag).
          { apply (f_equal (firstn (length P))) in E.
            rewrite firstn_app, firstn_app in E.
            rewrite (firstn_all P), Nat.sub_diag in E. cbn [firstn] in E.
            rewrite app_nil_r in E.
            replace (length P - length tag)%nat with 0%nat in E by lia.
            cbn [firstn] in E. now rewrite app_nil_r in E. }
          split; [rewrite HP at 1; symmetry; apply firstn_skipn|].
          split.
          - apply (f_equal (skipn (length P))) in E.
            rewrite skipn_app, skipn_app in E.
            rewrite (skipn_all P), Nat.sub_diag in E. cbn [skipn app] in E.
            replace (length P - length tag)%nat with 0%nat in E by lia.
            cbn [skipn] in E. now symmetry.
          - intros H0. apply (f_equal (@length N)) in H0.
            rewrite length_skipn in H0. cbn [length] in H0. lia. }
        destruct Hsplit as (Q1 & ET & -> & HQ1).
        now apply inside_the_tag.
      * (* at the end of the tag or behind it *)
        assert (Hsplit : exists P', P = tag ++ P' /\ X = P' ++ Q).
        { exists (skipn (length tag) P).
          assert (HT : tag = firstn (length tag) P).
          { apply (f_equal (firstn (length tag))) in E.
            rewrite firstn_app, firstn_app in E.
            rewrite (firstn_all tag), Nat.sub_diag in E. cbn [firstn] in E.
            rewrite app_nil_r in E.
            replace (length tag - length P)%nat with 0%nat in E by lia.
            cbn [firstn] in E. now rewrite app_nil_r in E. }
          split; [rewrite HT at 1; symmetry; apply firstn_skipn|].
          apply (f_equal (skipn (length tag))) in E.
          rewrite skipn_app, skipn_app in E.
          rewrite (skipn_all tag), Nat.sub_diag in E. cbn [skipn app] in E.
          replace (length tag - length P)%nat with 0%nat in E by lia.
          cbn [skipn] in E. exact E. }
        destruct Hsplit as (P' & -> & EX).
        rewrite consume_app.
        assert (Htag : forall b, consume b tag = false).
        { intros b. unfold tag. rewrite app_comm_cons, consume_app.
          reflexivity. }
        rewrite Htag.
        destruct P' as [|d P'].
        -- (* just behind the tag *)
           cbn [app] in EX. subst Q. change (consume false []) with false.
           apply exec_None_iff. intros z Hz.
           apply (starts_at_boundary r' Hr') in Hz.
           rewrite at_boundary_flags in Hz. cbn [xorb] in Hz.
           unfold X in Hz. rewrite head_word_kept in Hz; [discriminate|].
           unfold at_boundary in Hend. rewrite Hword in Hend.
           unfold head_word. destruct (input y) as [|e t]; [reflexivity|].
           now destruct (is_word e).
        -- rewrite (consume_nonempty false true) by discriminate.
           now apply Hrest.
    + (* no match of [r]: the character is kept *)
      rewrite (replace_from_copy r tag _ _ _ Ex) in E.
      destruct P as [|d P].
      * cbn [app] in E. subst Q.
        rewrite <- (replace_from_copy r tag _ _ _ Ex).
        apply copied_position. exact (Hs [] (c :: s) eq_refl Ex).
      * injection E as <- E. rewrite consume_cons.
        apply (IH s (is_word c)); [cbn in Hlen; lia| |exact E].
        exact (spares_tail pw [c] s Hs).
Qed.

Lemma residue (pw : bool) (s : jsstring) :
  spares pw s -> no_match r' pw (replace_from r tag pw s).
Proof. apply (residue_bounded (length s)). lia. Qed.

End Residue.

End ReplaceFacts.

(* ================================================================== *)
(** * What the sanitizer leaves *)
(* ================================================================== *)

Module SanitizerResidue.

Import Regex RegexFacts Sanitizer SanitizerFacts ReplaceFacts.
Local Open Scope N_scope.

(** ** The three patterns are delimited *)

Lemma matches_Repeat_first r min x z :
  matches (Repeat r (S min) None) x z ->
  exists y, matches r x y /\ matches (Repeat r min None) y z.
Proof.
  inversion 1; subst.
  - match goal with H : _ \/ _ |- _ => destruct H; discriminate end.
  - now exists y.
Qed.

Lemma starts_with_boundary (r : regex) (x z : mstate) :
  matches (Seq WordBoundary r) x z -> at_boundary x = true.
Proof.
  intros H. apply matches_Seq_inv in H as (y & H & _).
  now apply matches_Boundary_inv in H.
Qed.

Lemma char_shortens (cs : charset) (x y : mstate) :
  matches (Char cs) x y -> (length (input y) < length (input x))%nat.
Proof.
  intros H. apply matches_Char_inv in H as (c & rest & -> & _ & ->).
  cbn. lia.
Qed.

Lemma shorter_differs (x z : mstate) :
  (length (input z) < length (input x))%nat -> input x <> input z.
Proof. intros H E. rewrite E in H. lia. Qed.

Lemma email_delimited : delimited emailRegex.
Proof.
  unfold emailRegex. cbn [seq]. split.
  - intros x y. apply starts_with_boundary.
  - intros x z H.
    apply matches_Seq_inv in H as (y0 & _ & H).
    apply matches_Seq_inv in H as (y1 & _ & H).
    apply matches_Seq_inv in H as (y2 & _ & H).
    apply matches_Seq_inv in H as (y3 & _ & H).
    apply matches_Seq_inv in H as (y4 & _ & H).
    apply matches_Seq_inv in H as (y5 & Htld & H).
    apply matches_Boundary_inv in H as [-> Hb]. split; [|exact Hb].
    pose proof Htld as Hfirst.
    apply matches_Repeat_first in Hfirst as (y & Hc & Hrest).
    apply char_shortens in Hc. apply matches_length in Hrest.
    destruct (matches_consumed _ _ _ Htld) as (p & Ep & Fp & ->).
    apply consume_word.
    + intros ->. cbn [app] in Ep. rewrite Ep in Hc. lia.
    + eapply Forall_impl; [|exact Fp]. cbn [consumable]. intros a Ha.
      now apply alpha_facts.
  - intros x z H.
    apply matches_Seq_inv in H as (y0 & H0 & H).
    apply matches_Boundary_inv in H0 as [-> _].
    apply matches_Seq_inv in H as (y1 & Hlocal & H).
    apply matches_length in H.
    unfold plus in Hlocal.
    apply matches_Repeat_first in Hlocal as (y & Hc & Hrest).
    apply char_shortens in Hc. apply matches_length in Hrest.
    apply shorter_differs. lia.
  - reflexivity.
  - reflexivity.
Qed.

Lemma digits4_word (x z : mstate) :
  matches (times 4 digit) x z -> before_word z = true.
Proof.
  intros H. apply matches_digits4_inv in H
    as (a & b & c & d & rest & _ & _ & _ & _ & Hd & ->).
  cbn [before_word]. now apply digit_is_word.
Qed.

Lemma digits_shorten (n : nat) (x z : mstate) :
  matches (times (S n) digit) x z ->
  (length (input z) < length (input x))%nat.
Proof.
  unfold times. intros H.
  apply matches_Repeat_must in H as (y & Hc & Hrest).
  apply char_shortens in Hc. apply matches_length in Hrest. lia.
Qed.

Lemma ssn_delimited : delimited ssnRegex.
Proof.
  unfold ssnRegex. cbn [seq]. split.
  - intros x y. apply starts_with_boundary.
  - intros x z H.
    apply matches_Seq_inv in H as (y0 & _ & H).
    apply matches_Seq_inv in H as (y1 & _ & H).
    apply matches_Seq_inv in H as (y2 & _ & H).
    apply matches_Seq_inv in H as (y3 & _ & H).
    apply matches_Seq_inv in H as (y4 & _ & H).
    apply matches_Seq_inv in H as (y5 & Hlast & H).
    apply matches_Boundary_inv in H as [-> Hb]. split; [|exact Hb].
    now apply digits4_word in Hlast.
  - intros x z H.
    apply matches_Seq_inv in H as (y0 & H0 & H).
    apply matches_Boundary_inv in H0 as [-> _].
    apply matches_Seq_inv in H as (y1 & Hfirst & H).
    apply matches_length in H. apply digits_shorten in Hfirst.
    apply shorter_differs. lia.
  - reflexivity.
  - reflexivity.
Qed.

Lemma cc_delimited : delimited ccRegex.
Proof.
  unfold ccRegex. cbn [seq]. split.
  - intros x y. apply starts_with_boundary.
  - intros x z H.
    apply matches_Seq_inv in H as (y0 & _ & H).
    apply matches_Seq_inv in H as (y1 & _ & H).
    apply matches_Seq_inv in H as (y2 & Hlast & H).
    apply matches_Boundary_inv in H as [-> Hb]. split; [|exact Hb].
    now apply digits4_word in Hlast.
  - intros x z H.
    apply matches_Seq_inv in H as (y0 & H0 & H).
    apply matches_Boundary_inv in H0 as [-> _].
    apply matches_Seq_inv in H as (y1 & Hgroups & H).
    apply matches_Seq_inv in H as (y2 & Hlast & H).
    apply matches_Boundary_inv in H as [-> _].
    apply digits_shorten in Hlast. apply matches_length in Hgroups.
    apply shorter_differs. lia.
  - reflexivity.
  - reflexivity.
Qed.

(** ** What [sanitizeMessage] leaves *)

Definition MID_EMAIL : jsstring := js "REDACTED: EMAIL".
Definition MID_SSN : jsstring := js "REDACTED: SSN".
Definition MID_CREDIT_CARD : jsstring := js "REDACTED: CREDIT_CARD".

Lemma quiet_both (r : regex) (s : jsstring) :
  quiet r true s = true -> quiet r false s = true ->
  forall pw, quiet r pw s = true.
Proof. intros Ht Hf [|]; assumption. Qed.

Lemma spares_self (r : regex) (pw : bool) (s : jsstring) : spares r r pw s.
Proof. now intros p q _ H. Qed.

Lemma spares_none (r r' : regex) (pw : bool) (s : jsstring) :
  no_match r' pw s -> spares r r' pw s.
Proof. intros H p q E _. now apply H. Qed.

Definition clean (s : jsstring) : Prop :=
  no_match emailRegex false s
  /\ no_match ssnRegex false s
  /\ no_match ccRegex false s.

Lemma sanitized_clean (s : jsstring) : clean (sanitizeMessage s).
Proof.
  destruct s as [|c s].
  - cbn [sanitizeMessage]. repeat split; intros p q E;
      symmetry in E; apply app_eq_nil in E as [-> ->]; reflexivity.
  - rewrite sanitizeMessage_nonempty by discriminate.
    set (s0 := c :: s).
    rewrite !replace_from_start.
    assert (H1 : no_match emailRegex false
                   (replace_from emailRegex TAG_EMAIL false s0)).
    { apply (residue emailRegex emailRegex MID_EMAIL email_delimited
               email_delimited).
      - apply quiet_both; vm_compute; reflexivity.
      - apply spares_self. }
    set (s1 := replace_from emailRegex TAG_EMAIL false s0) in *.
    assert (H2 : no_match ssnRegex false
                   (replace_from ssnRegex TAG_SSN false s1)
                 /\ no_match emailRegex false
                      (replace_from ssnRegex TAG_SSN false s1)).
    { split.
      - apply (residue ssnRegex ssnRegex MID_SSN ssn_delimited
                 ssn_delimited).
        + apply quiet_both; vm_compute; reflexivity.
        + apply spares_self.
      - apply (residue ssnRegex emailRegex MID_SSN ssn_delimited
                 email_delimited).
        + apply quiet_both; vm_compute; reflexivity.
        + now apply spares_none. }
    set (s2 := replace_from ssnRegex TAG_SSN false s1) in *.
    destruct H2 as [H2 H2'].
    repeat split.
    + apply (residue ccRegex emailRegex MID_CREDIT_CARD cc_delimited
               email_delimited).
      * apply quiet_both; vm_compute; reflexivity.
      * now apply spares_none.
    + apply (residue ccRegex ssnRegex MID_CREDIT_CARD cc_delimited
               ssn_delimited).
      * apply quiet_both; vm_compute; reflexivity.
      * now apply spares_none.
    + apply (residue ccRegex ccRegex MID_CREDIT_CARD cc_delimited
               cc_delimited).
      * apply quiet_both; vm_compute; reflexivity.
      * apply spares_self.
Qed.

(** X15.  Nothing of the three shapes is left.  In the text that
    [sanitizeMessage] returns, whatever the message, none of the three
    patterns has a match at any position: behind no number [n] of
    characters of the result does the e-mail pattern, the SSN pattern or
    the credit-card pattern match. *)
Theorem sanitized_text_has_no_match (message : jsstring) (n : nat) :
  let result := sanitizeMessage message in
  let flag := consume false (firstn n result) in
  exec emailRegex flag (skipn n result) = None
  /\ exec ssnRegex flag (skipn n result) = None
  /\ exec ccRegex flag (skipn n result) = None.
Proof.
  cbv zeta. destruct (sanitized_clean message) as (H1 & H2 & H3).
  pose proof (eq_sym (firstn_skipn n (sanitizeMessage message))) as E.
  split; [exact (H1 _ _ E)|]. split; [exact (H2 _ _ E)|exact (H3 _ _ E)].
Qed.

(** X16.  [sanitizeMessage] is idempotent: a text that it returned it
    returns as it is. *)
Theorem sanitizeMessage_idempotent (message : jsstring) :
  sanitizeMessage (sanitizeMessage message) = sanitizeMessage message.
Proof.
  destruct (sanitized_clean message) as (H1 & H2 & H3).
  destruct (sanitizeMessage message) as [|c s] eqn:E; [reflexivity|].
  rewrite sanitizeMessage_nonempty by discriminate.
  rewrite !replace_from_start.
  rewrite (no_match_unchanged emailRegex TAG_EMAIL _ false H1).
  rewrite (no_match_unchanged ssnRegex TAG_SSN _ false H2).
  now rewrite (no_match_unchanged ccRegex TAG_CREDIT_CARD _ false H3).
Qed.

End SanitizerResidue.

(* ================================================================== *)
(** * The two patterns for numbers, read in one pass *)
(* ================================================================== *)

Module DigitPatterns.

Import Regex RegexFacts Sanitizer SanitizerFacts ReplaceFacts
       SanitizerResidue.
Local Open Scope N_scope.

(** ** Reading digits *)

(** The text behind [n] digits at the head of [s]. *)
Fixpoint take_digits (n : nat) (s : jsstring) : option jsstring :=
  match n with
  | O => Some s
  | S n' =>
      match s with
      | c :: rest => if is_digit c then take_digits n' rest else None
      | [] => None
      end
  end.

Lemma matches_digits (n : nat) :
  forall x z,
    matches (times n digit) x z ->
    take_digits n (input x) = Some (input z)
    /\ before_word z = match n with O => before_word x | S _ => true end.
Proof.
  unfold times. induction n as [|n IH]; intros x z H.
  - apply matches_Repeat_done in H. subst z. now split.
  - apply matches_Repeat_must in H as (y & Hc & H).
    apply matches_digit_inv in Hc as (c & rest & Ex & Hc & ->).
    apply IH in H as [Ht Hb]. cbn [input before_word] in Ht, Hb.
    rewrite Ex. cbn [take_digits]. rewrite Hc. split; [exact Ht|].
    rewrite Hb. destruct n; [now apply digit_is_word|reflexivity].
Qed.

Lemma digits_match (n : nat) :
  forall (pw : bool) (s rest : jsstring),
    take_digits n s = Some rest ->
    matches (times n digit) (MState pw s)
            (MState match n with O => pw | S _ => true end rest).
Proof.
  unfold times. induction n as [|n IH]; intros pw s rest H.
  - injection H as ->. apply M_Stop. now left.
  - destruct s as [|c s]; [discriminate|]. cbn [take_digits] in H.
    destruct (is_digit c) eqn:Hc; [|discriminate].
    apply M_Step with (MState (is_word c) s).
    + discriminate.
    + discriminate.
    + constructor. cbn. now rewrite Hc.
    + cbn [Nat.pred option_map].
      pose proof (IH (is_word c) s rest H) as Hm.
      rewrite (digit_is_word c Hc) in *.
      now destruct n.
Qed.

Lemma take_digits_head (n : nat) (s rest : jsstring) :
  take_digits (S n) s = Some rest ->
  exists c s', s = c :: s' /\ is_digit c = true.
Proof.
  destruct s as [|c s]; [discriminate|]. cbn [take_digits].
  destruct (is_digit c) eqn:Hc; [|discriminate]. intros _. now exists c, s.
Qed.

(** ** An optional separator before digits *)

Section Optional.

(** The class of the separator, and its test. *)
Variable cs : charset.
Variable sep : N -> bool.
Hypothesis cs_sep : forall c, in_charset cs c = sep c.
Hypothesis sep_no_digit : forall c, is_digit c = true -> sep c = false.

Definition skip_one (s : jsstring) : jsstring :=
  match s with
  | c :: rest => if sep c then rest else s
  | [] => []
  end.

Lemma optional_then_digits (n : nat) (x y z : mstate) :
  matches (opt (Char cs)) x y ->
  matches (times (S n) digit) y z ->
  take_digits (S n) (skip_one (input x)) = Some (input z)
  /\ before_word z = true.
Proof.
  unfold opt. intros Ho Hd.
  apply matches_digits in Hd as [Hd Hb]. split; [|exact Hb].
  apply matches_Repeat_may in Ho as [->|(y1 & Hc & H)].
  - destruct (take_digits_head _ _ _ Hd) as (c & s' & Es & Hc).
    rewrite Es in *. cbn [skip_one]. now rewrite (sep_no_digit c Hc).
  - apply matches_Repeat_done in H. subst y1.
    apply matches_Char_inv in Hc as (c & rest & Ex & Hc & ->).
    rewrite Ex. cbn [skip_one]. rewrite <- cs_sep, Hc. exact Hd.
Qed.

Lemma digits_after_optional (n : nat) (pw : bool) (s rest : jsstring) :
  take_digits (S n) (skip_one s) = Some rest ->
  exists y,
    matches (opt (Char cs)) (MState pw s) y
    /\ matches (times (S n) digit) y (MState true rest).
Proof.
  intros H. destruct s as [|c s]; [discriminate|]. cbn [skip_one] in H.
  destruct (sep c) eqn:Hc.
  - exists (MState (is_word c) s). split.
    + unfold opt. apply M_Step with (MState (is_word c) s).
      * discriminate.
      * intros _. cbn. lia.
      * constructor. now rewrite cs_sep.
      * apply M_Stop. now right.
    + exact (digits_match (S n) _ _ _ H).
  - exists (MState pw (c :: s)). split.
    + unfold opt. apply M_Stop. now left.
    + exact (digits_match (S n) _ _ _ H).
Qed.

End Optional.

(** ** The SSN pattern *)

Definition is_dash (c : N) : bool := c =? chr "-".

(** The text behind three digits, two digits and four digits at the head
    of [s], a dash before the second and the third group passed over. *)
Definition ssn_end (s : jsstring) : option jsstring :=
  match take_digits 3 s with
  | Some s1 =>
      match take_digits 2 (skip_one is_dash s1) with
      | Some s2 => take_digits 4 (skip_one is_dash s2)
      | None => None
      end
  | None => None
  end.

(** The match of a pattern that reads the text up to [rest] from a
    position whose flag is [pw], between two word boundaries. *)
Definition between_boundaries (pw : bool) (s : jsstring)
    (rest : option jsstring) : option nat :=
  match rest with
  | Some rest =>
      if pw || head_word rest then None
      else Some (length s - length rest)%nat
  | None => None
  end.

Lemma dash_class (c : N) : in_charset [Single (chr "-")] c = is_dash c.
Proof. cbn. apply orb_false_r. Qed.

Lemma dash_no_digit (c : N) : is_digit c = true -> is_dash c = false.
Proof.
  unfold is_digit, is_dash, chr. cbn. intros H.
  apply andb_prop in H as [H1 H2]. apply N.leb_le in H1, H2.
  apply N.eqb_neq. lia.
Qed.

Lemma boundary_false (pw : bool) (s : jsstring) :
  at_boundary (MState pw s) = true -> head_word s = true -> pw = false.
Proof.
  rewrite at_boundary_flags. intros H E. rewrite E in H. now destruct pw.
Qed.

Lemma boundary_end (s : jsstring) :
  at_boundary (MState true s) = true -> head_word s = false.
Proof. rewrite at_boundary_flags. now destruct (head_word s). Qed.

Lemma digit_head_word (n : nat) (s rest : jsstring) :
  take_digits (S n) s = Some rest -> head_word s = true.
Proof.
  intros H. destruct (take_digits_head _ _ _ H) as (c & s' & -> & Hc).
  now apply digit_is_word.
Qed.

Lemma ssn_matches (pw : bool) (s : jsstring) (z : mstate) :
  matches ssnRegex (MState pw s) z
  <-> ssn_end s = Some (input z) /\ pw = false
      /\ before_word z = true /\ head_word (input z) = false.
Proof.
  unfold ssnRegex. cbn [seq]. split.
  - intros H.
    apply matches_Seq_inv in H as (y0 & H0 & H).
    apply matches_Boundary_inv in H0 as [-> Hstart].
    apply matches_Seq_inv in H as (y1 & H1 & H).
    apply matches_Seq_inv in H as (y2 & H2 & H).
    apply matches_Seq_inv in H as (y3 & H3 & H).
    apply matches_Seq_inv in H as (y4 & H4 & H).
    apply matches_Seq_inv in H as (y5 & H5 & H).
    apply matches_Boundary_inv in H as [Ez Hend]. subst y5.
    apply matches_digits in H1 as [E1 _]. cbn [input] in E1.
    destruct (optional_then_digits _ is_dash dash_class dash_no_digit
                _ _ _ _ H2 H3) as [E3 _].
    destruct (optional_then_digits _ is_dash dash_class dash_no_digit
                _ _ _ _ H4 H5) as [E5 Hb].
    unfold ssn_end. rewrite E1, E3, E5. destruct z as [bz sz].
    cbn [input before_word] in *. subst bz.
    repeat split.
    + exact (boundary_false _ _ Hstart (digit_head_word _ _ _ E1)).
    + now apply boundary_end.
  - unfold ssn_end. intros (E & -> & Hb & Hh).
    destruct (take_digits 3 s) as [s1|] eqn:E1; [|discriminate].
    destruct (take_digits 2 (skip_one is_dash s1)) as [s2|] eqn:E3;
      [|discriminate].
    destruct (digits_after_optional _ is_dash dash_class 1 true s1 s2 E3)
      as (y2 & H2 & H3).
    destruct (digits_after_optional _ is_dash dash_class 3 true s2 _ E)
      as (y4 & H4 & H5).
    destruct z as [bz sz]. cbn [input before_word] in *. subst bz.
    apply M_Seq with (MState false s).
    { constructor. rewrite at_boundary_flags.
      now rewrite (digit_head_word _ _ _ E1). }
    apply M_Seq with (MState true s1);
      [exact (digits_match 3 false s s1 E1)|].
    apply M_Seq with y2; [exact H2|].
    apply M_Seq with (MState true s2); [exact H3|].
    apply M_Seq with y4; [exact H4|].
    apply M_Seq with (MState true sz); [exact H5|].
    constructor. rewrite at_boundary_flags. now rewrite Hh.
Qed.

(** What an attempt of a pattern gives when its matches from a position
    all end at the place that [rest] tells. *)
Lemma exec_between (r : regex) (pw : bool) (s : jsstring)
    (rest : option jsstring) :
  (forall z, matches r (MState pw s) z
             <-> rest = Some (input z) /\ pw = false
                 /\ before_word z = true /\ head_word (input z) = false) ->
  exec r pw s = between_boundaries pw s rest.
Proof.
  intros Hiff. unfold between_boundaries.
  destruct (exec r pw s) as [n|] eqn:E.
  - apply exec_matches in E as (y & Hy & ->).
    apply Hiff in Hy as (-> & -> & _ & Hh). now rewrite Hh.
  - destruct rest as [rest|]; [|reflexivity].
    destruct pw; [reflexivity|]. cbn [orb].
    destruct (head_word rest) eqn:Hh; [reflexivity|].
    exfalso. apply (proj1 (exec_None_iff _ _ _) E (MState true rest)).
    apply Hiff. now repeat split.
Qed.

(** The SSN pattern matches at a position exactly when no word character
    stands before it, the text has the shape of a number there, and no word
    character follows the number. *)
Lemma ssn_exec (pw : bool) (s : jsstring) :
  exec ssnRegex pw s = between_boundaries pw s (ssn_end s).
Proof. apply exec_between. intros z. apply ssn_matches. Qed.

(** ** The credit-card pattern *)

(** The text behind four groups of four digits at the head of [s], a
    dash or a white-space character before the second, the third and the
    fourth group passed over. *)
Definition card_end (s : jsstring) : option jsstring :=
  match take_digits 4 s with
  | Some s1 =>
      match take_digits 4 (skip_one is_separator s1) with
      | Some s2 =>
          match take_digits 4 (skip_one is_separator s2) with
          | Some s3 => take_digits 4 (skip_one is_separator s3)
          | None => None
          end
      | None => None
      end
  | None => None
  end.

Lemma separator_set (c : N) :
  in_charset [Single (chr "-"); Space] c = is_separator c.
Proof. cbn. unfold is_separator. now rewrite orb_false_r. Qed.

Lemma cc_matches (pw : bool) (s : jsstring) (z : mstate) :
  matches ccRegex (MState pw s) z
  <-> card_end s = Some (input z) /\ pw = false
      /\ before_word z = true /\ head_word (input z) = false.
Proof.
  unfold ccRegex. cbn [seq]. split.
  - intros H.
    apply matches_Seq_inv in H as (y0 & H0 & H).
    apply matches_Boundary_inv in H0 as [-> Hstart].
    apply matches_Seq_inv in H as (y3 & Hgroups & H).
    apply matches_Seq_inv in H as (y4 & Hlast & Hend).
    apply matches_Boundary_inv in Hend as [Ez Hend]. subst y4.
    unfold times in Hgroups.
    apply matches_Repeat_must in Hgroups as (y1 & G1 & Hgroups).
    apply matches_Repeat_must in Hgroups as (y2 & G2 & Hgroups).
    apply matches_Repeat_must in Hgroups as (y3' & G3 & Hgroups).
    apply matches_Repeat_done in Hgroups. subst y3'.
    apply matches_Seq_inv in G1 as (z1 & D1 & S1).
    apply matches_Seq_inv in G2 as (z2 & D2 & S2).
    apply matches_Seq_inv in G3 as (z3 & D3 & S3).
    apply matches_digits in D1 as [E1 _]. cbn [input] in E1.
    destruct (optional_then_digits _ is_separator separator_set
                digit_not_separator _ _ _ _ S1 D2) as [E2 _].
    destruct (optional_then_digits _ is_separator separator_set
                digit_not_separator _ _ _ _ S2 D3) as [E3 _].
    destruct (optional_then_digits _ is_separator separator_set
                digit_not_separator _ _ _ _ S3 Hlast) as [E4 Hb].
    unfold card_end. rewrite E1, E2, E3, E4. destruct z as [bz sz].
    cbn [input before_word] in *. subst bz.
    repeat split.
    + exact (boundary_false _ _ Hstart (digit_head_word _ _ _ E1)).
    + now apply boundary_end.
  - unfold card_end. intros (E & -> & Hb & Hh).
    destruct (take_digits 4 s) as [s1|] eqn:E1; [|discriminate].
    destruct (take_digits 4 (skip_one is_separator s1)) as [s2|] eqn:E2;
      [|discriminate].
    destruct (take_digits 4 (skip_one is_separator s2)) as [s3|] eqn:E3;
      [|discriminate].
    destruct (digits_after_optional _ is_separator separator_set
                3 true s1 s2 E2) as (y1 & S1 & D2).
    destruct (digits_after_optional _ is_separator separator_set
                3 true s2 s3 E3) as (y2 & S2 & D3).
    destruct (digits_after_optional _ is_separator separator_set
                3 true s3 _ E) as (y3 & S3 & D4).
    destruct z as [bz sz]. cbn [input before_word] in *. subst bz.
    apply M_Seq with (MState false s).
    { constructor. rewrite at_boundary_flags.
      now rewrite (digit_head_word _ _ _ E1). }
    apply M_Seq with y3.
    + unfold times.
      apply M_Step with y1; [discriminate|discriminate| |].
      { apply M_Seq with (MState true s1);
          [exact (digits_match 4 false s s1 E1)|exact S1]. }
      cbn [Nat.pred option_map].
      apply M_Step with y2; [discriminate|discriminate| |].
      { apply M_Seq with (MState true s2); [exact D2|exact S2]. }
      cbn [Nat.pred option_map].
      apply M_Step with y3; [discriminate|discriminate| |].
      { apply M_Seq with (MState true s3); [exact D3|exact S3]. }
      cbn [Nat.pred option_map]. apply M_Stop. now left.
    + apply M_Seq with (MState true sz); [exact D4|].
      constructor. rewrite at_boundary_flags. now rewrite Hh.
Qed.

(** The credit-card pattern, in the same way. *)
Lemma cc_exec (pw : bool) (s : jsstring) :
  exec ccRegex pw s = between_boundaries pw s (card_end s).
Proof. apply exec_between. intros z. apply cc_matches. Qed.

End DigitPatterns.

(* ================================================================== *)
(** * Runs of digits *)
(* ================================================================== *)

Module SanitizerRuns.

Import Regex RegexFacts Sanitizer SanitizerFacts ReplaceFacts
       SanitizerResidue DigitPatterns.
Local Open Scope N_scope.

(** ** Copying and replacing *)

Lemma copy_prefix (r : regex) (rep : jsstring) (Hr : delimited r)
    (pre : jsstring) :
  forall (pw : bool) (rest : jsstring),
    (forall p q, pre = p ++ q -> q <> [] ->
                 exec r (consume pw p) (q ++ rest) = None) ->
    replace_from r rep pw (pre ++ rest)
    = pre ++ replace_from r rep (consume pw pre) rest.
Proof.
  induction pre as [|c pre IH]; intros pw rest H; [reflexivity|].
  cbn [app].
  rewrite (replace_from_copy r rep pw c (pre ++ rest)
             (H [] (c :: pre) eq_refl ltac:(discriminate))).
  rewrite consume_cons. f_equal. apply IH. intros p q -> Hq.
  exact (H (c :: p) q eq_refl Hq).
Qed.

Lemma replace_at (r : regex) (rep : jsstring) (Hr : delimited r)
    (pw : bool) (m rest : jsstring) :
  exec r pw (m ++ rest) = Some (length m) ->
  replace_from r rep pw (m ++ rest)
  = rep ++ replace_from r rep (consume pw m) rest.
Proof.
  intros E.
  rewrite (replace_from_match r rep (delimited_never_empty r Hr) _ _ _ E).
  rewrite firstn_app, firstn_all, Nat.sub_diag, firstn_O, app_nil_r.
  rewrite skipn_app, skipn_all, Nat.sub_diag, skipn_O. reflexivity.
Qed.

Lemma no_match_from (r : regex) (s : jsstring) :
  (forall pw p q, s = p ++ q -> exec r pw q = None) ->
  forall pw, no_match r pw s.
Proof. intros H pw p q E. exact (H _ p q E). Qed.

(** ** Texts without an at sign, texts without a digit *)

Definition AT : N := 64.

Definition no_at (s : jsstring) : Prop := Forall (fun c => c <> AT) s.
Definition no_digit (s : jsstring) : Prop :=
  Forall (fun c => is_digit c = false) s.

Lemma email_needs_at (s : jsstring) :
  no_at s -> forall pw, exec emailRegex pw s = None.
Proof.
  intros Hs pw. apply exec_None_iff. intros y H.
  unfold emailRegex in H. cbn [seq] in H.
  apply matches_Seq_inv in H as (y0 & H0 & H).
  apply matches_Boundary_inv in H0 as [-> _].
  apply matches_Seq_inv in H as (y1 & H1 & H).
  apply matches_Seq_inv in H as (y2 & H2 & _).
  apply matches_suffix in H1 as [p Hp]. cbn [input] in Hp.
  apply matches_Char_inv in H2 as (c & rest & E & Hc & _).
  rewrite E in Hp. subst s.
  apply Forall_app in Hs as [_ Hs]. inversion Hs as [|? ? Hat _]; subst.
  cbn in Hc. rewrite orb_false_r in Hc. apply N.eqb_eq in Hc.
  now apply Hat.
Qed.

Lemma no_at_clean (s : jsstring) :
  no_at s -> forall pw, no_match emailRegex pw s.
Proof.
  intros Hs. apply no_match_from. intros pw p q ->.
  apply email_needs_at. now apply Forall_app in Hs as [_ Hs].
Qed.

Lemma ssn_needs_digit (pw : bool) (s : jsstring) :
  head_word s = false \/ (exists c s', s = c :: s' /\ is_digit c = false)
  \/ s = [] ->
  exec ssnRegex pw s = None.
Proof.
  intros H. rewrite ssn_exec. unfold ssn_end.
  destruct (take_digits 3 s) as [s1|] eqn:E; [|reflexivity]. exfalso.
  destruct (take_digits_head _ _ _ E) as (c & s' & -> & Hc).
  destruct H as [H|[(d & t & [= <- <-] & H)|H]]; try discriminate.
  - cbn in H. now rewrite (digit_is_word c Hc) in H.
  - congruence.
Qed.

Lemma cc_needs_digit (pw : bool) (s : jsstring) :
  head_word s = false \/ (exists c s', s = c :: s' /\ is_digit c = false)
  \/ s = [] ->
  exec ccRegex pw s = None.
Proof.
  intros H. rewrite cc_exec. unfold card_end.
  destruct (take_digits 4 s) as [s1|] eqn:E; [|reflexivity]. exfalso.
  destruct (take_digits_head _ _ _ E) as (c & s' & -> & Hc).
  destruct H as [H|[(d & t & [= <- <-] & H)|H]]; try discriminate.
  - cbn in H. now rewrite (digit_is_word c Hc) in H.
  - congruence.
Qed.

Lemma no_digit_head (s : jsstring) :
  no_digit s ->
  (exists c s', s = c :: s' /\ is_digit c = false) \/ s = [].
Proof.
  intros H. destruct s as [|c s]; [now right|left].
  inversion H; subst. now exists c, s.
Qed.

Lemma no_digit_clean_ssn (s : jsstring) :
  no_digit s -> forall pw, no_match ssnRegex pw s.
Proof.
  intros Hs. apply no_match_from. intros pw p q ->.
  apply ssn_needs_digit. right. apply no_digit_head.
  now apply Forall_app in Hs as [_ Hs].
Qed.

Lemma no_digit_clean_cc (s : jsstring) :
  no_digit s -> forall pw, no_match ccRegex pw s.
Proof.
  intros Hs. apply no_match_from. intros pw p q ->.
  apply cc_needs_digit. right. apply no_digit_head.
  now apply Forall_app in Hs as [_ Hs].
Qed.

(** ** Runs of digits *)

Definition all_digits (s : jsstring) : Prop :=
  Forall (fun c => is_digit c = true) s.

Lemma take_digits_run (n : nat) :
  forall s, all_digits s ->
            take_digits n s
            = if Nat.leb n (length s) then Some (skipn n s) else None.
Proof.
  induction n as [|n IH]; intros s Hs; [reflexivity|].
  destruct s as [|c s]; [reflexivity|]. inversion Hs as [|? ? Hc Hs']; subst.
  cbn [take_digits length skipn Nat.leb]. rewrite Hc. now apply IH.
Qed.

Lemma skip_one_run (sep : N -> bool) (s : jsstring) :
  (forall c, is_digit c = true -> sep c = false) ->
  all_digits s -> skip_one sep s = s.
Proof.
  intros Hsep Hs. destruct s as [|c s]; [reflexivity|].
  inversion Hs; subst. cbn [skip_one]. now rewrite Hsep.
Qed.

Lemma all_digits_skipn (n : nat) (s : jsstring) :
  all_digits s -> all_digits (skipn n s).
Proof.
  intros H. rewrite <- (firstn_skipn n s) in H.
  now apply Forall_app in H as [_ H].
Qed.

Lemma ssn_end_run (s : jsstring) :
  all_digits s ->
  ssn_end s = if Nat.leb 9 (length s) then Some (skipn 9 s) else None.
Proof.
  intros Hs. unfold ssn_end. rewrite (take_digits_run 3 s Hs).
  destruct (Nat.leb_spec 3 (length s)) as [H3|H3];
    [|destruct (Nat.leb_spec 9 (length s)); [lia|reflexivity]].
  pose proof (all_digits_skipn 3 s Hs) as Hs3.
  rewrite (skip_one_run _ _ dash_no_digit Hs3).
  rewrite (take_digits_run 2 _ Hs3), length_skipn.
  destruct (Nat.leb_spec 2 (length s - 3)) as [H5|H5];
    [|destruct (Nat.leb_spec 9 (length s)); [lia|reflexivity]].
  pose proof (all_digits_skipn 2 _ Hs3) as Hs5.
  rewrite (skip_one_run _ _ dash_no_digit Hs5).
  rewrite (take_digits_run 4 _ Hs5), !length_skipn.
  rewrite !skipn_skipn. cbn [Nat.add].
  destruct (Nat.leb_spec 4 (length s - 3 - 2)),
    (Nat.leb_spec 9 (length s)); try lia; reflexivity.
Qed.

Lemma card_end_run (s : jsstring) :
  all_digits s ->
  card_end s = if Nat.leb 16 (length s) then Some (skipn 16 s) else None.
Proof.
  intros Hs. unfold card_end. rewrite (take_digits_run 4 s Hs).
  destruct (Nat.leb_spec 4 (length s)) as [H4|H4];
    [|destruct (Nat.leb_spec 16 (length s)); [lia|reflexivity]].
  pose proof (all_digits_skipn 4 s Hs) as Hs4.
  rewrite (skip_one_run _ _ digit_not_separator Hs4).
  rewrite (take_digits_run 4 _ Hs4), length_skipn.
  destruct (Nat.leb_spec 4 (length s - 4)) as [H8|H8];
    [|destruct (Nat.leb_spec 16 (length s)); [lia|reflexivity]].
  pose proof (all_digits_skipn 4 _ Hs4) as Hs8.
  rewrite (skip_one_run _ _ digit_not_separator Hs8).
  rewrite (take_digits_run 4 _ Hs8), !length_skipn.
  destruct (Nat.leb_spec 4 (length s - 4 - 4)) as [H12|H12];
    [|destruct (Nat.leb_spec 16 (length s)); [lia|reflexivity]].
  pose proof (all_digits_skipn 4 _ Hs8) as Hs12.
  rewrite (skip_one_run _ _ digit_not_separator Hs12).
  rewrite (take_digits_run 4 _ Hs12), !length_skipn.
  rewrite !skipn_skipn. cbn [Nat.add].
  destruct (Nat.leb_spec 4 (length s - 4 - 4 - 4)),
    (Nat.leb_spec 16 (length s)); try lia; reflexivity.
Qed.

Lemma head_word_run (s : jsstring) :
  all_digits s -> head_word s = negb (Nat.eqb (length s) 0).
Proof.
  intros H. destruct s as [|c s]; [reflexivity|]. inversion H; subst.
  cbn. now apply digit_is_word.
Qed.

(** An attempt on a run of digits, of a pattern that takes [k] of them
    between two word boundaries. *)
Lemma between_run (k : nat) (s : jsstring) :
  all_digits s ->
  between_boundaries false s
    (if Nat.leb k (length s) then Some (skipn k s) else None)
  = if Nat.eqb (length s) k then Some k else None.
Proof.
  intros Hs. destruct (Nat.leb_spec k (length s)) as [Hk|Hk].
  - unfold between_boundaries. cbn [orb].
    rewrite (head_word_run _ (all_digits_skipn k s Hs)), length_skipn.
    destruct (Nat.eqb_spec (length s - k) 0) as [H0|H0]; cbn [negb].
    + destruct (Nat.eqb_spec (length s) k); [f_equal|]; lia.
    + destruct (Nat.eqb_spec (length s) k); [lia|reflexivity].
  - cbn. destruct (Nat.eqb_spec (length s) k); [lia|reflexivity].
Qed.

Lemma consume_digits (pw : bool) (p : jsstring) :
  all_digits p -> p <> [] -> consume pw p = true.
Proof.
  intros Hp Hne. apply consume_word; [exact Hne|].
  eapply Forall_impl; [|exact Hp]. apply digit_is_word.
Qed.

Lemma run_replaced (r : regex) (rep : jsstring) (k : nat) (s : jsstring) :
  delimited r ->
  (forall s', all_digits s' ->
              exec r false s' = if Nat.eqb (length s') k then Some k
                                else None) ->
  (forall s', exec r true s' = None) ->
  all_digits s ->
  replace_from r rep false s = if Nat.eqb (length s) k then rep else s.
Proof.
  intros Hr Hexec Htrue Hs.
  destruct (Nat.eqb_spec (length s) k) as [Hk|Hk].
  - pose proof (Hexec s Hs) as E. rewrite <- Hk, Nat.eqb_refl in E.
    rewrite <- (app_nil_r s) at 1.
    rewrite <- (app_nil_r s) in E at 1.
    rewrite (replace_at r rep Hr false s [] E).
    rewrite (replace_from_nil r rep (delimited_never_empty r Hr)).
    apply app_nil_r.
  - apply no_match_unchanged. intros p q ->.
    destruct p as [|c p].
    + change (consume false []) with false. cbn [app] in Hs, Hk.
      rewrite (Hexec _ Hs).
      now destruct (Nat.eqb_spec (length q) k).
    + apply Forall_app in Hs as [Hp _].
      rewrite (consume_digits false (c :: p) Hp) by discriminate.
      apply Htrue.
Qed.

Lemma digit_not_at (s : jsstring) : all_digits s -> no_at s.
Proof.
  intros H. eapply Forall_impl; [|exact H]. cbn. intros c Hc ->.
  discriminate Hc.
Qed.

(** X17.  Runs of digits.  A text that is made of digits only is
    replaced by the SSN tag when it has 9 digits and by the credit-card tag
    when it has 16, and is returned as it is with every other number of
    digits. *)
Theorem digit_run_is_redacted_iff_9_or_16 (s : jsstring) :
  forallb is_digit s = true ->
  sanitizeMessage s
  = if Nat.eqb (length s) 9 then js "<REDACTED: SSN>"
    else if Nat.eqb (length s) 16 then js "<REDACTED: CREDIT_CARD>"
    else s.
Proof.
  intros H. rewrite forallb_forall, <- Forall_forall in H.
  change (all_digits s) in H.
  destruct s as [|c s]; [reflexivity|].
  rewrite sanitizeMessage_nonempty by discriminate.
  set (s0 := c :: s) in *. rewrite !replace_from_start.
  rewrite (no_match_unchanged emailRegex TAG_EMAIL s0 false
             (no_at_clean s0 (digit_not_at s0 H) false)).
  rewrite (run_replaced ssnRegex TAG_SSN 9 s0 ssn_delimited); [| | |exact H].
  - destruct (Nat.eqb_spec (length s0) 9) as [H9|H9].
    + vm_compute. reflexivity.
    + rewrite (run_replaced ccRegex TAG_CREDIT_CARD 16 s0 cc_delimited);
        [reflexivity| | |exact H].
      * intros s' Hs'. rewrite cc_exec, (card_end_run s' Hs').
        now apply between_run.
      * intros s'. rewrite cc_exec. now destruct (card_end s').
  - intros s' Hs'. rewrite ssn_exec, (ssn_end_run s' Hs').
    now apply between_run.
  - intros s'. rewrite ssn_exec. now destruct (ssn_end s').
Qed.

Lemma digit_run_is_redacted_iff_9_or_16_witness :
  forallb is_digit (js "123456789") = true
  /\ sanitizeMessage (js "123456789") = js "<REDACTED: SSN>"
  /\ forallb is_digit (js "1234567890") = true
  /\ sanitizeMessage (js "1234567890") = js "1234567890".
Proof.
  split; [reflexivity|].
  split; [exact (digit_run_is_redacted_iff_9_or_16 (js "123456789")
                   eq_refl)|].
  split; [reflexivity|].
  exact (digit_run_is_redacted_iff_9_or_16 (js "1234567890") eq_refl).
Defined.

End SanitizerRuns.

(* ================================================================== *)
(** * One address or number in a text *)
(* ================================================================== *)

Module SanitizerInText.

Import Regex RegexFacts Sanitizer SanitizerFacts ReplaceFacts
       SanitizerResidue DigitPatterns SanitizerRuns.
Local Open Scope N_scope.

(** ** Numbers followed by more text *)

Lemma take_digits_app (n : nat) :
  forall s rest t : jsstring,
    take_digits n s = Some rest -> take_digits n (s ++ t) = Some (rest ++ t).
Proof.
  induction n as [|n IH]; intros s rest t H.
  - now injection H as ->.
  - destruct s as [|c s]; [discriminate|]. cbn [take_digits app] in *.
    destruct (is_digit c); [now apply IH|discriminate].
Qed.

Lemma take_after_app (sep : N -> bool) (n : nat) (s rest t : jsstring) :
  take_digits (S n) (skip_one sep s) = Some rest ->
  take_digits (S n) (skip_one sep (s ++ t)) = Some (rest ++ t).
Proof.
  intros H. destruct s as [|c s]; [discriminate|].
  cbn [app skip_one] in *. destruct (sep c).
  - now apply take_digits_app.
  - now apply (take_digits_app (S n) (c :: s) rest t).
Qed.

Lemma ssn_end_app (s rest t : jsstring) :
  ssn_end s = Some rest -> ssn_end (s ++ t) = Some (rest ++ t).
Proof.
  unfold ssn_end. intros H.
  destruct (take_digits 3 s) as [s1|] eqn:E1; [|discriminate].
  rewrite (take_digits_app 3 s s1 t E1).
  destruct (take_digits 2 (skip_one is_dash s1)) as [s2|] eqn:E2;
    [|discriminate].
  rewrite (take_after_app is_dash 1 s1 s2 t E2).
  exact (take_after_app is_dash 3 s2 rest t H).
Qed.

Lemma card_end_app (s rest t : jsstring) :
  card_end s = Some rest -> card_end (s ++ t) = Some (rest ++ t).
Proof.
  unfold card_end. intros H.
  destruct (take_digits 4 s) as [s1|] eqn:E1; [|discriminate].
  rewrite (take_digits_app 4 s s1 t E1).
  destruct (take_digits 4 (skip_one is_separator s1)) as [s2|] eqn:E2;
    [|discriminate].
  rewrite (take_after_app is_separator 3 s1 s2 t E2).
  destruct (take_digits 4 (skip_one is_separator s2)) as [s3|] eqn:E3;
    [|discriminate].
  rewrite (take_after_app is_separator 3 s2 s3 t E3).
  exact (take_after_app is_separator 3 s3 rest t H).
Qed.

(** The characters of a number: digits and separators, a digit at each
    end. *)
Definition digit_or (sep : N -> bool) (c : N) : Prop :=
  is_digit c = true \/ sep c = true.

Lemma take_digits_body (n : nat) (sep : N -> bool) :
  forall s rest : jsstring,
    take_digits n s = Some rest ->
    exists body, s = body ++ rest /\ Forall (digit_or sep) body
                 /\ all_digits body /\ length body = n.
Proof.
  induction n as [|n IH]; intros s rest H.
  - injection H as ->. exists []. repeat split; constructor.
  - destruct s as [|c s]; [discriminate|]. cbn [take_digits] in H.
    destruct (is_digit c) eqn:Hc; [|discriminate].
    destruct (IH s rest H) as (body & -> & Hb & Hd & Hl).
    exists (c :: body). repeat split.
    + constructor; [now left|exact Hb].
    + now constructor.
    + cbn. now rewrite Hl.
Qed.

Lemma take_after_body (n : nat) (sep : N -> bool) (s rest : jsstring) :
  take_digits (S n) (skip_one sep s) = Some rest ->
  exists body, s = body ++ rest /\ Forall (digit_or sep) body
               /\ body <> [] /\ consume false body = true.
Proof.
  intros H. destruct s as [|c s]; [discriminate|]. cbn [skip_one] in H.
  destruct (sep c) eqn:Hc.
  - destruct (take_digits_body (S n) sep _ _ H) as (body & -> & Hb & Hd & Hl).
    exists (c :: body). repeat split.
    + constructor; [now right|exact Hb].
    + discriminate.
    + rewrite consume_cons. apply consume_digits; [exact Hd|].
      destruct body; [discriminate|discriminate].
  - destruct (take_digits_body (S n) sep _ _ H) as (body & E & Hb & Hd & Hl).
    exists body. repeat split; try assumption.
    + destruct body; [discriminate|discriminate].
    + apply consume_digits; [exact Hd|].
      destruct body; [discriminate|discriminate].
Qed.

Lemma consume_last (pw : bool) (a b : jsstring) :
  b <> [] -> consume pw (a ++ b) = consume false b.
Proof.
  intros H. rewrite consume_app. now apply consume_nonempty.
Qed.

Lemma ssn_body (s : jsstring) :
  ssn_end s = Some [] ->
  Forall (digit_or is_dash) s /\ s <> [] /\ head_word s = true
  /\ forall pw, consume pw s = true.
Proof.
  unfold ssn_end. intros H.
  destruct (take_digits 3 s) as [s1|] eqn:E1; [|discriminate].
  destruct (take_digits 2 (skip_one is_dash s1)) as [s2|] eqn:E2;
    [|discriminate].
  pose proof (digit_head_word _ _ _ E1) as Hh.
  destruct (take_digits_body 3 is_dash _ _ E1) as (b1 & -> & F1 & _ & _).
  destruct (take_after_body 1 is_dash _ _ E2) as (b2 & -> & F2 & _ & _).
  destruct (take_after_body 3 is_dash _ _ H) as (b3 & -> & F3 & N3 & C3).
  rewrite app_nil_r in *. repeat split.
  - apply Forall_app. split; [exact F1|]. apply Forall_app. now split.
  - destruct b1, b2, b3; try discriminate; congruence.
  - exact Hh.
  - intros pw. rewrite app_assoc, consume_last by exact N3. exact C3.
Qed.

Lemma card_body (s : jsstring) :
  card_end s = Some [] ->
  Forall (digit_or is_separator) s /\ s <> [] /\ head_word s = true
  /\ forall pw, consume pw s = true.
Proof.
  unfold card_end. intros H.
  destruct (take_digits 4 s) as [s1|] eqn:E1; [|discriminate].
  destruct (take_digits 4 (skip_one is_separator s1)) as [s2|] eqn:E2;
    [|discriminate].
  destruct (take_digits 4 (skip_one is_separator s2)) as [s3|] eqn:E3;
    [|discriminate].
  pose proof (digit_head_word _ _ _ E1) as Hh.
  destruct (take_digits_body 4 is_separator _ _ E1) as (b1 & -> & F1 & _ & _).
  destruct (take_after_body 3 is_separator _ _ E2) as (b2 & -> & F2 & _ & _).
  destruct (take_after_body 3 is_separator _ _ E3) as (b3 & -> & F3 & _ & _).
  destruct (take_after_body 3 is_separator _ _ H) as (b4 & -> & F4 & N4 & C4).
  rewrite app_nil_r in *. repeat split.
  - apply Forall_app. split; [exact F1|]. apply Forall_app.
    split; [exact F2|]. apply Forall_app. now split.
  - destruct b1, b2, b3, b4; try discriminate; congruence.
  - exact Hh.
  - intros pw. rewrite !app_assoc, consume_last by exact N4. exact C4.
Qed.

Lemma digit_or_no_at (sep : N -> bool) (s : jsstring) :
  sep AT = false -> Forall (digit_or sep) s -> no_at s.
Proof.
  intros Hsep H. eapply Forall_impl; [|exact H]. cbn.
  intros c [Hc|Hc] ->; [discriminate Hc|congruence].
Qed.

(** ** A step of a pass *)

Section Step.

Variable r : regex.
Variable rep : jsstring.
Variable reads : jsstring -> option jsstring.

Hypothesis Hr : delimited r.
Hypothesis r_exec :
  forall pw s, exec r pw s = between_boundaries pw s (reads s).
Hypothesis reads_app :
  forall s rest t, reads s = Some rest -> reads (s ++ t) = Some (rest ++ t).
Hypothesis reads_digit :
  forall c s, is_digit c = false -> reads (c :: s) = None.
Hypothesis reads_nil : reads [] = None.

Lemma no_digit_copied (pw : bool) (s : jsstring) :
  no_digit s -> replace_from r rep pw s = s.
Proof.
  intros Hs. apply no_match_unchanged. intros p q ->.
  apply Forall_app in Hs as [_ Hq]. rewrite r_exec.
  destruct q as [|c q]; [now rewrite reads_nil|].
  inversion Hq; subst. now rewrite reads_digit.
Qed.

(** Text without digits, a number, and what follows it. *)
Lemma number_replaced (pw : bool) (pre number rest : jsstring) :
  no_digit pre ->
  consume pw pre = false ->
  reads number = Some [] ->
  (forall b, consume b number = true) ->
  head_word rest = false ->
  replace_from r rep pw (pre ++ number ++ rest)
  = pre ++ rep ++ replace_from r rep true rest.
Proof.
  intros Hpre Hflag Hnumber Hlast Hrest.
  rewrite (copy_prefix r rep Hr).
  - rewrite Hflag. f_equal.
    rewrite (replace_at r rep Hr); [now rewrite Hlast|].
    rewrite r_exec, (reads_app _ _ rest Hnumber). cbn [app].
    unfold between_boundaries. rewrite Hrest. cbn [orb]. f_equal.
    rewrite length_app. lia.
  - intros p q -> Hq. apply Forall_app in Hpre as [_ Hq'].
    rewrite r_exec. destruct q as [|c q]; [congruence|].
    inversion Hq'; subst. cbn [app]. now rewrite reads_digit.
Qed.

End Step.

Lemma ssn_reads_digit (c : N) (s : jsstring) :
  is_digit c = false -> ssn_end (c :: s) = None.
Proof. intros H. unfold ssn_end. cbn [take_digits]. now rewrite H. Qed.

Lemma card_reads_digit (c : N) (s : jsstring) :
  is_digit c = false -> card_end (c :: s) = None.
Proof. intros H. unfold card_end. cbn [take_digits]. now rewrite H. Qed.

(** ** Plain text around one number *)

Lemma plain_split (s : jsstring) :
  forallb is_plain s = true -> no_digit s /\ no_at s.
Proof.
  rewrite forallb_forall. intros H. split; apply Forall_forall; intros c Hc;
    specialize (H c Hc); unfold is_plain in H;
    apply andb_prop in H as [H1 H2].
  - now apply negb_true_iff in H1.
  - apply negb_true_iff in H2. intros ->. discriminate H2.
Qed.

Lemma no_at_app (a b : jsstring) : no_at a -> no_at b -> no_at (a ++ b).
Proof. intros Ha Hb. apply Forall_app. now split. Qed.

Lemma no_digit_app (a b : jsstring) :
  no_digit a -> no_digit b -> no_digit (a ++ b).
Proof. intros Ha Hb. apply Forall_app. now split. Qed.



(** ** Runs of digits in fours *)

(** Texts whose digits stand in groups of four. *)
Inductive blocks : jsstring -> Prop :=
| blocks_nil : blocks []
| blocks_char (c : N) (t : jsstring) :
    is_digit c = false -> blocks t -> blocks (c :: t)
| blocks_group (g t : jsstring) :
    all_digits g -> length g = 4%nat -> blocks t -> blocks (g ++ t).

Lemma no_digit_blocks (s : jsstring) : no_digit s -> blocks s.
Proof.
  induction 1 as [|c s Hc _ IH]; [constructor|now constructor].
Qed.

Lemma blocks_first (s rest t : jsstring) :
  take_digits 4 s = Some rest -> blocks (rest ++ t) -> blocks (s ++ t).
Proof.
  intros H Ht.
  destruct (take_digits_body 4 is_separator _ _ H) as (g & -> & _ & Hg & Hl).
  rewrite <- app_assoc. now constructor.
Qed.

Lemma blocks_next (s rest t : jsstring) :
  take_digits 4 (skip_one is_separator s) = Some rest ->
  blocks (rest ++ t) -> blocks (s ++ t).
Proof.
  intros H Ht. destruct s as [|c s]; [discriminate|]. cbn [skip_one] in H.
  destruct (is_separator c) eqn:Hc.
  - cbn [app]. constructor.
    + destruct (is_digit c) eqn:Hd; [|reflexivity].
      now rewrite (digit_not_separator c Hd) in Hc.
    + now apply blocks_first with rest.
  - now apply blocks_first with rest.
Qed.

Lemma card_blocks (card t : jsstring) :
  card_end card = Some [] -> blocks t -> blocks (card ++ t).
Proof.
  unfold card_end. intros H Ht.
  destruct (take_digits 4 card) as [s1|] eqn:E1; [|discriminate].
  destruct (take_digits 4 (skip_one is_separator s1)) as [s2|] eqn:E2;
    [|discriminate].
  destruct (take_digits 4 (skip_one is_separator s2)) as [s3|] eqn:E3;
    [|discriminate].
  apply (blocks_first _ _ _ E1), (blocks_next _ _ _ E2),
    (blocks_next _ _ _ E3), (blocks_next _ _ _ H). exact Ht.
Qed.

Lemma four_digits (g : jsstring) :
  all_digits g -> length g = 4%nat ->
  exists a b c d, g = [a; b; c; d] /\ is_digit a = true /\ is_digit b = true
                  /\ is_digit c = true /\ is_digit d = true.
Proof.
  intros Hg Hl. destruct g as [|a [|b [|c [|d [|e g]]]]]; try discriminate.
  inversion Hg as [|? ? Ha Hg1]; subst.
  inversion Hg1 as [|? ? Hb Hg2]; subst.
  inversion Hg2 as [|? ? Hc Hg3]; subst.
  inversion Hg3 as [|? ? Hd _]; subst.
  now exists a, b, c, d.
Qed.

Ltac read_digits :=
  repeat (progress
            (cbn [app take_digits skip_one];
             repeat match goal with
               | H : is_digit ?c = _ |- context [is_digit ?c] => rewrite H
               | H : is_digit ?c = true |- context [is_dash ?c] =>
                   rewrite (dash_no_digit c H)
               end)).

(** After a group of four, the number pattern needs five digits more and
    then meets a sixth. *)
Lemma ssn_end_group (g t : jsstring) :
  all_digits g -> length g = 4%nat -> blocks t ->
  match ssn_end (g ++ t) with
  | Some rest => head_word rest = true
  | None => True
  end.
Proof.
  intros Hg Hl Ht.
  destruct (four_digits g Hg Hl) as (a & b & c & d & -> & Ha & Hb & Hc & Hd).
  unfold ssn_end.
  destruct Ht as [|x t Hx Ht|g' t' Hg' Hl' Ht']; read_digits; try exact I.
  destruct (four_digits g' Hg' Hl')
    as (e & f & h & i & -> & He & Hf & Hh & Hi).
  destruct Ht' as [|x t Hx Ht|g'' t'' Hg'' Hl'' Ht'']; read_digits;
    try exact I.
  destruct (four_digits g'' Hg'' Hl'')
    as (j & k & l & m & -> & Hj & Hk & Hm & Hn).
  read_digits. cbn [head_word]. now apply digit_is_word.
Qed.

Lemma between_after_word (s : jsstring) (found : option jsstring) :
  between_boundaries true s found = None.
Proof. unfold between_boundaries. now destruct found. Qed.

Lemma blocks_quiet (t : jsstring) :
  blocks t -> forall pw, no_match ssnRegex pw t.
Proof.
  induction 1 as [|c t Hc Ht IH|g t Hg Hl Ht IH]; intros pw p q E.
  - apply ssn_needs_digit. right. right.
    destruct p, q; try discriminate. reflexivity.
  - destruct p as [|d p].
    + cbn [app] in E. subst q. apply ssn_needs_digit. right. left.
      now exists c, t.
    + injection E as <- ->. rewrite consume_cons. now apply IH.
  - destruct (Nat.le_gt_cases (length g) (length p)) as [Hlen|Hlen].
    + assert (exists p', p = g ++ p' /\ t = p' ++ q) as (p' & -> & ->).
      { exists (skipn (length g) p).
        assert (Eg : g = firstn (length g) p).
        { apply (f_equal (firstn (length g))) in E.
          rewrite firstn_app, firstn_all, Nat.sub_diag, firstn_O,
            app_nil_r in E.
          rewrite firstn_app in E.
          replace (length g - length p)%nat with 0%nat in E by lia.
          now rewrite firstn_O, app_nil_r in E. }
        split.
        - rewrite Eg at 1. symmetry. apply firstn_skipn.
        - apply (f_equal (skipn (length g))) in E.
          rewrite skipn_app, skipn_all, Nat.sub_diag, skipn_O in E.
          cbn [app] in E. rewrite skipn_app in E.
          replace (length g - length p)%nat with 0%nat in E by lia.
          now rewrite skipn_O in E. }
      rewrite consume_app. now apply IH.
    + assert (exists g', g = p ++ g' /\ q = g' ++ t /\ g' <> [])
        as (g' & -> & -> & Hg').
      { exists (skipn (length p) g).
        assert (Ep : p = firstn (length p) g).
        { apply (f_equal (firstn (length p))) in E.
          rewrite firstn_app in E.
          replace (length p - length g)%nat with 0%nat in E by lia.
          rewrite firstn_O, app_nil_r in E.
          rewrite firstn_app, firstn_all, Nat.sub_diag, firstn_O,
            app_nil_r in E. now symmetry. }
        repeat split.
        - rewrite Ep at 1. symmetry. apply firstn_skipn.
        - apply (f_equal (skipn (length p))) in E.
          rewrite skipn_app in E.
          replace (length p - length g)%nat with 0%nat in E by lia.
          rewrite skipn_O in E.
          rewrite skipn_app, skipn_all, Nat.sub_diag, skipn_O in E.
          cbn [app] in E. now symmetry.
        - intros E'. apply (f_equal (@length N)) in E'.
          rewrite length_skipn in E'. cbn in E'. lia. }
      rewrite ssn_exec. destruct p as [|d p].
      * cbn [app] in *. pose proof (ssn_end_group g' t Hg Hl Ht) as H.
        destruct (ssn_end (g' ++ t)) as [rest|]; [|reflexivity].
        unfold between_boundaries. rewrite H. now rewrite orb_true_r.
      * apply Forall_app in Hg as [Hp _].
        rewrite (consume_digits pw (d :: p) Hp ltac:(discriminate)).
        apply between_after_word.
Qed.

(** ** Ends of the text around *)

Definition first_is (f : N -> bool) (s : jsstring) : bool :=
  match s with
  | c :: _ => f c
  | [] => false
  end.

Definition last_is (f : N -> bool) (s : jsstring) : bool :=
  first_is f (rev s).

Lemma last_is_snoc (f : N -> bool) (s : jsstring) (c : N) :
  last_is f (s ++ [c]) = f c.
Proof. unfold last_is. now rewrite rev_app_distr. Qed.

Lemma last_is_word (s : jsstring) : consume false s = last_is is_word s.
Proof.
  destruct s as [|c s] using rev_ind; [reflexivity|].
  now rewrite last_is_snoc, consume_app.
Qed.

Lemma last_is_suffix (f : N -> bool) (p q : jsstring) :
  q <> [] -> last_is f (p ++ q) = last_is f q.
Proof.
  intros Hq. destruct q as [|c q] using rev_ind; [congruence|].
  now rewrite app_assoc, !last_is_snoc.
Qed.

Lemma last_is_all (f : N -> bool) (s : jsstring) :
  s <> [] -> Forall (fun c => f c = true) s -> last_is f s = true.
Proof.
  intros Hs H. destruct s as [|c s] using rev_ind; [congruence|].
  rewrite last_is_snoc. apply Forall_app in H as [_ H]. now inversion H.
Qed.

Lemma first_is_word (s : jsstring) : head_word s = first_is is_word s.
Proof. reflexivity. Qed.

Section OnePass.

Variables before behind : jsstring.

Hypothesis plain_before : forallb is_plain before = true.
Hypothesis plain_behind : forallb is_plain behind = true.
Hypothesis before_ends : last_is is_word before = false.
Hypothesis behind_starts : first_is is_word behind = false.

Lemma tag_in_plain_text (tag : jsstring) :
  no_digit tag -> no_digit (before ++ tag ++ behind).
Proof.
  intros H. apply no_digit_app; [now apply plain_split|].
  apply no_digit_app; [exact H|now apply plain_split].
Qed.

Lemma ssn_pass (number : jsstring) :
  ssn_end number = Some [] ->
  replace_from ssnRegex TAG_SSN false (before ++ number ++ behind)
  = before ++ TAG_SSN ++ behind.
Proof.
  intros Hn. destruct (ssn_body _ Hn) as (_ & _ & _ & Cn).
  rewrite (number_replaced ssnRegex TAG_SSN ssn_end ssn_delimited ssn_exec
             ssn_end_app ssn_reads_digit false before number behind);
    try assumption.
  - now rewrite (no_digit_copied ssnRegex TAG_SSN ssn_end ssn_exec
                   ssn_reads_digit eq_refl true behind)
      by now apply plain_split.
  - now apply plain_split.
  - now rewrite last_is_word.
Qed.

Lemma cc_pass (card : jsstring) :
  card_end card = Some [] ->
  replace_from ccRegex TAG_CREDIT_CARD false (before ++ card ++ behind)
  = before ++ TAG_CREDIT_CARD ++ behind.
Proof.
  intros Hn. destruct (card_body _ Hn) as (_ & _ & _ & Cn).
  rewrite (number_replaced ccRegex TAG_CREDIT_CARD card_end cc_delimited
             cc_exec card_end_app card_reads_digit false before card behind);
    try assumption.
  - now rewrite (no_digit_copied ccRegex TAG_CREDIT_CARD card_end cc_exec
                   card_reads_digit eq_refl true behind)
      by now apply plain_split.
  - now apply plain_split.
  - now rewrite last_is_word.
Qed.

End OnePass.

Lemma no_digit_tags :
  no_digit TAG_EMAIL /\ no_digit TAG_SSN /\ no_digit TAG_CREDIT_CARD.
Proof. repeat split; repeat constructor. Qed.

(** X18.  A card number in a text: four groups of four digits, with or
    without a dash or a white space character between the groups.  In a text that has no
    digit and no at sign besides, with no word character right before the
    number and none right after it, [sanitizeMessage] puts the card tag in
    its place and leaves the rest as it is; the pattern for social security
    numbers, tried before, finds nothing in the sixteen digits. *)
Theorem card_in_text_is_replaced (before card behind : jsstring) :
  forallb is_plain before = true ->
  forallb is_plain behind = true ->
  card_end card = Some [] ->
  last_is is_word before = false ->
  first_is is_word behind = false ->
  sanitizeMessage (before ++ card ++ behind)
  = before ++ js "<REDACTED: CREDIT_CARD>" ++ behind.
Proof.
  intros Hb Ha Hn Hlast Hfirst.
  destruct (plain_split _ Hb) as [Db Ab].
  destruct (plain_split _ Ha) as [Da Aa].
  destruct (card_body _ Hn) as (Fn & Nn & _ & Cn).
  rewrite sanitizeMessage_nonempty
    by (destruct before, card; try discriminate; congruence).
  rewrite !replace_from_start.
  rewrite (no_match_unchanged emailRegex TAG_EMAIL _ false).
  2:{ apply no_at_clean. apply no_at_app; [exact Ab|].
      apply no_at_app; [|exact Aa].
      now apply (digit_or_no_at is_separator). }
  rewrite (no_match_unchanged ssnRegex TAG_SSN _ false).
  2:{ apply blocks_quiet. rewrite app_assoc.
      assert (H : blocks (card ++ behind))
        by now apply card_blocks, no_digit_blocks.
      clear -H Db. induction Db as [|c s Hc _ IH].
      - rewrite <- app_assoc in *. exact H.
      - rewrite <- app_assoc in *. cbn [app]. now constructor. }
  now apply cc_pass.
Qed.

(** X19.  A social security number in a text: three digits, two digits and
    four digits, with or without a dash between the groups.  In a text that
    has no digit and no at sign besides, with no word character right
    before the number and none right after it, [sanitizeMessage] puts the
    SSN tag in its place and leaves the text before and behind it as it
    is. *)
Theorem ssn_in_text_is_replaced (before number behind : jsstring) :
  forallb is_plain before = true ->
  forallb is_plain behind = true ->
  ssn_end number = Some [] ->
  last_is is_word before = false ->
  first_is is_word behind = false ->
  sanitizeMessage (before ++ number ++ behind)
  = before ++ js "<REDACTED: SSN>" ++ behind.
Proof.
  intros Hb Ha Hn Hlast Hfirst.
  destruct (plain_split _ Hb) as [Db Ab].
  destruct (plain_split _ Ha) as [Da Aa].
  destruct (ssn_body _ Hn) as (Fn & Nn & _ & Cn).
  rewrite sanitizeMessage_nonempty
    by (destruct before, number; try discriminate; congruence).
  rewrite !replace_from_start.
  rewrite (no_match_unchanged emailRegex TAG_EMAIL _ false).
  2:{ apply no_at_clean. apply no_at_app; [exact Ab|].
      apply no_at_app; [|exact Aa].
      now apply (digit_or_no_at is_dash). }
  rewrite (ssn_pass before behind Hb Ha Hlast Hfirst number Hn).
  apply no_match_unchanged, no_digit_clean_cc.
  apply tag_in_plain_text; try assumption. apply no_digit_tags.
Qed.


(** ** An address in a text *)

Lemma first_split (x : N) :
  forall a a' b b' : jsstring,
    Forall (fun c => c <> x) a -> Forall (fun c => c <> x) a' ->
    a ++ x :: b = a' ++ x :: b' -> a = a'.
Proof.
  induction a as [|c a IH]; intros a' b b' Ha Ha' E.
  - destruct a' as [|c' a']; [reflexivity|]. injection E as <- _.
    inversion Ha'; congruence.
  - destruct a' as [|c' a'].
    + injection E as -> _. inversion Ha; congruence.
    + injection E as <- E. inversion Ha; inversion Ha'; subst.
      f_equal. now apply IH with b b'.
Qed.

Lemma local_not_at (c : N) : in_charset email_local c = true -> c <> AT.
Proof. intros H ->. discriminate H. Qed.

Lemma word_is_local (c : N) :
  is_word c = true -> in_charset email_local c = true.
Proof.
  unfold is_word, is_digit, email_local, in_charset, chr. cbn. intros H.
  repeat (apply orb_prop in H as [H|H]); rewrite H, ?orb_true_r; try reflexivity.
Qed.

Definition after_address (c : N) : bool :=
  is_word c || in_charset email_domain c.

Section Address.

Variables local domain tld before behind : jsstring.

Hypothesis shape : address_shape local domain tld = true.
Hypothesis before_no_at : no_at before.
Hypothesis before_ends : last_is (in_charset email_local) before = false.
Hypothesis behind_starts : first_is after_address behind = false.

Lemma local_chars : Forall (fun c => in_charset email_local c = true) local.
Proof.
  unfold address_shape in shape.
  repeat (apply andb_prop in shape as [shape ?]).
  now rewrite forallb_forall, <- Forall_forall in *.
Qed.

(** No match of the address pattern starts in the text before. *)
Lemma email_not_before (pw : bool) (q rest : jsstring) :
  (exists p, before = p ++ q) -> q <> [] ->
  exec emailRegex pw (q ++ local ++ AT :: rest) = None.
Proof.
  intros [p Hp] Hq. apply exec_None_iff. intros y H.
  unfold emailRegex in H. cbn [seq] in H.
  apply matches_Seq_inv in H as (y0 & H0 & H).
  apply matches_Boundary_inv in H0 as [-> _].
  apply matches_Seq_inv in H as (y1 & H1 & H).
  apply matches_Seq_inv in H as (y2 & H2 & _).
  apply matches_consumed in H1 as (run & E & Hrun & _).
  cbn [input consumable plus] in E, Hrun.
  apply matches_Char_inv in H2 as (c & rest' & E' & Hc & _).
  cbn in Hc. rewrite orb_false_r in Hc. apply N.eqb_eq in Hc.
  change (chr "@") with AT in Hc. subst c. rewrite E' in E.
  rewrite app_assoc in E.
  apply first_split in E.
  - assert (Hlast : last_is (in_charset email_local) q = true).
    { apply last_is_all; [exact Hq|]. rewrite <- E in Hrun.
      now apply Forall_app in Hrun as [Hrun _]. }
    rewrite Hp, last_is_suffix in before_ends by exact Hq. congruence.
  - apply Forall_app. split.
    + rewrite Hp in before_no_at. now apply Forall_app in before_no_at.
    + eapply Forall_impl; [|exact local_chars]. exact local_not_at.
  - eapply Forall_impl; [|exact Hrun]. exact local_not_at.
Qed.

(** At the address, the pattern matches the address and no more. *)
Lemma address_exec_in :
  exec emailRegex false (address local domain tld ++ behind)
  = Some (length (address local domain tld)).
Proof.
  pose proof shape as H. unfold address_shape in H.
  apply andb_prop in H as [H Htld]. apply andb_prop in H as [H Hlen].
  apply andb_prop in H as [H Hdom]. apply andb_prop in H as [H Hne].
  apply andb_prop in H as [Hhead Hloc].
  rewrite forallb_forall, <- Forall_forall in Htld, Hdom, Hloc.
  apply Nat.leb_le in Hlen. apply negb_true_iff, Nat.eqb_neq in Hne.
  assert (Hstop : stops email_domain behind /\ head_word behind = false).
  { destruct behind as [|c b]; [now split|]. cbn in behind_starts |- *.
    unfold after_address in behind_starts.
    now apply orb_false_elim in behind_starts as [? ?]. }
  destruct Hstop as [Hstop Hword].
  assert (Hstop_alpha : stops alpha behind).
  { destruct behind as [|c b]; [exact I|]. cbn [stops] in *.
    destruct (in_charset alpha c) eqn:Hc; [|reflexivity].
    apply alpha_facts in Hc as [Hc _]. congruence. }
  assert (Hstop_dot : stops [Single (chr ".")] behind).
  { destruct behind as [|c b]; [exact I|]. cbn [stops] in *.
    destruct (in_charset [Single (chr ".")] c) eqn:Hc; [|reflexivity].
    cbn in Hc. rewrite orb_false_r in Hc. apply N.eqb_eq in Hc. subst c.
    discriminate Hstop. }
  set (K5 := rmatch WordBoundary Some).
  set (K4 := rmatch (Repeat (Char alpha) 2 None) K5).
  set (K3 := rmatch (lit ".") K4).
  set (K2 := rmatch (plus (Char email_domain)) K3).
  set (K1 := rmatch (lit "@") K2).
  set (K0 := rmatch (plus (Char email_local)) K1).
  set (z := MState true behind).
  assert (Htld_dom : Forall (fun c => in_charset email_domain c = true) tld).
  { eapply Forall_impl; [|exact Htld]. intros c Hc. now apply alpha_facts. }
  assert (Htld_word : Forall (fun c => is_word c = true) tld).
  { eapply Forall_impl; [|exact Htld]. intros c Hc. now apply alpha_facts. }
  assert (H4 : forall pw, K4 (MState pw (tld ++ behind)) = Some z).
  { intros pw. unfold K4. cbn [rmatch input].
    apply repeat_class_greedy;
      [exact Hstop_alpha|exact Htld|exact Hlen|rewrite length_app; lia|].
    unfold K5. cbn [rmatch]. rewrite at_boundary_flags, Hword.
    rewrite consume_word; [reflexivity| |exact Htld_word].
    destruct tld; [cbn in Hlen; lia|discriminate]. }
  assert (H3 : forall pw, K3 (MState pw (chr "." :: tld ++ behind)) = Some z).
  { intros pw. unfold K3, lit.
    rewrite rmatch_Char_cons by reflexivity. apply H4. }
  assert (H3' : forall pw q,
             (exists p, tld = p ++ q) -> K3 (MState pw (q ++ behind)) = None).
  { intros pw q [p Hp]. unfold K3, lit. apply rmatch_Char_stops.
    destruct q as [|c q]; [exact Hstop_dot|]. cbn [stops app].
    rewrite Hp in Htld.
    apply Forall_app in Htld as [_ Hq]. inversion Hq; subst.
    now apply alpha_facts. }
  assert (H2 : forall pw, K2 (MState pw (domain ++ (chr "." :: tld) ++ behind))
                          = Some z).
  { intros pw. unfold K2, plus. cbn [rmatch input].
    apply repeat_class_backtrack.
    - exact Hstop.
    - constructor; [reflexivity|exact Htld_dom].
    - exact Hdom.
    - destruct domain; [now cbn in Hne|cbn; lia].
    - rewrite !length_app. lia.
    - apply H3.
    - intros p q Hpq Hp. apply H3'.
      destruct p as [|c p]; [congruence|]. injection Hpq as _ ->.
      now exists p. }
  assert (H1 : forall pw,
             K1 (MState pw (chr "@" :: domain ++ (chr "." :: tld) ++ behind))
             = Some z).
  { intros pw. unfold K1, lit.
    rewrite rmatch_Char_cons by reflexivity. apply H2. }
  assert (E : address local domain tld ++ behind
              = local ++ chr "@" :: domain ++ (chr "." :: tld) ++ behind).
  { unfold address. rewrite <- !app_assoc. cbn [app].
    now rewrite <- !app_assoc. }
  assert (H0 : K0 (MState false (address local domain tld ++ behind)) = Some z).
  { rewrite E. unfold K0, plus. cbn [rmatch input].
    apply repeat_class_greedy.
    - reflexivity.
    - exact Hloc.
    - destruct local; [discriminate|cbn; lia].
    - rewrite length_app. lia.
    - apply H1. }
  unfold exec.
  change (rmatch emailRegex Some) with (rmatch WordBoundary K0).
  cbn [rmatch].
  assert (Hb : at_boundary (MState false (address local domain tld ++ behind))
               = true).
  { unfold at_boundary, address. destruct local; [discriminate|].
    cbn [app before_word input]. now rewrite Hhead. }
  rewrite Hb, H0. unfold z. cbn [input]. f_equal. rewrite length_app. lia.
Qed.

Lemma before_not_word : consume false before = false.
Proof.
  rewrite last_is_word. unfold last_is in *.
  destruct (rev before) as [|c s]; [reflexivity|]. cbn [first_is] in *.
  destruct (is_word c) eqn:Hc; [|reflexivity].
  now rewrite (word_is_local c Hc) in before_ends.
Qed.

Lemma email_pass :
  replace_from emailRegex TAG_EMAIL false
    (before ++ address local domain tld ++ behind)
  = before ++ TAG_EMAIL
    ++ replace_from emailRegex TAG_EMAIL true behind.
Proof.
  rewrite (copy_prefix emailRegex TAG_EMAIL email_delimited).
  - rewrite before_not_word. f_equal.
    rewrite (replace_at emailRegex TAG_EMAIL email_delimited)
      by exact address_exec_in.
    f_equal. f_equal.
    replace (address local domain tld)
      with ((local ++ chr "@" :: domain ++ [chr "."]) ++ tld)
      by (unfold address; rewrite <- !app_assoc; cbn [app];
          now rewrite <- !app_assoc).
    unfold address_shape in shape.
    apply andb_prop in shape as [H Htld]. apply andb_prop in H as [_ Hlen].
    rewrite forallb_forall, <- Forall_forall in Htld. apply Nat.leb_le in Hlen.
    assert (Hne : tld <> []) by (destruct tld; [cbn in Hlen; lia|discriminate]).
    rewrite consume_last by exact Hne.
    apply consume_word; [exact Hne|].
    eapply Forall_impl; [|exact Htld]. intros c Hc. now apply alpha_facts.
  - intros p q Hp Hq. unfold address. rewrite <- !app_assoc. cbn [app].
    apply email_not_before; [now exists p|exact Hq].
Qed.

End Address.

(** X20.  An address in a text.  Let [local@domain.tld] have the shape
    [address_shape], in a text that has no digit and no at sign besides,
    where no character of the local part's class stands right before the
    address and no word character and no character of the domain's class
    right after it.  Then [sanitizeMessage] puts the e-mail tag in the
    place of the address and leaves the text before and behind it as it
    is. *)
Theorem address_in_text_is_replaced
    (before local domain tld behind : jsstring) :
  forallb is_plain before = true ->
  forallb is_plain behind = true ->
  address_shape local domain tld = true ->
  last_is (in_charset email_local) before = false ->
  first_is after_address behind = false ->
  sanitizeMessage (before ++ address local domain tld ++ behind)
  = before ++ js "<REDACTED: EMAIL>" ++ behind.
Proof.
  intros Hb Ha Hshape Hlast Hfirst.
  destruct (plain_split _ Hb) as [Db Ab].
  destruct (plain_split _ Ha) as [Da Aa].
  rewrite sanitizeMessage_nonempty.
  2:{ unfold address. unfold address_shape in Hshape.
      destruct before, local; try discriminate. }
  rewrite !replace_from_start.
  rewrite (email_pass local domain tld before behind Hshape Ab Hlast Hfirst).
  rewrite (no_match_unchanged emailRegex TAG_EMAIL behind true)
    by now apply no_at_clean.
  assert (D : no_digit (before ++ TAG_EMAIL ++ behind)).
  { apply tag_in_plain_text; try assumption. apply no_digit_tags. }
  rewrite (no_match_unchanged ssnRegex TAG_SSN _ false)
    by now apply no_digit_clean_ssn.
  now apply no_match_unchanged, no_digit_clean_cc.
Qed.

(** ** The examples of the source, and one more *)

Lemma ssn_in_text_is_replaced_witness :
  let before := js "My SSN is " in
  let number := js "123-45-6789" in
  let behind := js ", thanks." in
  forallb is_plain before = true
  /\ forallb is_plain behind = true
  /\ ssn_end number = Some []
  /\ last_is is_word before = false
  /\ first_is is_word behind = false
  /\ sanitizeMessage (before ++ number ++ behind)
     = before ++ js "<REDACTED: SSN>" ++ behind.
Proof.
  intros before number behind. repeat (split; [reflexivity|]).
  exact (ssn_in_text_is_replaced before number behind eq_refl eq_refl
           eq_refl eq_refl eq_refl).
Defined.

Lemma card_in_text_is_replaced_witness :
  let before := js "Charge my card " in
  let card := js "4242-4242-4242-4242" in
  let behind := js " now." in
  forallb is_plain before = true
  /\ forallb is_plain behind = true
  /\ card_end card = Some []
  /\ last_is is_word before = false
  /\ first_is is_word behind = false
  /\ sanitizeMessage (before ++ card ++ behind)
     = before ++ js "<REDACTED: CREDIT_CARD>" ++ behind.
Proof.
  intros before card behind. repeat (split; [reflexivity|]).
  exact (card_in_text_is_replaced before card behind eq_refl eq_refl
           eq_refl eq_refl eq_refl).
Defined.

Lemma address_in_text_is_replaced_witness :
  let before := js "Contact me at " in
  let behind := js " immediately." in
  forallb is_plain before = true
  /\ forallb is_plain behind = true
  /\ address_shape (js "test") (js "example") (js "com") = true
  /\ last_is (in_charset email_local) before = false
  /\ first_is after_address behind = false
  /\ sanitizeMessage
       (before ++ address (js "test") (js "example") (js "com") ++ behind)
     = before ++ js "<REDACTED: EMAIL>" ++ behind.
Proof.
  intros before behind. repeat (split; [reflexivity|]).
  exact (address_in_text_is_replaced before (js "test") (js "example")
           (js "com") behind eq_refl eq_refl eq_refl eq_refl eq_refl).
Defined.

End SanitizerInText.

(* ================================================================== *)
(** * What the pattern for social security numbers matches *)
(* ================================================================== *)

Module NumberPatterns.

Import Regex RegexFacts Sanitizer SanitizerFacts ReplaceFacts
       SanitizerResidue DigitPatterns SanitizerRuns SanitizerInText.
Local Open Scope N_scope.

Lemma take_digits_cut (n : nat) :
  forall s rest : jsstring,
    take_digits n s = Some rest ->
    exists body, s = body ++ rest /\ take_digits n body = Some [].
Proof.
  induction n as [|n IH]; intros s rest H.
  - injection H as ->. now exists [].
  - destruct s as [|c s]; [discriminate|]. cbn [take_digits] in H.
    destruct (is_digit c) eqn:Hc; [|discriminate].
    destruct (IH s rest H) as (body & -> & Hb).
    exists (c :: body). split; [reflexivity|]. cbn [take_digits].
    now rewrite Hc.
Qed.

Lemma take_after_cut (sep : N -> bool) (n : nat) (s rest : jsstring) :
  take_digits (S n) (skip_one sep s) = Some rest ->
  exists body,
    s = body ++ rest /\ take_digits (S n) (skip_one sep body) = Some [].
Proof.
  intros H. destruct s as [|c s]; [discriminate|]. cbn [skip_one] in H.
  destruct (sep c) eqn:Hc.
  - destruct (take_digits_cut _ _ _ H) as (body & -> & Hb).
    exists (c :: body). split; [reflexivity|]. cbn [skip_one].
    now rewrite Hc.
  - destruct (take_digits_cut _ _ _ H) as (body & E & Hb).
    exists body. split; [exact E|].
    destruct body as [|d body]; [discriminate|]. injection E as <- _.
    cbn [skip_one]. now rewrite Hc.
Qed.

Lemma ssn_end_cut (s rest : jsstring) :
  ssn_end s = Some rest ->
  exists number, s = number ++ rest /\ ssn_end number = Some [].
Proof.
  unfold ssn_end. intros H.
  destruct (take_digits 3 s) as [s1|] eqn:E1; [|discriminate].
  destruct (take_digits 2 (skip_one is_dash s1)) as [s2|] eqn:E2;
    [|discriminate].
  destruct (take_digits_cut _ _ _ E1) as (b1 & -> & H1).
  destruct (take_after_cut _ _ _ _ E2) as (b2 & -> & H2).
  destruct (take_after_cut _ _ _ _ H) as (b3 & -> & H3).
  exists (b1 ++ b2 ++ b3). split; [now rewrite <- !app_assoc|].
  rewrite (take_digits_app 3 b1 [] (b2 ++ b3) H1). cbn [app].
  rewrite (take_after_app is_dash 1 b2 [] b3 H2). exact H3.
Qed.

Section Reader.

Variable r : regex.
Variable reads : jsstring -> option jsstring.

Hypothesis r_exec :
  forall pw s, exec r pw s = between_boundaries pw s (reads s).
Hypothesis reads_app :
  forall s rest t, reads s = Some rest -> reads (s ++ t) = Some (rest ++ t).
Hypothesis reads_cut :
  forall s rest, reads s = Some rest ->
                 exists number, s = number ++ rest /\ reads number = Some [].

Lemma reader_matches_iff (pw : bool) (s : jsstring) (n : nat) :
  exec r pw s = Some n <->
  pw = false
  /\ exists number rest,
       s = number ++ rest /\ length number = n
       /\ reads number = Some [] /\ head_word rest = false.
Proof.
  rewrite r_exec. unfold between_boundaries. split.
  - destruct (reads s) as [rest|] eqn:E; [|discriminate].
    destruct pw; [discriminate|]. cbn [orb].
    destruct (head_word rest) eqn:Hw; [discriminate|]. intros [= <-].
    destruct (reads_cut _ _ E) as (number & -> & Hn).
    split; [reflexivity|]. exists number, rest. repeat split; trivial.
    rewrite length_app. lia.
  - intros (-> & number & rest & -> & <- & Hn & Hw).
    rewrite (reads_app _ _ rest Hn). cbn [app orb]. rewrite Hw.
    f_equal. rewrite length_app. lia.
Qed.

End Reader.

(** X21.  What the pattern for social security numbers matches.  At a
    position of a text the pattern matches [n] characters exactly when no
    word character stands right before the position, the [n] characters
    are three digits, two digits and four digits with or without a dash
    before the second and before the third group, and no word character
    follows them. *)
Theorem ssn_pattern_matches_iff (pw : bool) (s : jsstring) (n : nat) :
  exec ssnRegex pw s = Some n <->
  pw = false
  /\ exists number rest,
       s = number ++ rest /\ length number = n
       /\ ssn_end number = Some [] /\ head_word rest = false.
Proof.
  apply (reader_matches_iff ssnRegex ssn_end).
  - exact ssn_exec.
  - exact ssn_end_app.
  - exact ssn_end_cut.
Qed.

End NumberPatterns.

(* ================================================================== *)
(** * Messages with several items *)
(* ================================================================== *)

Module SanitizerPieces.

Import Regex RegexFacts Sanitizer SanitizerFacts ReplaceFacts
       SanitizerResidue DigitPatterns SanitizerRuns SanitizerInText.
Local Open Scope N_scope.

(** ** Dots and dashes behind an address *)

Definition is_dot_or_dash (c : N) : bool := (c =? chr ".") || (c =? chr "-").

(** A text without the dots and dashes it starts with. *)
Fixpoint drop_dots (w : jsstring) : jsstring :=
  match w with
  | c :: w' => if is_dot_or_dash c then drop_dots w' else w
  | [] => []
  end.

Definition dots (D : jsstring) : Prop :=
  Forall (fun c => is_dot_or_dash c = true) D.

Lemma dots_split (w : jsstring) :
  exists D, w = D ++ drop_dots w /\ dots D.
Proof.
  induction w as [|c w (D & E & HD)];
    [exists []; split; [reflexivity|constructor]|].
  cbn [drop_dots]. destruct (is_dot_or_dash c) eqn:Hc.
  - exists (c :: D). split; [cbn [app]; now rewrite <- E|now constructor].
  - exists []. split; [reflexivity|constructor].
Qed.

Lemma dot_or_dash_facts (c : N) :
  is_dot_or_dash c = true ->
  in_charset email_domain c = true /\ is_word c = false
  /\ in_charset alpha c = false.
Proof.
  unfold is_dot_or_dash. intros H.
  apply orb_prop in H as [H|H]; apply N.eqb_eq in H; subst c;
    repeat split; reflexivity.
Qed.

Section Behind.

Variables local domain tld D rest : jsstring.

Hypothesis shape : address_shape local domain tld = true.
Hypothesis D_dots : dots D.
Hypothesis rest_starts : first_is after_address rest = false.

(** At the address, the pattern matches the address and no more, also
    when dots and dashes follow it. *)
Lemma address_exec_dots :
  exec emailRegex false (address local domain tld ++ D ++ rest)
  = Some (length (address local domain tld)).
Proof.
  pose proof shape as H. unfold address_shape in H.
  apply andb_prop in H as [H Htld]. apply andb_prop in H as [H Hlen].
  apply andb_prop in H as [H Hdom]. apply andb_prop in H as [H Hne].
  apply andb_prop in H as [Hhead Hloc].
  rewrite forallb_forall, <- Forall_forall in Htld, Hdom, Hloc.
  apply Nat.leb_le in Hlen. apply negb_true_iff, Nat.eqb_neq in Hne.
  assert (Hrest : stops email_domain rest /\ head_word rest = false).
  { destruct rest as [|c b]; [now split|]. cbn in rest_starts |- *.
    unfold after_address in rest_starts.
    now apply orb_false_elim in rest_starts as [? ?]. }
  destruct Hrest as [Hstop Hword_rest].
  assert (Hstop_alpha_rest : stops alpha rest).
  { destruct rest as [|c b]; [exact I|]. cbn [stops] in *.
    destruct (in_charset alpha c) eqn:Hc; [|reflexivity].
    apply alpha_facts in Hc as [Hc _]. congruence. }
  assert (Hstop_dot_rest : stops [Single (chr ".")] rest).
  { destruct rest as [|c b]; [exact I|]. cbn [stops] in *.
    destruct (in_charset [Single (chr ".")] c) eqn:Hc; [|reflexivity].
    cbn in Hc. rewrite orb_false_r in Hc. apply N.eqb_eq in Hc. subst c.
    discriminate Hstop. }
  assert (Hword : forall q, (exists l, D = l ++ q) ->
                            head_word (q ++ rest) = false
                            /\ stops alpha (q ++ rest)).
  { intros q [l Hl]. destruct q as [|c q]; [now split|].
    unfold dots in D_dots. rewrite Hl in D_dots.
    apply Forall_app in D_dots as [_ Hq]. inversion Hq as [|? ? Hc _]; subst.
    apply dot_or_dash_facts in Hc as (_ & Hw & Ha). now split. }
  destruct (Hword D (ex_intro _ [] eq_refl)) as [Hword_D Hstop_alpha].
  set (K5 := rmatch WordBoundary Some).
  set (K4 := rmatch (Repeat (Char alpha) 2 None) K5).
  set (K3 := rmatch (lit ".") K4).
  set (K2 := rmatch (plus (Char email_domain)) K3).
  set (K1 := rmatch (lit "@") K2).
  set (K0 := rmatch (plus (Char email_local)) K1).
  set (z := MState true (D ++ rest)).
  assert (Htld_dom : Forall (fun c => in_charset email_domain c = true) tld).
  { eapply Forall_impl; [|exact Htld]. intros c Hc. now apply alpha_facts. }
  assert (Htld_word : Forall (fun c => is_word c = true) tld).
  { eapply Forall_impl; [|exact Htld]. intros c Hc. now apply alpha_facts. }
  assert (HD_dom : Forall (fun c => in_charset email_domain c = true) D).
  { eapply Forall_impl; [|exact D_dots]. intros c Hc.
    now apply dot_or_dash_facts. }
  assert (H4 : forall pw, K4 (MState pw (tld ++ D ++ rest)) = Some z).
  { intros pw. unfold K4. cbn [rmatch input].
    apply repeat_class_greedy;
      [exact Hstop_alpha|exact Htld|exact Hlen|rewrite length_app; lia|].
    unfold K5. cbn [rmatch]. rewrite at_boundary_flags, Hword_D.
    rewrite consume_word; [reflexivity| |exact Htld_word].
    destruct tld; [cbn in Hlen; lia|discriminate]. }
  assert (H4' : forall pw s, stops alpha s -> K4 (MState pw s) = None).
  { intros pw s Hs. unfold K4. destruct s as [|c s]; [reflexivity|].
    cbn [stops] in Hs. cbn [rmatch input RepeatMatcher Nat.add Nat.eqb].
    now rewrite Hs. }
  assert (H3 : forall pw,
             K3 (MState pw (chr "." :: tld ++ D ++ rest)) = Some z).
  { intros pw. unfold K3, lit.
    rewrite rmatch_Char_cons by reflexivity. apply H4. }
  assert (H3_dots : forall pw q, (exists l, D = l ++ q) ->
                                 K3 (MState pw (q ++ rest)) = None).
  { intros pw q [l Hl]. unfold K3, lit.
    destruct q as [|c q]; [now apply rmatch_Char_stops|].
    cbn [app]. destruct (in_charset [Single (chr ".")] c) eqn:Hc.
    - rewrite rmatch_Char_cons by exact Hc. apply H4'.
      apply Hword. exists (l ++ [c]). now rewrite <- app_assoc.
    - apply rmatch_Char_stops. exact Hc. }
  assert (H3' : forall pw q, (exists p, tld ++ D = p ++ q) ->
                             K3 (MState pw (q ++ rest)) = None).
  { intros pw q [p Hp].
    apply app_eq_app in Hp as [l [[-> ->]|[-> ->]]].
    - destruct l as [|c l]; [apply H3_dots; now exists []|].
      unfold K3, lit. apply rmatch_Char_stops. cbn [stops app].
      apply Forall_app in Htld as [_ Hq]. inversion Hq; subst.
      now apply alpha_facts.
    - apply H3_dots. now exists l. }
  assert (H2 : forall pw,
             K2 (MState pw (domain ++ ((chr "." :: tld) ++ D) ++ rest))
             = Some z).
  { intros pw. unfold K2, plus. cbn [rmatch input].
    apply repeat_class_backtrack.
    - exact Hstop.
    - apply Forall_app. split; [|exact HD_dom].
      constructor; [reflexivity|exact Htld_dom].
    - exact Hdom.
    - destruct domain; [now cbn in Hne|cbn; lia].
    - rewrite !length_app. lia.
    - rewrite <- app_assoc. apply H3.
    - intros p q Hpq Hp. apply H3'.
      destruct p as [|c p]; [congruence|]. cbn [app] in Hpq.
      injection Hpq as _ ->. now exists p. }
  assert (H1 : forall pw,
             K1 (MState pw (chr "@" :: domain ++ ((chr "." :: tld) ++ D)
                                    ++ rest))
             = Some z).
  { intros pw. unfold K1, lit.
    rewrite rmatch_Char_cons by reflexivity. apply H2. }
  assert (E : address local domain tld ++ D ++ rest
              = local ++ chr "@" :: domain ++ ((chr "." :: tld) ++ D)
                                 ++ rest).
  { unfold address. rewrite <- !app_assoc. cbn [app].
    now rewrite <- !app_assoc. }
  assert (H0 : K0 (MState false (address local domain tld ++ D ++ rest))
               = Some z).
  { rewrite E. unfold K0, plus. cbn [rmatch input].
    apply repeat_class_greedy.
    - reflexivity.
    - exact Hloc.
    - destruct local; [discriminate|cbn; lia].
    - rewrite length_app. lia.
    - apply H1. }
  unfold exec.
  change (rmatch emailRegex Some) with (rmatch WordBoundary K0).
  cbn [rmatch].
  assert (Hb : at_boundary
                 (MState false (address local domain tld ++ D ++ rest))
               = true).
  { unfold at_boundary, address. destruct local; [discriminate|].
    cbn [app before_word input]. now rewrite Hhead. }
  rewrite Hb, H0. unfold z. cbn [input]. f_equal. rewrite length_app. lia.
Qed.

End Behind.
(** ** A message in pieces *)

(** The pieces a message is put together from: text, addresses, social
    security numbers, card numbers and numbers of eight digits. *)
Inductive piece :=
| Text (text : jsstring)
| Address (local domain tld : jsstring)
| Ssn (number : jsstring)
| Card (number : jsstring)
| Digits8 (number : jsstring).

(** What a piece is in the message. *)
Definition text_of (x : piece) : jsstring :=
  match x with
  | Text w => w
  | Address local domain tld => address local domain tld
  | Ssn n | Card n | Digits8 n => n
  end.

(** What is expected in its place in the sanitized message. *)
Definition tag_of (x : piece) : jsstring :=
  match x with
  | Address _ _ _ => TAG_EMAIL
  | Ssn _ => TAG_SSN
  | Card _ => TAG_CREDIT_CARD
  | Text w | Digits8 w => w
  end.

Definition raw (ps : list piece) : jsstring := concat (map text_of ps).
Definition redacted (ps : list piece) : jsstring := concat (map tag_of ps).

Definition reads_all (reads : jsstring -> option jsstring) (s : jsstring)
    : bool :=
  match reads s with
  | Some [] => true
  | _ => false
  end.

(** A text has no digit and no at sign; an address has the shape
    [address_shape]; a social security number is digits grouped 3-2-4 with
    or without dashes; a card number is four groups of four digits, each of
    the first three followed or not by a dash or a white space. *)
Definition well_formed (x : piece) : bool :=
  match x with
  | Text w => forallb is_plain w
  | Address local domain tld => address_shape local domain tld
  | Ssn n => reads_all ssn_end n
  | Card n => reads_all card_end n
  | Digits8 n => Nat.eqb (length n) 8 && forallb is_digit n
  end.

(** The characters that must not stand right before an item, and right
    behind a number. *)
Definition joins_before (x : piece) (c : N) : bool :=
  match x with
  | Address _ _ _ => in_charset email_local c
  | _ => is_word c
  end.

Definition joins_behind (x : piece) (c : N) : bool :=
  match x with
  | Digits8 _ => is_word c || is_separator c
  | _ => is_word c
  end.

Definition is_text (x : piece) : bool :=
  match x with Text _ => true | _ => false end.

Definition nonempty (w : jsstring) : bool := negb (Nat.eqb (length w) 0).

Definition is_nil (ps : list piece) : bool :=
  match ps with [] => true | _ => false end.

(** Two neighbours, the second being the last piece or not: an item stands
    next to a text that is not empty and whose character next to the item
    does not join it.  Behind an address, dots and dashes may come first:
    what follows them starts with no word character and no character of
    the domain's class, and only at the end of the message does nothing
    follow them. *)
Definition apart (x y : piece) (last : bool) : bool :=
  match x, y with
  | Text _, Text _ => true
  | Text w, _ => nonempty w && negb (last_is (joins_before y) w)
  | Address _ _ _, Text w =>
      nonempty w && negb (first_is after_address (drop_dots w))
      && (nonempty (drop_dots w) || last)
  | _, Text w => nonempty w && negb (first_is (joins_behind x) w)
  | _, _ => false
  end.

Fixpoint separated (ps : list piece) : bool :=
  match ps with
  | [] => true
  | x :: rest =>
      match rest with
      | [] => true
      | y :: rest' => apart x y (is_nil rest') && separated rest
      end
  end.

Definition well_separated (ps : list piece) : bool :=
  forallb well_formed ps && separated ps.

(** ** One pass over the pieces *)

Definition is_address (x : piece) : bool :=
  match x with Address _ _ _ => true | _ => false end.
Definition is_ssn (x : piece) : bool :=
  match x with Ssn _ => true | _ => false end.
Definition is_card (x : piece) : bool :=
  match x with Card _ => true | _ => false end.

(** The pieces of one kind, replaced by their tags. *)
Definition redact (kind : piece -> bool) (x : piece) : piece :=
  if kind x then Text (tag_of x) else x.

Lemma raw_cons (x : piece) (ps : list piece) :
  raw (x :: ps) = text_of x ++ raw ps.
Proof. reflexivity. Qed.

Section Pass.

Variable r : regex.
Variable rep : jsstring.
Variable kind : piece -> bool.

Hypothesis Hr : delimited r.
Hypothesis kind_tag : forall x, kind x = true -> tag_of x = rep.

(** The pattern matches each piece of the kind, as a whole, and starts no
    match inside a piece of another kind. *)
Fixpoint found (pw : bool) (ps : list piece) : Prop :=
  match ps with
  | [] => True
  | x :: rest =>
      (if kind x
       then exec r pw (text_of x ++ raw rest) = Some (length (text_of x))
       else forall p q, text_of x = p ++ q -> q <> [] ->
                        exec r (consume pw p) (q ++ raw rest) = None)
      /\ found (consume pw (text_of x)) rest
  end.

Lemma pass (ps : list piece) :
  forall pw, found pw ps ->
             replace_from r rep pw (raw ps) = raw (map (redact kind) ps).
Proof.
  induction ps as [|x ps IH]; intros pw H.
  - apply replace_from_nil. now apply delimited_never_empty.
  - destruct H as [Hx Hrest]. cbn [map]. rewrite !raw_cons.
    unfold redact at 1. destruct (kind x) eqn:K.
    + rewrite (replace_at r rep Hr _ _ _ Hx), (IH _ Hrest).
      cbn [text_of]. now rewrite (kind_tag x K).
    + now rewrite (copy_prefix r rep Hr _ _ _ Hx), (IH _ Hrest).
Qed.

End Pass.

(** ** The neighbours of an item *)

Lemma first_is_app (f : N -> bool) (w v : jsstring) :
  w <> [] -> first_is f (w ++ v) = first_is f w.
Proof. destruct w; [congruence|reflexivity]. Qed.

Lemma first_is_weaker (f g : N -> bool) (w : jsstring) :
  (forall c, f c = true -> g c = true) ->
  first_is g w = false -> first_is f w = false.
Proof.
  intros H. destruct w as [|c w]; [reflexivity|]. cbn [first_is].
  intros Hg. destruct (f c) eqn:E; [|reflexivity].
  apply H in E. congruence.
Qed.

Lemma last_is_weaker (f g : N -> bool) (w : jsstring) :
  (forall c, f c = true -> g c = true) ->
  last_is g w = false -> last_is f w = false.
Proof. intros H. now apply first_is_weaker. Qed.

Lemma nonempty_text (w : jsstring) : nonempty w = true -> w <> [].
Proof. now destruct w. Qed.

Lemma word_joins_before (y : piece) (c : N) :
  is_word c = true -> joins_before y c = true.
Proof. destruct y; cbn [joins_before]; auto using word_is_local. Qed.

Lemma word_joins_behind (x : piece) (c : N) :
  is_word c = true -> joins_behind x c = true.
Proof. destruct x; cbn [joins_behind]; auto; now intros ->. Qed.

(** Before an item stands a text that ends with no word character. *)
Lemma text_before_item (x y : piece) (last : bool) :
  apart x y last = true -> is_text y = false ->
  exists w, x = Text w /\ w <> []
            /\ last_is (joins_before y) w = false.
Proof.
  intros H Hy.
  destruct x as [w| | | |]; destruct y; try discriminate;
    cbn [apart] in H; apply andb_prop in H as [Hw Hl];
    apply negb_true_iff in Hl; exists w;
    (split; [reflexivity|split; [now apply nonempty_text|exact Hl]]).
Qed.

Lemma flag_before_item (x y : piece) (last pw : bool) :
  apart x y last = true -> is_text y = false ->
  consume pw (text_of x) = false.
Proof.
  intros H Hy.
  destruct (text_before_item x y last H Hy) as (w & -> & Hw & Hl).
  cbn [text_of]. rewrite (consume_nonempty pw false w Hw), last_is_word.
  apply (last_is_weaker _ (joins_before y)); [|exact Hl].
  intros c. apply word_joins_before.
Qed.

(** Behind a number stands nothing, or a text that starts with no
    character that joins the number. *)
Lemma behind_item (x : piece) (rest : list piece) :
  separated (x :: rest) = true -> is_text x = false ->
  is_address x = false ->
  first_is (joins_behind x) (raw rest) = false.
Proof.
  intros H Hx Ha. destruct rest as [|y rest]; [reflexivity|].
  cbn [separated] in H. apply andb_prop in H as [H _].
  destruct x; try discriminate; destruct y as [w| | | |]; try discriminate;
    cbn [apart] in H; apply andb_prop in H as [Hw Hf];
    apply negb_true_iff in Hf; rewrite raw_cons; cbn [text_of];
    rewrite first_is_app by (now apply nonempty_text); exact Hf.
Qed.

(** Behind an address stand dots and dashes, if any, and then nothing or a
    character that is no word character and none of the domain's class. *)
Lemma behind_address (local domain tld : jsstring) (rest : list piece) :
  separated (Address local domain tld :: rest) = true ->
  exists D rest0,
    raw rest = D ++ rest0 /\ dots D
    /\ first_is after_address rest0 = false.
Proof.
  intros H. destruct rest as [|y rest].
  { exists [], []. repeat split. constructor. }
  cbn [separated] in H. apply andb_prop in H as [H _].
  destruct y as [w| | | |]; try discriminate. cbn [apart] in H.
  apply andb_prop in H as [H Hlast]. apply andb_prop in H as [_ Hf].
  apply negb_true_iff in Hf.
  destruct (dots_split w) as (D & E & HD).
  exists D, (drop_dots w ++ raw rest). rewrite raw_cons. cbn [text_of].
  split; [rewrite E at 1; now rewrite <- app_assoc|]. split; [exact HD|].
  apply orb_prop in Hlast as [Hne|Hnil].
  - rewrite first_is_app by (now apply nonempty_text). exact Hf.
  - destruct rest; [|discriminate]. cbn. now rewrite app_nil_r.
Qed.

Lemma no_word_behind_item (x : piece) (rest : list piece) :
  separated (x :: rest) = true -> is_text x = false ->
  is_address x = false ->
  head_word (raw rest) = false.
Proof.
  intros H Hx Ha. rewrite first_is_word.
  apply (first_is_weaker _ (joins_behind x));
    [intros c; apply word_joins_behind|now apply behind_item].
Qed.

Lemma no_digit_behind_item (x : piece) (rest : list piece) :
  separated (x :: rest) = true -> is_text x = false ->
  is_address x = false ->
  first_is is_digit (raw rest) = false.
Proof.
  intros H Hx Ha. apply (first_is_weaker _ is_word);
    [exact digit_is_word|].
  exact (no_word_behind_item x rest H Hx Ha).
Qed.

Definition starts_with_item (ps : list piece) : bool :=
  match ps with
  | x :: _ => negb (is_text x)
  | [] => false
  end.

Lemma flag_before_rest (x : piece) (rest : list piece) (pw : bool) :
  separated (x :: rest) = true -> starts_with_item rest = true ->
  consume pw (text_of x) = false.
Proof.
  intros H Hrest. destruct rest as [|y rest]; [discriminate|].
  cbn [separated] in H. apply andb_prop in H as [H _].
  apply (flag_before_item x y _ pw H). now apply negb_true_iff.
Qed.

Lemma separated_tail (x : piece) (rest : list piece) :
  separated (x :: rest) = true -> separated rest = true.
Proof.
  destruct rest as [|y rest]; [reflexivity|]. cbn [separated].
  intros H. now apply andb_prop in H.
Qed.

(** ** The pieces a pass leaves *)

Definition tagged (x : piece) : bool := is_address x || is_ssn x || is_card x.

Section Kept.

Variable kind : piece -> bool.
Hypothesis kind_tagged : forall x, kind x = true -> tagged x = true.

Lemma redact_well_formed (x : piece) :
  well_formed x = true -> well_formed (redact kind x) = true.
Proof.
  intros H. unfold redact. destruct (kind x) eqn:K; [|exact H].
  apply kind_tagged in K. now destruct x.
Qed.

Lemma redact_all_well_formed (ps : list piece) :
  forallb well_formed ps = true ->
  forallb well_formed (map (redact kind) ps) = true.
Proof.
  induction ps as [|x ps IH]; [reflexivity|]. cbn [forallb map].
  intros H. apply andb_prop in H as [Hx Hps].
  now rewrite redact_well_formed, IH.
Qed.

Lemma redact_apart (x y : piece) (last : bool) :
  apart x y last = true ->
  apart (redact kind x) (redact kind y) last = true.
Proof.
  intros H. unfold redact.
  destruct (kind x) eqn:Kx, (kind y) eqn:Ky;
    try apply kind_tagged in Kx; try apply kind_tagged in Ky;
    destruct x, y; try discriminate; try reflexivity; exact H.
Qed.

Lemma redact_separated (ps : list piece) :
  separated ps = true -> separated (map (redact kind) ps) = true.
Proof.
  induction ps as [|x [|y ps] IH]; try reflexivity.
  cbn [separated map] in *. intros H. apply andb_prop in H as [Hxy Hps].
  rewrite (IH Hps), andb_true_r.
  replace (is_nil (map (redact kind) ps)) with (is_nil ps)
    by now destruct ps.
  now apply redact_apart.
Qed.

Lemma redact_none_left (ps : list piece) :
  forallb (fun x => negb (kind x)) (map (redact kind) ps) = true.
Proof.
  induction ps as [|x ps IH]; [reflexivity|]. cbn [forallb map].
  rewrite IH, andb_true_r. unfold redact.
  destruct (kind x) eqn:K; [|now rewrite K].
  destruct (kind (Text (tag_of x))) eqn:K'; [|reflexivity].
  now apply kind_tagged in K'.
Qed.

Lemma redact_keeps_out (other : piece -> bool) (ps : list piece) :
  (forall w, other (Text w) = false) ->
  forallb (fun x => negb (other x)) ps = true ->
  forallb (fun x => negb (other x)) (map (redact kind) ps) = true.
Proof.
  intros Hother. induction ps as [|x ps IH]; [reflexivity|].
  cbn [forallb map]. intros H. apply andb_prop in H as [Hx Hps].
  rewrite (IH Hps), andb_true_r. unfold redact.
  destruct (kind x); [now rewrite Hother|exact Hx].
Qed.

End Kept.

(** ** The pass of the address pattern *)

Lemma kept_no_at (x : piece) :
  well_formed x = true -> is_address x = false -> no_at (text_of x).
Proof.
  intros H Hx. destruct x as [w|l d t|n|n|n]; try discriminate;
    cbn [well_formed text_of] in *.
  - now apply plain_split.
  - unfold reads_all in H.
    destruct (ssn_end n) as [[|c rest]|] eqn:E; try discriminate.
    apply (digit_or_no_at is_dash); [reflexivity|]. now apply ssn_body.
  - unfold reads_all in H.
    destruct (card_end n) as [[|c rest]|] eqn:E; try discriminate.
    apply (digit_or_no_at is_separator); [reflexivity|].
    now apply card_body.
  - apply andb_prop in H as [_ H]. apply digit_not_at.
    unfold all_digits. now rewrite Forall_forall, <- forallb_forall.
Qed.

Definition starts_with_address (ps : list piece) : bool :=
  match ps with
  | x :: _ => is_address x
  | [] => false
  end.

(** No match of the address pattern starts in a text that ends before the
    next address. *)
Lemma email_quiet (rest : list piece) :
  forall B : jsstring,
    forallb well_formed rest = true -> separated rest = true ->
    no_at B -> B <> [] ->
    (starts_with_address rest = true ->
     last_is (in_charset email_local) B = false) ->
    forall pw, exec emailRegex pw (B ++ raw rest) = None.
Proof.
  induction rest as [|y rest IH]; intros B Hwf Hsep HB Hne Hlast pw.
  - cbn. rewrite app_nil_r. now apply email_needs_at.
  - cbn [forallb] in Hwf. apply andb_prop in Hwf as [Hy Hwf].
    destruct (is_address y) eqn:Ky.
    + destruct y as [|l d t| | |]; try discriminate.
      rewrite raw_cons. cbn [text_of well_formed] in *.
      unfold address. rewrite <- !app_assoc. cbn [app].
      apply (email_not_before l d t B [] Hy HB (Hlast eq_refl) eq_refl);
        [now exists []|exact Hne].
    + rewrite raw_cons, app_assoc.
      apply IH; try assumption.
      * now apply separated_tail in Hsep.
      * apply no_at_app; [exact HB|now apply kept_no_at].
      * intros E. apply app_eq_nil in E as [E _]. now apply Hne.
      * intros Hrest. destruct rest as [|z rest]; [discriminate|].
        cbn [starts_with_address] in Hrest.
        cbn [separated] in Hsep. apply andb_prop in Hsep as [Hyz _].
        assert (Hz : is_text z = false) by now destruct z.
        destruct (text_before_item y z _ Hyz Hz) as (w & -> & Hw & Hl).
        cbn [text_of]. rewrite last_is_suffix by exact Hw.
        now destruct z.
Qed.

Lemma email_found (ps : list piece) :
  forall pw,
    forallb well_formed ps = true -> separated ps = true ->
    (starts_with_item ps = true -> pw = false) ->
    found emailRegex is_address pw ps.
Proof.
  induction ps as [|x rest IH]; intros pw Hwf Hsep Hpw; [exact I|].
  cbn [forallb] in Hwf. apply andb_prop in Hwf as [Hx Hwf].
  cbn [found]. split.
  - destruct (is_address x) eqn:Kx.
    + destruct x as [|l d t| | |]; try discriminate.
      rewrite (Hpw eq_refl). cbn [text_of].
      destruct (behind_address l d t rest Hsep) as (D & rest0 & -> & HD & H0).
      now apply address_exec_dots.
    + intros p q E Hq.
      pose proof (kept_no_at x Hx Kx) as Hno. rewrite E in Hno.
      apply Forall_app in Hno as [_ Hno].
      apply email_quiet; try assumption.
      * now apply separated_tail in Hsep.
      * intros Hrest. destruct rest as [|z rest]; [discriminate|].
        cbn [starts_with_address] in Hrest.
        cbn [separated] in Hsep. apply andb_prop in Hsep as [Hxz _].
        assert (Hz : is_text z = false) by now destruct z.
        destruct (text_before_item x z _ Hxz Hz) as (w & -> & Hw & Hl).
        cbn [text_of] in E. rewrite E, last_is_suffix in Hl by exact Hq.
        now destruct z.
  - apply IH; [exact Hwf|now apply separated_tail in Hsep|].
    intros Hrest. now apply (flag_before_rest x rest).
Qed.

(** ** Digits in fours, and what follows them *)

(** A text that starts with groups of four digits and goes on with no
    digit. *)
Inductive fours : jsstring -> Prop :=
| fours_stop (t : jsstring) : first_is is_digit t = false -> fours t
| fours_group (g t : jsstring) :
    all_digits g -> length g = 4%nat -> fours t -> fours (g ++ t).

Lemma ssn_end_fours (g t : jsstring) :
  all_digits g -> length g = 4%nat -> fours t ->
  match ssn_end (g ++ t) with
  | Some rest => head_word rest = true
  | None => True
  end.
Proof.
  intros Hg Hl Ht.
  destruct (four_digits g Hg Hl) as (a & b & c & d & -> & Ha & Hb & Hc & Hd).
  unfold ssn_end.
  destruct Ht as [[|x t] Hx|g' t' Hg' Hl' Ht']; cbn [first_is] in *;
    read_digits; try exact I.
  destruct (four_digits g' Hg' Hl')
    as (e & f & h & i & -> & He & Hf & Hh & Hi).
  destruct Ht' as [[|x t] Hx|g'' t'' Hg'' Hl'' Ht'']; cbn [first_is] in *;
    read_digits; try exact I.
  destruct (four_digits g'' Hg'' Hl'')
    as (j & k & l & m & -> & Hj & Hk & Hm & Hn).
  read_digits. cbn [head_word]. now apply digit_is_word.
Qed.

Lemma fours_exec (t : jsstring) (pw : bool) :
  fours t -> exec ssnRegex pw t = None.
Proof.
  intros [[|x s] Hx|g s Hg Hl Hs].
  - apply ssn_needs_digit. now right; right.
  - apply ssn_needs_digit. right. left. now exists x, s.
  - rewrite ssn_exec. pose proof (ssn_end_fours g s Hg Hl Hs) as H.
    destruct (ssn_end (g ++ s)) as [rest|]; [|reflexivity].
    unfold between_boundaries. now rewrite H, orb_true_r.
Qed.

Lemma blocks_fours (pre rest : jsstring) :
  blocks pre -> first_is is_digit rest = false -> fours (pre ++ rest).
Proof.
  intros H Hrest. induction H as [|c t Hc _ _|g t Hg Hl _ IH].
  - now constructor.
  - now constructor.
  - rewrite <- app_assoc. now constructor.
Qed.

(** The pattern for social security numbers starts no match in digits that
    stand in fours. *)
Lemma blocks_positions (pre rest : jsstring) :
  blocks pre -> first_is is_digit rest = false ->
  forall pw p q, pre = p ++ q -> q <> [] ->
                 exec ssnRegex (consume pw p) (q ++ rest) = None.
Proof.
  intros H Hrest.
  induction H as [|c t Hc Ht IH|g t Hg Hl Ht IH]; intros pw p q E Hq.
  - symmetry in E. apply app_eq_nil in E as [_ E]. congruence.
  - destruct p as [|d p].
    + cbn [app] in E. subst q. apply fours_exec. now constructor.
    + injection E as <- ->. rewrite consume_cons. now apply IH.
  - apply app_eq_app in E as [l [[-> ->]|[-> ->]]].
    + destruct l as [|c l].
      * exact (IH (consume pw p) [] t eq_refl Hq).
      * destruct p as [|d p].
        -- cbn [app] in Hg, Hl. change (consume pw []) with pw.
           rewrite <- app_assoc. apply fours_exec.
           apply (fours_group (c :: l) (t ++ rest) Hg Hl).
           now apply blocks_fours.
        -- apply Forall_app in Hg as [Hp _]. rewrite ssn_exec.
           rewrite (consume_digits pw (d :: p) Hp ltac:(discriminate)).
           apply between_after_word.
    + rewrite consume_app. now apply IH.
Qed.

Lemma eight_digits_blocks (n : jsstring) :
  well_formed (Digits8 n) = true -> all_digits n /\ blocks n.
Proof.
  cbn [well_formed]. intros H. apply andb_prop in H as [Hl Hd].
  apply Nat.eqb_eq in Hl. explode_digits n Hl Hd. split.
  - repeat constructor; assumption.
  - match goal with
    | |- blocks [?a; ?b; ?c; ?d; ?e; ?f; ?g; ?h] =>
        apply (blocks_group [a; b; c; d] [e; f; g; h]);
        [repeat constructor; assumption|reflexivity|];
        apply (blocks_group [e; f; g; h] []);
        [repeat constructor; assumption|reflexivity|constructor]
    end.
Qed.

(** ** The passes of the number patterns *)

Section Number.

Variable r : regex.
Variable reads : jsstring -> option jsstring.

Hypothesis r_exec :
  forall pw s, exec r pw s = between_boundaries pw s (reads s).
Hypothesis reads_app :
  forall s rest t, reads s = Some rest -> reads (s ++ t) = Some (rest ++ t).
Hypothesis reads_digit :
  forall c s, is_digit c = false -> reads (c :: s) = None.

Lemma number_found (n rest : jsstring) :
  reads_all reads n = true -> head_word rest = false ->
  exec r false (n ++ rest) = Some (length n).
Proof.
  unfold reads_all. intros Hn Hrest.
  destruct (reads n) as [[|c s]|] eqn:E; try discriminate.
  rewrite r_exec, (reads_app _ _ rest E). cbn [app].
  unfold between_boundaries. rewrite Hrest. cbn [orb]. f_equal.
  rewrite length_app. lia.
Qed.

Lemma text_quiet (w rest : jsstring) :
  forallb is_plain w = true ->
  forall pw p q, w = p ++ q -> q <> [] ->
                 exec r (consume pw p) (q ++ rest) = None.
Proof.
  intros Hw pw p q -> Hq. apply plain_split in Hw as [Hd _].
  apply Forall_app in Hd as [_ Hd]. destruct q as [|c q]; [congruence|].
  inversion Hd; subst. cbn [app]. now rewrite r_exec, reads_digit.
Qed.

Lemma digits_quiet (n rest : jsstring) :
  all_digits n -> reads (n ++ rest) = None ->
  forall pw p q, n = p ++ q -> q <> [] ->
                 exec r (consume pw p) (q ++ rest) = None.
Proof.
  intros Hn Hnone pw p q -> Hq. rewrite r_exec. destruct p as [|d p].
  - cbn [app] in Hnone. now rewrite Hnone.
  - apply Forall_app in Hn as [Hp _].
    rewrite (consume_digits pw (d :: p) Hp ltac:(discriminate)).
    apply between_after_word.
Qed.

End Number.

Lemma ssn_found (ps : list piece) :
  forall pw,
    forallb well_formed ps = true -> separated ps = true ->
    forallb (fun x => negb (is_address x)) ps = true ->
    (starts_with_item ps = true -> pw = false) ->
    found ssnRegex is_ssn pw ps.
Proof.
  induction ps as [|x rest IH]; intros pw Hwf Hsep Hno Hpw; [exact I|].
  cbn [forallb] in Hwf, Hno.
  apply andb_prop in Hwf as [Hx Hwf]. apply andb_prop in Hno as [Kx Hno].
  cbn [found]. split.
  - destruct x as [w|l d t|n|n|n]; try discriminate;
      cbn [is_ssn text_of well_formed] in *.
    + now apply (text_quiet ssnRegex ssn_end ssn_exec ssn_reads_digit).
    + rewrite (Hpw eq_refl).
      apply (number_found ssnRegex ssn_end ssn_exec ssn_end_app);
        [exact Hx|]. now apply (no_word_behind_item (Ssn n) rest).
    + apply blocks_positions.
      * unfold reads_all in Hx.
        destruct (card_end n) as [[|c s]|] eqn:E; try discriminate.
        rewrite <- (app_nil_r n). apply card_blocks; [exact E|constructor].
      * now apply (no_digit_behind_item (Card n) rest).
    + apply blocks_positions.
      * now apply eight_digits_blocks.
      * now apply (no_digit_behind_item (Digits8 n) rest).
  - apply IH; [exact Hwf|now apply separated_tail in Hsep|exact Hno|].
    intros Hrest. now apply (flag_before_rest x rest).
Qed.

(** After eight digits and a character that is no digit and no separator
    the card pattern reads no number. *)
Lemma card_end_eight (n rest : jsstring) :
  well_formed (Digits8 n) = true ->
  first_is (fun c => is_word c || is_separator c) rest = false ->
  card_end (n ++ rest) = None.
Proof.
  cbn [well_formed]. intros H Hrest. apply andb_prop in H as [Hl Hd].
  apply Nat.eqb_eq in Hl. explode_digits n Hl Hd.
  unfold card_end. cbn [app take_digits].
  repeat match goal with
         | H : is_digit ?c = true |- context [is_digit ?c] => rewrite H
         end.
  cbn [skip_one].
  repeat match goal with
         | H : is_digit ?c = true |- context [is_separator ?c] =>
             rewrite (digit_not_separator c H)
         end.
  cbn [take_digits].
  repeat match goal with
         | H : is_digit ?c = true |- context [is_digit ?c] => rewrite H
         end.
  destruct rest as [|x rest]; [reflexivity|]. cbn [first_is skip_one] in *.
  apply orb_false_elim in Hrest as [Hw Hs]. rewrite Hs. cbn [take_digits].
  destruct (is_digit x) eqn:Hx; [|reflexivity].
  now rewrite (digit_is_word x Hx) in Hw.
Qed.

Lemma cc_found (ps : list piece) :
  forall pw,
    forallb well_formed ps = true -> separated ps = true ->
    forallb (fun x => negb (is_address x)) ps = true ->
    forallb (fun x => negb (is_ssn x)) ps = true ->
    (starts_with_item ps = true -> pw = false) ->
    found ccRegex is_card pw ps.
Proof.
  induction ps as [|x rest IH]; intros pw Hwf Hsep Hno Hno' Hpw; [exact I|].
  cbn [forallb] in Hwf, Hno, Hno'.
  apply andb_prop in Hwf as [Hx Hwf]. apply andb_prop in Hno as [Kx Hno].
  apply andb_prop in Hno' as [Kx' Hno'].
  cbn [found]. split.
  - destruct x as [w|l d t|n|n|n]; try discriminate;
      cbn [is_card text_of] in *.
    + now apply (text_quiet ccRegex card_end cc_exec card_reads_digit).
    + rewrite (Hpw eq_refl).
      apply (number_found ccRegex card_end cc_exec card_end_app);
        [exact Hx|]. now apply (no_word_behind_item (Card n) rest).
    + apply (digits_quiet ccRegex card_end cc_exec).
      * now apply eight_digits_blocks.
      * apply card_end_eight; [exact Hx|].
        now apply (behind_item (Digits8 n) rest).
  - apply IH; [exact Hwf|now apply separated_tail in Hsep|exact Hno
              |exact Hno'|].
    intros Hrest. now apply (flag_before_rest x rest).
Qed.

(** ** The three passes *)

Lemma sanitizeMessage_passes (s : jsstring) :
  sanitizeMessage s
  = replace ccRegex TAG_CREDIT_CARD
      (replace ssnRegex TAG_SSN (replace emailRegex TAG_EMAIL s)).
Proof. destruct s; [vm_compute|]; reflexivity. Qed.

Lemma kind_is_tagged (kind : piece -> bool) :
  kind = is_address \/ kind = is_ssn \/ kind = is_card ->
  forall x, kind x = true -> tagged x = true.
Proof. intros [->|[->| ->]] x; now destruct x. Qed.

Lemma redacted_in_passes (ps : list piece) :
  raw (map (redact is_card)
         (map (redact is_ssn) (map (redact is_address) ps)))
  = redacted ps.
Proof.
  unfold raw, redacted. rewrite !map_map. f_equal.
  apply map_ext. intros x. now destruct x.
Qed.

Lemma separated_items_redacted (ps : list piece) :
  well_separated ps = true -> sanitizeMessage (raw ps) = redacted ps.
Proof.
  intros H. apply andb_prop in H as [Hwf Hsep].
  pose proof (kind_is_tagged is_address (or_introl eq_refl)) as Ka.
  pose proof (kind_is_tagged is_ssn (or_intror (or_introl eq_refl))) as Ks.
  rewrite sanitizeMessage_passes, !replace_from_start.
  rewrite (pass emailRegex TAG_EMAIL is_address email_delimited).
  2:{ intros x Hx. now destruct x. }
  2:{ now apply email_found. }
  rewrite (pass ssnRegex TAG_SSN is_ssn ssn_delimited).
  2:{ intros x Hx. now destruct x. }
  2:{ apply ssn_found; try easy.
      - now apply redact_all_well_formed.
      - now apply redact_separated.
      - now apply redact_none_left. }
  rewrite (pass ccRegex TAG_CREDIT_CARD is_card cc_delimited).
  2:{ intros x Hx. now destruct x. }
  2:{ apply cc_found; try easy.
      - now apply redact_all_well_formed, redact_all_well_formed.
      - now apply redact_separated, redact_separated.
      - apply redact_keeps_out; [reflexivity|now apply redact_none_left].
      - now apply redact_none_left. }
  apply redacted_in_passes.
Qed.

(** ** The claim about the sanitizer *)


(** A message with two addresses, two social security numbers, a card
    number and a number of eight digits. *)
Definition sample_pieces : list piece :=
  [Text (js "Mail ");
   Address (js "jane.doe") (js "example") (js "org");
   Text (js ". SSN "); Ssn (js "123-45-6789");
   Text (js " or "); Ssn (js "123456789");
   Text (js ", card "); Card (js "4242-4242 42424242");
   Text (js ", ref "); Digits8 (js "20240131");
   Text (js "; reply to ");
   Address (js "joe") (js "mail.example") (js "com");
   Text (js ".")].



End SanitizerPieces.
